(** * Iterative Join-Graph Propagation (merlin, include/ijgp.h)

    A shallow embedding of the class [merlin::ijgp] and the properties of
    its configuration, join-graph construction and message passing.

    Conventions of the embedding.
    - A member function is a function from the object (record [ijgp]) to an
      [outcome]: [Ok] with the new object or the returned value, [Throw] for
      a C++ exception, [Undefined] for an access past the end of a
      [std::vector] (or a failed [assert]), which C++ leaves undefined.
    - [size_t] values that come from arithmetic are integers of [Z] with the
      wrap-around modulo 2^64 written out; indices of vectors are [nat].
    - A [variable_set] is a finite set of variable labels; an [flist] (a
      sorted set of indices, iterated in increasing order) is a strictly
      increasing list.
    - The factor algebra, the ordering heuristics and the clock are
      collaborators that ijgp.h only calls: they are the fields of two
      classes, and every general theorem holds for all their instances. *)

From Stdlib Require Import ZArith QArith Lia Ascii String.
From stdpp Require Import base gmap sets list strings.

Local Open Scope Z_scope.

(** ** Outcomes *)

Inductive exn : Type :=
  | runtime_error (what : string)
  | unknown_name (name : string).

Inductive outcome (A : Type) : Type :=
  | Ok (a : A)
  | Throw (e : exn)
  | Undefined
  | OutOfFuel.
Arguments Ok {A} a.
Arguments Throw {A} e.
Arguments Undefined {A}.
Arguments OutOfFuel {A}.

Definition obind {A B} (f : A → outcome B) (o : outcome A) : outcome B :=
  match o with
  | Ok a => f a
  | Throw e => Throw e
  | Undefined => Undefined
  | OutOfFuel => OutOfFuel
  end.

#[global] Instance outcome_ret : MRet outcome := λ A a, Ok a.
#[global] Instance outcome_bind : MBind outcome := λ A B f o, obind f o.

(** Loop over a list of items, threading the state: [for (x : l) s = body(x, s)]. *)
Fixpoint for_each {A S} (body : A → S → outcome S) (l : list A) (s : S)
  : outcome S :=
  match l with
  | [] => Ok s
  | x :: l' => s' ← body x s; for_each body l' s'
  end.

(** [v[i]] and [v[i] = x] on a [std::vector]. *)
Definition at_ {A} (v : list A) (i : nat) : outcome A :=
  match v !! i with
  | Some x => Ok x
  | None => Undefined
  end.

Definition put {A} (v : list A) (i : nat) (x : A) : outcome (list A) :=
  if decide (i < length v)%nat then Ok (<[i:=x]> v) else Undefined.

(** ** Machine integers *)

Definition SIZE_MAX : Z := 2 ^ 64 - 1.
Definition LONG_MAX : Z := 2 ^ 63 - 1.
Definition LONG_MIN : Z := - 2 ^ 63.

(** Conversion of an integer to [size_t]. *)
Definition to_size_t (z : Z) : Z := z mod 2 ^ 64.

(** ** The C library's [atol]

    Leading white space, an optional sign, then the longest run of decimal
    digits; no digit at all reads as 0. Out of the range of [long] the C
    standard leaves the result undefined; the value is clamped here, as
    [strtol] does. *)

Definition isspace (c : ascii) : bool :=
  let n := nat_of_ascii c in
  ((n =? 32) || ((9 <=? n) && (n <=? 13)))%nat.

Definition digit_of (c : ascii) : option Z :=
  let n := nat_of_ascii c in
  if ((48 <=? n) && (n <=? 57))%nat then Some (Z.of_nat n - 48) else None.

Fixpoint skip_spaces (s : string) : string :=
  match s with
  | String c r => if isspace c then skip_spaces r else s
  | EmptyString => s
  end.

Fixpoint read_digits (acc : Z) (s : string) : Z :=
  match s with
  | String c r =>
      match digit_of c with
      | Some d => read_digits (10 * acc + d) r
      | None => acc
      end
  | EmptyString => acc
  end.

Definition clamp_long (z : Z) : Z := Z.max LONG_MIN (Z.min LONG_MAX z).

Definition atol (s : string) : Z :=
  match skip_spaces s with
  | String "-" r => clamp_long (- read_digits 0 r)
  | String "+" r => clamp_long (read_digits 0 r)
  | r => clamp_long (read_digits 0 r)
  end.

(** ** Strings of properties *)

(** Modelled from the spec: [merlin::split] (util.h is not part of ijgp.h)
    cuts a comma separated list of [key=value] pairs. The pieces are the
    runs between delimiters, read as by [std::getline]: the empty string has
    no piece and a final delimiter opens no empty piece. *)
Fixpoint split_from (cur : string) (s : string) (delim : ascii) : list string :=
  match s with
  | EmptyString => [String.rev cur]
  | String c r =>
      if Ascii.eqb c delim
      then String.rev cur ::
           match r with EmptyString => [] | _ => split_from EmptyString r delim end
      else split_from (String c cur) r delim
  end.

Definition split (s : string) (delim : ascii) : list string :=
  match s with
  | EmptyString => []
  | _ => split_from EmptyString s delim
  end.

(** ** Enumerations: [MER_ENUM( Task, PR,MAR,MAP )] and the like *)

Inductive Task := PR | MAR | MAP.
Inductive Property := iBound | Order | Iter | Task_ | Debug.
Inductive ElimOp := Max | Sum.

#[global] Instance Task_eq_dec : EqDecision Task.
Proof. solve_decision. Defined.
#[global] Instance ElimOp_eq_dec : EqDecision ElimOp.
Proof. solve_decision. Defined.
#[global] Instance Property_eq_dec : EqDecision Property.
Proof. solve_decision. Defined.

(** Modelled from the spec: the constructor of a [MER_ENUM] type from a name
    (the macro is not part of ijgp.h). A name of the declared list gives its
    value; any other name is the spec's InvalidConfig, raised on the spot. *)
Definition enum_of_name {E} (names : list (string * E)) (s : string) : outcome E :=
  match list_find (λ p, p.1 = s) names with
  | Some (_, (_, e)) => Ok e
  | None => Throw (unknown_name s)
  end.

Definition Task_names : list (string * Task) :=
  [("PR", PR); ("MAR", MAR); ("MAP", MAP)]%string.
Definition Property_names : list (string * Property) :=
  [("iBound", iBound); ("Order", Order); ("Iter", Iter); ("Task", Task_);
   ("Debug", Debug)]%string.

Definition Task_of_name : string → outcome Task := enum_of_name Task_names.
Definition Property_of_name : string → outcome Property :=
  enum_of_name Property_names.

(** An outcome that is an exception: the errors of the spec (InvalidConfig,
    InvalidOrder, NotSupported and the others) are exceptions of the code. *)
Definition raises {A} (o : outcome A) : Prop := ∃ e, o = Throw e.

(** ** Variables, scopes and index lists *)

(** A [variable_set], by the labels of its variables. *)
Abbreviation variable_set := (gset nat).

(** [vs.nvar()] *)
Definition nvar (vs : variable_set) : Z := Z.of_nat (size vs).

(** An [flist]: a set of indices kept sorted, iterated from the smallest. *)
Abbreviation flist := (list nat).

(** [l |= x] *)
Fixpoint fl_insert (x : nat) (l : flist) : flist :=
  match l with
  | [] => [x]
  | y :: l' =>
      if (x <? y)%nat then x :: l
      else if (x =? y)%nat then l
      else y :: fl_insert x l'
  end.

(** [a |= b] *)
Definition fl_union (a b : flist) : flist := foldr fl_insert a b.

(** [l /= x] *)
Definition fl_remove (x : nat) (l : flist) : flist := filter (λ y, y ≠ x) l.

(** Modelled from the spec: [graphical_model::insert(adj, idx, vs)] and
    [erase(adj, idx, vs)] (graphical_model.h is not part of ijgp.h) keep the
    lookup "factors with variable v": [insert] adds [idx] to [adj[v]] for
    every [v] of [vs], growing [adj] when a label lies past its end; [erase]
    removes [idx] from [adj[v]] for every [v] of [vs]. *)
Definition insert_adj (adj : list flist) (idx : nat) (vs : variable_set)
  : list flist :=
  let n := set_fold (λ v n, Nat.max (S v) n) (length adj) vs in
  imap (λ v l, if decide (v ∈ vs) then fl_insert idx l else l) (resize n [] adj).

Definition erase_adj (adj : list flist) (idx : nat) (vs : variable_set)
  : outcome (list flist) :=
  if decide (set_Forall (λ v, (v < length adj)%nat) vs)
  then Ok (imap (λ v l, if decide (v ∈ vs) then fl_remove idx l else l) adj)
  else Undefined.

(** ** Collaborators *)

(** The factor algebra and the arithmetic of [double], as ijgp.h uses them. *)
Class FactorAlgebra := {
  double : Type;
  factor : Type;
  d_lit : Z → double;                      (* a literal: 0.0, 1.0, -1 *)
  d_add : double → double → double;
  d_sub : double → double → double;
  d_log : double → double;
  d_fabs : double → double;
  d_ltb : double → double → bool;
  d_leb : double → double → bool;
  f_scalar : double → factor;              (* factor(s) *)
  f_ones : variable_set → factor;          (* factor(vs) *)
  f_vars : factor → variable_set;          (* F.vars() *)
  f_mul : factor → factor → factor;        (* F *= G *)
  f_sum_out : factor → variable_set → factor;    (* F.sum(vs) *)
  f_max_out : factor → variable_set → factor;    (* F.max(vs) *)
  f_marginal : factor → variable_set → factor;   (* F.marginal(vs) *)
  f_maxmarginal : factor → variable_set → factor;(* F.maxmarginal(vs) *)
  f_sum : factor → double;                 (* F.sum() *)
  f_max : factor → double;                 (* F.max() *)
  f_div : factor → double → factor;        (* F /= s *)
  f_add : factor → double → factor;        (* F += s *)
  f_normalize : factor → factor;           (* F.normalize() *)
  f_condition : factor → nat → Z → factor; (* F.condition(v, k) *)
  f_argmax : factor → Z;                   (* F.argmax() *)
  f_numel : factor → nat;                  (* the entries of the table of F *)
}.

(** The scopes that the factor algebra gives to its results. *)
Class FactorScopes `{FactorAlgebra} := {
  f_vars_scalar d : f_vars (f_scalar d) = ∅;
  f_vars_ones vs : f_vars (f_ones vs) = vs;
  f_vars_mul F G : f_vars (f_mul F G) = f_vars F ∪ f_vars G;
  f_vars_sum_out F vs : f_vars (f_sum_out F vs) = f_vars F ∖ vs;
  f_vars_max_out F vs : f_vars (f_max_out F vs) = f_vars F ∖ vs;
  f_vars_div F d : f_vars (f_div F d) = f_vars F;
}.


Section WithFactors.
Context `{FactorAlgebra}.

(** The input model: [nvar()] and [get_factors()]. *)
Record graphical_model := {
  gm_nvar : nat;
  gm_factors : list factor;
}.

(** [gm.with_variable(var(v))]: the factors whose scope has [v]. *)
Definition has_variable (gm : graphical_model) (v : nat) (i : nat) : bool :=
  match gm_factors gm !! i with
  | Some F => bool_decide (v ∈ f_vars F)
  | None => false
  end.

Definition with_variable (gm : graphical_model) (v : nat) : flist :=
  filter (λ i, has_variable gm v i) (seq 0 (length (gm_factors gm))).

(** [gm.get_factor(j)] *)
Definition get_factor (gm : graphical_model) (j : nat) : outcome factor :=
  at_ (gm_factors gm) j.

(** Ordering heuristics, pseudo trees and scoring of an assignment: members
    of [graphical_model] that ijgp.h calls on the input model. *)
Class ModelServices := {
  OrderMethod : Type;
  OrderMethod_of_name : string → outcome OrderMethod;
  gm_order : graphical_model → OrderMethod → list nat;
  gm_pseudo_tree : graphical_model → list nat → list Z;
  gm_induced_width : graphical_model → list nat → Z;
  gm_logP : graphical_model → list Z → double;
  gm_states : graphical_model → nat → nat; (* gm.var(v).states() *)
}.
Context `{ModelServices}.

(** Lines written to [std::cout] that the development reasons about: the
    line of one iteration of [propagate] and the closing line of [run]. *)
Inductive line :=
  | IterLine (log_z dObj : double) (iter : Z)
  | Converged (iters : Z).

(** ** The object *)

Record ijgp := {
  (* base class graphical_model: the cluster factors and the edges *)
  m_factors : list factor;
  m_edges : list (nat * nat);
  (* protected members *)
  m_gmo : graphical_model;
  num_iter : Z;
  m_task : Task;
  m_elim_op : ElimOp;
  m_ibound : Z;
  m_log_z : double;
  m_order : list nat;
  m_order_method : OrderMethod;
  m_parents : list Z;
  m_beliefs : list factor;
  m_best_config : list Z;
  m_lb : double;
  (* private members: the join graph *)
  m_clusters : list flist;
  m_separators : list (list variable_set);
  m_originals : list flist;
  m_scopes : list variable_set;
  m_in : list flist;
  m_out : list flist;
  m_roots : flist;
  m_forward : list factor;
  m_backward : list factor;
  m_schedule : list (nat * nat);
  m_edge_indeces : list (list nat);
  m_cluster2var : gmap nat nat;
  m_debug : bool;
  (* the output stream *)
  cout : list line;
}.

(** Assignment to one member. *)
Definition set_m_factors (v : list factor) (s : ijgp) : ijgp :=
  {| m_factors := v; m_edges := m_edges s; m_gmo := m_gmo s;
     num_iter := num_iter s; m_task := m_task s; m_elim_op := m_elim_op s;
     m_ibound := m_ibound s; m_log_z := m_log_z s; m_order := m_order s;
     m_order_method := m_order_method s; m_parents := m_parents s;
     m_beliefs := m_beliefs s; m_best_config := m_best_config s;
     m_lb := m_lb s; m_clusters := m_clusters s;
     m_separators := m_separators s; m_originals := m_originals s;
     m_scopes := m_scopes s; m_in := m_in s; m_out := m_out s;
     m_roots := m_roots s; m_forward := m_forward s;
     m_backward := m_backward s; m_schedule := m_schedule s;
     m_edge_indeces := m_edge_indeces s; m_cluster2var := m_cluster2var s;
     m_debug := m_debug s; cout := cout s |}.
Definition set_m_edges (v : list (nat * nat)) (s : ijgp) : ijgp :=
  {| m_factors := m_factors s; m_edges := v; m_gmo := m_gmo s;
     num_iter := num_iter s; m_task := m_task s; m_elim_op := m_elim_op s;
     m_ibound := m_ibound s; m_log_z := m_log_z s; m_order := m_order s;
     m_order_method := m_order_method s; m_parents := m_parents s;
     m_beliefs := m_beliefs s; m_best_config := m_best_config s;
     m_lb := m_lb s; m_clusters := m_clusters s;
     m_separators := m_separators s; m_originals := m_originals s;
     m_scopes := m_scopes s; m_in := m_in s; m_out := m_out s;
     m_roots := m_roots s; m_forward := m_forward s;
     m_backward := m_backward s; m_schedule := m_schedule s;
     m_edge_indeces := m_edge_indeces s; m_cluster2var := m_cluster2var s;
     m_debug := m_debug s; cout := cout s |}.
Definition set_m_gmo (v : graphical_model) (s : ijgp) : ijgp :=
  {| m_factors := m_factors s; m_edges := m_edges s; m_gmo := v;
     num_iter := num_iter s; m_task := m_task s; m_elim_op := m_elim_op s;
     m_ibound := m_ibound s; m_log_z := m_log_z s; m_order := m_order s;
     m_order_method := m_order_method s; m_parents := m_parents s;
     m_beliefs := m_beliefs s; m_best_config := m_best_config s;
     m_lb := m_lb s; m_clusters := m_clusters s;
     m_separators := m_separators s; m_originals := m_originals s;
     m_scopes := m_scopes s; m_in := m_in s; m_out := m_out s;
     m_roots := m_roots s; m_forward := m_forward s;
     m_backward := m_backward s; m_schedule := m_schedule s;
     m_edge_indeces := m_edge_indeces s; m_cluster2var := m_cluster2var s;
     m_debug := m_debug s; cout := cout s |}.
Definition set_num_iter (v : Z) (s : ijgp) : ijgp :=
  {| m_factors := m_factors s; m_edges := m_edges s; m_gmo := m_gmo s;
     num_iter := v; m_task := m_task s; m_elim_op := m_elim_op s;
     m_ibound := m_ibound s; m_log_z := m_log_z s; m_order := m_order s;
     m_order_method := m_order_method s; m_parents := m_parents s;
     m_beliefs := m_beliefs s; m_best_config := m_best_config s;
     m_lb := m_lb s; m_clusters := m_clusters s;
     m_separators := m_separators s; m_originals := m_originals s;
     m_scopes := m_scopes s; m_in := m_in s; m_out := m_out s;
     m_roots := m_roots s; m_forward := m_forward s;
     m_backward := m_backward s; m_schedule := m_schedule s;
     m_edge_indeces := m_edge_indeces s; m_cluster2var := m_cluster2var s;
     m_debug := m_debug s; cout := cout s |}.
Definition set_m_task (v : Task) (s : ijgp) : ijgp :=
  {| m_factors := m_factors s; m_edges := m_edges s; m_gmo := m_gmo s;
     num_iter := num_iter s; m_task := v; m_elim_op := m_elim_op s;
     m_ibound := m_ibound s; m_log_z := m_log_z s; m_order := m_order s;
     m_order_method := m_order_method s; m_parents := m_parents s;
     m_beliefs := m_beliefs s; m_best_config := m_best_config s;
     m_lb := m_lb s; m_clusters := m_clusters s;
     m_separators := m_separators s; m_originals := m_originals s;
     m_scopes := m_scopes s; m_in := m_in s; m_out := m_out s;
     m_roots := m_roots s; m_forward := m_forward s;
     m_backward := m_backward s; m_schedule := m_schedule s;
     m_edge_indeces := m_edge_indeces s; m_cluster2var := m_cluster2var s;
     m_debug := m_debug s; cout := cout s |}.
Definition set_m_elim_op (v : ElimOp) (s : ijgp) : ijgp :=
  {| m_factors := m_factors s; m_edges := m_edges s; m_gmo := m_gmo s;
     num_iter := num_iter s; m_task := m_task s; m_elim_op := v;
     m_ibound := m_ibound s; m_log_z := m_log_z s; m_order := m_order s;
     m_order_method := m_order_method s; m_parents := m_parents s;
     m_beliefs := m_beliefs s; m_best_config := m_best_config s;
     m_lb := m_lb s; m_clusters := m_clusters s;
     m_separators := m_separators s; m_originals := m_originals s;
     m_scopes := m_scopes s; m_in := m_in s; m_out := m_out s;
     m_roots := m_roots s; m_forward := m_forward s;
     m_backward := m_backward s; m_schedule := m_schedule s;
     m_edge_indeces := m_edge_indeces s; m_cluster2var := m_cluster2var s;
     m_debug := m_debug s; cout := cout s |}.
Definition set_m_ibound (v : Z) (s : ijgp) : ijgp :=
  {| m_factors := m_factors s; m_edges := m_edges s; m_gmo := m_gmo s;
     num_iter := num_iter s; m_task := m_task s; m_elim_op := m_elim_op s;
     m_ibound := v; m_log_z := m_log_z s; m_order := m_order s;
     m_order_method := m_order_method s; m_parents := m_parents s;
     m_beliefs := m_beliefs s; m_best_config := m_best_config s;
     m_lb := m_lb s; m_clusters := m_clusters s;
     m_separators := m_separators s; m_originals := m_originals s;
     m_scopes := m_scopes s; m_in := m_in s; m_out := m_out s;
     m_roots := m_roots s; m_forward := m_forward s;
     m_backward := m_backward s; m_schedule := m_schedule s;
     m_edge_indeces := m_edge_indeces s; m_cluster2var := m_cluster2var s;
     m_debug := m_debug s; cout := cout s |}.
Definition set_m_log_z (v : double) (s : ijgp) : ijgp :=
  {| m_factors := m_factors s; m_edges := m_edges s; m_gmo := m_gmo s;
     num_iter := num_iter s; m_task := m_task s; m_elim_op := m_elim_op s;
     m_ibound := m_ibound s; m_log_z := v; m_order := m_order s;
     m_order_method := m_order_method s; m_parents := m_parents s;
     m_beliefs := m_beliefs s; m_best_config := m_best_config s;
     m_lb := m_lb s; m_clusters := m_clusters s;
     m_separators := m_separators s; m_originals := m_originals s;
     m_scopes := m_scopes s; m_in := m_in s; m_out := m_out s;
     m_roots := m_roots s; m_forward := m_forward s;
     m_backward := m_backward s; m_schedule := m_schedule s;
     m_edge_indeces := m_edge_indeces s; m_cluster2var := m_cluster2var s;
     m_debug := m_debug s; cout := cout s |}.
Definition set_m_order (v : list nat) (s : ijgp) : ijgp :=
  {| m_factors := m_factors s; m_edges := m_edges s; m_gmo := m_gmo s;
     num_iter := num_iter s; m_task := m_task s; m_elim_op := m_elim_op s;
     m_ibound := m_ibound s; m_log_z := m_log_z s; m_order := v;
     m_order_method := m_order_method s; m_parents := m_parents s;
     m_beliefs := m_beliefs s; m_best_config := m_best_config s;
     m_lb := m_lb s; m_clusters := m_clusters s;
     m_separators := m_separators s; m_originals := m_originals s;
     m_scopes := m_scopes s; m_in := m_in s; m_out := m_out s;
     m_roots := m_roots s; m_forward := m_forward s;
     m_backward := m_backward s; m_schedule := m_schedule s;
     m_edge_indeces := m_edge_indeces s; m_cluster2var := m_cluster2var s;
     m_debug := m_debug s; cout := cout s |}.
Definition set_m_order_method (v : OrderMethod) (s : ijgp) : ijgp :=
  {| m_factors := m_factors s; m_edges := m_edges s; m_gmo := m_gmo s;
     num_iter := num_iter s; m_task := m_task s; m_elim_op := m_elim_op s;
     m_ibound := m_ibound s; m_log_z := m_log_z s; m_order := m_order s;
     m_order_method := v; m_parents := m_parents s; m_beliefs := m_beliefs s;
     m_best_config := m_best_config s; m_lb := m_lb s;
     m_clusters := m_clusters s; m_separators := m_separators s;
     m_originals := m_originals s; m_scopes := m_scopes s; m_in := m_in s;
     m_out := m_out s; m_roots := m_roots s; m_forward := m_forward s;
     m_backward := m_backward s; m_schedule := m_schedule s;
     m_edge_indeces := m_edge_indeces s; m_cluster2var := m_cluster2var s;
     m_debug := m_debug s; cout := cout s |}.
Definition set_m_parents (v : list Z) (s : ijgp) : ijgp :=
  {| m_factors := m_factors s; m_edges := m_edges s; m_gmo := m_gmo s;
     num_iter := num_iter s; m_task := m_task s; m_elim_op := m_elim_op s;
     m_ibound := m_ibound s; m_log_z := m_log_z s; m_order := m_order s;
     m_order_method := m_order_method s; m_parents := v;
     m_beliefs := m_beliefs s; m_best_config := m_best_config s;
     m_lb := m_lb s; m_clusters := m_clusters s;
     m_separators := m_separators s; m_originals := m_originals s;
     m_scopes := m_scopes s; m_in := m_in s; m_out := m_out s;
     m_roots := m_roots s; m_forward := m_forward s;
     m_backward := m_backward s; m_schedule := m_schedule s;
     m_edge_indeces := m_edge_indeces s; m_cluster2var := m_cluster2var s;
     m_debug := m_debug s; cout := cout s |}.
Definition set_m_beliefs (v : list factor) (s : ijgp) : ijgp :=
  {| m_factors := m_factors s; m_edges := m_edges s; m_gmo := m_gmo s;
     num_iter := num_iter s; m_task := m_task s; m_elim_op := m_elim_op s;
     m_ibound := m_ibound s; m_log_z := m_log_z s; m_order := m_order s;
     m_order_method := m_order_method s; m_parents := m_parents s;
     m_beliefs := v; m_best_config := m_best_config s; m_lb := m_lb s;
     m_clusters := m_clusters s; m_separators := m_separators s;
     m_originals := m_originals s; m_scopes := m_scopes s; m_in := m_in s;
     m_out := m_out s; m_roots := m_roots s; m_forward := m_forward s;
     m_backward := m_backward s; m_schedule := m_schedule s;
     m_edge_indeces := m_edge_indeces s; m_cluster2var := m_cluster2var s;
     m_debug := m_debug s; cout := cout s |}.
Definition set_m_best_config (v : list Z) (s : ijgp) : ijgp :=
  {| m_factors := m_factors s; m_edges := m_edges s; m_gmo := m_gmo s;
     num_iter := num_iter s; m_task := m_task s; m_elim_op := m_elim_op s;
     m_ibound := m_ibound s; m_log_z := m_log_z s; m_order := m_order s;
     m_order_method := m_order_method s; m_parents := m_parents s;
     m_beliefs := m_beliefs s; m_best_config := v; m_lb := m_lb s;
     m_clusters := m_clusters s; m_separators := m_separators s;
     m_originals := m_originals s; m_scopes := m_scopes s; m_in := m_in s;
     m_out := m_out s; m_roots := m_roots s; m_forward := m_forward s;
     m_backward := m_backward s; m_schedule := m_schedule s;
     m_edge_indeces := m_edge_indeces s; m_cluster2var := m_cluster2var s;
     m_debug := m_debug s; cout := cout s |}.
Definition set_m_lb (v : double) (s : ijgp) : ijgp :=
  {| m_factors := m_factors s; m_edges := m_edges s; m_gmo := m_gmo s;
     num_iter := num_iter s; m_task := m_task s; m_elim_op := m_elim_op s;
     m_ibound := m_ibound s; m_log_z := m_log_z s; m_order := m_order s;
     m_order_method := m_order_method s; m_parents := m_parents s;
     m_beliefs := m_beliefs s; m_best_config := m_best_config s; m_lb := v;
     m_clusters := m_clusters s; m_separators := m_separators s;
     m_originals := m_originals s; m_scopes := m_scopes s; m_in := m_in s;
     m_out := m_out s; m_roots := m_roots s; m_forward := m_forward s;
     m_backward := m_backward s; m_schedule := m_schedule s;
     m_edge_indeces := m_edge_indeces s; m_cluster2var := m_cluster2var s;
     m_debug := m_debug s; cout := cout s |}.
Definition set_m_clusters (v : list flist) (s : ijgp) : ijgp :=
  {| m_factors := m_factors s; m_edges := m_edges s; m_gmo := m_gmo s;
     num_iter := num_iter s; m_task := m_task s; m_elim_op := m_elim_op s;
     m_ibound := m_ibound s; m_log_z := m_log_z s; m_order := m_order s;
     m_order_method := m_order_method s; m_parents := m_parents s;
     m_beliefs := m_beliefs s; m_best_config := m_best_config s;
     m_lb := m_lb s; m_clusters := v; m_separators := m_separators s;
     m_originals := m_originals s; m_scopes := m_scopes s; m_in := m_in s;
     m_out := m_out s; m_roots := m_roots s; m_forward := m_forward s;
     m_backward := m_backward s; m_schedule := m_schedule s;
     m_edge_indeces := m_edge_indeces s; m_cluster2var := m_cluster2var s;
     m_debug := m_debug s; cout := cout s |}.
Definition set_m_separators (v : list (list variable_set)) (s : ijgp) : ijgp :=
  {| m_factors := m_factors s; m_edges := m_edges s; m_gmo := m_gmo s;
     num_iter := num_iter s; m_task := m_task s; m_elim_op := m_elim_op s;
     m_ibound := m_ibound s; m_log_z := m_log_z s; m_order := m_order s;
     m_order_method := m_order_method s; m_parents := m_parents s;
     m_beliefs := m_beliefs s; m_best_config := m_best_config s;
     m_lb := m_lb s; m_clusters := m_clusters s; m_separators := v;
     m_originals := m_originals s; m_scopes := m_scopes s; m_in := m_in s;
     m_out := m_out s; m_roots := m_roots s; m_forward := m_forward s;
     m_backward := m_backward s; m_schedule := m_schedule s;
     m_edge_indeces := m_edge_indeces s; m_cluster2var := m_cluster2var s;
     m_debug := m_debug s; cout := cout s |}.
Definition set_m_originals (v : list flist) (s : ijgp) : ijgp :=
  {| m_factors := m_factors s; m_edges := m_edges s; m_gmo := m_gmo s;
     num_iter := num_iter s; m_task := m_task s; m_elim_op := m_elim_op s;
     m_ibound := m_ibound s; m_log_z := m_log_z s; m_order := m_order s;
     m_order_method := m_order_method s; m_parents := m_parents s;
     m_beliefs := m_beliefs s; m_best_config := m_best_config s;
     m_lb := m_lb s; m_clusters := m_clusters s;
     m_separators := m_separators s; m_originals := v;
     m_scopes := m_scopes s; m_in := m_in s; m_out := m_out s;
     m_roots := m_roots s; m_forward := m_forward s;
     m_backward := m_backward s; m_schedule := m_schedule s;
     m_edge_indeces := m_edge_indeces s; m_cluster2var := m_cluster2var s;
     m_debug := m_debug s; cout := cout s |}.
Definition set_m_scopes (v : list variable_set) (s : ijgp) : ijgp :=
  {| m_factors := m_factors s; m_edges := m_edges s; m_gmo := m_gmo s;
     num_iter := num_iter s; m_task := m_task s; m_elim_op := m_elim_op s;
     m_ibound := m_ibound s; m_log_z := m_log_z s; m_order := m_order s;
     m_order_method := m_order_method s; m_parents := m_parents s;
     m_beliefs := m_beliefs s; m_best_config := m_best_config s;
     m_lb := m_lb s; m_clusters := m_clusters s;
     m_separators := m_separators s; m_originals := m_originals s;
     m_scopes := v; m_in := m_in s; m_out := m_out s; m_roots := m_roots s;
     m_forward := m_forward s; m_backward := m_backward s;
     m_schedule := m_schedule s; m_edge_indeces := m_edge_indeces s;
     m_cluster2var := m_cluster2var s; m_debug := m_debug s;
     cout := cout s |}.
Definition set_m_in (v : list flist) (s : ijgp) : ijgp :=
  {| m_factors := m_factors s; m_edges := m_edges s; m_gmo := m_gmo s;
     num_iter := num_iter s; m_task := m_task s; m_elim_op := m_elim_op s;
     m_ibound := m_ibound s; m_log_z := m_log_z s; m_order := m_order s;
     m_order_method := m_order_method s; m_parents := m_parents s;
     m_beliefs := m_beliefs s; m_best_config := m_best_config s;
     m_lb := m_lb s; m_clusters := m_clusters s;
     m_separators := m_separators s; m_originals := m_originals s;
     m_scopes := m_scopes s; m_in := v; m_out := m_out s;
     m_roots := m_roots s; m_forward := m_forward s;
     m_backward := m_backward s; m_schedule := m_schedule s;
     m_edge_indeces := m_edge_indeces s; m_cluster2var := m_cluster2var s;
     m_debug := m_debug s; cout := cout s |}.
Definition set_m_out (v : list flist) (s : ijgp) : ijgp :=
  {| m_factors := m_factors s; m_edges := m_edges s; m_gmo := m_gmo s;
     num_iter := num_iter s; m_task := m_task s; m_elim_op := m_elim_op s;
     m_ibound := m_ibound s; m_log_z := m_log_z s; m_order := m_order s;
     m_order_method := m_order_method s; m_parents := m_parents s;
     m_beliefs := m_beliefs s; m_best_config := m_best_config s;
     m_lb := m_lb s; m_clusters := m_clusters s;
     m_separators := m_separators s; m_originals := m_originals s;
     m_scopes := m_scopes s; m_in := m_in s; m_out := v;
     m_roots := m_roots s; m_forward := m_forward s;
     m_backward := m_backward s; m_schedule := m_schedule s;
     m_edge_indeces := m_edge_indeces s; m_cluster2var := m_cluster2var s;
     m_debug := m_debug s; cout := cout s |}.
Definition set_m_roots (v : flist) (s : ijgp) : ijgp :=
  {| m_factors := m_factors s; m_edges := m_edges s; m_gmo := m_gmo s;
     num_iter := num_iter s; m_task := m_task s; m_elim_op := m_elim_op s;
     m_ibound := m_ibound s; m_log_z := m_log_z s; m_order := m_order s;
     m_order_method := m_order_method s; m_parents := m_parents s;
     m_beliefs := m_beliefs s; m_best_config := m_best_config s;
     m_lb := m_lb s; m_clusters := m_clusters s;
     m_separators := m_separators s; m_originals := m_originals s;
     m_scopes := m_scopes s; m_in := m_in s; m_out := m_out s; m_roots := v;
     m_forward := m_forward s; m_backward := m_backward s;
     m_schedule := m_schedule s; m_edge_indeces := m_edge_indeces s;
     m_cluster2var := m_cluster2var s; m_debug := m_debug s;
     cout := cout s |}.
Definition set_m_forward (v : list factor) (s : ijgp) : ijgp :=
  {| m_factors := m_factors s; m_edges := m_edges s; m_gmo := m_gmo s;
     num_iter := num_iter s; m_task := m_task s; m_elim_op := m_elim_op s;
     m_ibound := m_ibound s; m_log_z := m_log_z s; m_order := m_order s;
     m_order_method := m_order_method s; m_parents := m_parents s;
     m_beliefs := m_beliefs s; m_best_config := m_best_config s;
     m_lb := m_lb s; m_clusters := m_clusters s;
     m_separators := m_separators s; m_originals := m_originals s;
     m_scopes := m_scopes s; m_in := m_in s; m_out := m_out s;
     m_roots := m_roots s; m_forward := v; m_backward := m_backward s;
     m_schedule := m_schedule s; m_edge_indeces := m_edge_indeces s;
     m_cluster2var := m_cluster2var s; m_debug := m_debug s;
     cout := cout s |}.
Definition set_m_backward (v : list factor) (s : ijgp) : ijgp :=
  {| m_factors := m_factors s; m_edges := m_edges s; m_gmo := m_gmo s;
     num_iter := num_iter s; m_task := m_task s; m_elim_op := m_elim_op s;
     m_ibound := m_ibound s; m_log_z := m_log_z s; m_order := m_order s;
     m_order_method := m_order_method s; m_parents := m_parents s;
     m_beliefs := m_beliefs s; m_best_config := m_best_config s;
     m_lb := m_lb s; m_clusters := m_clusters s;
     m_separators := m_separators s; m_originals := m_originals s;
     m_scopes := m_scopes s; m_in := m_in s; m_out := m_out s;
     m_roots := m_roots s; m_forward := m_forward s; m_backward := v;
     m_schedule := m_schedule s; m_edge_indeces := m_edge_indeces s;
     m_cluster2var := m_cluster2var s; m_debug := m_debug s;
     cout := cout s |}.
Definition set_m_schedule (v : list (nat * nat)) (s : ijgp) : ijgp :=
  {| m_factors := m_factors s; m_edges := m_edges s; m_gmo := m_gmo s;
     num_iter := num_iter s; m_task := m_task s; m_elim_op := m_elim_op s;
     m_ibound := m_ibound s; m_log_z := m_log_z s; m_order := m_order s;
     m_order_method := m_order_method s; m_parents := m_parents s;
     m_beliefs := m_beliefs s; m_best_config := m_best_config s;
     m_lb := m_lb s; m_clusters := m_clusters s;
     m_separators := m_separators s; m_originals := m_originals s;
     m_scopes := m_scopes s; m_in := m_in s; m_out := m_out s;
     m_roots := m_roots s; m_forward := m_forward s;
     m_backward := m_backward s; m_schedule := v;
     m_edge_indeces := m_edge_indeces s; m_cluster2var := m_cluster2var s;
     m_debug := m_debug s; cout := cout s |}.
Definition set_m_edge_indeces (v : list (list nat)) (s : ijgp) : ijgp :=
  {| m_factors := m_factors s; m_edges := m_edges s; m_gmo := m_gmo s;
     num_iter := num_iter s; m_task := m_task s; m_elim_op := m_elim_op s;
     m_ibound := m_ibound s; m_log_z := m_log_z s; m_order := m_order s;
     m_order_method := m_order_method s; m_parents := m_parents s;
     m_beliefs := m_beliefs s; m_best_config := m_best_config s;
     m_lb := m_lb s; m_clusters := m_clusters s;
     m_separators := m_separators s; m_originals := m_originals s;
     m_scopes := m_scopes s; m_in := m_in s; m_out := m_out s;
     m_roots := m_roots s; m_forward := m_forward s;
     m_backward := m_backward s; m_schedule := m_schedule s;
     m_edge_indeces := v; m_cluster2var := m_cluster2var s;
     m_debug := m_debug s; cout := cout s |}.
Definition set_m_cluster2var (v : gmap nat nat) (s : ijgp) : ijgp :=
  {| m_factors := m_factors s; m_edges := m_edges s; m_gmo := m_gmo s;
     num_iter := num_iter s; m_task := m_task s; m_elim_op := m_elim_op s;
     m_ibound := m_ibound s; m_log_z := m_log_z s; m_order := m_order s;
     m_order_method := m_order_method s; m_parents := m_parents s;
     m_beliefs := m_beliefs s; m_best_config := m_best_config s;
     m_lb := m_lb s; m_clusters := m_clusters s;
     m_separators := m_separators s; m_originals := m_originals s;
     m_scopes := m_scopes s; m_in := m_in s; m_out := m_out s;
     m_roots := m_roots s; m_forward := m_forward s;
     m_backward := m_backward s; m_schedule := m_schedule s;
     m_edge_indeces := m_edge_indeces s; m_cluster2var := v;
     m_debug := m_debug s; cout := cout s |}.
Definition set_m_debug (v : bool) (s : ijgp) : ijgp :=
  {| m_factors := m_factors s; m_edges := m_edges s; m_gmo := m_gmo s;
     num_iter := num_iter s; m_task := m_task s; m_elim_op := m_elim_op s;
     m_ibound := m_ibound s; m_log_z := m_log_z s; m_order := m_order s;
     m_order_method := m_order_method s; m_parents := m_parents s;
     m_beliefs := m_beliefs s; m_best_config := m_best_config s;
     m_lb := m_lb s; m_clusters := m_clusters s;
     m_separators := m_separators s; m_originals := m_originals s;
     m_scopes := m_scopes s; m_in := m_in s; m_out := m_out s;
     m_roots := m_roots s; m_forward := m_forward s;
     m_backward := m_backward s; m_schedule := m_schedule s;
     m_edge_indeces := m_edge_indeces s; m_cluster2var := m_cluster2var s;
     m_debug := v; cout := cout s |}.
Definition set_cout (v : list line) (s : ijgp) : ijgp :=
  {| m_factors := m_factors s; m_edges := m_edges s; m_gmo := m_gmo s;
     num_iter := num_iter s; m_task := m_task s; m_elim_op := m_elim_op s;
     m_ibound := m_ibound s; m_log_z := m_log_z s; m_order := m_order s;
     m_order_method := m_order_method s; m_parents := m_parents s;
     m_beliefs := m_beliefs s; m_best_config := m_best_config s;
     m_lb := m_lb s; m_clusters := m_clusters s;
     m_separators := m_separators s; m_originals := m_originals s;
     m_scopes := m_scopes s; m_in := m_in s; m_out := m_out s;
     m_roots := m_roots s; m_forward := m_forward s;
     m_backward := m_backward s; m_schedule := m_schedule s;
     m_edge_indeces := m_edge_indeces s; m_cluster2var := m_cluster2var s;
     m_debug := m_debug s; cout := v |}.

(** ** Results and properties *)

(** [ub()] and [lb()] *)
Definition ub (s : ijgp) : outcome double :=
  Throw (runtime_error
    "IJGP does not compute an upper bound due to overcounting.").
Definition lb (s : ijgp) : outcome double :=
  Throw (runtime_error
    "IJGP does not compute a lower bound due to overcounting.").

(** [logZ()], [best_config()] *)
Definition logZ (s : ijgp) : double := m_log_z s.
Definition best_config (s : ijgp) : list Z := m_best_config s.

(** [belief(size_t f)] and [belief(variable v)]: [m_beliefs[f]]. *)
Definition belief (s : ijgp) (f : nat) : outcome factor := at_ (m_beliefs s) f.

(** [belief(variable_set vs)] *)
Definition belief_vs (s : ijgp) (vs : variable_set) : outcome factor :=
  Throw (runtime_error "Not implemented").

(** [set_ibound(i)], on the [size_t] that the caller's value converts to. *)
Definition set_ibound (i : Z) (s : ijgp) : ijgp :=
  set_m_ibound (if decide (i = 0) then SIZE_MAX else i) s.


(** [set_order(ord)] and [set_order_method(method)] *)
Definition set_order (ord : list nat) (s : ijgp) : ijgp := set_m_order ord s.
Definition set_order_method (method : OrderMethod) (s : ijgp) : ijgp :=
  set_m_order_method method (set_m_order [] s).

(** [set_graphical_model(gm)] *)
Definition set_graphical_model (gm : graphical_model) (s : ijgp) : ijgp :=
  set_m_gmo gm s.

(** One pass of the loop of [set_properties], on [asgn = split(strs[i], '=')].
    The [default:] branch of the [switch] is not reached: the constructor of
    [Property] gives one of the five values or throws. *)
Definition set_property (asgn : list string) (s : ijgp) : outcome ijgp :=
  key ← at_ asgn 0;
  p ← Property_of_name key;
  match p with
  | iBound =>
      v ← at_ asgn 1;
      Ok (set_ibound (to_size_t (atol v)) s)
  | Order =>
      v ← at_ asgn 1;
      m ← OrderMethod_of_name v;
      Ok (set_m_order_method m (set_m_parents [] (set_m_order [] s)))
  | Iter =>
      v ← at_ asgn 1;
      Ok (set_num_iter (to_size_t (atol v)) s)
  | Task_ =>
      v ← at_ asgn 1;
      t ← Task_of_name v;
      Ok (set_m_elim_op (if decide (t = MAR) then Sum else Max) (set_m_task t s))
  | Debug =>
      v ← at_ asgn 1;
      Ok (set_m_debug (negb (atol v =? 0)) s)
  end.

Definition default_properties : string :=
  "iBound=4,Order=MinFill,Iter=10,Task=MAR,Debug=0".

(** [set_properties(opt)] *)
Definition set_properties (opt : string) (s : ijgp) : outcome ijgp :=
  let opt := if decide (String.length opt = 0%nat) then default_properties else opt in
  for_each (λ str s, set_property (split str "=") s) (split opt ",")
           (set_m_debug false s).

(** The constructor [ijgp(gm)]: the vectors start empty, then
    [set_properties()] gives the properties their default values. [uninit]
    and [meth] stand for the indeterminate first values of the [double]
    members and of the ordering method; the other scalar members are
    written by [set_properties()] before they are read. *)
Definition ijgp_blank (gm : graphical_model) (uninit : double)
    (meth : OrderMethod) : ijgp :=
  {| m_factors := []; m_edges := []; m_gmo := gm; num_iter := 0;
     m_task := PR; m_elim_op := Max; m_ibound := 0; m_log_z := uninit;
     m_order := []; m_order_method := meth; m_parents := [];
     m_beliefs := []; m_best_config := []; m_lb := uninit;
     m_clusters := []; m_separators := []; m_originals := [];
     m_scopes := []; m_in := []; m_out := []; m_roots := [];
     m_forward := []; m_backward := []; m_schedule := [];
     m_edge_indeces := []; m_cluster2var := ∅; m_debug := false;
     cout := [] |}.

Definition ijgp_new (gm : graphical_model) (uninit : double)
    (meth : OrderMethod) : outcome ijgp :=
  set_properties EmptyString (ijgp_blank gm uninit meth).

(** ** Elimination *)

(** [elim(F, vs)]; with the two values of [ElimOp] the final [throw] of the
    source is not reached. *)
Definition elim (s : ijgp) (F : factor) (vs : variable_set) : factor :=
  match m_elim_op s with
  | Sum => f_sum_out F vs
  | Max => f_max_out F vs
  end.

(** [marg(F, vs)] *)
Definition marg (s : ijgp) (F : factor) (vs : variable_set) : factor :=
  match m_elim_op s with
  | Sum => f_marginal F vs
  | Max => f_maxmarginal F vs
  end.

(** ** The score of a pair of scopes

    The returned [double] is -3 or the quotient of 1.0 by a sum of two
    sizes; it is kept as the rational it rounds, which orders the scores as
    the doubles are ordered. *)
Definition score (s : ijgp) (fin : list variable_set) (VX : nat) (i j : nat)
  : outcome Q :=
  F1 ← at_ fin i;
  F2 ← at_ fin j;
  let iBound := Z.max (Z.max (m_ibound s) (to_size_t (nvar F1 - 1)))
                      (to_size_t (nvar F2 - 1)) in
  let both := F1 ∪ F2 in
  if decide (nvar both > to_size_t (iBound + 1))
  then Ok (-3)%Q
  else Ok (1 / inject_Z (nvar F1 + nvar F2))%Q.

(** [sPair(ii, jj)]: the larger index first. *)
Definition sPair (ii jj : nat) : nat * nat :=
  if decide (ii < jj)%nat then (jj, ii) else (ii, jj).

(** ** The multimap of scores

    [std::multimap<double, sPair> scores] is the list of its entries in the
    order of iteration: increasing keys, equal keys in the order of
    insertion. Each entry carries a serial number, which stands for the
    iterator to it; [reverseScore] maps a pair to the iterator it last
    stored. *)
Record entry := { e_key : Q; e_pair : nat * nat; e_id : nat }.

Record score_table := {
  scores : list entry;
  reverseScore : gmap (nat * nat) nat;
  next_id : nat;
}.

Definition empty_table : score_table :=
  {| scores := []; reverseScore := ∅; next_id := 0 |}.

(** [scores.insert(_INS(err, sp))]: after the entries of key at most [err]. *)
Fixpoint insert_entry (e : entry) (l : list entry) : list entry :=
  match l with
  | [] => [e]
  | e' :: l' =>
      if Qle_bool (e_key e') (e_key e) then e' :: insert_entry e l'
      else e :: l
  end.

(** [reverseScore[sp] = scores.insert(_INS(err, sp))] *)
Definition table_insert (err : Q) (sp : nat * nat) (t : score_table)
  : score_table :=
  {| scores := insert_entry {| e_key := err; e_pair := sp; e_id := next_id t |}
                            (scores t);
     reverseScore := <[sp := next_id t]> (reverseScore t);
     next_id := S (next_id t) |}.

(** [scores.erase(reverseScore[sp])]: undefined when the stored iterator
    points to no entry of [scores]. *)
Definition table_erase (sp : nat * nat) (t : score_table) : outcome score_table :=
  match reverseScore t !! sp with
  | Some id =>
      if decide (Exists (λ e, e_id e = id) (scores t))
      then Ok {| scores := filter (λ e, e_id e ≠ id) (scores t);
                 reverseScore := reverseScore t;
                 next_id := next_id t |}
      else Undefined
  | None => Undefined
  end.

(** [scores.rbegin()] *)
Definition table_top (t : score_table) : outcome entry :=
  match last (scores t) with
  | Some e => Ok e
  | None => Undefined
  end.

(** ** Construction of the join graph *)

(** The local vectors of [init]. *)
Record locals := {
  fin : list variable_set;
  vin : list flist;
  Orig : list flist;
  New : list flist;
}.

(** Modelled from the spec: [add_factor(F)] and [add_edge(i, j)] of the base
    classes (graphical_model.h and graph.h are not part of ijgp.h).
    [add_factor] appends the factor to the cluster factors and returns its
    index; [add_edge] records the edge, once, in both directions, and
    [edges()] lists those records. *)
Definition add_factor (F : factor) (s : ijgp) : nat * ijgp :=
  (length (m_factors s), set_m_factors (m_factors s ++ [F]) s).

Definition add_edge (i j : nat) (s : ijgp) : ijgp :=
  if decide ((i, j) ∈ m_edges s) then s
  else set_m_edges (m_edges s ++ [(i, j); (j, i)]) s.

Definition edges (s : ijgp) : list (nat * nat) := m_edges s.

(** Population of the scores of a bucket: for [i] in [ids], the pairs with
    the [j] before [i], then the entry of [i] itself at -1. *)
Fixpoint populate (s : ijgp) (fin : list variable_set) (VX : nat)
    (before rest : list nat) (t : score_table) : outcome score_table :=
  match rest with
  | [] => Ok t
  | i :: rest' =>
      t1 ← for_each (λ j t, err ← score s fin VX i j;
                            Ok (table_insert err (sPair i j) t)) before t;
      populate s fin VX (before ++ [i]) rest'
               (table_insert (-1)%Q (sPair i i) t1)
  end.

(** The body of the merging loop for the top pair [(ii, jj)]. *)
Definition merge_pair (ii jj : nat) (L : locals) : outcome locals :=
  Fi ← at_ (fin L) ii;
  Fj ← at_ (fin L) jj;
  fin1 ← put (fin L) jj (Fj ∪ Fi);                (* fin[jj] |= fin[ii] *)
  Fi' ← at_ fin1 ii;
  vin1 ← erase_adj (vin L) ii Fi';                (* erase(vin, ii, fin[ii]) *)
  fin2 ← put fin1 ii ∅;                           (* fin[ii] = variable_set() *)
  Oi ← at_ (Orig L) ii;
  Oj ← at_ (Orig L) jj;
  Orig1 ← put (Orig L) jj (fl_union Oj Oi);       (* Orig[jj] |= Orig[ii] *)
  Orig2 ← put Orig1 ii [];                        (* Orig[ii].clear() *)
  Ni ← at_ (New L) ii;
  Nj ← at_ (New L) jj;
  New1 ← put (New L) jj (fl_union Nj Ni);         (* New[jj] |= New[ii] *)
  New2 ← put New1 ii [];                          (* New[ii].clear() *)
  Ok {| fin := fin2; vin := vin1; Orig := Orig2; New := New2 |}.

(** The loop [for (;;)] of a bucket. Each pass that does not leave the loop
    takes [ii] out of [ids]; the model gives the loop one more pass than
    [ids] has entries and answers [OutOfFuel] should they not suffice. *)
Fixpoint merge_loop (fuel : nat) (s : ijgp) (VX : nat) (L : locals)
    (ids : flist) (t : score_table) : outcome (locals * flist) :=
  match fuel with
  | O => OutOfFuel
  | S fuel' =>
      top ← table_top t;
      if negb (Qle_bool 0 (e_key top)) then Ok (L, ids)   (* top->first < 0 *)
      else
        let ii := (e_pair top).1 in
        let jj := (e_pair top).2 in
        L1 ← merge_pair ii jj L;
        t1 ← for_each (λ k t, table_erase (sPair ii k) t) ids t;
        let ids1 := fl_remove ii ids in
        t2 ← for_each (λ k t,
                if decide (k = jj) then Ok t
                else err ← score s (fin L1) VX jj k;
                     t' ← table_erase (sPair jj k) t;
                     Ok (table_insert err (sPair jj k) t'))
              ids1 t1;
        merge_loop fuel' s VX L1 ids1 t2
  end.

(** [add_edge(j, alpha); m_schedule.push_back(std::make_pair(j, alpha))] *)
Definition push_edge (alpha : nat) (s : ijgp) (j : nat) : ijgp :=
  let s := add_edge j alpha s in
  set_m_schedule (m_schedule s ++ [(j, alpha)]) s.

(** The elimination of one mini-bucket [i] of the bucket of [x]. *)
Definition eliminate (x : nat) (i : nat) (st : locals * ijgp * list nat)
  : outcome (locals * ijgp * list nat) :=
  let '(L, s, alphas) := st in
  Fi ← at_ (fin L) i;
  let '(alpha, s) := add_factor (f_ones Fi) s in  (* add_factor(factor(fin[*i])) *)
  let alphas := alphas ++ [alpha] in
  Cx ← at_ (m_clusters s) x;
  cl ← put (m_clusters s) x (fl_insert alpha Cx); (* m_clusters[*x] |= alpha *)
  let s := set_m_clusters cl s in
  let s := set_m_cluster2var (<[alpha := x]> (m_cluster2var s)) s in
  fin1 ← put (fin L) i (Fi ∖ {[x]});              (* fin[*i] = fin[*i] - VX *)
  Ni ← at_ (New L) i;
  let s := foldl (push_edge alpha) s Ni in
  let s := set_m_originals (m_originals s ++ [[]]) s in
  Oa ← at_ (m_originals s) alpha;
  Oi ← at_ (Orig L) i;
  orig ← put (m_originals s) alpha (fl_union Oa Oi);
  let s := set_m_originals orig s in
  Orig1 ← put (Orig L) i [];
  New1 ← put (New L) i [alpha];
  Fi1 ← at_ fin1 i;
  Ok ({| fin := fin1; vin := insert_adj (vin L) i Fi1;
         Orig := Orig1; New := New1 |}, s, alphas).

(** The edges between the clusters of one bucket, in the order of their
    creation; [alphas.size() - 1] wraps around for an empty [alphas], and
    the loop then reads past its end. *)
Fixpoint chain (alphas : list nat) (s : ijgp) : ijgp :=
  match alphas with
  | a :: (b :: _) as rest => chain rest (push_edge b s a)
  | _ => s
  end.

(** The body of the loop over the elimination order. *)
Definition bucket (x : nat) (st : locals * ijgp) : outcome (locals * ijgp) :=
  let '(L, s) := st in
  match vin L !! x with
  | None => Ok st                                  (* *x >= vin.size() *)
  | Some [] => Ok st                               (* vin[*x].size() == 0 *)
  | Some ids =>
      t ← populate s (fin L) x [] ids empty_table;
      '(L, ids) ← merge_loop (S (length ids)) s x L ids t;
      '(L, s, alphas) ← for_each (eliminate x) ids (L, s, []);
      match alphas with
      | [] => Undefined
      | _ => Ok (L, chain alphas s)
      end
  end.

(** [m[a][b] = x] on a vector of vectors. *)
Definition put2 {A} (m : list (list A)) (a b : nat) (x : A)
  : outcome (list (list A)) :=
  row ← at_ m a;
  row' ← put row b x;
  put m a row'.

Definition at2 {A} (m : list (list A)) (a b : nat) : outcome A :=
  row ← at_ m a; at_ row b.

(** The separator of one entry of [edges()]. *)
Definition separator_of (e : nat * nat) (s : ijgp) : outcome ijgp :=
  let '(a, b) := e in
  if decide (b < a)%nat then Ok s                  (* a > b *)
  else
    Fa ← at_ (m_factors s) a;
    Fb ← at_ (m_factors s) b;
    let sep := f_vars Fa ∩ f_vars Fb in
    m1 ← put2 (m_separators s) a b sep;
    m2 ← put2 m1 b a sep;
    Ok (set_m_separators m2 s).

(** The potential of cluster [i]: the product of its original factors. *)
Definition potential_of (i : nat) (s : ijgp) : outcome ijgp :=
  orig ← at_ (m_originals s) i;
  F ← for_each (λ j F, G ← get_factor (m_gmo s) j; Ok (f_mul F G)) orig
               (f_scalar (d_lit 1));
  fs ← put (m_factors s) i F;
  Ok (set_m_factors fs s).

(** [init()], by the parts that its comments name. *)

(** The elimination order, the pseudo tree and the number of iterations. *)
Definition init_order (s : ijgp) : ijgp :=
  let s := if decide (length (m_order s) = 0%nat)
           then set_m_parents []
                  (set_m_order (gm_order (m_gmo s) (m_order_method s)) s)
           else s in
  let s := if decide (length (m_parents s) = 0%nat)
           then set_m_parents (gm_pseudo_tree (m_gmo s) (m_order s)) s
           else s in
  let wstar := gm_induced_width (m_gmo s) (m_order s) in
  if decide (wstar ≤ m_ibound s) then set_num_iter 1 s else s.

(** The scopes of the factors, the factors of each variable, [Orig], [New]. *)
Definition init_locals (gm : graphical_model) : locals :=
  {| fin := f_vars <$> gm_factors gm;
     vin := with_variable gm <$> seq 0 (gm_nvar gm);
     Orig := (λ i, [i]) <$> seq 0 (length (gm_factors gm));
     New := replicate (length (gm_factors gm)) [] |}.

(** Mini-buckets, run schematically along the order. *)
Definition init_buckets (s : ijgp) : outcome ijgp :=
  let L := init_locals (m_gmo s) in
  let s := set_m_clusters (resize (length (m_order s)) [] (m_clusters s)) s in
  '(L, s) ← for_each bucket (m_order s) (L, s);
  Ok s.

(** Scopes of the clusters. *)
Definition init_scopes (s : ijgp) : outcome ijgp :=
  let C := length (m_factors s) in
  let s := set_m_separators
             (resize C ∅ <$> resize C [] (m_separators s)) s in
  let s := set_m_scopes (resize C ∅ (m_scopes s)) s in
  for_each (λ i s, F ← at_ (m_factors s) i;
                   sc ← put (m_scopes s) i (f_vars F);
                   Ok (set_m_scopes sc s)) (seq 0 C) s.

(** Separators. *)
Definition init_separators (s : ijgp) : outcome ijgp :=
  for_each separator_of (edges s) s.

(** Incoming and outgoing lists of each cluster. *)
Definition in_out_of (e : nat * nat) (s : ijgp) : outcome ijgp :=
  let '(from, to) := e in
  i ← at_ (m_in s) to;
  m_in' ← put (m_in s) to (fl_insert from i);     (* m_in[to] |= from *)
  let s := set_m_in m_in' s in
  o ← at_ (m_out s) from;
  m_out' ← put (m_out s) from (fl_insert to o);   (* m_out[from] |= to *)
  Ok (set_m_out m_out' s).

Definition init_in_out (s : ijgp) : outcome ijgp :=
  let C := length (m_factors s) in
  let s := set_m_out (resize C [] (m_out s)) (set_m_in (resize C [] (m_in s)) s) in
  for_each in_out_of (m_schedule s) s.

(** The root clusters. *)
Definition init_roots (s : ijgp) : ijgp :=
  foldl (λ s i, match m_out s !! i with
                | Some [] => set_m_roots (fl_insert i (m_roots s)) s
                | _ => s
                end) s (seq 0 (length (m_out s))).

(** Forward and backward messages and the indices of the edges;
    [resize(N)] fills with [factor()], the scalar 1. *)
Definition init_messages (s : ijgp) : outcome ijgp :=
  let C := length (m_factors s) in
  let N := length (m_schedule s) in
  let s := set_m_forward (resize N (f_scalar (d_lit 1)) (m_forward s)) s in
  let s := set_m_backward (resize N (f_scalar (d_lit 1)) (m_backward s)) s in
  let s := set_m_edge_indeces
             (resize C 0%nat <$> resize C [] (m_edge_indeces s)) s in
  for_each (λ i s, '(from, to) ← at_ (m_schedule s) i;
                   ei ← put2 (m_edge_indeces s) from to i;
                   Ok (set_m_edge_indeces ei s)) (seq 0 N) s.

(** Potentials of the clusters. *)
Definition init_potentials (s : ijgp) : outcome ijgp :=
  for_each potential_of (seq 0 (length (m_factors s))) s.

(** Beliefs. *)
Definition init_beliefs (s : ijgp) : ijgp :=
  let n := gm_nvar (m_gmo s) in
  let s := set_m_log_z (d_lit 0) s in
  let s := set_m_beliefs (resize n (f_scalar (d_lit 1)) []) s in
  set_m_best_config (resize n SIZE_MAX (m_best_config s)) s.

Definition init (s : ijgp) : outcome ijgp :=
  s ← init_buckets (init_order s);
  s ← init_scopes s;
  s ← init_separators s;
  s ← init_in_out s;
  s ← init_messages (init_roots s);
  s ← init_potentials s;
  Ok (init_beliefs s).

(** ** Beliefs of clusters *)

(** The product of [bel] with the messages [msgs[idx p]] for [p] in [ps],
    but for [p = skip]. *)
Definition multiply_in (msgs : list factor) (idx : nat → outcome nat)
    (skip : option nat) (ps : flist) (bel : factor) : outcome factor :=
  for_each (λ p bel,
              if decide (skip = Some p) then Ok bel
              else j ← idx p; F ← at_ msgs j; Ok (f_mul bel F)) ps bel.

(** [calc_belief(a)] *)
Definition calc_belief (s : ijgp) (a : nat) : outcome factor :=
  bel ← at_ (m_factors s) a;
  ins ← at_ (m_in s) a;
  bel ← multiply_in (m_forward s) (λ p, at2 (m_edge_indeces s) p a) None ins bel;
  outs ← at_ (m_out s) a;
  multiply_in (m_backward s) (λ p, at2 (m_edge_indeces s) a p) None outs bel.

(** [calc_belief(a, b)] *)
Definition calc_belief_excl (s : ijgp) (a b : nat) : outcome factor :=
  bel ← at_ (m_factors s) a;
  ins ← at_ (m_in s) a;
  bel ← multiply_in (m_forward s) (λ p, at2 (m_edge_indeces s) p a) (Some b) ins bel;
  outs ← at_ (m_out s) a;
  multiply_in (m_backward s) (λ p, at2 (m_edge_indeces s) a p) (Some b) outs bel.

(** [incoming(a)] *)
Definition incoming (s : ijgp) (a : nat) : outcome factor :=
  bel ← at_ (m_factors s) a;
  ins ← at_ (m_in s) a;
  multiply_in (m_forward s) (λ p, at2 (m_edge_indeces s) p a) None ins bel.

(** ** Message passing *)

(** The forward message of one edge of the schedule. *)
Definition forward_edge (e : nat * nat) (s : ijgp) : outcome ijgp :=
  let '(a, b) := e in
  ei ← at2 (m_edge_indeces s) a b;
  sa ← at_ (m_scopes s) a;
  sep ← at2 (m_separators s) a b;
  let VX := sa ∖ sep in
  bel ← calc_belief_excl s a b;
  let msg := elim s bel VX in
  let mx := f_max msg in
  fw ← put (m_forward s) ei (f_div msg mx);
  Ok (set_m_log_z (d_add (m_log_z s) (d_log mx)) (set_m_forward fw s)).

(** The term of one root in [F]. *)
Definition root_term (s : ijgp) (ci : nat) (F : factor) : outcome factor :=
  bel ← calc_belief s ci;
  match m_cluster2var s !! ci with
  | None => Undefined                              (* assert(mi != end()) *)
  | Some v =>
      if decide (m_task s = MAR)
      then Ok (f_add F (d_log (f_sum bel)))
      else Ok (f_add F (d_log (f_max bel)))
  end.

(** [forward()] *)
Definition forward (s : ijgp) : outcome ijgp :=
  let s := set_m_log_z (d_lit 0) s in
  s ← for_each forward_edge (m_schedule s) s;
  F ← for_each (root_term s) (m_roots s) (f_scalar (d_lit 0));
  Ok (set_m_log_z (d_add (m_log_z s) (f_max F)) s).

(** The backward message of one edge of the schedule. *)
Definition backward_edge (e : nat * nat) (s : ijgp) : outcome ijgp :=
  let '(a, b) := e in
  ei ← at2 (m_edge_indeces s) a b;
  sb ← at_ (m_scopes s) b;
  sep ← at2 (m_separators s) a b;
  let VX := sb ∖ sep in
  bel ← calc_belief_excl s b a;
  let msg := elim s bel VX in
  let mx := f_max msg in
  bw ← put (m_backward s) ei (f_div msg mx);
  Ok (set_m_backward bw s).

(** [backward()] *)
Definition backward (s : ijgp) : outcome ijgp :=
  for_each backward_edge (rev (m_schedule s)) s.

(** ** Beliefs of variables *)

(** The belief of variable [v], read from the first cluster of [v];
    [rescale] tells the first loop of [update], which divides by the maximum
    for task MAP, from the second, which always normalizes. *)
Definition belief_of (rescale : bool) (v : nat) (s : ijgp) : outcome ijgp :=
  Cv ← at_ (m_clusters s) v;
  c ← at_ Cv 0;                                    (* m_clusters[v][0] *)
  vars ← at_ (m_scopes s) c;
  bel ← calc_belief s c;
  let b := marg s bel {[v]} in
  let b := if rescale && bool_decide (m_task s = MAP)
           then f_div b (f_max b) else f_normalize b in
  bl ← put (m_beliefs s) v b;
  Ok (set_m_beliefs bl s).

(** The entries of [l] before the first [x]. *)
Fixpoint before (x : nat) (l : list nat) : list nat :=
  match l with
  | [] => []
  | y :: l' => if decide (y = x) then [] else y :: before x l'
  end.

(** The value of variable [x] in the MAP assignment. *)
Definition assign (x : nat) (s : ijgp) : outcome ijgp :=
  Cx ← at_ (m_clusters s) x;
  a ← at_ Cx 0;                                    (* m_clusters[*x][0] *)
  bel ← incoming s a;
  bel ← for_each (λ y bel,
                    sa ← at_ (m_scopes s) a;
                    if decide (y ∈ sa)
                    then k ← at_ (m_best_config s) y; Ok (f_condition bel y k)
                    else Ok bel)
                 (before x (rev (m_order s))) bel;
  bc ← put (m_best_config s) x (f_argmax bel);
  Ok (set_m_best_config bc s).

(** [update()] *)
Definition update (s : ijgp) : outcome ijgp :=
  let vs := seq 0 (gm_nvar (m_gmo s)) in
  s ← for_each (belief_of true) vs s;
  match m_task s with
  | MAR | PR => for_each (belief_of false) vs s
  | MAP => for_each assign (rev (m_order s)) s
  end.

(** ** Iterations *)

(** The loop of [propagate],
    [for (size_t iter = 1; iter <= nIter; ++iter)]. [k] counts the passes
    from 1; the [size_t iter] of pass [k] is [k] modulo 2^64, since [++iter]
    wraps around after [SIZE_MAX]: for [nIter = SIZE_MAX] the test
    [iter <= nIter] never fails and only a [break] leaves the loop. [fuel]
    bounds the tests of the loop that the model follows; [OutOfFuel] tells
    that the loop was not left within them. [elapsed k] is the reading
    [timeSystem() - m_start_time] taken at the end of pass [k]. *)
Fixpoint propagate_loop (fuel : nat) (k : nat) (nIter : Z)
    (stopTime stopObj : double) (elapsed : nat → double) (s : ijgp)
  : outcome ijgp :=
  match fuel with
  | O => OutOfFuel
  | S fuel' =>
      let iter := to_size_t (Z.of_nat k) in
      if decide (iter ≤ nIter) then                  (* iter <= nIter *)
        let prevZ := m_log_z s in
        s ← forward s;
        s ← backward s;
        s ← update s;
        let dObj := d_fabs (d_sub (m_log_z s) prevZ) in
        let s := set_cout (cout s ++ [IterLine (m_log_z s) dObj iter]) s in
        if d_ltb dObj stopObj then Ok s
        else if d_ltb (d_lit 0) stopTime && d_leb stopTime (elapsed k)
        then Ok s
        else propagate_loop fuel' (S k) nIter stopTime stopObj elapsed s
      else Ok s
  end.

(** [propagate(nIter, stopTime, stopObj)] *)
Definition propagate (fuel : nat) (nIter : Z) (stopTime stopObj : double)
    (elapsed : nat → double) (s : ijgp) : outcome ijgp :=
  propagate_loop fuel 1 nIter stopTime stopObj elapsed s.

(** Modelled from the spec: a factor is a table indexed by the assignments
    to its scope (the factor class is not part of ijgp.h). [F[j]] reads the
    entry [j] of the table, undefined past its end; the value read goes to
    the output, which the model does not keep. *)
Definition f_entry (F : factor) (j : nat) : outcome unit :=
  if decide (j < f_numel F)%nat then Ok () else Undefined.

(** The solution that [run()] prints for the tasks PR and MAR:
    [belief(VX)[j]] for every state [j] of every variable. *)
Definition print_beliefs (s : ijgp) : outcome unit :=
  for_each (λ v _,
              for_each (λ j _, F ← belief s v; f_entry F j)
                       (seq 0 (gm_states (m_gmo s) v)) ())
           (seq 0 (gm_nvar (m_gmo s))) ().

(** The solution that it prints for task MAP: [m_best_config[v]]. *)
Definition print_config (s : ijgp) : outcome unit :=
  for_each (λ v _, _ ← at_ (m_best_config s) v; Ok ())
           (seq 0 (gm_nvar (m_gmo s))) ().

(** [run()]: [propagate(num_iter)] has the stop values -1 of its default
    arguments. Of the output, the model keeps the closing line of the
    iterations and follows the reads of the solution. *)
Definition run (fuel : nat) (elapsed : nat → double) (s : ijgp)
  : outcome ijgp :=
  s ← init s;
  s ← propagate fuel (num_iter s) (d_lit (-1)) (d_lit (-1)) elapsed s;
  let s := set_cout (cout s ++ [Converged (num_iter s)]) s in
  match m_task s with
  | PR | MAR => _ ← print_beliefs s; Ok s
  | MAP =>
      let s := set_m_lb (gm_logP (m_gmo s) (m_best_config s)) s in
      _ ← print_config s; Ok s
  end.

(** The number of passes of [propagate] that were completed. *)
Definition is_IterLine (l : line) : bool :=
  match l with IterLine _ _ _ => true | Converged _ => false end.

Definition iterations (s : ijgp) : nat :=
  length (filter (λ l, is_IterLine l) (cout s)).

(** ** Other accessors *)

(** [logZub()], [logZlb()]: the value of [m_log_z], as [logZ()]. *)
Definition logZub (s : ijgp) : double := m_log_z s.
Definition logZlb (s : ijgp) : double := m_log_z s.

(** [beliefs()], [get_gm_orig()] *)
Definition beliefs (s : ijgp) : list factor := m_beliefs s.
Definition get_gm_orig (s : ijgp) : graphical_model := m_gmo s.

(** [get_order()], [get_pseudo_tree()], [set_pseudo_tree(p)] *)
Definition get_order (s : ijgp) : list nat := m_order s.
Definition get_pseudo_tree (s : ijgp) : list Z := m_parents s.
Definition set_pseudo_tree (p : list Z) (s : ijgp) : ijgp := set_m_parents p s.

End WithFactors.

(** ** A term model of the collaborators

    Doubles and factors are the terms of the operations that built them, and
    the scope of a factor term follows the operations. The model shows which
    operations the code applies, and where; it serves the examples, the
    general theorems do not depend on it. *)

Inductive tdouble : Type :=
  | TLit (z : Z)
  | TAdd (a b : tdouble)
  | TSub (a b : tdouble)
  | TLog (a : tdouble)
  | TFabs (a : tdouble)
  | TSum (F : tfactor)
  | TMax (F : tfactor)
  | TLogP (nvar : nat) (tables : list tfactor) (cfg : list Z)
with tfactor : Type :=
  | TTable (name : nat) (vs : variable_set)        (* a table of the input *)
  | TScalar (d : tdouble)
  | TOnes (vs : variable_set)
  | TMul (F G : tfactor)
  | TSumOut (F : tfactor) (vs : variable_set)
  | TMaxOut (F : tfactor) (vs : variable_set)
  | TMarginal (F : tfactor) (vs : variable_set)
  | TMaxMarginal (F : tfactor) (vs : variable_set)
  | TDiv (F : tfactor) (d : tdouble)
  | TPlus (F : tfactor) (d : tdouble)
  | TNormalize (F : tfactor)
  | TCondition (F : tfactor) (v : nat) (k : Z).

Fixpoint t_vars (F : tfactor) : variable_set :=
  match F with
  | TTable _ vs => vs
  | TScalar _ => ∅
  | TOnes vs => vs
  | TMul F G => t_vars F ∪ t_vars G
  | TSumOut F vs | TMaxOut F vs => t_vars F ∖ vs
  | TMarginal F vs | TMaxMarginal F vs => t_vars F ∩ vs
  | TDiv F _ | TPlus F _ | TNormalize F => t_vars F
  | TCondition F v _ => t_vars F ∖ {[v]}
  end.

(** An order test is decided between literals; between other terms it is
    false, as every order test on a NaN is. *)
Definition t_ltb (a b : tdouble) : bool :=
  match a, b with
  | TLit x, TLit y => x <? y
  | _, _ => false
  end.
Definition t_leb (a b : tdouble) : bool :=
  match a, b with
  | TLit x, TLit y => x <=? y
  | _, _ => false
  end.

#[global] Instance term_algebra : FactorAlgebra := {|
  double := tdouble;
  factor := tfactor;
  d_lit := TLit;
  d_add := TAdd;
  d_sub := TSub;
  d_log := TLog;
  d_fabs := TFabs;
  d_ltb := t_ltb;
  d_leb := t_leb;
  f_scalar := TScalar;
  f_ones := TOnes;
  f_vars := t_vars;
  f_mul := TMul;
  f_sum_out := TSumOut;
  f_max_out := TMaxOut;
  f_marginal := TMarginal;
  f_maxmarginal := TMaxMarginal;
  f_sum := TSum;
  f_max := TMax;
  f_div := TDiv;
  f_add := TPlus;
  f_normalize := TNormalize;
  f_condition := TCondition;
  f_argmax := λ _, 0;                (* a term has no entry to search *)
  f_numel := λ F, (2 ^ size (t_vars F))%nat;  (* two states a variable *)
|}.

(** Modelled from the spec: the induced width of an elimination order
    ([graphical_model::induced_width] is not part of ijgp.h), the largest
    number of neighbours that a variable has when it is eliminated. *)
Fixpoint induced_width_from (scopes : list variable_set) (order : list nat)
    (w : nat) : nat :=
  match order with
  | [] => w
  | x :: order' =>
      let U := ⋃ filter (λ sc, x ∈ sc) scopes in
      induced_width_from
        ((U ∖ {[x]}) :: filter (λ sc, x ∉ sc) scopes) order'
        (Nat.max w (size U - 1))
  end.

(** Modelled from the spec: the names of the ordering methods and the
    heuristics ([graphical_model::OrderMethod], [order] and [pseudo_tree]
    are not part of ijgp.h). The spec names the method MinFill and leaves
    the heuristics to a collaborator; here the order is the one of the
    labels and every variable is a root of the pseudo tree. The score
    [logP] of an assignment is the term of a call. Every variable has two
    states, and a factor term one entry for each assignment to its
    scope. *)
Inductive TOrderMethod := MinFill.

#[global] Instance term_services : ModelServices := {|
  OrderMethod := TOrderMethod;
  OrderMethod_of_name := enum_of_name [("MinFill"%string, MinFill)];
  gm_order := λ gm _, seq 0 (gm_nvar gm);
  gm_pseudo_tree := λ gm order, replicate (length order) (-1);
  gm_induced_width := λ gm order,
    Z.of_nat (induced_width_from (f_vars <$> gm_factors gm) order 0);
  gm_logP := λ gm cfg, TLogP (gm_nvar gm) (gm_factors gm) cfg;
  gm_states := λ gm v, 2%nat;
|}.

(** ** Objects of the examples *)

Definition from_Ok {A} (d : A) (o : outcome A) : A :=
  match o with Ok a => a | _ => d end.

(** The call returned; the call raised. *)
Definition is_Ok {A} (o : outcome A) : bool :=
  match o with Ok _ => true | _ => false end.
Definition is_Throw {A} (o : outcome A) : bool :=
  match o with Throw _ => true | _ => false end.

(** The call read a vector out of range; the call was not granted passes
    enough. *)
Definition is_Undefined {A} (o : outcome A) : bool :=
  match o with Undefined => true | _ => false end.
Definition is_OutOfFuel {A} (o : outcome A) : bool :=
  match o with OutOfFuel => true | _ => false end.

(** [ijgp(gm)], then [set_properties(props)] and [set_order(ord)], over the
    term model. *)
Definition configured (gm : graphical_model) (props : string) (ord : list nat)
  : ijgp :=
  from_Ok (ijgp_blank gm (TLit 0) MinFill)
    (s ← ijgp_new gm (TLit 0) MinFill;
     s ← set_properties props s;
     Ok (set_order ord s)).

(** One table over the variables 0 and 1. *)
Definition pair_model : graphical_model :=
  {| gm_nvar := 2; gm_factors := [TTable 0 {[0%nat; 1%nat]}] |}.

(** Three variables, a table over 0 and 1 and a table over 1 and 2. *)
Definition chain_model : graphical_model :=
  {| gm_nvar := 3;
     gm_factors := [TTable 0 {[0%nat; 1%nat]}; TTable 1 {[1%nat; 2%nat]}] |}.

(** Three variables with a table over each pair. *)
Definition triangle_model : graphical_model :=
  {| gm_nvar := 3;
     gm_factors := [TTable 0 {[0%nat; 1%nat]}; TTable 1 {[1%nat; 2%nat]};
                    TTable 2 {[0%nat; 2%nat]}] |}.

(** Two variables and one table, over variable 0 alone. *)
Definition lonely_model : graphical_model :=
  {| gm_nvar := 2; gm_factors := [TTable 0 {[0%nat]}] |}.

(** The clock of the examples, and the tests that they grant the loop of
    [propagate]: one more than the 10 iterations of the defaults. *)
Definition no_time : nat → tdouble := λ _, TLit 0.
Definition enough : nat := 11.

(** An object before [set_properties]. *)
Definition blank : ijgp := ijgp_blank pair_model (TLit 0) MinFill.

(** The object of the pair model for task MAR with the order 0, 1; the
    object that [init()] makes of it, and the one that [run()] makes. *)
Definition pair_MAR : ijgp := configured pair_model "Task=MAR" [0; 1]%nat.
Definition pair_built : ijgp := from_Ok blank (init pair_MAR).
Definition pair_run : ijgp := from_Ok blank (run enough no_time pair_MAR).

(** The same for task MAP. *)
Definition pair_MAP : ijgp := configured pair_model "Task=MAP" [0; 1]%nat.
Definition pair_MAP_built : ijgp := from_Ok blank (init pair_MAP).

(** ** Vocabulary of the properties *)

(** Outcomes of code that has no [throw]. *)
Definition no_throw {A} (o : outcome A) : Prop := ¬ raises o.

(** Outcomes of code without [throw] and without a bounded loop. *)
Definition plain {A} (o : outcome A) : Prop :=
  match o with Ok _ | Undefined => True | _ => False end.

Section Vocabulary.
Context `{FA : FactorAlgebra} `{MS : !ModelServices}.
Implicit Types s t : ijgp.
Implicit Types L : locals.

(** The members that the loop over the buckets writes. *)
Definition built_from s s' : Prop :=
  s' = set_m_originals (m_originals s')
        (set_m_schedule (m_schedule s')
          (set_m_cluster2var (m_cluster2var s')
            (set_m_clusters (m_clusters s')
              (set_m_edges (m_edges s')
                (set_m_factors (m_factors s') s))))).

(** The members that [init] never writes. *)
Definition kept_by_init s :=
  (m_gmo s, cout s, m_task s, m_elim_op s, m_ibound s, m_order_method s,
   m_lb s, m_debug s).

(** Pushing edges writes the edges and the schedule only. *)
Definition pushed_from s s' : Prop :=
  s' = set_m_schedule (m_schedule s') (set_m_edges (m_edges s') s).

(** No cluster is recorded for variable [v]. *)
Definition no_cluster (s : ijgp) (v : nat) : Prop :=
  m_clusters s !! v = None ∨ m_clusters s !! v = Some [].

(** No factor of the model has [v] in its scope. *)
Definition unused (gm : graphical_model) (v : nat) : Prop :=
  ∀ F, F ∈ gm_factors gm → v ∉ f_vars F.

Definition no_entry (adj : list flist) (v : nat) : Prop :=
  adj !! v = None ∨ adj !! v = Some [].

(** The invariant of the construction for a variable without factor. *)
Definition stays_unused (v : nat) L t : Prop :=
  (∀ i F, fin L !! i = Some F → v ∉ F) ∧ no_entry (vin L) v ∧ no_cluster t v.

(** Every edge of the schedule was added to the graph, and the graph holds
    each of its edges in both directions. *)
Definition schedule_in_edges t : Prop :=
  (∀ e, e ∈ m_schedule t → e ∈ m_edges t) ∧
  (∀ a b, (a, b) ∈ m_edges t → (b, a) ∈ m_edges t).

Definition originals_within (gm : graphical_model) L t : Prop :=
  length (m_originals t) = length (m_factors t) ∧
  (∀ i Oi Fi o G,
     Orig L !! i = Some Oi → fin L !! i = Some Fi → o ∈ Oi →
     gm_factors gm !! o = Some G → f_vars G ⊆ Fi) ∧
  (∀ α Oα Fα o G,
     m_originals t !! α = Some Oα → m_factors t !! α = Some Fα → o ∈ Oα →
     gm_factors gm !! o = Some G → f_vars G ⊆ f_vars Fα).

(** Scopes: [m_scopes[i] = m_factors[i].vars()]. *)
Definition scope_recorded t (i : nat) : Prop :=
  ∃ F, m_factors t !! i = Some F ∧ m_scopes t !! i = Some (f_vars F).

(** Separators: the cell of an edge holds the intersection of the scopes of
    its two clusters. *)
Definition separator_recorded t (a b : nat) : Prop :=
  ∃ Fa Fb, m_factors t !! a = Some Fa ∧ m_factors t !! b = Some Fb ∧
           at2 (m_separators t) a b = Ok (f_vars Fa ∩ f_vars Fb).

(** Incoming and outgoing lists hold edges of the schedule. *)
Definition in_out_in_schedule t : Prop :=
  (∀ a ins p, m_in t !! a = Some ins → p ∈ ins → (p, a) ∈ m_schedule t) ∧
  (∀ a outs q, m_out t !! a = Some outs → q ∈ outs → (a, q) ∈ m_schedule t).

(** Indices of the edges: the cell of an edge of the schedule holds a
    position of this edge in the schedule. *)
Definition edge_indexed t (i : nat) : Prop :=
  ∀ a b, m_schedule t !! i = Some (a, b) →
         ∃ j, at2 (m_edge_indeces t) a b = Ok j ∧ m_schedule t !! j = Some (a, b).

(** Potentials: the product of the original factors of a cluster lies
    within the scope of the cluster. *)
Definition potentials_within t : Prop :=
  ∀ i F sc, m_factors t !! i = Some F → m_scopes t !! i = Some sc →
            f_vars F ⊆ sc.

Definition originals_within_scopes t : Prop :=
  ∀ α Oα sc o G, m_originals t !! α = Some Oα → m_scopes t !! α = Some sc →
                 o ∈ Oα → gm_factors (m_gmo t) !! o = Some G → f_vars G ⊆ sc.

(** The object as its constructor leaves it: no cluster, edge or message. *)
Definition unbuilt s : Prop :=
  m_factors s = [] ∧ m_edges s = [] ∧ m_schedule s = [] ∧
  m_originals s = [] ∧ m_clusters s = [] ∧ m_in s = [] ∧ m_out s = [] ∧
  m_forward s = [] ∧ m_backward s = [].

Definition join_graph_ok t : Prop :=
  (∀ a b, (a, b) ∈ m_schedule t →
     ∃ sa sb, m_scopes t !! a = Some sa ∧ m_scopes t !! b = Some sb ∧
              at2 (m_separators t) a b = Ok (sa ∩ sb)) ∧
  potentials_within t ∧ in_out_in_schedule t ∧ (∀ i, edge_indexed t i).

Definition messages_within t : Prop :=
  ∀ j a b sep F,
    m_schedule t !! j = Some (a, b) → at2 (m_separators t) a b = Ok sep →
    m_forward t !! j = Some F ∨ m_backward t !! j = Some F → f_vars F ⊆ sep.

(** The objects that passes of message passing lead to. *)
Inductive passes : ijgp → ijgp → Prop :=
  | passes_none s : passes s s
  | passes_forward s t u : passes s t → forward t = Ok u → passes s u
  | passes_backward s t u : passes s t → backward t = Ok u → passes s u
  | passes_update s t u : passes s t → update t = Ok u → passes s u.

(** [n] full iterations of [propagate] lead from [s] to [u]: each is a
    forward pass, a backward pass and an update of the beliefs on the
    object that the one before left, followed by its line of output. *)
Inductive iterated : nat → ijgp → ijgp → Prop :=
  | iterated_none s : iterated 0 s s
  | iterated_pass n s t1 t2 t3 l u :
      forward s = Ok t1 → backward t1 = Ok t2 → update t2 = Ok t3 →
      is_IterLine l = true →
      iterated n (set_cout (cout t3 ++ [l]) t3) u →
      iterated (S n) s u.

(** What [run()] does after [propagate] to the object [t] that it left:
    the closing line and, for task MAP, the score of the assignment. *)
Definition reported (t : ijgp) : ijgp :=
  let u := set_cout (cout t ++ [Converged (num_iter t)]) t in
  match m_task t with
  | PR | MAR => u
  | MAP => set_m_lb (gm_logP (m_gmo u) (m_best_config u)) u
  end.

(** The members that [set_properties] writes. *)
Definition configured_from s s' : Prop :=
  s' = set_m_debug (m_debug s')
        (set_m_elim_op (m_elim_op s')
          (set_m_task (m_task s')
            (set_num_iter (num_iter s')
              (set_m_order_method (m_order_method s')
                (set_m_parents (m_parents s')
                  (set_m_order (m_order s')
                    (set_m_ibound (m_ibound s') s))))))).

(** The elimination operator is the one of the task: Sum for MAR. *)
Definition elim_op_of_task s : Prop := m_elim_op s = Sum ↔ m_task s = MAR.

(** The string of properties [opt] has a pair whose key is the name of [p]. *)
Definition names (opt : string) (p : Property) : Prop :=
  ∃ str key, str ∈ split opt "," ∧ split str "=" !! 0%nat = Some key ∧
             Property_of_name key = Ok p.

(** The indices of clusters that the object holds are those of clusters
    that exist, and each cluster has its variable. *)
Definition clusters_in_range t : Prop :=
  let C := length (m_factors t) in
  (∀ a b, (a, b) ∈ m_schedule t → (a < C)%nat ∧ (b < C)%nat) ∧
  (∀ c, (c < C)%nat → is_Some (m_cluster2var t !! c)) ∧
  (∀ x cl c, m_clusters t !! x = Some cl → c ∈ cl → (c < C)%nat).

Definition new_in_range L t : Prop :=
  ∀ i Ni p, New L !! i = Some Ni → p ∈ Ni → (p < length (m_factors t))%nat.

(** The sizes of the vectors of the join graph and the range of the indices
    that message passing reads. *)
Definition well_formed t : Prop :=
  let C := length (m_factors t) in
  let N := length (m_schedule t) in
  clusters_in_range t ∧
  length (m_scopes t) = C ∧ length (m_in t) = C ∧ length (m_out t) = C ∧
  length (m_separators t) = C ∧
  (∀ row, row ∈ m_separators t → length row = C) ∧
  length (m_forward t) = N ∧ length (m_backward t) = N ∧
  in_out_in_schedule t ∧ (∀ i, edge_indexed t i) ∧
  (∀ c, c ∈ m_roots t → (c < C)%nat).

(** What [update()] reads beyond the join graph: a belief and an entry of
    the assignment for each variable of the model, a first cluster for each
    variable, and for task MAP an order within the variables of the model. *)
Definition ready_for_update t : Prop :=
  let n := gm_nvar (m_gmo t) in
  length (m_beliefs t) = n ∧ length (m_best_config t) = n ∧
  (∀ v, (v < n)%nat → ¬ no_cluster t v) ∧
  (m_task t = MAP → ∀ x, x ∈ m_order t → (x < n)%nat).

(** Every edge of the schedule leads to a cluster of larger index. *)
Definition schedule_ascending t : Prop :=
  ∀ a b, (a, b) ∈ m_schedule t → (a < b)%nat.

(** A list of indices in ascending order. *)
Fixpoint ascending (l : list nat) : Prop :=
  match l with
  | a :: (b :: _) as rest => (a < b)%nat ∧ ascending rest
  | _ => True
  end.

(** The product of the factors of the model with indices [orig], from the
    constant 1, in the order of the indices: the loop of [init] over
    [m_originals[i]]. *)
Definition product_of (gm : graphical_model) (orig : flist) : outcome factor :=
  for_each (λ j F, G ← get_factor gm j; Ok (f_mul F G)) orig
           (f_scalar (d_lit 1)).

(** The list that holds the index [o] of a factor of the model during the
    construction: the entry [i] of [Orig] or the cluster [α]. *)
Inductive holder := in_Orig (i : nat) | in_cluster (α : nat).

Definition holds L t (h : holder) (o : nat) : Prop :=
  match h with
  | in_Orig i => ∃ Oi, Orig L !! i = Some Oi ∧ o ∈ Oi
  | in_cluster α => ∃ Oα, m_originals t !! α = Some Oα ∧ o ∈ Oα
  end.

Definition one_holder (n : nat) L t : Prop :=
  length (m_originals t) = length (m_factors t) ∧
  (∀ h1 h2 o, holds L t h1 o → holds L t h2 o → h1 = h2) ∧
  (∀ h o, holds L t h o → (o < n)%nat).

(** [m_cluster2var] maps a cluster to the variable that lists it. *)
Definition clusters_of_variables t : Prop :=
  ∀ c x, m_cluster2var t !! c = Some x ↔
         ∃ cl, m_clusters t !! x = Some cl ∧ c ∈ cl.

(** The table of scores of a bucket with the mini-buckets [ids]: every
    entry is the one that [reverseScore] holds for its pair, its pair is a
    sorted pair of mini-buckets of [ids], and its key is -1 for a
    mini-bucket with itself and the score of the two scopes otherwise, for
    the pairs of [cur] at least. *)
Definition table_okx s (VX : nat) (fin : list variable_set)
    (cur : nat * nat → Prop) (ids : flist) (t : score_table) : Prop :=
  ∀ e, e ∈ scores t →
    (e_pair e).1 ∈ ids ∧ (e_pair e).2 ∈ ids ∧
    ((e_pair e).2 ≤ (e_pair e).1)%nat ∧
    reverseScore t !! e_pair e = Some (e_id e) ∧
    (cur (e_pair e) →
     if decide ((e_pair e).1 = (e_pair e).2) then e_key e = (-1)%Q
     else score s fin VX (e_pair e).1 (e_pair e).2 = Ok (e_key e)).

Definition table_ok s (VX : nat) (fin : list variable_set) (ids : flist)
    (t : score_table) : Prop :=
  table_okx s VX fin (λ _, True) ids t.

(** The lists of [vin] are strictly increasing. *)
Fixpoint increasing (l : list nat) : Prop :=
  match l with
  | a :: (b :: _) as rest => (a < b)%nat ∧ increasing rest
  | _ => True
  end.

(** The passes that the model grants a loop suffice. *)
Definition enough_fuel {A} (o : outcome A) : Prop := o ≠ OutOfFuel.

(** Every list of [vin] is strictly increasing. *)
Definition vin_increasing L : Prop := Forall increasing (vin L).

(** Every scope of the list has at most [B] variables. *)
Definition scopes_within (B : Z) (fin : list variable_set) : Prop :=
  Forall (λ F, nvar F ≤ B) fin.

(** The mini-buckets and the clusters made so far have at most [B]
    variables each, under the i-bound [I]. *)
Definition bounded (B I : Z) L (u : ijgp) : Prop :=
  vin_increasing L ∧ scopes_within B (fin L) ∧
  scopes_within B (f_vars <$> m_factors u) ∧ m_ibound u = I.

(** The sorted pairs of the mini-buckets of [ids]. *)
Definition pairs_of (ids : flist) (p : nat * nat) : Prop :=
  ∃ i j, i ∈ ids ∧ j ∈ ids ∧ p = sPair i j.

(** The table holds an entry for every pair of [pairs], and its entries
    have serial numbers of their own, below the next one. *)
Definition table_full (pairs : nat * nat → Prop) (t : score_table) : Prop :=
  (∀ e, e ∈ scores t → (e_id e < next_id t)%nat) ∧
  (∀ e1 e2, e1 ∈ scores t → e2 ∈ scores t → e_id e1 = e_id e2 → e1 = e2) ∧
  (∀ p, pairs p → ∃ e, e ∈ scores t ∧ e_pair e = p).

(** The local vectors have one entry per factor of the model, the lists of
    [vin] hold indices of [fin], and the scopes of [fin] hold indices of
    [vin]. *)
Definition locals_in_range L : Prop :=
  length (Orig L) = length (fin L) ∧ length (New L) = length (fin L) ∧
  (∀ x ids i, vin L !! x = Some ids → i ∈ ids → (i < length (fin L))%nat) ∧
  (∀ i F v, fin L !! i = Some F → v ∈ F → (v < length (vin L))%nat).

(** Every edge of the graph joins the two clusters of an edge of the
    schedule. *)
Definition edges_of_schedule t : Prop :=
  ∀ a b, (a, b) ∈ m_edges t → (a, b) ∈ m_schedule t ∨ (b, a) ∈ m_schedule t.

(** Variable [v] is in the scope of a mini-bucket that [vin] lists for
    it. *)
Definition listed (v : nat) L : Prop :=
  ∃ i F ids, fin L !! i = Some F ∧ v ∈ F ∧ vin L !! v = Some ids ∧ i ∈ ids.




(** The entries that [set_properties(opt)] reads: those of the default
    string for the empty string. *)
Definition entries (opt : string) : list (list string) :=
  (λ str, split str "=") <$>
  split (if decide (String.length opt = 0%nat) then default_properties
         else opt) ",".

(** In the schedule, the edges that lead to a cluster come before the
    edges that leave it. *)
Definition schedule_ordered (sched : list (nat * nat)) : Prop :=
  ∀ n n' a b c, sched !! n = Some (a, b) → sched !! n' = Some (c, a) →
                (n' < n)%nat.

(** The invariant of the construction on the origin of the variables:
    a variable of the scope of a mini-bucket, or of a cluster, is in the
    scope of an original factor that the mini-bucket, or the cluster, holds
    or in the scope of a cluster that feeds into it. *)
Definition covered (gm : graphical_model) L t : Prop :=
  (∀ i Fi v, fin L !! i = Some Fi → v ∈ Fi →
     (∃ Oi o G, Orig L !! i = Some Oi ∧ o ∈ Oi ∧
                gm_factors gm !! o = Some G ∧ v ∈ f_vars G) ∨
     (∃ Ni c Fc, New L !! i = Some Ni ∧ c ∈ Ni ∧
                 m_factors t !! c = Some Fc ∧ v ∈ f_vars Fc)) ∧
  (∀ α Fα v, m_factors t !! α = Some Fα → v ∈ f_vars Fα →
     (∃ Oα o G, m_originals t !! α = Some Oα ∧ o ∈ Oα ∧
                gm_factors gm !! o = Some G ∧ v ∈ f_vars G) ∨
     (∃ c Fc, (c, α) ∈ m_schedule t ∧ m_factors t !! c = Some Fc ∧
              v ∈ f_vars Fc)).

(** The invariant of the construction on the order of the schedule. *)
Definition ordered L t : Prop :=
  vin_increasing L ∧ clusters_in_range t ∧ new_in_range L t ∧
  (∀ i Ni, New L !! i = Some Ni → increasing Ni) ∧
  NoDup (m_schedule t) ∧ schedule_ordered (m_schedule t).

(** A variable of the scope of a cluster is in the scope of the potential
    of the cluster or in the scope of a cluster that sends it a forward
    message. *)
Definition scopes_covered t : Prop :=
  ∀ a sa v, m_scopes t !! a = Some sa → v ∈ sa →
    (∃ F, m_factors t !! a = Some F ∧ v ∈ f_vars F) ∨
    (∃ c sc, (c, a) ∈ m_schedule t ∧ m_scopes t !! c = Some sc ∧ v ∈ sc).

(** The members that a forward pass reads of the join graph. *)
Definition graph_of t :=
  (m_schedule t, m_scopes t, m_separators t, m_factors t, m_in t, m_out t,
   m_edge_indeces t).

(** The join graph as message passing needs it: the separators, the
    lists and the indices of the edges are those of the schedule, no edge
    is scheduled twice, every edge leads to a cluster of larger index and
    comes after the edges into its source. *)
Definition sendable t : Prop :=
  join_graph_ok t ∧ schedule_ascending t ∧ NoDup (m_schedule t) ∧
  schedule_ordered (m_schedule t) ∧ scopes_covered t ∧
  (∀ c a, (c, a) ∈ m_schedule t → ∃ ins, m_in t !! a = Some ins ∧ c ∈ ins).

(** The forward message of every edge of the schedule has the separator
    of the edge as its scope. *)
Definition forward_sent t : Prop :=
  ∀ j a b sa sb, m_schedule t !! j = Some (a, b) →
    m_scopes t !! a = Some sa → m_scopes t !! b = Some sb →
    ∃ F, m_forward t !! j = Some F ∧ f_vars F = sa ∩ sb.







End Vocabulary.

(** * Properties *)

(** ** Outcomes and loops *)

Lemma bind_Ok {A B} (o : outcome A) (f : A → outcome B) (b : B) :
  o ≫= f = Ok b ↔ ∃ a, o = Ok a ∧ f a = Ok b.
Proof.
  destruct o; cbn; split; try (intros (? & ? & ?)); try discriminate; eauto.
  congruence.
Qed.

Lemma at_Ok {A} (v : list A) (i : nat) (x : A) :
  at_ v i = Ok x ↔ v !! i = Some x.
Proof. unfold at_. destruct (v !! i); split; congruence. Qed.

Lemma put_Ok {A} (v v' : list A) (i : nat) (x : A) :
  put v i x = Ok v' ↔ (i < length v)%nat ∧ v' = <[i:=x]> v.
Proof. unfold put. case_decide; split; try intros [? ?]; try congruence; try lia; naive_solver. Qed.

Lemma at2_Ok {A} (m : list (list A)) (a b : nat) (x : A) :
  at2 m a b = Ok x ↔ ∃ row, m !! a = Some row ∧ row !! b = Some x.
Proof.
  unfold at2. rewrite bind_Ok. setoid_rewrite at_Ok. reflexivity.
Qed.

Lemma put2_Ok {A} (m m' : list (list A)) (a b : nat) (x : A) :
  put2 m a b x = Ok m' ↔
  ∃ row, m !! a = Some row ∧ (b < length row)%nat ∧ m' = <[a := <[b := x]> row]> m.
Proof.
  unfold put2. rewrite bind_Ok. setoid_rewrite bind_Ok.
  setoid_rewrite at_Ok. setoid_rewrite put_Ok. split.
  - intros (row & Hr & row' & [Hb ->] & [_ ->]). eauto.
  - intros (row & Hr & Hb & ->). exists row. split; [done|].
    exists (<[b:=x]> row). split; [done|]. split; [|done].
    by eapply lookup_lt_Some.
Qed.

(** Inversion of a chain of binds that ends in [Ok]. *)
Ltac ok_inv H :=
  repeat match type of H with
  | _ ≫= _ = Ok _ =>
      let a := fresh "a" in let Ha := fresh "Ha" in
      apply bind_Ok in H; destruct H as (a & Ha & H)
  | at_ _ _ = Ok _ => apply at_Ok in H
  | put _ _ _ = Ok _ => apply put_Ok in H; destruct H as [? ->]
  | Ok _ = Ok _ => injection H as H
  | (let '(_, _) := ?p in _) = Ok _ => destruct p
  end.

Ltac ok_all :=
  repeat match goal with
  | H : at_ _ _ = Ok _ |- _ => apply at_Ok in H
  | H : put _ _ _ = Ok _ |- _ => apply put_Ok in H; destruct H as [? ->]
  end.

(** A loop whose passes leave the state as it is. *)
Lemma for_each_idle {A S} (body : A → S → outcome S) l (z : S) :
  (∀ x, x ∈ l → body x z = Ok z) → for_each body l z = Ok z.
Proof.
  induction l as [|x l IH]; intros Hl; cbn; [done|].
  rewrite Hl by (by left). cbn. apply IH. intros y Hy. apply Hl. by right.
Qed.

(** An invariant of the state of a loop holds when the loop is left. *)
Lemma for_each_inv {A S} (P : S → Prop) (body : A → S → outcome S) l s s' :
  (∀ x s s', x ∈ l → P s → body x s = Ok s' → P s') →
  P s → for_each body l s = Ok s' → P s'.
Proof.
  revert s. induction l as [|x l IH]; intros s Hstep HP Hrun; cbn in Hrun.
  - by injection Hrun as <-.
  - apply bind_Ok in Hrun as (s1 & H1 & Hrun).
    eapply IH; [| |exact Hrun].
    + intros y t t' Hy. apply Hstep. by right.
    + eapply Hstep; [left|exact HP|exact H1].
Qed.


Lemma no_throw_Ok {A} (a : A) : no_throw (Ok a).
Proof. intros [e ?]. discriminate. Qed.
Lemma no_throw_Undefined {A} : no_throw (@Undefined A).
Proof. intros [e ?]. discriminate. Qed.
Lemma no_throw_OutOfFuel {A} : no_throw (@OutOfFuel A).
Proof. intros [e ?]. discriminate. Qed.
Lemma no_throw_bind {A B} (o : outcome A) (f : A → outcome B) :
  no_throw o → (∀ a, no_throw (f a)) → no_throw (o ≫= f).
Proof.
  intros Ho Hf [e He]. destruct o; cbn in He; try discriminate.
  - by apply (Hf a); exists e.
  - apply Ho. by eexists.
Qed.
Lemma no_throw_at {A} (v : list A) i : no_throw (at_ v i).
Proof. unfold at_. destruct (v !! i); [apply no_throw_Ok|apply no_throw_Undefined]. Qed.
Lemma no_throw_put {A} (v : list A) i x : no_throw (put v i x).
Proof. unfold put. case_decide; [apply no_throw_Ok|apply no_throw_Undefined]. Qed.
Lemma no_throw_for_each {A S} (body : A → S → outcome S) l s :
  (∀ x s, no_throw (body x s)) → no_throw (for_each body l s).
Proof.
  intros Hb. revert s. induction l as [|x l IH]; intros s; cbn.
  - apply no_throw_Ok.
  - apply no_throw_bind; auto.
Qed.
Lemma no_throw_at2 {A} (m : list (list A)) a b : no_throw (at2 m a b).
Proof. apply no_throw_bind; intros; apply no_throw_at. Qed.
Lemma no_throw_put2 {A} (m : list (list A)) a b x : no_throw (put2 m a b x).
Proof.
  apply no_throw_bind; [apply no_throw_at|intros].
  apply no_throw_bind; intros; apply no_throw_put.
Qed.

Create HintDb no_throw.
#[global] Hint Resolve no_throw_Ok no_throw_Undefined no_throw_OutOfFuel
  no_throw_at no_throw_put no_throw_at2 no_throw_put2 : no_throw.

Ltac no_throw_step :=
  match goal with
  | |- no_throw (_ ≫= _) => apply no_throw_bind; [|intros]
  | |- no_throw (for_each _ _ _) => apply no_throw_for_each; intros
  | |- no_throw (if ?c then _ else _) => destruct c
  | |- no_throw (let '(_, _) := ?p in _) => destruct p
  | |- no_throw (match ?x with _ => _ end) => destruct x
  | |- _ => solve [auto with no_throw]
  end.
Ltac no_throw := repeat no_throw_step.

(** Two objects with the same members. *)
Ltac frame_eq :=
  try reflexivity;
  repeat match goal with s : @ijgp _ _ |- _ => destruct s end;
  reflexivity.

Section Configuration.
Context `{FA : FactorAlgebra} `{MS : !ModelServices}.
Implicit Types s : ijgp.

(** ** The elimination operator of a task *)

Lemma set_property_task name t s :
  Task_of_name name = Ok t →
  set_property ["Task"; name]%string s
  = Ok (set_m_elim_op (if decide (t = MAR) then Sum else Max) (set_m_task t s)).
Proof. intros Ht. cbn. rewrite Ht. reflexivity. Qed.

(** C1. [set_properties("Task=PR")] leaves the object with task PR and the
    elimination operator Max: [elim] eliminates by maximum, [marg] takes
    max-marginals, and the term of a root in [forward] is the logarithm of
    the maximum of its belief, not of its sum. *)
Theorem set_properties_task_PR s :
  ∃ s', set_properties "Task=PR" s = Ok s' ∧
        m_task s' = PR ∧ m_elim_op s' = Max ∧
        (∀ F vs, elim s' F vs = f_max_out F vs) ∧
        (∀ F vs, marg s' F vs = f_maxmarginal F vs) ∧
        (∀ ci F bel, calc_belief s' ci = Ok bel →
                     is_Some (m_cluster2var s' !! ci) →
                     root_term s' ci F = Ok (f_add F (d_log (f_max bel)))).
Proof.
  eexists. split; [reflexivity|]. repeat split.
  intros ci F bel Hbel [v Hv]. unfold root_term. rewrite Hbel. cbn.
  cbn in Hv. rewrite Hv. reflexivity.
Qed.

(** For the two other tasks the operator is the one of the spec. *)
Lemma set_properties_task_MAR s :
  ∃ s', set_properties "Task=MAR" s = Ok s' ∧ m_task s' = MAR ∧ m_elim_op s' = Sum.
Proof. eexists. split; [reflexivity|]. split; reflexivity. Qed.

Lemma set_properties_task_MAP s :
  ∃ s', set_properties "Task=MAP" s = Ok s' ∧ m_task s' = MAP ∧ m_elim_op s' = Max.
Proof. eexists. split; [reflexivity|]. split; reflexivity. Qed.

(** ** Errors of the property setter *)

Lemma raises_bind {A B} (o : outcome A) (f : A → outcome B) :
  raises (o ≫= f) ↔ raises o ∨ ∃ a, o = Ok a ∧ raises (f a).
Proof.
  unfold raises. destruct o; cbn; split;
    try (intros [e' He]; try discriminate; eauto; fail).
  - intros [[e He]|(a' & Ha & He)]; [discriminate|]. by injection Ha as <-.
  - intros [[e' He]|(a' & Ha & He)]; [eauto|discriminate].
  - intros [[e He]|(a' & Ha & He)]; discriminate.
  - intros [[e He]|(a' & Ha & He)]; discriminate.
Qed.

(** The numeric properties never raise, whatever the text of the value. *)
Lemma set_property_numeric key value p s :
  Property_of_name key = Ok p → p ∈ [iBound; Iter; Debug] →
  ∃ s', set_property [key; value] s = Ok s'.
Proof.
  intros Hp Hin. unfold set_property. cbn [at_ lookup list_lookup].
  change (Ok key ≫= ?f) with (f key). cbn beta. rewrite Hp.
  set_unfold. destruct Hin as [->|[->|[->|[]]]]; cbn; eauto.
Qed.

(** ** Beliefs of sets of variables *)

(** C4, as the code has it. [belief(variable_set)] raises the exception "Not
    implemented" for every set of variables, also for a set of one
    variable; the belief of one variable is what [belief(variable)] returns,
    the entry of [m_beliefs] at its index. *)
Theorem belief_vs_raises s vs :
  belief_vs s vs = Throw (runtime_error "Not implemented") ∧
  ∀ v, belief s v = at_ (m_beliefs s) v.
Proof. split; reflexivity. Qed.

(** ** The score of a pair *)

(** C7, as the code has it. For an i-bound below [SIZE_MAX] and two scopes
    that are not empty, the score is -3 when the union is larger than
    [max(I, |F1| - 1, |F2| - 1) + 1] and the inverse of [|F1| + |F2|]
    otherwise: a scope that is already larger than [I + 1] raises the bound
    of its pair. *)
Theorem score_effective_bound s fin VX i j F1 F2 :
  fin !! i = Some F1 → fin !! j = Some F2 →
  0 < nvar F1 ≤ SIZE_MAX → 0 < nvar F2 ≤ SIZE_MAX →
  0 ≤ m_ibound s < SIZE_MAX →
  score s fin VX i j
  = Ok (if decide (nvar (F1 ∪ F2)
                   > Z.max (Z.max (m_ibound s) (nvar F1 - 1)) (nvar F2 - 1) + 1)
        then (-3)%Q
        else (1 / inject_Z (nvar F1 + nvar F2))%Q).
Proof.
  intros H1 H2 Hn1 Hn2 HI. unfold score, at_. rewrite H1, H2. cbn.
  unfold to_size_t, SIZE_MAX in *.
  rewrite !(Z.mod_small (nvar _ - 1)) by lia.
  rewrite Z.mod_small by lia.
  repeat case_decide; try reflexivity; lia.
Qed.

End Configuration.

Section InitFrames.
Context `{FA : FactorAlgebra} `{MS : !ModelServices}.
Implicit Types s t : ijgp.

(** ** What the parts of [init] change *)

Lemma built_from_refl s : built_from s s.
Proof. unfold built_from. frame_eq. Qed.

Lemma built_from_trans s t u : built_from s t → built_from t u → built_from s u.
Proof. unfold built_from. intros Ht Hu. rewrite Hu, Ht. frame_eq. Qed.

Lemma add_edge_frame i j s : built_from s (add_edge i j s).
Proof. unfold built_from, add_edge. case_decide; frame_eq. Qed.

Lemma push_edge_frame alpha s j : built_from s (push_edge alpha s j).
Proof.
  unfold push_edge. eapply built_from_trans; [apply (add_edge_frame j alpha)|].
  frame_eq.
Qed.

Lemma push_edges_frame alpha js s : built_from s (foldl (push_edge alpha) s js).
Proof.
  revert s. induction js as [|j js IH]; intros s; cbn; [frame_eq|].
  eapply built_from_trans; [apply push_edge_frame|apply IH].
Qed.

Lemma chain_frame alphas s : built_from s (chain alphas s).
Proof.
  revert s. induction alphas as [|a [|b rest] IH]; intros s;
    [frame_eq|frame_eq|].
  change (chain (a :: b :: rest) s) with (chain (b :: rest) (push_edge b s a)).
  eapply built_from_trans; [apply push_edge_frame|apply IH].
Qed.

Lemma eliminate_frame x i L s al L' s' al' :
  eliminate x i (L, s, al) = Ok (L', s', al') → built_from s s'.
Proof.
  unfold eliminate, add_factor. cbn. intros Hrun. ok_inv Hrun.
  simplify_eq.
  match goal with |- context [foldl ?f ?s0 ?l] =>
    pose proof (push_edges_frame (length (m_factors s)) l s0) as Hf;
    set (t := foldl f s0 l) in *
  end.
  apply (built_from_trans _ t); [|frame_eq].
  eapply built_from_trans; [|exact Hf]. frame_eq.
Qed.

Lemma bucket_frame x L s L' s' :
  bucket x (L, s) = Ok (L', s') → built_from s s'.
Proof.
  unfold bucket. destruct (vin L !! x) as [[|i ids]|];
    try (intros [= <- <-]; frame_eq).
  intros Hrun. ok_inv Hrun.
  eapply (for_each_inv (λ st, built_from s st.1.2)) in Ha1.
  - destruct l1 as [|a0 l1]; [discriminate|]. injection Hrun as <- <-.
    eapply built_from_trans; [exact Ha1|apply (chain_frame (a0 :: l1))].
  - intros j [[L1 s1] al1] [[L2 s2] al2] _ H1 H2. cbn [fst snd] in *.
    eapply built_from_trans; [exact H1|]. by eapply eliminate_frame.
  - frame_eq.
Qed.

Lemma init_buckets_frame s s' : init_buckets s = Ok s' → built_from s s'.
Proof.
  unfold init_buckets. intros Hrun. ok_inv Hrun. simplify_eq.
  eapply (for_each_inv (λ st, built_from s st.2)) in Ha; [exact Ha| |frame_eq].
  intros x [L1 s1] [L2 s2] _ H1 H2. cbn [fst snd] in *.
  eapply built_from_trans; [exact H1|]. by eapply bucket_frame.
Qed.

Lemma init_order_frame s :
  init_order s
  = set_num_iter (num_iter (init_order s))
      (set_m_parents (m_parents (init_order s))
         (set_m_order (m_order (init_order s)) s)).
Proof. unfold init_order. repeat case_decide; frame_eq. Qed.

Lemma init_scopes_frame s s' :
  init_scopes s = Ok s' →
  s' = set_m_scopes (m_scopes s') (set_m_separators (m_separators s') s).
Proof.
  unfold init_scopes. intros Hrun.
  eapply (for_each_inv
    (λ t, t = set_m_scopes (m_scopes t) (set_m_separators (m_separators t) s)))
    in Hrun; [done| |frame_eq].
  intros i t t' _ Ht Hi. ok_inv Hi. subst t'. rewrite Ht. frame_eq.
Qed.

Lemma separator_of_frame e t t' :
  separator_of e t = Ok t' → t' = set_m_separators (m_separators t') t.
Proof.
  unfold separator_of. destruct e as [a b]. case_decide.
  - intros [= <-]. frame_eq.
  - intros Hrun. ok_inv Hrun. by subst.
Qed.

Lemma init_separators_frame s s' :
  init_separators s = Ok s' → s' = set_m_separators (m_separators s') s.
Proof.
  unfold init_separators. generalize (edges s). intros l Hrun.
  eapply (for_each_inv (λ t, t = set_m_separators (m_separators t) s))
    in Hrun; [done| |frame_eq].
  intros e t t' _ Ht He. apply separator_of_frame in He.
  rewrite He, Ht. frame_eq.
Qed.

Lemma in_out_of_frame e t t' :
  in_out_of e t = Ok t' → t' = set_m_out (m_out t') (set_m_in (m_in t') t).
Proof.
  unfold in_out_of. destruct e as [a b]. intros Hrun. ok_inv Hrun. by subst.
Qed.

Lemma init_in_out_frame s s' :
  init_in_out s = Ok s' → s' = set_m_out (m_out s') (set_m_in (m_in s') s).
Proof.
  unfold init_in_out. intros Hrun.
  eapply (for_each_inv (λ t, t = set_m_out (m_out t) (set_m_in (m_in t) s)))
    in Hrun; [done| |frame_eq].
  intros e t t' _ Ht He. apply in_out_of_frame in He.
  rewrite He, Ht. frame_eq.
Qed.

Lemma init_roots_frame s : init_roots s = set_m_roots (m_roots (init_roots s)) s.
Proof.
  unfold init_roots. generalize (seq 0 (length (m_out s))). intros l.
  assert (Hgen : ∀ t, t = set_m_roots (m_roots t) s →
    let t' := foldl (λ s i, match m_out s !! i with
                            | Some [] => set_m_roots (fl_insert i (m_roots s)) s
                            | _ => s
                            end) t l in
    t' = set_m_roots (m_roots t') s).
  { induction l as [|i l IH]; intros t Ht; cbn; [done|].
    apply IH. destruct (m_out t !! i) as [[|? ?]|]; try done.
    rewrite Ht. frame_eq. }
  apply Hgen. frame_eq.
Qed.

Lemma init_messages_frame s s' :
  init_messages s = Ok s' →
  s' = set_m_edge_indeces (m_edge_indeces s')
         (set_m_backward (m_backward s') (set_m_forward (m_forward s') s)) ∧
  m_forward s' = resize (length (m_schedule s)) (f_scalar (d_lit 1)) (m_forward s) ∧
  m_backward s' = resize (length (m_schedule s)) (f_scalar (d_lit 1)) (m_backward s).
Proof.
  unfold init_messages. intros Hrun.
  eapply (for_each_inv
    (λ t, t = set_m_edge_indeces (m_edge_indeces t)
         (set_m_backward (m_backward t) (set_m_forward (m_forward t) s)) ∧
      m_forward t = resize (length (m_schedule s)) (f_scalar (d_lit 1)) (m_forward s) ∧
      m_backward t = resize (length (m_schedule s)) (f_scalar (d_lit 1)) (m_backward s)))
    in Hrun; [done| |repeat split; frame_eq].
  intros i t t' _ (Ht & Hf & Hb) Hi. ok_inv Hi. subst t'. cbn.
  split; [|done]. rewrite Ht. frame_eq.
Qed.

Lemma potential_of_frame i t t' :
  potential_of i t = Ok t' → t' = set_m_factors (m_factors t') t.
Proof. unfold potential_of. intros Hrun. ok_inv Hrun. by subst. Qed.

Lemma init_potentials_frame s s' :
  init_potentials s = Ok s' → s' = set_m_factors (m_factors s') s.
Proof.
  unfold init_potentials. generalize (seq 0 (length (m_factors s))).
  intros l Hrun.
  eapply (for_each_inv (λ t, t = set_m_factors (m_factors t) s))
    in Hrun; [done| |frame_eq].
  intros e t t' _ Ht He. apply potential_of_frame in He.
  rewrite He, Ht. frame_eq.
Qed.

Lemma init_keeps s s' : init s = Ok s' → kept_by_init s' = kept_by_init s.
Proof.
  intros Hrun. unfold init in Hrun. ok_inv Hrun. subst s'.
  apply init_buckets_frame in Ha. apply init_scopes_frame in Ha0.
  apply init_separators_frame in Ha1. apply init_in_out_frame in Ha2.
  apply init_messages_frame in Ha3 as [Ha3 _].
  apply init_potentials_frame in Ha4.
  transitivity (kept_by_init a4); [frame_eq|].
  transitivity (kept_by_init a3); [by rewrite Ha4|].
  transitivity (kept_by_init (init_roots a2)); [by rewrite Ha3|].
  transitivity (kept_by_init a2); [by rewrite init_roots_frame|].
  transitivity (kept_by_init a1); [by rewrite Ha2|].
  transitivity (kept_by_init a0); [by rewrite Ha1|].
  transitivity (kept_by_init a); [by rewrite Ha0|].
  transitivity (kept_by_init (init_order s)); [by rewrite Ha|].
  by rewrite init_order_frame.
Qed.

(** The clusters of the variables are those that the loop over the buckets
    leaves, and the order is the one that [init] starts from. *)
Lemma init_clusters s s' :
  init s = Ok s' →
  ∃ a, init_buckets (init_order s) = Ok a ∧
       m_clusters s' = m_clusters a ∧ m_order s' = m_order (init_order s).
Proof.
  intros Hrun. unfold init in Hrun. ok_inv Hrun. subst s'.
  exists a. split; [done|].
  apply init_scopes_frame in Ha0. apply init_separators_frame in Ha1.
  apply init_in_out_frame in Ha2. apply init_messages_frame in Ha3 as [Ha3 _].
  apply init_potentials_frame in Ha4.
  pose proof (init_buckets_frame _ _ Ha) as Hb. unfold built_from in Hb.
  split.
  - transitivity (m_clusters a4); [frame_eq|].
    transitivity (m_clusters a3); [by rewrite Ha4|].
    transitivity (m_clusters (init_roots a2)); [by rewrite Ha3|].
    transitivity (m_clusters a2); [by rewrite init_roots_frame|].
    transitivity (m_clusters a1); [by rewrite Ha2|].
    transitivity (m_clusters a0); [by rewrite Ha1|]. by rewrite Ha0.
  - transitivity (m_order a4); [frame_eq|].
    transitivity (m_order a3); [by rewrite Ha4|].
    transitivity (m_order (init_roots a2)); [by rewrite Ha3|].
    transitivity (m_order a2); [by rewrite init_roots_frame|].
    transitivity (m_order a1); [by rewrite Ha2|].
    transitivity (m_order a0); [by rewrite Ha1|].
    transitivity (m_order a); [by rewrite Ha0|]. by rewrite Hb.
Qed.

Lemma init_keeps_gmo s s' : init s = Ok s' → m_gmo s' = m_gmo s.
Proof. intros Hrun. apply init_keeps in Hrun. by injection Hrun. Qed.
Lemma init_keeps_cout s s' : init s = Ok s' → cout s' = cout s.
Proof. intros Hrun. apply init_keeps in Hrun. by injection Hrun. Qed.
Lemma init_keeps_task s s' : init s = Ok s' → m_task s' = m_task s.
Proof. intros Hrun. apply init_keeps in Hrun. by injection Hrun. Qed.

End InitFrames.

Section Passes.
Context `{FA : FactorAlgebra} `{MS : !ModelServices}.
Implicit Types s t : ijgp.

(** ** What a pass changes *)

Lemma backward_edge_frame e t t' :
  backward_edge e t = Ok t' → t' = set_m_backward (m_backward t') t.
Proof.
  unfold backward_edge. destruct e as [a b]. intros Hrun.
  ok_inv Hrun. by subst.
Qed.

Lemma forward_edge_frame e t t' :
  forward_edge e t = Ok t' →
  t' = set_m_log_z (m_log_z t') (set_m_forward (m_forward t') t).
Proof.
  unfold forward_edge. destruct e as [a b]. intros Hrun.
  ok_inv Hrun. by subst.
Qed.

Lemma forward_frame s s' :
  forward s = Ok s' →
  s' = set_m_log_z (m_log_z s') (set_m_forward (m_forward s') s).
Proof.
  unfold forward. intros Hrun. ok_inv Hrun. subst s'. cbn.
  eapply (for_each_inv
    (λ t, t = set_m_log_z (m_log_z t) (set_m_forward (m_forward t) s))) in Ha.
  - rewrite Ha. frame_eq.
  - intros e t t' _ Ht He. apply forward_edge_frame in He.
    rewrite He, Ht. frame_eq.
  - frame_eq.
Qed.

Lemma belief_of_frame r v t t' :
  belief_of r v t = Ok t' → t' = set_m_beliefs (m_beliefs t') t.
Proof. unfold belief_of. intros Hrun. ok_inv Hrun. by subst. Qed.

Lemma assign_frame x t t' :
  assign x t = Ok t' → t' = set_m_best_config (m_best_config t') t.
Proof. unfold assign. intros Hrun. ok_inv Hrun. by subst. Qed.

Lemma update_frame s s' :
  update s = Ok s' →
  s' = set_m_best_config (m_best_config s') (set_m_beliefs (m_beliefs s') s).
Proof.
  unfold update. intros Hrun. ok_inv Hrun.
  eapply (for_each_inv (λ t, t = set_m_beliefs (m_beliefs t) s)) in Ha;
    [| |frame_eq].
  2:{ intros v t t' _ Ht Hv. apply belief_of_frame in Hv.
      rewrite Hv, Ht. frame_eq. }
  assert (Hgoal : ∀ t, t = set_m_best_config (m_best_config t)
                             (set_m_beliefs (m_beliefs t) a) →
                       t = set_m_best_config (m_best_config t)
                             (set_m_beliefs (m_beliefs t) s)).
  { intros t Ht. rewrite Ht, Ha. frame_eq. }
  apply Hgoal.
  destruct (m_task a).
  - eapply (for_each_inv (λ t, t = set_m_best_config (m_best_config t)
                                     (set_m_beliefs (m_beliefs t) a))) in Hrun;
      [done| |frame_eq].
    intros v t t' _ Ht Hv. apply belief_of_frame in Hv.
    rewrite Hv, Ht. frame_eq.
  - eapply (for_each_inv (λ t, t = set_m_best_config (m_best_config t)
                                     (set_m_beliefs (m_beliefs t) a))) in Hrun;
      [done| |frame_eq].
    intros v t t' _ Ht Hv. apply belief_of_frame in Hv.
    rewrite Hv, Ht. frame_eq.
  - eapply (for_each_inv (λ t, t = set_m_best_config (m_best_config t)
                                     (set_m_beliefs (m_beliefs t) a))) in Hrun;
      [done| |frame_eq].
    intros v t t' _ Ht Hv. apply assign_frame in Hv.
    rewrite Hv, Ht. frame_eq.
Qed.

Lemma backward_frame s s' :
  backward s = Ok s' → s' = set_m_backward (m_backward s') s.
Proof.
  unfold backward. intros Hrun.
  eapply (for_each_inv (λ t, t = set_m_backward (m_backward t) s)) in Hrun;
    [done| |frame_eq].
  intros e t t' _ Ht He. apply backward_edge_frame in He.
  rewrite He, Ht. frame_eq.
Qed.

(** C9. [backward()] changes the backward messages and nothing else: the
    object it leaves is the one it was given with [m_backward] replaced, so
    [m_log_z], the forward messages, the potentials, the scopes, the
    separators, the original factors and the schedule are as before. *)
Theorem backward_changes_only_backward s s' :
  backward s = Ok s' →
  s' = set_m_backward (m_backward s') s ∧
  m_log_z s' = m_log_z s ∧ m_forward s' = m_forward s ∧
  m_factors s' = m_factors s ∧ m_scopes s' = m_scopes s ∧
  m_separators s' = m_separators s ∧ m_originals s' = m_originals s ∧
  m_schedule s' = m_schedule s.
Proof.
  intros Hrun. apply backward_frame in Hrun.
  split; [exact Hrun|]. rewrite Hrun. repeat split.
Qed.

End Passes.

Section Iterations.
Context `{FA : FactorAlgebra} `{MS : !ModelServices}.
Implicit Types s t : ijgp.

(** ** The number of iterations *)

Lemma iterations_IterLine s z d i :
  iterations (set_cout (cout s ++ [IterLine z d i]) s) = S (iterations s).
Proof.
  unfold iterations. cbn [cout set_cout]. rewrite filter_app, length_app.
  rewrite filter_cons_True by done. cbn. lia.
Qed.

Lemma iterations_Converged s n :
  iterations (set_cout (cout s ++ [Converged n]) s) = iterations s.
Proof.
  unfold iterations. cbn [cout set_cout]. rewrite filter_app, length_app.
  rewrite filter_cons_False by (cbn; tauto). cbn. lia.
Qed.

(** One pass of the loop of [propagate] writes one line. *)
Lemma pass_keeps_cout s s1 s2 s3 :
  forward s = Ok s1 → backward s1 = Ok s2 → update s2 = Ok s3 →
  cout s3 = cout s.
Proof.
  intros H1 H2 H3. apply forward_frame in H1.
  apply backward_frame in H2. apply update_frame in H3.
  rewrite H3, H2, H1. reflexivity.
Qed.

Lemma iterated_iterations n s u :
  iterated n s u → iterations u = (iterations s + n)%nat.
Proof.
  induction 1 as [s|n s t1 t2 t3 l u H1 H2 H3 Hl _ IH]; [lia|].
  rewrite IH. destruct l as [z d i|]; [|discriminate].
  rewrite iterations_IterLine. unfold iterations.
  rewrite (pass_keeps_cout _ _ _ _ H1 H2 H3). lia.
Qed.

(** The loop of [propagate] makes full iterations, one at least when its
    first test holds. *)
Lemma propagate_loop_iterated fuel k nIter stopTime stopObj elapsed s s' :
  propagate_loop fuel k nIter stopTime stopObj elapsed s = Ok s' →
  ∃ n, iterated n s s' ∧
       (to_size_t (Z.of_nat k) ≤ nIter → (1 ≤ n)%nat) ∧
       (¬ to_size_t (Z.of_nat k) ≤ nIter → n = 0%nat).
Proof.
  revert k s. induction fuel as [|fuel IH]; intros k s Hrun;
    cbn [propagate_loop] in Hrun; [discriminate|].
  cbv zeta in Hrun. case_decide as Htest.
  - ok_inv Hrun.
    assert (Hnext : ∀ u, iterated 0 u u) by constructor.
    match type of Hrun with context [set_cout ?c a1] =>
      set (t := set_cout c a1) in * end.
    assert (Hone : ∀ n u, iterated n t u → iterated (S n) s u).
    { intros n u Hn. eapply iterated_pass; [exact Ha|exact Ha0|exact Ha1| |].
      2: exact Hn. reflexivity. }
    destruct (d_ltb _ _).
    { injection Hrun as <-. exists 1%nat. split; [by apply Hone|]. lia. }
    destruct (_ && _).
    { injection Hrun as <-. exists 1%nat. split; [by apply Hone|]. lia. }
    apply IH in Hrun as (n & Hn & _). exists (S n).
    split; [by apply Hone|]. lia.
  - injection Hrun as <-. exists 0%nat. split; [constructor|]. lia.
Qed.

(** With a count below [SIZE_MAX] the loop variable does not wrap around,
    and the loop makes no more passes than the count. *)
Lemma propagate_loop_bound fuel k nIter stopTime stopObj elapsed s s' :
  nIter < SIZE_MAX → (1 ≤ k)%nat → Z.of_nat k ≤ nIter + 1 →
  propagate_loop fuel k nIter stopTime stopObj elapsed s = Ok s' →
  Z.of_nat (iterations s') ≤ Z.of_nat (iterations s) + nIter + 1 - Z.of_nat k.
Proof.
  intros Hmax. revert k s.
  induction fuel as [|fuel IH]; intros k s Hk1 Hk Hrun;
    cbn [propagate_loop] in Hrun; [discriminate|].
  cbv zeta in Hrun. case_decide as Htest.
  - assert (Hk' : to_size_t (Z.of_nat k) = Z.of_nat k).
    { unfold to_size_t, SIZE_MAX in *. apply Z.mod_small. lia. }
    rewrite Hk' in Htest. ok_inv Hrun.
    pose proof (pass_keeps_cout _ _ _ _ Ha Ha0 Ha1) as Hc.
    match type of Hrun with context [set_cout ?c a1] =>
      assert (Hit : iterations (set_cout c a1) = S (iterations s))
    end.
    { rewrite iterations_IterLine. unfold iterations. by rewrite Hc. }
    destruct (d_ltb _ _); [injection Hrun as <-; lia|].
    destruct (_ && _); [injection Hrun as <-; lia|].
    destruct (decide (Z.of_nat (S k) ≤ nIter + 1)) as [Hle|Hgt].
    + apply IH in Hrun; [lia|lia|lia].
    + apply propagate_loop_iterated in Hrun as (n & Hn & _ & H0).
      apply iterated_iterations in Hn. rewrite H0 in Hn; [lia|].
      assert (to_size_t (Z.of_nat (S k)) = Z.of_nat (S k)) as ->; [|lia].
      unfold to_size_t, SIZE_MAX in *. apply Z.mod_small. lia.
  - injection Hrun as <-. lia.
Qed.

(** The count that [init] leaves: 1 for an i-bound that reaches the induced
    width of the order, the configured count otherwise. *)
Lemma init_order_num_iter s :
  num_iter (init_order s)
  = if decide (gm_induced_width (m_gmo s) (m_order (init_order s)) ≤ m_ibound s)
    then 1 else num_iter s.
Proof. unfold init_order. repeat case_decide; cbn in *; try done; lia. Qed.

Lemma init_num_iter s s' : init s = Ok s' → num_iter s' = num_iter (init_order s).
Proof.
  intros Hrun. unfold init in Hrun. ok_inv Hrun. subst s'.
  apply init_buckets_frame in Ha. apply init_scopes_frame in Ha0.
  apply init_separators_frame in Ha1. apply init_in_out_frame in Ha2.
  apply init_messages_frame in Ha3 as [Ha3 _].
  apply init_potentials_frame in Ha4.
  transitivity (num_iter a4); [reflexivity|].
  transitivity (num_iter a3); [by rewrite Ha4|].
  transitivity (num_iter (init_roots a2)); [by rewrite Ha3|].
  transitivity (num_iter a2); [by rewrite init_roots_frame|].
  transitivity (num_iter a1); [by rewrite Ha2|].
  transitivity (num_iter a0); [by rewrite Ha1|].
  transitivity (num_iter a); [by rewrite Ha0|].
  by rewrite Ha.
Qed.

(** What a call of [run()] that returns has done. *)
Lemma run_Ok fuel elapsed s s' :
  run fuel elapsed s = Ok s' →
  ∃ s0 t, init s = Ok s0 ∧
          propagate fuel (num_iter s0) (d_lit (-1)) (d_lit (-1)) elapsed s0
          = Ok t ∧
          s' = reported t ∧
          (m_task t ≠ MAP → print_beliefs s' = Ok ()) ∧
          (m_task t = MAP → print_config s' = Ok ()).
Proof.
  intros Hrun. unfold run in Hrun.
  apply bind_Ok in Hrun as (s0 & Hinit & Hrun).
  apply bind_Ok in Hrun as (t & Hprop & Hrun).
  exists s0, t. split; [done|]. split; [done|].
  cbv zeta in Hrun. unfold reported. cbv zeta.
  change (m_task (set_cout _ t)) with (m_task t) in Hrun.
  destruct (m_task t);
    apply bind_Ok in Hrun as ([] & Hprint & [= <-]);
    (split; [reflexivity|]); split; intros Ht; done.
Qed.

(** C5, as the code has it. A call of [run()] that returns has made [n]
    full iterations from the object that [init()] left, each a forward
    pass, a backward pass and an update of the beliefs: one at least when
    the count of iterations that [init()] left is at least 1 (the stop
    tests come after the passes), none when that count is 0, and no more
    than a count below [SIZE_MAX]. The object that it leaves is the one of
    the last iteration, with the closing line and, for task MAP, [m_lb]. *)
Theorem run_iterations fuel elapsed s s' :
  run fuel elapsed s = Ok s' →
  ∃ s0 n t,
    init s = Ok s0 ∧ num_iter s0 = num_iter (init_order s) ∧
    iterated n s0 t ∧ s' = reported t ∧
    iterations s' = (iterations s + n)%nat ∧
    (1 ≤ num_iter s0 → (1 ≤ n)%nat) ∧
    (num_iter s0 ≤ 0 → n = 0%nat ∧ t = s0) ∧
    (num_iter s0 < SIZE_MAX → Z.of_nat n ≤ Z.max 0 (num_iter s0)).
Proof.
  intros Hrun. apply run_Ok in Hrun as (s0 & t & Hinit & Hprop & -> & _).
  pose proof (init_keeps_cout _ _ Hinit) as Hc.
  pose proof (init_num_iter _ _ Hinit) as Hn.
  unfold propagate in Hprop.
  pose proof (propagate_loop_iterated _ _ _ _ _ _ _ _ Hprop)
    as (n & Hit & H1 & H0).
  change (to_size_t (Z.of_nat 1)) with 1 in H1, H0.
  pose proof (iterated_iterations _ _ _ Hit) as Hcount.
  assert (Hrep : iterations (reported t) = iterations t).
  { unfold reported. cbv zeta. destruct (m_task t);
      apply (iterations_Converged t). }
  assert (Hs0 : iterations s0 = iterations s).
  { unfold iterations. by rewrite Hc. }
  exists s0, n, t. split; [done|]. split; [done|]. split; [done|].
  split; [done|]. split; [lia|]. split; [exact H1|]. split.
  - intros Hle. assert (n = 0%nat) as -> by (apply H0; lia).
    split; [done|]. by inversion Hit.
  - intros Hmax. destruct (decide (1 ≤ num_iter s0)) as [Hge|Hlt].
    + pose proof (propagate_loop_bound _ 1 _ _ _ _ _ _ Hmax ltac:(lia)
                    ltac:(lia) Hprop). lia.
    + rewrite H0 by lia. lia.
Qed.

End Iterations.

Section Buckets.
Context `{FA : FactorAlgebra} `{MS : !ModelServices}.
Implicit Types s t : ijgp.
Implicit Types L : locals.

(** ** The steps of the construction *)

Lemma merge_pair_Ok ii jj L L' :
  merge_pair ii jj L = Ok L' →
  ∃ Fi Fj Fi' Oi Oj Ni Nj,
    fin L !! ii = Some Fi ∧ fin L !! jj = Some Fj ∧
    <[jj := Fj ∪ Fi]> (fin L) !! ii = Some Fi' ∧
    Orig L !! ii = Some Oi ∧ Orig L !! jj = Some Oj ∧
    New L !! ii = Some Ni ∧ New L !! jj = Some Nj ∧
    erase_adj (vin L) ii Fi' = Ok (vin L') ∧
    fin L' = <[ii := ∅]> (<[jj := Fj ∪ Fi]> (fin L)) ∧
    Orig L' = <[ii := []]> (<[jj := fl_union Oj Oi]> (Orig L)) ∧
    New L' = <[ii := []]> (<[jj := fl_union Nj Ni]> (New L)).
Proof.
  unfold merge_pair. intros Hrun. ok_inv Hrun. subst L'. cbn.
  repeat match goal with H : at_ _ _ = Ok _ |- _ => apply at_Ok in H end.
  repeat match goal with H : put _ _ _ = Ok _ |- _ =>
    apply put_Ok in H; destruct H as [? ->] end.
  eauto 20.
Qed.

(** An invariant of the local vectors that every merge keeps is kept by
    the merging loop. *)
Lemma merge_loop_inv (P : locals → Prop) fuel s VX L ids (t : score_table) L' ids' :
  (∀ ii jj L1 L2, P L1 → merge_pair ii jj L1 = Ok L2 → P L2) →
  P L → merge_loop fuel s VX L ids t = Ok (L', ids') → P L'.
Proof.
  intros Hstep. revert L ids t.
  induction fuel as [|fuel IH]; intros L ids tb HP Hrun; cbn in Hrun;
    [discriminate|].
  ok_inv Hrun. destruct (negb _).
  - by injection Hrun as <- <-.
  - ok_inv Hrun. eapply IH; [|exact Hrun]. eauto.
Qed.

Lemma eliminate_Ok x i L s al L' s' al' :
  eliminate x i (L, s, al) = Ok (L', s', al') →
  ∃ Fi Cx Ni Oi Oa,
    let α := length (m_factors s) in
    let s0 := set_m_cluster2var (<[α := x]> (m_cluster2var s))
                (set_m_clusters (<[x := fl_insert α Cx]> (m_clusters s))
                   (set_m_factors (m_factors s ++ [f_ones Fi]) s)) in
    let t := foldl (push_edge α) s0 Ni in
    fin L !! i = Some Fi ∧ m_clusters s !! x = Some Cx ∧
    New L !! i = Some Ni ∧ Orig L !! i = Some Oi ∧
    (m_originals t ++ [[]]) !! α = Some Oa ∧
    al' = al ++ [α] ∧
    L' = {| fin := <[i := Fi ∖ {[x]}]> (fin L);
            vin := insert_adj (vin L) i (Fi ∖ {[x]});
            Orig := <[i := []]> (Orig L);
            New := <[i := [α]]> (New L) |} ∧
    s' = set_m_originals (<[α := fl_union Oa Oi]> (m_originals t ++ [[]])) t.
Proof.
  unfold eliminate, add_factor. cbn. intros Hrun. ok_inv Hrun.
  repeat match goal with H : at_ _ _ = Ok _ |- _ => apply at_Ok in H end.
  repeat match goal with H : put _ _ _ = Ok _ |- _ =>
    apply put_Ok in H; destruct H as [? ->] end.
  simplify_eq.
  rewrite list_lookup_insert_eq in Ha9 by done. injection Ha9 as <-.
  do 5 eexists. cbn zeta. repeat split; try eassumption.
Qed.

Lemma pushed_from_trans s t u : pushed_from s t → pushed_from t u → pushed_from s u.
Proof. unfold pushed_from. intros Ht Hu. rewrite Hu, Ht. frame_eq. Qed.

Lemma push_edge_pushed alpha s j : pushed_from s (push_edge alpha s j).
Proof. unfold pushed_from, push_edge, add_edge. case_decide; frame_eq. Qed.

Lemma push_edges_pushed alpha js s : pushed_from s (foldl (push_edge alpha) s js).
Proof.
  revert s. induction js as [|j js IH]; intros s; cbn; [frame_eq|].
  eapply pushed_from_trans; [apply push_edge_pushed|apply IH].
Qed.


Lemma chain_inv (Q : ijgp → Prop) al t :
  (∀ t a b, Q t → Q (push_edge b t a)) → Q t → Q (chain al t).
Proof.
  intros Hpush. revert t.
  induction al as [|c [|b rest] IH]; intros t Ht; [exact Ht|exact Ht|].
  change (chain (c :: b :: rest) t) with (chain (b :: rest) (push_edge b t c)).
  apply IH. by apply Hpush.
Qed.

(** An invariant of the construction that the merges, the eliminations and
    the pushes of edges keep is kept by a bucket. [R] is what the invariant
    tells of a variable whose bucket is not empty. *)
Lemma bucket_inv (Q : locals → ijgp → Prop) (R : Prop) x L s L' s' :
  (∀ ii jj L1 L2 t, Q L1 t → merge_pair ii jj L1 = Ok L2 → Q L2 t) →
  (∀ i L1 t al L2 t' al',
     R → Q L1 t → eliminate x i (L1, t, al) = Ok (L2, t', al') → Q L2 t') →
  (∀ L1 t a b, Q L1 t → Q L1 (push_edge b t a)) →
  (∀ i ids, Q L s → vin L !! x = Some (i :: ids) → R) →
  Q L s → bucket x (L, s) = Ok (L', s') → Q L' s'.
Proof.
  intros Hmerge Helim Hpush HR HQ. unfold bucket.
  destruct (vin L !! x) as [[|i ids]|] eqn:Hvin;
    try (intros [= <- <-]; exact HQ).
  intros Hrun. ok_inv Hrun.
  assert (R) as Hr by eauto.
  eapply (merge_loop_inv (λ L1, Q L1 s)) in Ha0; [|by eauto|exact HQ].
  eapply (for_each_inv (λ st, Q st.1.1 st.1.2)) in Ha1; [|clear Ha1|exact Ha0].
  - destruct l1 as [|a0 l1]; [discriminate|]. injection Hrun as <- <-.
    cbn [fst snd] in Ha1.
    apply (chain_inv (Q l2) (a0 :: l1)); [intros; by apply Hpush|exact Ha1].
  - intros j [[L1 t1] al1] [[L2 t2] al2] _ H1 H2. cbn [fst snd] in *.
    eapply Helim; eauto.
Qed.

Lemma init_buckets_inv (Q : locals → ijgp → Prop) s s' :
  (∀ x L1 t L2 t', x ∈ m_order s → Q L1 t → bucket x (L1, t) = Ok (L2, t') →
                   Q L2 t') →
  Q (init_locals (m_gmo s))
    (set_m_clusters (resize (length (m_order s)) [] (m_clusters s)) s) →
  init_buckets s = Ok s' → ∃ L', Q L' s'.
Proof.
  intros Hstep HQ. unfold init_buckets. intros Hrun. ok_inv Hrun.
  subst s'. exists l.
  eapply (for_each_inv (λ st, Q st.1 st.2)) in Ha; [exact Ha| |exact HQ].
  intros x [L1 t1] [L2 t2] Hx H1 H2. cbn [fst snd] in *. eauto.
Qed.

(** ** Clusters of the variables *)

Lemma eliminate_clusters x i L s al L' s' al' v :
  x ≠ v → eliminate x i (L, s, al) = Ok (L', s', al') →
  m_clusters s' !! v = m_clusters s !! v.
Proof.
  intros Hx Hrun. apply eliminate_Ok in Hrun
    as (Fi & Cx & Ni & Oi & Oa & _ & _ & _ & _ & _ & _ & _ & ->).
  cbn [m_clusters set_m_originals].
  match goal with |- context [foldl ?f ?s0 ?l] =>
    pose proof (push_edges_pushed (length (m_factors s)) l s0) as Hf end.
  unfold pushed_from in Hf. rewrite Hf. cbn.
  by rewrite list_lookup_insert_ne.
Qed.

Lemma push_edge_clusters alpha s j : m_clusters (push_edge alpha s j) = m_clusters s.
Proof.
  pose proof (push_edge_pushed alpha s j) as Hf. unfold pushed_from in Hf.
  by rewrite Hf.
Qed.

(** A variable that the order leaves out gets no cluster. *)
Lemma init_buckets_not_in_order s s' v :
  m_clusters s = [] → v ∉ m_order s → init_buckets s = Ok s' → no_cluster s' v.
Proof.
  intros Hfresh Hv Hrun.
  apply (init_buckets_inv (λ _ t, no_cluster t v)) in Hrun as [_ Hrun]; [done| |].
  - intros x L1 t L2 t' Hx HQ Hb.
    eapply (bucket_inv (λ _ t, no_cluster t v) (x ≠ v)); [| | | |exact HQ|exact Hb].
    + auto.
    + intros i L3 t3 al L4 t4 al' Hne Hq He. unfold no_cluster in *.
      by rewrite (eliminate_clusters _ _ _ _ _ _ _ _ _ Hne He).
    + intros L3 t3 a b Hq. unfold no_cluster in *. by rewrite push_edge_clusters.
    + intros _ _ _ _ ->. done.
  - unfold no_cluster. cbn. rewrite Hfresh.
    destruct (decide (v < length (m_order s))%nat).
    + right. by rewrite lookup_resize_new by (cbn; lia).
    + left. apply lookup_ge_None. rewrite length_resize. lia.
Qed.

End Buckets.

Section NoThrow.
Context `{FA : FactorAlgebra} `{MS : !ModelServices}.
Implicit Types s : ijgp.
Implicit Types t : score_table.

(** ** [init] has no [throw] *)

Lemma no_throw_score s fin VX i j : no_throw (score s fin VX i j).
Proof. unfold score. no_throw. Qed.

Lemma no_throw_table_erase sp t : no_throw (table_erase sp t).
Proof. unfold table_erase. no_throw. Qed.

Lemma no_throw_erase_adj adj idx vs : no_throw (erase_adj adj idx vs).
Proof. unfold erase_adj. no_throw. Qed.

#[local] Hint Resolve no_throw_score no_throw_table_erase no_throw_erase_adj
  : no_throw.

Lemma no_throw_populate s fin VX before rest t :
  no_throw (populate s fin VX before rest t).
Proof.
  revert before t. induction rest as [|i rest IH]; intros before t; cbn.
  - apply no_throw_Ok.
  - apply no_throw_bind; [|intros; apply IH]. no_throw.
Qed.

Lemma no_throw_merge_pair ii jj L : no_throw (merge_pair ii jj L).
Proof. unfold merge_pair. no_throw. Qed.

Lemma no_throw_merge_loop fuel s VX L ids t :
  no_throw (merge_loop fuel s VX L ids t).
Proof.
  revert L ids t. induction fuel as [|fuel IH]; intros L ids t; cbn.
  - apply no_throw_OutOfFuel.
  - apply no_throw_bind; [unfold table_top; no_throw|intros top].
    destruct (negb _); [apply no_throw_Ok|].
    apply no_throw_bind; [apply no_throw_merge_pair|intros].
    apply no_throw_bind; [no_throw|intros].
    apply no_throw_bind; [no_throw|intros]. apply IH.
Qed.

Lemma no_throw_eliminate x i st : no_throw (eliminate x i st).
Proof. unfold eliminate. destruct st as [[L s] al]. unfold add_factor. no_throw. Qed.

Lemma no_throw_bucket x st : no_throw (bucket x st).
Proof.
  unfold bucket. destruct st as [L s].
  destruct (vin L !! x) as [[|i ids]|]; try apply no_throw_Ok.
  apply no_throw_bind; [apply no_throw_populate|intros].
  apply no_throw_bind; [apply no_throw_merge_loop|intros [L1 ids1]].
  apply no_throw_bind; [apply no_throw_for_each; intros; apply no_throw_eliminate|].
  intros [[L2 s2] [|a0 al]]; no_throw.
Qed.

Lemma no_throw_init s : no_throw (init s).
Proof.
  unfold init.
  apply no_throw_bind.
  { unfold init_buckets. apply no_throw_bind.
    - apply no_throw_for_each. intros. apply no_throw_bucket.
    - intros [L u]. apply no_throw_Ok. }
  intros a0. apply no_throw_bind.
  { unfold init_scopes. no_throw. }
  intros a1. apply no_throw_bind.
  { unfold init_separators, separator_of. no_throw. }
  intros a2. apply no_throw_bind.
  { unfold init_in_out, in_out_of. no_throw. }
  intros a3. apply no_throw_bind.
  { unfold init_messages. no_throw. }
  intros a4. apply no_throw_bind.
  { unfold init_potentials, potential_of, get_factor. no_throw. }
  intros a5. apply no_throw_Ok.
Qed.

End NoThrow.

Section UnusedVariables.
Context `{FA : FactorAlgebra} `{MS : !ModelServices}.
Implicit Types s t : ijgp.
Implicit Types L : locals.

(** ** Variables that no factor mentions *)

Lemma plain_bind {A B} (o : outcome A) (f : A → outcome B) :
  plain o → (∀ a, plain (f a)) → plain (o ≫= f).
Proof. destruct o; cbn; auto. Qed.
Lemma plain_at {A} (v : list A) i : plain (at_ v i).
Proof. unfold at_. by destruct (v !! i). Qed.
Lemma plain_put {A} (v : list A) i x : plain (put v i x).
Proof. unfold put. by case_decide. Qed.
Lemma plain_at2 {A} (m : list (list A)) a b : plain (at2 m a b).
Proof. apply plain_bind; intros; apply plain_at. Qed.
Lemma plain_for_each {A S} (body : A → S → outcome S) l (z : S) :
  (∀ x z, plain (body x z)) → plain (for_each body l z).
Proof.
  intros Hb. revert z. induction l as [|x l IH]; intros z; cbn; [done|].
  apply plain_bind; auto.
Qed.

Ltac plain_step :=
  match goal with
  | |- plain (_ ≫= _) => apply plain_bind; [|intros]
  | |- plain (for_each _ _ _) => apply plain_for_each; intros
  | |- plain (at_ _ _) => apply plain_at
  | |- plain (at2 _ _ _) => apply plain_at2
  | |- plain (put _ _ _) => apply plain_put
  | |- plain (Ok _) => exact I
  | |- plain (if ?c then _ else _) => destruct c
  end.

Lemma plain_calc_belief s a : plain (calc_belief s a).
Proof. unfold calc_belief, multiply_in. repeat plain_step. Qed.

Lemma plain_belief_of r v s : plain (belief_of r v s).
Proof.
  unfold belief_of. repeat plain_step. apply plain_calc_belief.
Qed.

(** A loop of plain steps is undefined when one of its steps is, in every
    state that the loop can reach. *)
Lemma for_each_undefined {A S} (P : S → Prop) (body : A → S → outcome S)
    l x (z : S) :
  (∀ y z, plain (body y z)) →
  (∀ y (z z' : S), P z → body y z = Ok z' → P z') →
  (∀ z, P z → body x z = Undefined) →
  x ∈ l → P z → for_each body l z = Undefined.
Proof.
  intros Hplain Hstep Hx. revert z.
  induction l as [|y l IH]; intros z Hin HP; [by apply elem_of_nil in Hin|].
  cbn. apply elem_of_cons in Hin as [->|Hin].
  - by rewrite Hx.
  - specialize (Hplain y z). destruct (body y z) eqn:Hy; try done. cbn.
    apply IH; [done|]. eauto.
Qed.

(** The first loop of [update] reads [m_clusters[v][0]]. *)
Lemma belief_of_no_cluster r v s : no_cluster s v → belief_of r v s = Undefined.
Proof.
  unfold belief_of, at_. intros [Hv|Hv]; rewrite Hv; frame_eq.
Qed.

Lemma update_no_cluster s v :
  (v < gm_nvar (m_gmo s))%nat → no_cluster s v → update s = Undefined.
Proof.
  intros Hv Hc. unfold update.
  rewrite (for_each_undefined (λ t, no_cluster t v) (belief_of true) _ v);
    [frame_eq|..|exact Hc].
  - intros. apply plain_belief_of.
  - intros y t t' Ht Hy. apply belief_of_frame in Hy.
    unfold no_cluster in *. by rewrite Hy.
  - intros t. apply belief_of_no_cluster.
  - apply elem_of_seq. lia.
Qed.

Lemma with_variable_unused gm v : unused gm v → with_variable gm v = [].
Proof.
  intros Hu. unfold with_variable.
  induction (seq 0 (length (gm_factors gm))) as [|i l IH]; [done|].
  rewrite filter_cons_False; [done|].
  unfold has_variable.
  destruct (gm_factors gm !! i) as [F|] eqn:Hi; [|by intros []].
  rewrite bool_decide_eq_false_2; [by intros []|].
  apply Hu. by eapply list_elem_of_lookup_2.
Qed.

Lemma erase_adj_no_entry adj idx vs adj' v :
  erase_adj adj idx vs = Ok adj' → no_entry adj v → no_entry adj' v.
Proof.
  unfold erase_adj. case_decide; [|done]. intros [= <-].
  unfold no_entry. rewrite list_lookup_imap.
  intros [->| ->]; [by left|right]. cbn. by case_decide.
Qed.

Lemma insert_adj_no_entry adj idx vs v :
  v ∉ vs → no_entry adj v → no_entry (insert_adj adj idx vs) v.
Proof.
  intros Hv Hn. unfold insert_adj, no_entry. rewrite list_lookup_imap.
  set (n := set_fold _ _ _).
  destruct (decide (v < n)%nat) as [Hlt|Hge].
  - right. destruct Hn as [Hn|Hn].
    + apply lookup_ge_None in Hn. rewrite lookup_resize_new by lia. cbn.
      by rewrite decide_False.
    + rewrite lookup_resize by (by apply lookup_lt_Some in Hn || lia).
      rewrite Hn. cbn. by rewrite decide_False.
  - left. rewrite (proj2 (lookup_ge_None _ _)); [done|].
    rewrite length_resize. lia.
Qed.

Lemma merge_pair_unused v ii jj L L' t :
  stays_unused v L t → merge_pair ii jj L = Ok L' → stays_unused v L' t.
Proof.
  intros (Hfin & Hvin & Hcl) Hrun.
  apply merge_pair_Ok in Hrun
    as (Fi & Fj & Fi' & Oi & Oj & Ni & Nj & Hi & Hj & _ & _ & _ & _ & _
        & Hvin' & Hfin' & _ & _).
  split; [|split; [|done]].
  - intros i F. rewrite Hfin'. intros HF.
    apply list_lookup_insert_Some in HF as [(-> & <- & _)|[_ HF]];
      [apply not_elem_of_empty|].
    apply list_lookup_insert_Some in HF as [(-> & <- & _)|[_ HF]]; [|eauto].
    apply Hfin in Hi, Hj. by apply not_elem_of_union.
  - by eapply erase_adj_no_entry.
Qed.

Lemma eliminate_unused v x i L t al L' t' al' :
  x ≠ v → stays_unused v L t → eliminate x i (L, t, al) = Ok (L', t', al') →
  stays_unused v L' t'.
Proof.
  intros Hx (Hfin & Hvin & Hcl) Hrun.
  pose proof (eliminate_clusters _ _ _ _ _ _ _ _ _ Hx Hrun) as Hc.
  apply eliminate_Ok in Hrun
    as (Fi & Cx & Ni & Oi & Oa & Hi & _ & _ & _ & _ & _ & -> & _).
  cbn. split; [|split].
  - intros j F HF.
    apply list_lookup_insert_Some in HF as [(-> & <- & _)|[_ HF]]; [|eauto].
    apply Hfin in Hi. by intros [? _]%elem_of_difference.
  - apply insert_adj_no_entry; [|done]. apply Hfin in Hi.
    by intros [? _]%elem_of_difference.
  - unfold no_cluster. by rewrite Hc.
Qed.

Lemma init_buckets_unused s s' v :
  m_clusters s = [] → unused (m_gmo s) v → init_buckets s = Ok s' →
  no_cluster s' v.
Proof.
  intros Hfresh Hu Hrun.
  apply (init_buckets_inv (stays_unused v)) in Hrun as [L' (_ & _ & Hrun)];
    [done| |].
  - intros x L1 t L2 t' _ HQ Hb.
    eapply (bucket_inv (stays_unused v) (x ≠ v)); [| | | |exact HQ|exact Hb].
    + intros. by eapply merge_pair_unused.
    + intros. by eapply eliminate_unused.
    + intros L3 t3 a b (? & ? & Hq). split; [done|split; [done|]].
      unfold no_cluster in *. by rewrite push_edge_clusters.
    + intros i ids (_ & [Hn|Hn] & _) Hv ->; congruence.
  - split; [|split].
    + intros i F. cbn. rewrite list_lookup_fmap.
      destruct (gm_factors (m_gmo s) !! i) as [G|] eqn:HG; [|done].
      intros [= <-]. apply Hu. by eapply list_elem_of_lookup_2.
    + unfold no_entry. cbn. rewrite list_lookup_fmap.
      destruct (seq 0 (gm_nvar (m_gmo s)) !! v) as [w|] eqn:Hw; [|by left].
      right. apply lookup_seq in Hw as [-> _]. cbn.
      by rewrite with_variable_unused.
    + unfold no_cluster. cbn. rewrite Hfresh.
      destruct (decide (v < length (m_order s))%nat).
      * right. by rewrite lookup_resize_new by (cbn; lia).
      * left. apply lookup_ge_None. rewrite length_resize. lia.
Qed.

(** C10. [update()] reads [m_clusters[v][0]] for every variable [v] of the
    model, and [init()] records no cluster for a variable that no factor
    mentions: after [init()], [update()] reads past the end of a vector as
    soon as the model has such a variable. So [update()] is safe only if
    every variable occurs in the scope of a factor. *)
Theorem update_needs_a_factor_for_every_variable s s1 v :
  m_clusters s = [] → init s = Ok s1 →
  (v < gm_nvar (m_gmo s))%nat → unused (m_gmo s) v →
  no_cluster s1 v ∧ update s1 = Undefined.
Proof.
  intros Hfresh Hrun Hv Hu.
  pose proof (init_keeps_gmo _ _ Hrun) as Hgm.
  apply init_clusters in Hrun as (a & Ha & Hc & _).
  assert (Hn : no_cluster s1 v).
  { unfold no_cluster. rewrite Hc.
    eapply init_buckets_unused; [| |exact Ha].
    - rewrite init_order_frame. exact Hfresh.
    - rewrite init_order_frame. exact Hu. }
  split; [exact Hn|]. apply (update_no_cluster s1 v); [|exact Hn].
  by rewrite Hgm.
Qed.

End UnusedVariables.

Section JoinGraph.
Context `{FA : FactorAlgebra} `{MS : !ModelServices}.
Implicit Types s t : ijgp.
Implicit Types L : locals.

(** ** Index lists and vectors of vectors *)

Lemma elem_of_fl_insert x y l : y ∈ fl_insert x l ↔ y = x ∨ y ∈ l.
Proof.
  induction l as [|z l IH]; cbn [fl_insert].
  - rewrite list_elem_of_singleton, elem_of_nil. tauto.
  - destruct (x <? z)%nat eqn:Hlt; [rewrite !elem_of_cons; tauto|].
    destruct (x =? z)%nat eqn:Heq.
    + apply Nat.eqb_eq in Heq as ->. rewrite !elem_of_cons. tauto.
    + rewrite !elem_of_cons, IH. tauto.
Qed.

Lemma elem_of_fl_union y a b : y ∈ fl_union a b ↔ y ∈ a ∨ y ∈ b.
Proof.
  unfold fl_union. induction b as [|z b IH]; cbn.
  - rewrite elem_of_nil. tauto.
  - rewrite elem_of_fl_insert, IH, elem_of_cons. tauto.
Qed.

Lemma at2_put2 {A} (m m' : list (list A)) a b x c d :
  put2 m a b x = Ok m' →
  at2 m' c d = if decide (c = a ∧ d = b) then Ok x else at2 m c d.
Proof.
  intros (row & Hrow & Hb & ->)%put2_Ok. unfold at2, at_.
  destruct (decide (c = a)) as [->|Hc].
  - rewrite list_lookup_insert_eq by (by eapply lookup_lt_Some).
    rewrite Hrow. cbn.
    destruct (decide (d = b)) as [->|Hd].
    + rewrite list_lookup_insert_eq by done. by rewrite decide_True.
    + rewrite list_lookup_insert_ne by done. by rewrite decide_False by tauto.
  - rewrite list_lookup_insert_ne by done. by rewrite decide_False by tauto.
Qed.

(** ** The edges of the schedule *)

Lemma push_edge_schedule_in_edges alpha t j :
  schedule_in_edges t → schedule_in_edges (push_edge alpha t j).
Proof.
  intros [Hs He]. unfold push_edge, add_edge.
  case_decide as Hin; cbn; split.
  - intros e [?| ->%list_elem_of_singleton]%elem_of_app; auto.
  - done.
  - intros e [?| ->%list_elem_of_singleton]%elem_of_app.
    + apply elem_of_app. auto.
    + apply elem_of_app. right. apply elem_of_cons. by left.
  - intros a b [?|Hab]%elem_of_app; apply elem_of_app; [by auto|right].
    rewrite !elem_of_cons in Hab. rewrite !elem_of_cons.
    destruct Hab as [[= -> ->]|[[= -> ->]|[]%elem_of_nil]]; auto.
Qed.

Lemma push_edges_schedule_in_edges alpha js t :
  schedule_in_edges t → schedule_in_edges (foldl (push_edge alpha) t js).
Proof.
  revert t. induction js as [|j js IH]; intros t Ht; cbn; [done|].
  apply IH. by apply push_edge_schedule_in_edges.
Qed.

Lemma eliminate_schedule_in_edges x i L t al L' t' al' :
  schedule_in_edges t → eliminate x i (L, t, al) = Ok (L', t', al') →
  schedule_in_edges t'.
Proof.
  intros Ht Hrun. apply eliminate_Ok in Hrun
    as (Fi & Cx & Ni & Oi & Oa & _ & _ & _ & _ & _ & _ & _ & ->).
  match goal with |- context [foldl ?f ?s0 ?l] =>
    pose proof (push_edges_schedule_in_edges (length (m_factors t)) l s0 Ht) as Hf
  end.
  exact Hf.
Qed.

Lemma init_buckets_schedule_in_edges s s' :
  m_schedule s = [] → m_edges s = [] → init_buckets s = Ok s' →
  schedule_in_edges s'.
Proof.
  intros Hs He Hrun.
  apply (init_buckets_inv (λ _ t, schedule_in_edges t)) in Hrun as [_ Hrun];
    [done| |].
  - intros x L1 t L2 t' _ HQ Hb.
    eapply (bucket_inv (λ _ t, schedule_in_edges t) True);
      [| | | |exact HQ|exact Hb]; auto.
    + intros. by eapply eliminate_schedule_in_edges.
    + intros. by apply push_edge_schedule_in_edges.
  - split; cbn; rewrite ?Hs, ?He; intros ?; [|intros ?];
      intros []%elem_of_nil.
Qed.

End JoinGraph.

Section ClusterScopes.
Context `{FA : FactorAlgebra} `{MS : !ModelServices} `{FS : !FactorScopes}.
Implicit Types s t : ijgp.
Implicit Types L : locals.

(** ** The original factors of a cluster lie within its scope *)

Lemma merge_pair_originals gm ii jj L L' t :
  originals_within gm L t → merge_pair ii jj L = Ok L' →
  originals_within gm L' t.
Proof.
  intros (Hlen & HO & Hc) Hrun.
  apply merge_pair_Ok in Hrun
    as (Fi & Fj & Fi' & Oi & Oj & Ni & Nj & Hi & Hj & _ & HOi & HOj & _ & _
        & _ & Hfin' & HOrig' & _).
  split; [done|split; [|done]].
  intros i O F o G. rewrite HOrig', Hfin'. intros HO' HF' Ho HG.
  apply list_lookup_insert_Some in HO' as [(-> & <- & _)|[Hne HO']];
    [by apply elem_of_nil in Ho|].
  rewrite list_lookup_insert_ne in HF' by done.
  apply list_lookup_insert_Some in HO' as [(-> & <- & _)|[Hne' HO']].
  - rewrite list_lookup_insert_eq in HF' by (by eapply lookup_lt_Some).
    injection HF' as <-.
    apply elem_of_fl_union in Ho as [Ho|Ho].
    + specialize (HO _ _ _ _ _ HOj Hj Ho HG). by apply union_subseteq_l'.
    + specialize (HO _ _ _ _ _ HOi Hi Ho HG). by apply union_subseteq_r'.
  - rewrite list_lookup_insert_ne in HF' by done. eauto.
Qed.

Lemma eliminate_originals gm x i L t al L' t' al' :
  originals_within gm L t → eliminate x i (L, t, al) = Ok (L', t', al') →
  originals_within gm L' t'.
Proof.
  intros (Hlen & HO & Hc) Hrun.
  apply eliminate_Ok in Hrun
    as (Fi & Cx & Ni & Oi & Oa & Hi & _ & _ & HOi & HOa & _ & -> & ->).
  match goal with |- context [foldl ?f ?s0 ?l] =>
    pose proof (push_edges_pushed (length (m_factors t)) l s0) as Hf;
    set (u := foldl f s0 l) in *
  end.
  unfold pushed_from in Hf.
  assert (Hou : m_originals u = m_originals t) by (by rewrite Hf).
  assert (Hfu : m_factors u = m_factors t ++ [f_ones Fi]) by (by rewrite Hf).
  rewrite Hou in HOa |- *.
  rewrite <- Hlen in HOa. rewrite list_lookup_middle in HOa by done.
  injection HOa as <-.
  split; [|split].
  - cbn. rewrite length_insert, length_app, Hfu, length_app. cbn. lia.
  - cbn. intros j O F o G HO' HF' Ho HG.
    apply list_lookup_insert_Some in HO' as [(-> & <- & _)|[Hne HO']];
      [by apply elem_of_nil in Ho|].
    rewrite list_lookup_insert_ne in HF' by done. eauto.
  - cbn. rewrite Hfu. intros α O F o G HO' HF' Ho HG.
    apply list_lookup_insert_Some in HO' as [(<- & <- & _)|[Hne HO']].
    + rewrite <- Hlen in HF'. rewrite list_lookup_middle in HF' by done.
      injection HF' as <-. rewrite f_vars_ones.
      apply elem_of_fl_union in Ho as [[]%elem_of_nil|Ho]. eauto.
    + assert (α < length (m_originals t))%nat as Hlt.
      { apply lookup_lt_Some in HO'. rewrite length_app in HO'. cbn in HO'.
        lia. }
      rewrite lookup_app_l in HO' by done.
      rewrite lookup_app_l in HF' by lia. eauto.
Qed.

Lemma push_edge_originals gm L t a b :
  originals_within gm L t → originals_within gm L (push_edge b t a).
Proof.
  pose proof (push_edge_pushed b t a) as Hf. unfold pushed_from in Hf.
  unfold originals_within. by rewrite Hf.
Qed.

Lemma init_buckets_originals s s' :
  m_originals s = [] → m_factors s = [] → init_buckets s = Ok s' →
  ∃ L', originals_within (m_gmo s) L' s'.
Proof.
  intros Ho Hf Hrun.
  apply (init_buckets_inv (originals_within (m_gmo s))) in Hrun; [done| |].
  - intros x L1 t L2 t' _ HQ Hb.
    eapply (bucket_inv (originals_within (m_gmo s)) True);
      [| | | |exact HQ|exact Hb]; auto.
    + intros. by eapply merge_pair_originals.
    + intros. by eapply eliminate_originals.
    + intros. by apply push_edge_originals.
  - split; [|split]; cbn.
    + by rewrite Ho, Hf.
    + intros i Oi Fi o G HOi HFi Hin HG.
      rewrite list_lookup_fmap in HOi. rewrite list_lookup_fmap in HFi.
      destruct (seq 0 (length (gm_factors (m_gmo s))) !! i) as [k|] eqn:Hk;
        [|done].
      apply lookup_seq in Hk as [-> _]. injection HOi as <-.
      apply list_elem_of_singleton in Hin as ->. cbn in HG.
      rewrite HG in HFi. by injection HFi as <-.
    + rewrite Ho. intros α ? ? ? ? Hnil. by rewrite lookup_nil in Hnil.
Qed.

End ClusterScopes.

Section Phases.
Context `{FA : FactorAlgebra} `{MS : !ModelServices} `{FS : !FactorScopes}.
Implicit Types s t : ijgp.

(** ** What the later parts of [init] establish *)

(** A loop establishes [good] for each of its items when the step of an
    item establishes it for this item and every step keeps it for all. *)
Lemma for_each_establishes {A S} (good : S → A → Prop) (c : A → Prop)
    (body : A → S → outcome S) l (z z' : S) :
  (∀ x y (u u' : S), body x u = Ok u' → good u y → good u' y) →
  (∀ x (u u' : S), c x → body x u = Ok u' → good u' x) →
  for_each body l z = Ok z' → ∀ x, x ∈ l → c x → good z' x.
Proof.
  intros Hkeep Hest. revert z.
  induction l as [|y l IH]; intros z Hrun x Hx Hc;
    [by apply elem_of_nil in Hx|].
  cbn in Hrun. apply bind_Ok in Hrun as (z1 & H1 & Hrun).
  apply elem_of_cons in Hx as [->|Hx]; [|by eapply IH].
  eapply (for_each_inv (λ u, good u y)); [|by eapply Hest|exact Hrun].
  intros w u u' _ Hg Hw. by eapply Hkeep.
Qed.

Lemma init_scopes_recorded s s' i :
  init_scopes s = Ok s' → (i < length (m_factors s))%nat → scope_recorded s' i.
Proof.
  unfold init_scopes. intros Hrun Hi.
  eapply (for_each_establishes scope_recorded (λ _, True)) in Hrun;
    [exact Hrun| | |by apply elem_of_seq; lia|done].
  - intros x y u u' Hx (F & HF & Hsc). ok_inv Hx. subst u'. ok_all. simpl.
    exists F. split; [done|]. simpl.
    destruct (decide (x = y)) as [->|Hne].
    + rewrite list_lookup_insert_eq by done. congruence.
    + by rewrite list_lookup_insert_ne.
  - intros x u u' _ Hx. ok_inv Hx. subst u'. ok_all. simpl.
    exists a. split; [done|]. simpl. by rewrite list_lookup_insert_eq.
Qed.

Lemma separator_of_keeps e t t' c d :
  separator_of e t = Ok t' → separator_recorded t c d →
  separator_recorded t' c d.
Proof.
  unfold separator_of. destruct e as [a b]. case_decide; [by intros [= <-]|].
  intros Hrun (Fc & Fd & Hc & Hd & Hsep). ok_inv Hrun. subst t'.
  apply at_Ok in Ha, Ha0. exists Fc, Fd. split; [done|split; [done|]]. simpl.
  rewrite (at2_put2 _ _ _ _ _ c d Ha2), (at2_put2 _ _ _ _ _ c d Ha1).
  repeat case_decide; destruct_and?; simplify_eq; try done.
  by rewrite (comm_L (∩)).
Qed.

Lemma separator_of_establishes a b t t' :
  (a ≤ b)%nat → separator_of (a, b) t = Ok t' →
  separator_recorded t' a b ∧ separator_recorded t' b a.
Proof.
  unfold separator_of. intros Hab. rewrite decide_False by lia.
  intros Hrun. ok_inv Hrun. subst t'. apply at_Ok in Ha, Ha0.
  split.
  - exists a0, a1. split; [done|split; [done|]]. simpl.
    rewrite (at2_put2 _ _ _ _ _ a b Ha2), (at2_put2 _ _ _ _ _ a b Ha1).
    repeat case_decide; destruct_and?; simplify_eq; try done; tauto.
  - exists a1, a0. split; [done|split; [done|]]. simpl.
    rewrite (at2_put2 _ _ _ _ _ b a Ha2).
    rewrite decide_True by done. by rewrite (comm_L (∩)).
Qed.

Lemma init_separators_recorded s s' a b :
  (∀ a b, (a, b) ∈ m_edges s → (b, a) ∈ m_edges s) →
  init_separators s = Ok s' → (a, b) ∈ m_edges s → separator_recorded s' a b.
Proof.
  unfold init_separators, edges. intros Hsym Hrun Hab.
  assert (Hall : ∀ e, e ∈ m_edges s → (e.1 ≤ e.2)%nat →
                      separator_recorded s' e.1 e.2 ∧
                      separator_recorded s' e.2 e.1).
  { eapply (for_each_establishes
      (λ t e, separator_recorded t e.1 e.2 ∧ separator_recorded t e.2 e.1)
      (λ e, e.1 ≤ e.2)%nat separator_of (m_edges s) s s'); [| |exact Hrun].
    - intros x y u u' Hx [H1 H2].
      split; eapply separator_of_keeps; eauto.
    - intros [x y] u u' Hxy Hx. by eapply separator_of_establishes. }
  destruct (decide (a ≤ b)%nat) as [Hle|Hgt].
  - by apply (Hall (a, b)).
  - apply (Hall (b, a)); [by apply Hsym|simpl; lia].
Qed.

Lemma init_in_out_in_schedule s s' :
  m_in s = [] → m_out s = [] → init_in_out s = Ok s' → in_out_in_schedule s'.
Proof.
  intros Hin Hout Hrun. pose proof (init_in_out_frame _ _ Hrun) as Hfr.
  unfold init_in_out in Hrun.
  eapply (for_each_inv (λ t, m_schedule t = m_schedule s ∧
    (∀ a ins p, m_in t !! a = Some ins → p ∈ ins → (p, a) ∈ m_schedule s) ∧
    (∀ a outs q, m_out t !! a = Some outs → q ∈ outs → (a, q) ∈ m_schedule s)))
    in Hrun.
  - destruct Hrun as (Hs & Hi & Ho). unfold in_out_in_schedule.
    rewrite Hs. done.
  - intros [from to] t t' He (Hs & Hi & Ho) Hstep.
    unfold in_out_of in Hstep. ok_inv Hstep. subst t'. ok_all.
    simpl in *. split; [done|split].
    + intros c ins p Hc Hp.
      apply list_lookup_insert_Some in Hc as [(<- & <- & _)|[_ Hc]]; [|eauto].
      apply elem_of_fl_insert in Hp as [->|Hp]; eauto.
    + intros c outs q Hc Hq.
      apply list_lookup_insert_Some in Hc as [(<- & <- & _)|[_ Hc]]; [|eauto].
      apply elem_of_fl_insert in Hq as [->|Hq]; eauto.
  - simpl. rewrite Hin, Hout, !resize_nil. split; [done|].
    split; intros c l p Hc Hp; apply lookup_replicate in Hc as [-> _];
      by apply elem_of_nil in Hp.
Qed.

Lemma edge_index_step x u u' :
  (at_ (m_schedule u) x ≫= λ '(from, to),
     put2 (m_edge_indeces u) from to x ≫= λ ei, Ok (set_m_edge_indeces ei u))
  = Ok u' →
  m_schedule u' = m_schedule u ∧
  (∀ y, edge_indexed u y → edge_indexed u' y) ∧ edge_indexed u' x.
Proof.
  intros Hx. ok_inv Hx. subst u'. ok_all. split; [done|split].
  - intros y Hy c d Hcd. simpl in Hcd.
    destruct (Hy c d Hcd) as (j & Hj & Hsj).
    simpl. rewrite (at2_put2 _ _ _ _ _ c d Ha0).
    case_decide as Hc; [|eauto]. destruct Hc as [-> ->]. eauto.
  - intros c d Hcd. simpl in Hcd. rewrite Ha in Hcd. injection Hcd as -> ->.
    exists x. simpl. rewrite (at2_put2 _ _ _ _ _ c d Ha0).
    by rewrite decide_True.
Qed.

Lemma init_messages_indexed s s' i :
  init_messages s = Ok s' → edge_indexed s' i.
Proof.
  intros Hrun. pose proof (init_messages_frame _ _ Hrun) as (Hfr & _ & _).
  intros a b Hi.
  assert (Hlt : (i < length (m_schedule s))%nat).
  { apply lookup_lt_Some in Hi. by rewrite Hfr in Hi. }
  unfold init_messages in Hrun.
  eapply (for_each_establishes (λ t i, edge_indexed t i) (λ _, True))
    in Hrun; [by apply Hrun| | |by apply elem_of_seq; lia|done].
  - intros x y u u' Hx Hy. apply edge_index_step in Hx as (_ & Hk & _). auto.
  - intros x u u' _ Hx. by apply edge_index_step in Hx as (_ & _ & Hx).
Qed.

Lemma potential_of_within i t t' :
  originals_within_scopes t → potentials_within t →
  potential_of i t = Ok t' → potentials_within t'.
Proof.
  intros Ho Hp Hrun. unfold potential_of in Hrun. ok_inv Hrun. subst t'. ok_all.
  intros j F sc HF Hsc. simpl in *.
  apply list_lookup_insert_Some in HF as [(<- & <- & _)|[_ HF]]; [|eauto].
  eapply (for_each_inv (λ F, f_vars F ⊆ sc)) in Ha0; [done| |].
  - intros o F F' Hin HF HG. unfold get_factor in HG. ok_inv HG. subst F'.
    ok_all. rewrite f_vars_mul. specialize (Ho _ _ _ _ _ Ha Hsc Hin Ha1).
    by apply union_least.
  - rewrite f_vars_scalar. apply empty_subseteq.
Qed.

Lemma init_potentials_within s s' :
  originals_within_scopes s → potentials_within s →
  init_potentials s = Ok s' → potentials_within s'.
Proof.
  intros Ho Hp Hrun. unfold init_potentials in Hrun.
  eapply (for_each_inv (λ t, originals_within_scopes t ∧ potentials_within t))
    in Hrun; [by destruct Hrun| |done].
  intros i t t' _ [Ho' Hp'] Hi. split; [|by eapply potential_of_within].
  apply potential_of_frame in Hi. unfold originals_within_scopes in *.
  by rewrite Hi.
Qed.

(** ** The join graph that [init] builds *)

(** From [H : x = set_.. (..) y], the members that [x] has from [y]. *)
Ltac same_members H x y :=
  try (assert (m_factors x = m_factors y) by (rewrite H at 1; reflexivity));
  try (assert (m_edges x = m_edges y) by (rewrite H at 1; reflexivity));
  try (assert (m_schedule x = m_schedule y) by (rewrite H at 1; reflexivity));
  try (assert (m_originals x = m_originals y) by (rewrite H at 1; reflexivity));
  try (assert (m_scopes x = m_scopes y) by (rewrite H at 1; reflexivity));
  try (assert (m_separators x = m_separators y) by (rewrite H at 1; reflexivity));
  try (assert (m_in x = m_in y) by (rewrite H at 1; reflexivity));
  try (assert (m_out x = m_out y) by (rewrite H at 1; reflexivity));
  try (assert (m_forward x = m_forward y) by (rewrite H at 1; reflexivity));
  try (assert (m_backward x = m_backward y) by (rewrite H at 1; reflexivity));
  try (assert (m_edge_indeces x = m_edge_indeces y)
         by (rewrite H at 1; reflexivity));
  try (assert (m_gmo x = m_gmo y) by (rewrite H at 1; reflexivity)).

Lemma init_join_graph s s' :
  unbuilt s → init s = Ok s' → join_graph_ok s' ∧ messages_within s'.
Proof.
  intros (Hf & He & Hs & Ho & _ & Hi & Hou & Hfw & Hbw) Hrun.
  unfold init in Hrun. ok_inv Hrun. subst s'.
  pose proof (init_order_frame s) as Hord.
  remember (init_order s) as s0 eqn:Hs0. clear Hs0. same_members Hord s0 s.
  pose proof (init_buckets_frame _ _ Ha) as Hb. unfold built_from in Hb.
  same_members Hb a s0.
  assert (Hsched : schedule_in_edges a).
  { eapply init_buckets_schedule_in_edges; [| |exact Ha]; congruence. }
  destruct (init_buckets_originals s0 a) as (L' & Hlen & _ & HK);
    [congruence|congruence|exact Ha|].
  pose proof (init_scopes_frame _ _ Ha0) as Hfr0. same_members Hfr0 a0 a.
  pose proof (λ i, init_scopes_recorded _ _ i Ha0) as Hsc.
  pose proof (init_separators_frame _ _ Ha1) as Hfr1. same_members Hfr1 a1 a0.
  pose proof (λ c d, init_separators_recorded a0 a1 c d) as Hsep.
  pose proof (init_in_out_frame _ _ Ha2) as Hfr2. same_members Hfr2 a2 a1.
  pose proof (init_roots_frame a2) as Hfr2'.
  remember (init_roots a2) as a2' eqn:Hr2. clear Hr2. same_members Hfr2' a2' a2.
  pose proof (init_messages_frame _ _ Ha3) as (Hfr3 & Hfw3 & Hbw3).
  same_members Hfr3 a3 a2'.
  pose proof (init_potentials_frame _ _ Ha4) as Hfr4. same_members Hfr4 a4 a3.
  assert (Efac : m_factors a3 = m_factors a) by congruence.
  assert (Eorig : m_originals a3 = m_originals a) by congruence.
  assert (Egmo : m_gmo a3 = m_gmo s0) by congruence.
  assert (Esc3 : m_scopes a3 = m_scopes a0) by congruence.
  assert (Esc4 : m_scopes a4 = m_scopes a0) by congruence.
  assert (Esep4 : m_separators a4 = m_separators a1) by congruence.
  assert (Efac1 : m_factors a1 = m_factors a) by congruence.
  assert (Esch0 : m_schedule a0 = m_schedule a) by congruence.
  assert (Eed0 : m_edges a0 = m_edges a) by congruence.
  assert (Esch2 : m_schedule a2 = m_schedule a) by congruence.
  assert (Esch2' : m_schedule a2' = m_schedule a) by congruence.
  assert (Esch3 : m_schedule a3 = m_schedule a) by congruence.
  assert (Esch4 : m_schedule a4 = m_schedule a) by congruence.
  assert (Ein4 : m_in a4 = m_in a2) by congruence.
  assert (Eout4 : m_out a4 = m_out a2) by congruence.
  assert (Eei4 : m_edge_indeces a4 = m_edge_indeces a3) by congruence.
  assert (Efw4 : m_forward a4 = m_forward a3) by congruence.
  assert (Ebw4 : m_backward a4 = m_backward a3) by congruence.
  assert (Efw2 : m_forward a2' = []) by congruence.
  assert (Ebw2 : m_backward a2' = []) by congruence.
  assert (Hrec : ∀ i F, m_factors a !! i = Some F →
                        m_scopes a0 !! i = Some (f_vars F)).
  { intros i F HF. destruct (Hsc i) as (F' & HF' & Hsc').
    - by eapply lookup_lt_Some.
    - congruence. }
  assert (Hpot : potentials_within a4).
  { eapply init_potentials_within; [| |exact Ha4].
    - intros α Oα sc o G HO Hsc' Hin HG.
      rewrite Eorig in HO. rewrite Esc3 in Hsc'. rewrite Egmo in HG.
      assert (α < length (m_factors a))%nat as Hlt.
      { rewrite <- Hlen. by eapply lookup_lt_Some. }
      apply lookup_lt_is_Some in Hlt as [Fα HFα].
      assert (sc = f_vars Fα) as ->.
      { apply Hrec in HFα. congruence. }
      by eapply (HK α Oα Fα o G).
    - intros i F sc HF Hsc'. rewrite Efac in HF. rewrite Esc3 in Hsc'.
      apply Hrec in HF. assert (sc = f_vars F) as -> by congruence. done. }
  split; [split; [|split; [|split]]|].
  - intros c d Hcd. simpl in *. rewrite Esch4 in Hcd.
    rewrite Esc4, Esep4.
    assert ((c, d) ∈ m_edges a0) as Hed.
    { destruct Hsched as [Hse _]. rewrite Eed0. by apply Hse. }
    destruct (Hsep c d) as (Fc & Fd & HFc & HFd & Hat);
      [destruct Hsched as [_ Hsym]; intros ? ?; rewrite Eed0; by apply Hsym
      |exact Ha1|exact Hed|].
    rewrite Efac1 in HFc, HFd.
    exists (f_vars Fc), (f_vars Fd). auto.
  - exact Hpot.
  - assert (in_out_in_schedule a2) as [Hin2 Hout2].
    { eapply init_in_out_in_schedule; [| |exact Ha2]; congruence. }
    split; simpl; rewrite ?Ein4, ?Eout4, Esch4, <- Esch2; eauto.
  - intros i c d Hcd. simpl in *. rewrite Eei4. rewrite Esch4 in *.
    rewrite <- Esch3 in *. by apply (init_messages_indexed _ _ i Ha3 c d).
  - intros j c d sep F _ _ HF. simpl in HF. rewrite Efw4, Ebw4 in HF.
    rewrite Hfw3, Hbw3, Efw2, Ebw2, !resize_nil in HF.
    assert (F = f_scalar (d_lit 1)) as ->.
    { by destruct HF as [HF|HF]; apply lookup_replicate in HF as [-> _]. }
    rewrite f_vars_scalar. apply empty_subseteq.
Qed.

End Phases.

Section MessageScopes.
Context `{FA : FactorAlgebra} `{MS : !ModelServices} `{FS : !FactorScopes}.
Implicit Types s t : ijgp.

(** ** The scopes of the messages *)

Lemma difference_within (X sc sep : variable_set) :
  X ⊆ sc → X ∖ (sc ∖ sep) ⊆ sep.
Proof.
  intros HX x [Hx Hn]%elem_of_difference.
  destruct (decide (x ∈ sep)) as [|Hsep]; [done|].
  exfalso. apply Hn. apply elem_of_difference. auto.
Qed.

Lemma f_vars_elim s F vs : f_vars (elim s F vs) = f_vars F ∖ vs.
Proof.
  unfold elim. destruct (m_elim_op s); [apply f_vars_max_out|apply f_vars_sum_out].
Qed.

Lemma multiply_in_within msgs idx skip ps bel bel' (sc : variable_set) :
  (∀ p j F, p ∈ ps → skip ≠ Some p → idx p = Ok j → msgs !! j = Some F →
            f_vars F ⊆ sc) →
  f_vars bel ⊆ sc → multiply_in msgs idx skip ps bel = Ok bel' →
  f_vars bel' ⊆ sc.
Proof.
  intros Hmsgs Hbel Hrun. unfold multiply_in in Hrun.
  eapply (for_each_inv (λ F, f_vars F ⊆ sc)) in Hrun; [done| |done].
  intros p F F' Hp HF Hstep. case_decide as Hskip; [by injection Hstep as <-|].
  ok_inv Hstep. subst F'. ok_all. rewrite f_vars_mul.
  specialize (Hmsgs _ _ _ Hp Hskip Ha Ha0). by apply union_least.
Qed.

(** The separator of an edge of the schedule, and the messages at the index
    of the edge. *)
Lemma edge_of_schedule t a b j :
  join_graph_ok t → messages_within t →
  (a, b) ∈ m_schedule t → at2 (m_edge_indeces t) a b = Ok j →
  ∃ sa sb, m_scopes t !! a = Some sa ∧ m_scopes t !! b = Some sb ∧
           at2 (m_separators t) a b = Ok (sa ∩ sb) ∧
           m_schedule t !! j = Some (a, b) ∧
           (∀ F, m_forward t !! j = Some F ∨ m_backward t !! j = Some F →
                 f_vars F ⊆ sa ∩ sb).
Proof.
  intros (Hsep & _ & _ & Hidx) Hmsg Hab Hj.
  destruct (Hsep a b Hab) as (sa & sb & Hsa & Hsb & Hat).
  apply list_elem_of_lookup in Hab as [i Hi].
  destruct (Hidx i a b Hi) as (j' & Hj' & Hsj).
  assert (j' = j) as -> by congruence.
  exists sa, sb. repeat split; try done.
  intros F HF. by eapply Hmsg.
Qed.

Lemma calc_belief_excl_within t a b bel sa :
  join_graph_ok t → messages_within t → m_scopes t !! a = Some sa →
  calc_belief_excl t a b = Ok bel → f_vars bel ⊆ sa.
Proof.
  intros Hjg Hmsg Hsa Hrun.
  pose proof Hjg as (_ & Hpot & [Hin Hout] & _).
  unfold calc_belief_excl in Hrun. ok_inv Hrun. ok_all.
  eapply multiply_in_within; [| |exact Hrun].
  - intros q j F Hq _ Hj HF.
    destruct (edge_of_schedule t a q j Hjg Hmsg) as
      (sa' & sq & Hsa' & _ & _ & _ & Hw); [by eapply Hout|done|].
    assert (sa' = sa) as -> by congruence.
    specialize (Hw F (or_intror HF)).
    etransitivity; [exact Hw|apply intersection_subseteq_l].
  - eapply multiply_in_within; [| |exact Ha1].
    + intros p j F Hp _ Hj HF.
      destruct (edge_of_schedule t p a j Hjg Hmsg) as
        (sp & sa' & _ & Hsa' & _ & _ & Hw); [by eapply Hin|done|].
      assert (sa' = sa) as -> by congruence.
      specialize (Hw F (or_introl HF)).
      etransitivity; [exact Hw|apply intersection_subseteq_r].
    + by eapply Hpot.
Qed.

Lemma forward_edge_within a b t t' :
  join_graph_ok t → messages_within t → (a, b) ∈ m_schedule t →
  forward_edge (a, b) t = Ok t' → join_graph_ok t' ∧ messages_within t'.
Proof.
  intros Hjg Hmsg Hab Hrun. unfold forward_edge in Hrun. ok_inv Hrun.
  subst t'. ok_all. split; [exact Hjg|].
  destruct (edge_of_schedule t a b a0 Hjg Hmsg Hab Ha)
    as (sa & sb & Hsa & Hsb & Hat & Hsched & Hw).
  assert (a1 = sa) as -> by congruence.
  assert (a2 = sa ∩ sb) as -> by congruence.
  pose proof (calc_belief_excl_within _ _ _ _ _ Hjg Hmsg Hsa Ha2) as Hbel.
  intros j c d sep F Hj Hsep HF. simpl in *.
  destruct HF as [HF|HF]; [|by eapply Hmsg; eauto].
  apply list_lookup_insert_Some in HF as [(<- & <- & _)|[_ HF]];
    [|by eapply Hmsg; eauto].
  assert (c = a ∧ d = b) as [-> ->] by (split; congruence).
  assert (sep = sa ∩ sb) as -> by congruence.
  rewrite f_vars_div, f_vars_elim. by apply difference_within.
Qed.

Lemma backward_edge_within a b t t' :
  join_graph_ok t → messages_within t → (a, b) ∈ m_schedule t →
  backward_edge (a, b) t = Ok t' → join_graph_ok t' ∧ messages_within t'.
Proof.
  intros Hjg Hmsg Hab Hrun. unfold backward_edge in Hrun. ok_inv Hrun.
  subst t'. ok_all. split; [exact Hjg|].
  destruct (edge_of_schedule t a b a0 Hjg Hmsg Hab Ha)
    as (sa & sb & Hsa & Hsb & Hat & Hsched & Hw).
  assert (a1 = sb) as -> by congruence.
  assert (a2 = sa ∩ sb) as -> by congruence.
  pose proof (calc_belief_excl_within _ _ _ _ _ Hjg Hmsg Hsb Ha2) as Hbel.
  intros j c d sep F Hj Hsep HF. simpl in *.
  destruct HF as [HF|HF]; [by eapply Hmsg; eauto|].
  apply list_lookup_insert_Some in HF as [(<- & <- & _)|[_ HF]];
    [|by eapply Hmsg; eauto].
  assert (c = a ∧ d = b) as [-> ->] by (split; congruence).
  assert (sep = sa ∩ sb) as -> by congruence.
  rewrite f_vars_div, f_vars_elim. by apply difference_within.
Qed.

Lemma forward_within s s' :
  join_graph_ok s → messages_within s → forward s = Ok s' →
  join_graph_ok s' ∧ messages_within s'.
Proof.
  intros Hjg Hmsg Hrun. unfold forward in Hrun. ok_inv Hrun. subst s'.
  eapply (for_each_inv (λ t, m_schedule t = m_schedule s ∧
                             join_graph_ok t ∧ messages_within t)) in Ha.
  - destruct Ha as (_ & Hjg' & Hmsg'). split; [exact Hjg'|exact Hmsg'].
  - intros [c d] t t' Hab (Hs & Hjg' & Hmsg') Hstep. split.
    + apply forward_edge_frame in Hstep. by rewrite Hstep.
    + eapply forward_edge_within; [done|done| |exact Hstep]. by rewrite Hs.
  - split; [done|]. split; [exact Hjg|exact Hmsg].
Qed.

Lemma backward_within s s' :
  join_graph_ok s → messages_within s → backward s = Ok s' →
  join_graph_ok s' ∧ messages_within s'.
Proof.
  intros Hjg Hmsg Hrun. unfold backward in Hrun.
  eapply (for_each_inv (λ t, m_schedule t = m_schedule s ∧
                             join_graph_ok t ∧ messages_within t)) in Hrun.
  - by destruct Hrun as (_ & Hjg' & Hmsg').
  - intros [a b] t t' Hab (Hs & Hjg' & Hmsg') Hstep. split.
    + apply backward_edge_frame in Hstep. by rewrite Hstep.
    + eapply backward_edge_within; [done|done| |exact Hstep].
      rewrite Hs. apply list_elem_of_In. apply list_elem_of_In in Hab.
      by apply in_rev.
  - done.
Qed.

Lemma update_within s s' :
  join_graph_ok s → messages_within s → update s = Ok s' →
  join_graph_ok s' ∧ messages_within s'.
Proof.
  intros Hjg Hmsg Hrun. apply update_frame in Hrun. rewrite Hrun.
  split; [exact Hjg|exact Hmsg].
Qed.

End MessageScopes.

Section Properties_of_the_setter.
Context `{FA : FactorAlgebra} `{MS : !ModelServices}.
Implicit Types s t : ijgp.

(** ** What [set_properties] writes *)

Lemma configured_from_refl s : configured_from s s.
Proof. unfold configured_from. frame_eq. Qed.

Lemma configured_from_trans s t u :
  configured_from s t → configured_from t u → configured_from s u.
Proof. unfold configured_from. intros Ht Hu. rewrite Hu, Ht. frame_eq. Qed.

Lemma set_property_frame asgn s s' :
  set_property asgn s = Ok s' → configured_from s s'.
Proof.
  unfold set_property. intros Hrun. ok_inv Hrun.
  destruct a0; ok_inv Hrun; subst s'; unfold configured_from; frame_eq.
Qed.

Lemma set_properties_frame opt s s' :
  set_properties opt s = Ok s' → configured_from s s'.
Proof.
  unfold set_properties. intros Hrun.
  eapply (for_each_inv (configured_from s)) in Hrun; [exact Hrun| |].
  - intros str t t' _ Ht Hstep. eapply configured_from_trans; [exact Ht|].
    by eapply set_property_frame.
  - unfold configured_from. frame_eq.
Qed.

(** X1. [set_properties] writes the i-bound, the order with its method and
    pseudo tree, the number of iterations, the task with its elimination
    operator and the debug flag, and no other member: the model, the join
    graph, the messages, the beliefs, the assignment and [m_log_z] are as
    before. *)
Theorem set_properties_changes_only_the_configuration opt s s' :
  set_properties opt s = Ok s' →
  configured_from s s' ∧
  m_gmo s' = m_gmo s ∧ m_factors s' = m_factors s ∧ m_edges s' = m_edges s ∧
  m_clusters s' = m_clusters s ∧ m_schedule s' = m_schedule s ∧
  m_forward s' = m_forward s ∧ m_backward s' = m_backward s ∧
  m_beliefs s' = m_beliefs s ∧ m_best_config s' = m_best_config s ∧
  m_log_z s' = m_log_z s ∧ cout s' = cout s.
Proof.
  intros Hrun. apply set_properties_frame in Hrun.
  split; [exact Hrun|]. unfold configured_from in Hrun. rewrite Hrun.
  repeat split.
Qed.

(** ** The elimination operator follows the task *)

Lemma set_property_elim_op asgn s s' :
  elim_op_of_task s → set_property asgn s = Ok s' → elim_op_of_task s'.
Proof.
  unfold set_property, elim_op_of_task. intros Hs Hrun. ok_inv Hrun.
  destruct a0; ok_inv Hrun; subst s'; cbn; try exact Hs.
  case_decide; split; congruence.
Qed.

(** X2. When the elimination operator is Sum exactly for task MAR,
    [set_properties] leaves it so, whatever the properties are: only the
    key Task writes the operator, together with the task. *)
Theorem set_properties_keeps_elim_op_of_task opt s s' :
  elim_op_of_task s → set_properties opt s = Ok s' → elim_op_of_task s'.
Proof.
  unfold set_properties. intros Hs Hrun.
  eapply (for_each_inv elim_op_of_task) in Hrun; [exact Hrun| |exact Hs].
  intros str t t' _ Ht Hstep. by eapply set_property_elim_op.
Qed.

(** ** The defaults of the constructor *)

(** X3. An object that the constructor returns has the default properties
    of [set_properties()]: i-bound 4, 10 iterations, task MAR with the
    elimination operator Sum, no debugging, the ordering method of the name
    MinFill and no order or pseudo tree yet; it holds the model it was given
    and has no cluster, edge, root or message. *)
Theorem ijgp_new_defaults gm u meth s :
  ijgp_new gm u meth = Ok s →
  m_ibound s = 4 ∧ num_iter s = 10 ∧ m_task s = MAR ∧ m_elim_op s = Sum ∧
  m_debug s = false ∧ m_order s = [] ∧ m_parents s = [] ∧
  OrderMethod_of_name "MinFill" = Ok (m_order_method s) ∧
  m_gmo s = gm ∧ unbuilt s ∧ m_roots s = [].
Proof.
  unfold ijgp_new, set_properties. rewrite decide_True by done.
  cbn. intros Hrun.
  destruct (OrderMethod_of_name "MinFill") as [m| | |] eqn:Hm; try discriminate.
  cbn in Hrun. injection Hrun as <-. cbn. unfold unbuilt. cbn.
  repeat split; reflexivity.
Qed.

(** ** Properties that the string does not name *)

Lemma set_property_unnamed asgn t t' :
  set_property asgn t = Ok t' →
  ∃ key p, asgn !! 0%nat = Some key ∧ Property_of_name key = Ok p ∧
    (p ≠ iBound → m_ibound t' = m_ibound t) ∧
    (p ≠ Iter → num_iter t' = num_iter t) ∧
    (p ≠ Task_ → m_task t' = m_task t ∧ m_elim_op t' = m_elim_op t) ∧
    (p ≠ Order → m_order t' = m_order t ∧ m_parents t' = m_parents t ∧
                 m_order_method t' = m_order_method t) ∧
    (p ≠ Debug → m_debug t' = m_debug t).
Proof.
  unfold set_property. intros Hrun. ok_inv Hrun. apply at_Ok in Ha.
  exists a, a0. split; [exact Ha|]. split; [exact Ha0|].
  destruct a0; ok_inv Hrun; subst t'; cbn; repeat split; congruence.
Qed.

Lemma set_properties_keeps (p : Property) (Q : ijgp → Prop) opt s s' :
  String.length opt ≠ 0%nat → ¬ names opt p →
  (∀ asgn t t' q, q ≠ p → Q t → set_property asgn t = Ok t' →
                  (∃ key, asgn !! 0%nat = Some key ∧ Property_of_name key = Ok q) →
                  Q t') →
  Q (set_m_debug false s) → set_properties opt s = Ok s' → Q s'.
Proof.
  intros Hopt Hp Hstep H0. unfold set_properties.
  rewrite (decide_False (P := _ = _)) by done. intros Hrun.
  eapply (for_each_inv Q) in Hrun; [exact Hrun| |exact H0].
  intros str t t' Hstr Ht Hset.
  destruct (set_property_unnamed _ _ _ Hset) as (key & q & Hk & Hq & _).
  eapply (Hstep _ t t' q); [|exact Ht|exact Hset|by exists key].
  intros ->. apply Hp. by exists str, key.
Qed.

(** X4. [set_properties] on a string that is not empty leaves a property
    as it was when no key of the string names it, but for the debug flag,
    which it then resets to false. *)
Theorem set_properties_unnamed opt s s' :
  String.length opt ≠ 0%nat → set_properties opt s = Ok s' →
  (¬ names opt iBound → m_ibound s' = m_ibound s) ∧
  (¬ names opt Iter → num_iter s' = num_iter s) ∧
  (¬ names opt Task_ → m_task s' = m_task s ∧ m_elim_op s' = m_elim_op s) ∧
  (¬ names opt Order → m_order s' = m_order s ∧ m_parents s' = m_parents s ∧
                       m_order_method s' = m_order_method s) ∧
  (¬ names opt Debug → m_debug s' = false).
Proof.
  intros Hopt Hrun.
  assert (Hone : ∀ asgn t t' q (_ : string),
    set_property asgn t = Ok t' →
    (∃ key, asgn !! 0%nat = Some key ∧ Property_of_name key = Ok q) →
    (q ≠ iBound → m_ibound t' = m_ibound t) ∧
    (q ≠ Iter → num_iter t' = num_iter t) ∧
    (q ≠ Task_ → m_task t' = m_task t ∧ m_elim_op t' = m_elim_op t) ∧
    (q ≠ Order → m_order t' = m_order t ∧ m_parents t' = m_parents t ∧
                 m_order_method t' = m_order_method t) ∧
    (q ≠ Debug → m_debug t' = m_debug t)).
  { intros asgn t t' q _ Hset (key & Hk & Hq).
    destruct (set_property_unnamed _ _ _ Hset) as (key' & q' & Hk' & Hq' & Hall).
    assert (q' = q) as -> by congruence. exact Hall. }
  split; [|split; [|split; [|split]]]; intros Hp;
    [ | |split|split; [|split]| ].
  - eapply (set_properties_keeps iBound (λ t, m_ibound t = m_ibound s));
      [exact Hopt|exact Hp| |reflexivity|exact Hrun].
    intros asgn t t' q Hq Ht Hset Hkey.
    destruct (Hone _ _ _ _ EmptyString Hset Hkey) as (H1 & _). rewrite H1; auto.
  - eapply (set_properties_keeps Iter (λ t, num_iter t = num_iter s));
      [exact Hopt|exact Hp| |reflexivity|exact Hrun].
    intros asgn t t' q Hq Ht Hset Hkey.
    destruct (Hone _ _ _ _ EmptyString Hset Hkey) as (_ & H1 & _). rewrite H1; auto.
  - eapply (set_properties_keeps Task_ (λ t, m_task t = m_task s));
      [exact Hopt|exact Hp| |reflexivity|exact Hrun].
    intros asgn t t' q Hq Ht Hset Hkey.
    destruct (Hone _ _ _ _ EmptyString Hset Hkey) as (_ & _ & H1 & _).
    destruct (H1 Hq) as [-> _]. exact Ht.
  - eapply (set_properties_keeps Task_ (λ t, m_elim_op t = m_elim_op s));
      [exact Hopt|exact Hp| |reflexivity|exact Hrun].
    intros asgn t t' q Hq Ht Hset Hkey.
    destruct (Hone _ _ _ _ EmptyString Hset Hkey) as (_ & _ & H1 & _).
    destruct (H1 Hq) as [_ ->]. exact Ht.
  - eapply (set_properties_keeps Order (λ t, m_order t = m_order s));
      [exact Hopt|exact Hp| |reflexivity|exact Hrun].
    intros asgn t t' q Hq Ht Hset Hkey.
    destruct (Hone _ _ _ _ EmptyString Hset Hkey) as (_ & _ & _ & H1 & _).
    destruct (H1 Hq) as (-> & _ & _). exact Ht.
  - eapply (set_properties_keeps Order (λ t, m_parents t = m_parents s));
      [exact Hopt|exact Hp| |reflexivity|exact Hrun].
    intros asgn t t' q Hq Ht Hset Hkey.
    destruct (Hone _ _ _ _ EmptyString Hset Hkey) as (_ & _ & _ & H1 & _).
    destruct (H1 Hq) as (_ & -> & _). exact Ht.
  - eapply (set_properties_keeps Order (λ t, m_order_method t = m_order_method s));
      [exact Hopt|exact Hp| |reflexivity|exact Hrun].
    intros asgn t t' q Hq Ht Hset Hkey.
    destruct (Hone _ _ _ _ EmptyString Hset Hkey) as (_ & _ & _ & H1 & _).
    destruct (H1 Hq) as (_ & _ & ->). exact Ht.
  - eapply (set_properties_keeps Debug (λ t, m_debug t = false));
      [exact Hopt|exact Hp| |reflexivity|exact Hrun].
    intros asgn t t' q Hq Ht Hset Hkey.
    destruct (Hone _ _ _ _ EmptyString Hset Hkey) as (_ & _ & _ & _ & H1).
    rewrite H1; auto.
Qed.

End Properties_of_the_setter.

Section Errors_of_the_setter.
Context `{FA : FactorAlgebra} `{MS : !ModelServices}.
Implicit Types s : ijgp.







End Errors_of_the_setter.

Section Properties_of_the_score.
Context `{FA : FactorAlgebra} `{MS : !ModelServices}.
Implicit Types s t : ijgp.

(** ** The score of a pair, without bound *)



(** X6. The score of a pair does not depend on the order of the two
    indices nor on the variable of the bucket, also where an index lies
    past the end of the scopes. *)
Theorem score_symmetric s fin VX VX' i j :
  score s fin VX i j = score s fin VX' j i.
Proof.
  unfold score, at_.
  destruct (fin !! i) as [F1|], (fin !! j) as [F2|]; cbn; try reflexivity.
  rewrite (comm_L (∪) F2 F1), (Z.add_comm (nvar F2)).
  replace (Z.max (Z.max (m_ibound s) (to_size_t (nvar F2 - 1)))
                 (to_size_t (nvar F1 - 1)))
    with (Z.max (Z.max (m_ibound s) (to_size_t (nvar F1 - 1)))
                (to_size_t (nvar F2 - 1))) by lia.
  reflexivity.
Qed.

End Properties_of_the_score.

(** From [H : x = set_.. (..) y], the members that [x] has from [y]. *)
Ltac kept_members H x y :=
  try (assert (m_factors x = m_factors y) by exact (f_equal m_factors H));
  try (assert (m_edges x = m_edges y) by exact (f_equal m_edges H));
  try (assert (m_gmo x = m_gmo y) by exact (f_equal m_gmo H));
  try (assert (num_iter x = num_iter y) by exact (f_equal num_iter H));
  try (assert (m_task x = m_task y) by exact (f_equal m_task H));
  try (assert (m_elim_op x = m_elim_op y) by exact (f_equal m_elim_op H));
  try (assert (m_ibound x = m_ibound y) by exact (f_equal m_ibound H));
  try (assert (m_log_z x = m_log_z y) by exact (f_equal m_log_z H));
  try (assert (m_order x = m_order y) by exact (f_equal m_order H));
  try (assert (m_parents x = m_parents y) by exact (f_equal m_parents H));
  try (assert (m_beliefs x = m_beliefs y) by exact (f_equal m_beliefs H));
  try (assert (m_best_config x = m_best_config y) by exact (f_equal m_best_config H));
  try (assert (m_clusters x = m_clusters y) by exact (f_equal m_clusters H));
  try (assert (m_separators x = m_separators y) by exact (f_equal m_separators H));
  try (assert (m_originals x = m_originals y) by exact (f_equal m_originals H));
  try (assert (m_scopes x = m_scopes y) by exact (f_equal m_scopes H));
  try (assert (m_in x = m_in y) by exact (f_equal m_in H));
  try (assert (m_out x = m_out y) by exact (f_equal m_out H));
  try (assert (m_roots x = m_roots y) by exact (f_equal m_roots H));
  try (assert (m_forward x = m_forward y) by exact (f_equal m_forward H));
  try (assert (m_backward x = m_backward y) by exact (f_equal m_backward H));
  try (assert (m_schedule x = m_schedule y) by exact (f_equal m_schedule H));
  try (assert (m_edge_indeces x = m_edge_indeces y) by exact (f_equal m_edge_indeces H));
  try (assert (m_cluster2var x = m_cluster2var y) by exact (f_equal m_cluster2var H)).

Section Parts_of_init.
Context `{FA : FactorAlgebra} `{MS : !ModelServices}.
Implicit Types s t : ijgp.

(** ** The parts of [init] *)

Lemma init_parts s s' :
  init s = Ok s' →
  ∃ a a0 a1 a2 a3 a4,
    init_buckets (init_order s) = Ok a ∧ init_scopes a = Ok a0 ∧
    init_separators a0 = Ok a1 ∧ init_in_out a1 = Ok a2 ∧
    init_messages (init_roots a2) = Ok a3 ∧ init_potentials a3 = Ok a4 ∧
    s' = init_beliefs a4.
Proof.
  intros Hrun. unfold init in Hrun. ok_inv Hrun. subst s'.
  exists a, a0, a1, a2, a3, a4. repeat split; assumption.
Qed.

Lemma init_beliefs_frame s :
  init_beliefs s
  = set_m_best_config (m_best_config (init_beliefs s))
      (set_m_beliefs (m_beliefs (init_beliefs s))
         (set_m_log_z (m_log_z (init_beliefs s)) s)).
Proof. unfold init_beliefs. frame_eq. Qed.

End Parts_of_init.

(** Opens [Hrun : init s = Ok s'] into its parts [s0], [a] .. [a4], with
    the members that each part keeps. *)
Ltac open_init Hrun s s' s0 :=
  let a := fresh "a" in let a0 := fresh "a0" in let a1 := fresh "a1" in
  let a2 := fresh "a2" in let r2 := fresh "r2" in
  let a3 := fresh "a3" in let a4 := fresh "a4" in
  let Hord := fresh "Hord" in let Hb := fresh "Hb" in
  let H0 := fresh "Hsc" in let H1 := fresh "Hsep" in let H2 := fresh "Hio" in
  let Hr := fresh "Hroots" in let H3 := fresh "Hmsg" in
  let H3f := fresh "Hfw" in let H3b := fresh "Hbw" in
  let H4 := fresh "Hpot" in let Hs0 := fresh "Hs0" in
  let Hr2 := fresh "Hr2" in
  let Ha := fresh "Ha" in let Ha0 := fresh "Ha0" in let Ha1 := fresh "Ha1" in
  let Ha2 := fresh "Ha2" in let Ha3 := fresh "Ha3" in let Ha4 := fresh "Ha4" in
  let Hend := fresh "Hend" in let Hbel := fresh "Hbel" in
  apply init_parts in Hrun
    as (a & a0 & a1 & a2 & a3 & a4 & Ha & Ha0 & Ha1 & Ha2 & Ha3 & Ha4 & Hend);
  pose proof (init_order_frame s) as Hord;
  remember (init_order s) as s0 eqn:Hs0;
  kept_members Hord s0 s;
  pose proof (init_buckets_frame _ _ Ha) as Hb; unfold built_from in Hb;
  kept_members Hb a s0;
  pose proof (init_scopes_frame _ _ Ha0) as H0; kept_members H0 a0 a;
  pose proof (init_separators_frame _ _ Ha1) as H1; kept_members H1 a1 a0;
  pose proof (init_in_out_frame _ _ Ha2) as H2; kept_members H2 a2 a1;
  pose proof (init_roots_frame a2) as Hr;
  remember (init_roots a2) as r2 eqn:Hr2; kept_members Hr r2 a2;
  pose proof (init_messages_frame _ _ Ha3) as (H3 & H3f & H3b);
  kept_members H3 a3 r2;
  pose proof (init_potentials_frame _ _ Ha4) as H4; kept_members H4 a4 a3;
  pose proof (init_beliefs_frame a4) as Hbel; rewrite <- Hend in Hbel;
  kept_members Hbel s' a4.

Section Properties_of_init.
Context `{FA : FactorAlgebra} `{MS : !ModelServices}.
Implicit Types s t : ijgp.
Implicit Types L : locals.

(** ** The order and the pseudo tree *)

Lemma init_order_order s :
  m_order (init_order s)
  = if decide (m_order s = [])
    then gm_order (m_gmo s) (m_order_method s) else m_order s.
Proof.
  unfold init_order.
  destruct (m_order s) as [|x o] eqn:Eo; cbn [length];
    repeat case_decide; cbn; try done; by rewrite ?Eo.
Qed.

Lemma init_order_parents s :
  m_parents (init_order s)
  = if decide (m_order s = [] ∨ m_parents s = [])
    then gm_pseudo_tree (m_gmo s) (m_order (init_order s)) else m_parents s.
Proof.
  rewrite init_order_order. unfold init_order.
  destruct (m_order s) as [|x o] eqn:Eo; cbn [length].
  - rewrite (decide_True (P := _ ∨ _)) by auto.
    repeat case_decide; cbn in *; done.
  - destruct (m_parents s) as [|p ps] eqn:Ep.
    + rewrite (decide_True (P := _ ∨ _)) by auto.
      repeat case_decide; cbn in *; rewrite ?Eo, ?Ep in *; try done.
    + rewrite (decide_False (P := _ ∨ _)) by (intros [?|?]; discriminate).
      repeat case_decide; cbn in *; rewrite ?Eo, ?Ep in *; try done.
Qed.

(** X7. [init()] keeps an order that was given and computes one with the
    ordering method when there is none. A pseudo tree that was given with
    [set_pseudo_tree] is kept only along with a given order: without order,
    or without pseudo tree, [init()] computes the pseudo tree of the order. *)
Theorem init_order_and_pseudo_tree s s' :
  init s = Ok s' →
  get_order s' = (if decide (m_order s = [])
                  then gm_order (m_gmo s) (m_order_method s) else m_order s) ∧
  get_pseudo_tree s' = (if decide (m_order s = [] ∨ m_parents s = [])
                        then gm_pseudo_tree (m_gmo s) (get_order s')
                        else m_parents s).
Proof.
  intros Hrun. open_init Hrun s s' s0. unfold get_order, get_pseudo_tree.
  assert (Ho : m_order s' = m_order s0) by (subst s'; cbn; congruence).
  assert (Hp : m_parents s' = m_parents s0) by (subst s'; cbn; congruence).
  rewrite Ho, Hp, Hs0. split; [apply init_order_order|apply init_order_parents].
Qed.

End Properties_of_init.

Section Properties_of_init2.
Context `{FA : FactorAlgebra} `{MS : !ModelServices}.
Implicit Types s t : ijgp.
Implicit Types L : locals.

(** ** Beliefs and messages at the start *)

Lemma init_resets_beliefs_lengths s s' :
  init s = Ok s' →
  length (m_beliefs s') = gm_nvar (m_gmo s) ∧
  length (m_best_config s') = gm_nvar (m_gmo s).
Proof.
  intros Hrun. open_init Hrun s s' s0. subst s'. cbn.
  rewrite !length_resize. split; congruence.
Qed.

(** X8. [init()] sets [m_log_z] to 0 and every belief to the constant 1,
    one belief for each variable of the model. The assignment gets one
    entry for each variable: the entries that it had are kept, the new
    ones are -1, the largest [size_t]. *)
Theorem init_resets_beliefs s s' :
  init s = Ok s' →
  logZ s' = d_lit 0 ∧
  beliefs s' = replicate (gm_nvar (m_gmo s)) (f_scalar (d_lit 1)) ∧
  best_config s' = resize (gm_nvar (m_gmo s)) SIZE_MAX (m_best_config s).
Proof.
  intros Hrun. open_init Hrun s s' s0. subst s'.
  unfold logZ, beliefs, best_config, init_beliefs. cbn.
  assert (Hg : m_gmo a4 = m_gmo s) by congruence.
  assert (Hc : m_best_config a4 = m_best_config s) by congruence.
  rewrite Hg, Hc, resize_nil. done.
Qed.

(** X9. [init()] gives the forward and the backward messages one entry for
    each edge of the schedule. The messages that the object had are kept,
    the new ones are the constant 1: on an object without messages, all
    are. *)
Theorem init_messages_start s s' :
  init s = Ok s' →
  let N := length (m_schedule s') in
  let one := f_scalar (d_lit 1) in
  m_forward s' = resize N one (m_forward s) ∧
  m_backward s' = resize N one (m_backward s) ∧
  (m_forward s = [] → m_forward s' = replicate N one) ∧
  (m_backward s = [] → m_backward s' = replicate N one).
Proof.
  intros Hrun. open_init Hrun s s' s0. subst s'. cbn.
  assert (Hs : m_schedule a4 = m_schedule r2) by congruence.
  assert (Hf : m_forward r2 = m_forward s) by congruence.
  assert (Hb' : m_backward r2 = m_backward s) by congruence.
  assert (Hf4 : m_forward a4 = m_forward a3) by congruence.
  assert (Hb4 : m_backward a4 = m_backward a3) by congruence.
  rewrite Hf4, Hb4, Hs, Hfw, Hbw, Hf, Hb'.
  repeat split; intros ->; by rewrite resize_nil.
Qed.

End Properties_of_init2.

Section Ranges.
Context `{FA : FactorAlgebra} `{MS : !ModelServices}.
Implicit Types s t : ijgp.
Implicit Types L : locals.

(** ** The range of the indices of clusters *)

Lemma push_edge_members alpha s j :
  let t := push_edge alpha s j in
  m_factors t = m_factors s ∧ m_clusters t = m_clusters s ∧
  m_cluster2var t = m_cluster2var s ∧ m_originals t = m_originals s ∧
  m_schedule t = m_schedule s ++ [(j, alpha)].
Proof. unfold push_edge, add_edge. case_decide; cbn; done. Qed.

Lemma push_edges_members alpha js s :
  let t := foldl (push_edge alpha) s js in
  m_factors t = m_factors s ∧ m_clusters t = m_clusters s ∧
  m_cluster2var t = m_cluster2var s ∧ m_originals t = m_originals s ∧
  m_schedule t = m_schedule s ++ ((λ j, (j, alpha)) <$> js).
Proof.
  revert s. induction js as [|j js IH]; intros s; cbn.
  - by rewrite app_nil_r.
  - destruct (IH (push_edge alpha s j)) as (-> & -> & -> & -> & ->).
    destruct (push_edge_members alpha s j) as (-> & -> & -> & -> & ->).
    by rewrite <- app_assoc.
Qed.

Lemma push_edge_in_range a b t :
  (a < length (m_factors t))%nat → (b < length (m_factors t))%nat →
  clusters_in_range t → clusters_in_range (push_edge b t a).
Proof.
  intros Ha Hb (Hs & Hv & Hc).
  destruct (push_edge_members b t a) as (Hf & Hcl & Hcv & _ & Hsch).
  unfold clusters_in_range. rewrite Hf, Hcl, Hcv, Hsch.
  split; [|done].
  intros c d [Hcd|Hcd%list_elem_of_singleton]%elem_of_app; [by apply Hs|].
  by injection Hcd as -> ->.
Qed.

Lemma chain_in_range al t :
  Forall (λ a, a < length (m_factors t))%nat al →
  clusters_in_range t →
  clusters_in_range (chain al t) ∧
  m_factors (chain al t) = m_factors t.
Proof.
  revert t. induction al as [|a [|b rest] IH]; intros t Hal Ht; [done|done|].
  change (chain (a :: b :: rest) t) with (chain (b :: rest) (push_edge b t a)).
  destruct (push_edge_members b t a) as (Hf & _).
  apply Forall_cons in Hal as [Ha Hal]. pose proof Hal as [Hb _]%Forall_cons.
  destruct (IH (push_edge b t a)) as [H1 H2].
  - by rewrite Hf.
  - by apply push_edge_in_range.
  - split; [exact H1|]. by rewrite H2.
Qed.

Lemma merge_pair_new_in_range ii jj L L' t :
  new_in_range L t → merge_pair ii jj L = Ok L' → new_in_range L' t.
Proof.
  intros HN Hrun.
  apply merge_pair_Ok in Hrun
    as (Fi & Fj & Fi' & Oi & Oj & Ni & Nj & _ & _ & _ & _ & _ & HNi & HNj
        & _ & _ & _ & HNew).
  intros i N p. rewrite HNew. intros Hi Hp.
  apply list_lookup_insert_Some in Hi as [(-> & <- & _)|[_ Hi]];
    [by apply elem_of_nil in Hp|].
  apply list_lookup_insert_Some in Hi as [(-> & <- & _)|[_ Hi]]; [|by eauto].
  apply elem_of_fl_union in Hp as [Hp|Hp]; eauto.
Qed.

Lemma eliminate_in_range x i L t al L' t' al' :
  clusters_in_range t → new_in_range L t →
  Forall (λ a, a < length (m_factors t))%nat al →
  eliminate x i (L, t, al) = Ok (L', t', al') →
  clusters_in_range t' ∧ new_in_range L' t' ∧
  Forall (λ a, a < length (m_factors t'))%nat al' ∧
  length (m_factors t') = S (length (m_factors t)).
Proof.
  intros (Hs & Hv & Hc) HN Hal Hrun.
  apply eliminate_Ok in Hrun
    as (Fi & Cx & Ni & Oi & Oa & _ & HCx & HNi & _ & _ & -> & -> & ->).
  match goal with |- context [foldl ?f ?s0 ?l] =>
    destruct (push_edges_members (length (m_factors t)) l s0)
      as (Hf & Hcl & Hcv & _ & Hsch);
    set (u := foldl f s0 l) in *
  end.
  cbn in Hf, Hcl, Hcv, Hsch.
  assert (Hlen : length (m_factors u) = S (length (m_factors t))).
  { rewrite Hf, length_app. cbn. lia. }
  unfold clusters_in_range, new_in_range. cbn.
  rewrite Hlen, Hcl, Hcv, Hsch. repeat split.
  - apply elem_of_app in H as [H|H]; [apply Hs in H; lia|].
    apply list_elem_of_fmap in H as (j & [= -> ->] & Hj).
    specialize (HN _ _ _ HNi Hj). lia.
  - apply elem_of_app in H as [H|H]; [apply Hs in H; lia|].
    apply list_elem_of_fmap in H as (j & [= -> ->] & Hj). lia.
  - intros c Hlt. destruct (decide (c = length (m_factors t))) as [->|Hne].
    + rewrite lookup_insert_eq. by eexists.
    + rewrite lookup_insert_ne by done. apply Hv. lia.
  - intros y cl c Hy Hin.
    apply list_lookup_insert_Some in Hy as [(-> & <- & _)|[_ Hy]].
    + apply elem_of_fl_insert in Hin as [->|Hin]; [lia|].
      specialize (Hc _ _ _ HCx Hin). lia.
    + specialize (Hc _ _ _ Hy Hin). lia.
  - intros j N p Hj Hp.
    apply list_lookup_insert_Some in Hj as [(-> & <- & _)|[_ Hj]].
    + apply list_elem_of_singleton in Hp as ->. lia.
    + specialize (HN _ _ _ Hj Hp). lia.
  - apply Forall_app. split.
    + eapply Forall_impl; [exact Hal|]. cbn. intros; lia.
    + apply Forall_singleton. lia.
Qed.

Lemma bucket_in_range x L s L' s' :
  clusters_in_range s → new_in_range L s → bucket x (L, s) = Ok (L', s') →
  clusters_in_range s' ∧ new_in_range L' s'.
Proof.
  intros Hs HN. unfold bucket.
  destruct (vin L !! x) as [[|i ids]|] eqn:Hvin;
    try (intros [= <- <-]; done).
  intros Hrun. ok_inv Hrun.
  eapply (merge_loop_inv (λ L1, new_in_range L1 s)) in Ha0;
    [|intros; by eapply merge_pair_new_in_range|exact HN].
  eapply (for_each_inv (λ st, clusters_in_range st.1.2 ∧
                              new_in_range st.1.1 st.1.2 ∧
                              Forall (λ a, a < length (m_factors st.1.2))%nat st.2))
    in Ha1.
  - destruct l1 as [|a0 l1]; [discriminate|]. injection Hrun as <- <-.
    cbn [fst snd] in Ha1. destruct Ha1 as (H1 & H2 & H3).
    destruct (chain_in_range (a0 :: l1) _ H3 H1) as [H4 H5].
    split; [exact H4|]. intros j N p Hj Hp.
    match type of H5 with m_factors ?c = _ =>
      assert (p < length (m_factors c))%nat as Hg by (rewrite H5; eauto)
    end.
    exact Hg.
  - intros j [[L1 t1] al1] [[L2 t2] al2] _ (H1 & H2 & H3) He. cbn [fst snd] in *.
    destruct (eliminate_in_range _ _ _ _ _ _ _ _ H1 H2 H3 He) as (? & ? & ? & _).
    done.
  - cbn. done.
Qed.

Lemma init_buckets_in_range s s' :
  m_factors s = [] → m_schedule s = [] → m_clusters s = [] →
  init_buckets s = Ok s' → clusters_in_range s'.
Proof.
  intros Hf Hs Hc Hrun.
  apply (init_buckets_inv (λ L t, clusters_in_range t ∧ new_in_range L t))
    in Hrun as [L' [Hrun _]]; [exact Hrun| |].
  - intros x L1 t L2 t' _ [H1 H2] Hb. by eapply bucket_in_range.
  - split.
    + unfold clusters_in_range. cbn. rewrite Hf, Hs, Hc. cbn.
      split; [intros ? ? []%elem_of_nil|]. split; [intros; lia|].
      intros x cl c Hx Hin. rewrite resize_nil in Hx.
      apply lookup_replicate in Hx as [-> _]. by apply elem_of_nil in Hin.
    + intros i N p Hi Hp. cbn in Hi.
      apply lookup_replicate in Hi as [-> _]. by apply elem_of_nil in Hp.
Qed.

End Ranges.

Section Shape.
Context `{FA : FactorAlgebra} `{MS : !ModelServices}.
Implicit Types s t : ijgp.
Implicit Types L : locals.

(** ** The sizes of the vectors that [init] leaves *)

Lemma put2_lengths {A} (m m' : list (list A)) a b x (C : nat) :
  put2 m a b x = Ok m' →
  length m = C → (∀ row, row ∈ m → length row = C) →
  length m' = C ∧ (∀ row, row ∈ m' → length row = C).
Proof.
  intros (row & Hrow & Hb & ->)%put2_Ok Hlen Hrows.
  split; [by rewrite length_insert|].
  intros r [i Hi]%list_elem_of_lookup.
  apply list_lookup_insert_Some in Hi as [(<- & <- & _)|[_ Hi]].
  - rewrite length_insert. apply Hrows. by eapply list_elem_of_lookup_2.
  - apply Hrows. by eapply list_elem_of_lookup_2.
Qed.

Lemma init_scopes_lengths s s' :
  init_scopes s = Ok s' →
  let C := length (m_factors s) in
  length (m_scopes s') = C ∧ length (m_separators s') = C ∧
  (∀ row, row ∈ m_separators s' → length row = C).
Proof.
  intros Hrun C. unfold init_scopes in Hrun.
  eapply (for_each_inv (λ t,
    length (m_scopes t) = C ∧ length (m_separators t) = C ∧
    (∀ row, row ∈ m_separators t → length row = C))) in Hrun; [exact Hrun| |].
  - intros i t t' _ (H1 & H2 & H3) Hi. ok_inv Hi. subst t'. ok_all. cbn.
    rewrite length_insert. done.
  - cbn. fold C. rewrite length_resize, length_fmap, length_resize.
    split; [done|]. split; [done|].
    intros row (r & -> & _)%list_elem_of_fmap. by rewrite length_resize.
Qed.

Lemma init_separators_lengths s s' (C : nat) :
  init_separators s = Ok s' →
  length (m_separators s) = C → (∀ row, row ∈ m_separators s → length row = C) →
  length (m_separators s') = C ∧ (∀ row, row ∈ m_separators s' → length row = C).
Proof.
  unfold init_separators. intros Hrun H1 H2.
  eapply (for_each_inv (λ t,
    length (m_separators t) = C ∧
    (∀ row, row ∈ m_separators t → length row = C))) in Hrun; [exact Hrun| |done].
  intros [a b] t t' _ [H3 H4] He. unfold separator_of in He.
  case_decide; [by injection He as <-|]. ok_inv He. subst t'. cbn.
  destruct (put2_lengths _ _ _ _ _ C Ha1 H3 H4) as [H5 H6].
  by destruct (put2_lengths _ _ _ _ _ C Ha2 H5 H6).
Qed.

Lemma init_in_out_lengths s s' :
  init_in_out s = Ok s' →
  length (m_in s') = length (m_factors s) ∧
  length (m_out s') = length (m_factors s).
Proof.
  unfold init_in_out. intros Hrun.
  eapply (for_each_inv (λ t, length (m_in t) = length (m_factors s) ∧
                             length (m_out t) = length (m_factors s)))
    in Hrun; [exact Hrun| |].
  - intros [a b] t t' _ [H1 H2] He. unfold in_out_of in He. ok_inv He.
    subst t'. cbn in *. ok_all. by rewrite !length_insert.
  - cbn. by rewrite !length_resize.
Qed.

(** The roots are the clusters without outgoing edge. *)
Lemma init_roots_spec s c :
  c ∈ m_roots (init_roots s) ↔ c ∈ m_roots s ∨ m_out s !! c = Some [].
Proof.
  unfold init_roots.
  assert (Hgen : ∀ l t, m_out t = m_out s →
    c ∈ m_roots (foldl (λ s i, match m_out s !! i with
                               | Some [] => set_m_roots (fl_insert i (m_roots s)) s
                               | _ => s
                               end) t l)
    ↔ c ∈ m_roots t ∨ (c ∈ l ∧ m_out s !! c = Some [])).
  { induction l as [|i l IH]; intros t Ht; cbn.
    - rewrite elem_of_nil. tauto.
    - rewrite IH; [|rewrite <- Ht; by destruct (m_out t !! i) as [[|? ?]|]].
      rewrite elem_of_cons.
      assert (Hr : c ∈ m_roots (match m_out t !! i with
                                | Some [] => set_m_roots (fl_insert i (m_roots t)) t
                                | _ => t
                                end)
                   ↔ c ∈ m_roots t ∨ (c = i ∧ m_out s !! c = Some [])).
      { rewrite Ht. destruct (m_out s !! i) as [[|? ?]|] eqn:Hi; cbn.
        - rewrite elem_of_fl_insert.
          split; [intros [->|?]; auto|intros [?|[-> _]]; auto].
        - split; [auto|intros [?|[-> ?]]; [done|congruence]].
        - split; [auto|intros [?|[-> ?]]; [done|congruence]]. }
      rewrite Hr. tauto. }
  rewrite (Hgen _ s eq_refl). split.
  - intros [?|[_ ?]]; auto.
  - intros [?|H]; [auto|]. right. split; [|done]. apply elem_of_seq.
    split; [lia|]. apply lookup_lt_Some in H. lia.
Qed.

Lemma init_messages_lengths s s' :
  init_messages s = Ok s' →
  length (m_forward s') = length (m_schedule s) ∧
  length (m_backward s') = length (m_schedule s).
Proof.
  intros (_ & -> & ->)%init_messages_frame. by rewrite !length_resize.
Qed.

Lemma init_potentials_length s s' :
  init_potentials s = Ok s' → length (m_factors s') = length (m_factors s).
Proof.
  unfold init_potentials. generalize (seq 0 (length (m_factors s))).
  intros l Hrun.
  eapply (for_each_inv (λ t, length (m_factors t) = length (m_factors s)))
    in Hrun; [exact Hrun| |done].
  intros i t t' _ Ht Hi. unfold potential_of in Hi. ok_inv Hi. subst t'.
  ok_all. cbn. by rewrite length_insert.
Qed.

Lemma init_well_formed s s' :
  unbuilt s → m_roots s = [] → init s = Ok s' → well_formed s'.
Proof.
  intros (Hf & He & Hs & Ho & Hcl & Hi & Hou & Hfw0 & Hbw0) Hroots0 Hrun.
  open_init Hrun s s' s0.
  assert (Hrange : clusters_in_range a).
  { eapply init_buckets_in_range; [| | |exact Ha]; congruence. }
  destruct (init_scopes_lengths _ _ Ha0) as (Lsc & Lsep & Lrows).
  destruct (init_separators_lengths _ _ _ Ha1 Lsep Lrows) as [Lsep1 Lrows1].
  destruct (init_in_out_lengths _ _ Ha2) as [Lin Lout].
  destruct (init_messages_lengths _ _ Ha3) as [Lfw Lbw].
  pose proof (init_potentials_length _ _ Ha4) as Lfac.
  assert (Hio2 : in_out_in_schedule a2).
  { eapply init_in_out_in_schedule; [| |exact Ha2]; congruence. }
  pose proof (λ i, init_messages_indexed _ _ i Ha3) as Hidx.
  assert (EC : length (m_factors s') = length (m_factors a)) by congruence.
  assert (Esch : m_schedule s' = m_schedule a) by congruence.
  unfold well_formed. rewrite EC.
  split; [|split; [|split; [|split; [|split; [|split; [|split; [|split;
    [|split; [|split]]]]]]]]].
  - destruct Hrange as (R1 & R2 & R3). unfold clusters_in_range.
    rewrite EC, Esch.
    replace (m_cluster2var s') with (m_cluster2var a) by congruence.
    replace (m_clusters s') with (m_clusters a) by congruence. done.
  - congruence.
  - congruence.
  - congruence.
  - congruence.
  - replace (m_separators s') with (m_separators a1) by congruence.
    intros row Hrow. by rewrite (Lrows1 row Hrow).
  - congruence.
  - congruence.
  - unfold in_out_in_schedule.
    replace (m_in s') with (m_in a2) by congruence.
    replace (m_out s') with (m_out a2) by congruence.
    replace (m_schedule s') with (m_schedule a2) by congruence. exact Hio2.
  - intros i. unfold edge_indexed.
    replace (m_edge_indeces s') with (m_edge_indeces a3) by congruence.
    replace (m_schedule s') with (m_schedule a3) by congruence.
    apply Hidx.
  - intros c. replace (m_roots s') with (m_roots r2) by congruence.
    rewrite Hr2, init_roots_spec.
    replace (m_roots a2) with (m_roots s) by congruence. rewrite Hroots0.
    intros [[]%elem_of_nil|Hc]. apply lookup_lt_Some in Hc. congruence.
Qed.

End Shape.

Section Safety.
Context `{FA : FactorAlgebra} `{MS : !ModelServices}.
Implicit Types s t : ijgp.

(** ** Message passing reads within the vectors *)

(** A loop completes when each step completes from every state that the
    loop can reach. *)
Lemma for_each_completes {A S} (P : S → Prop) (body : A → S → outcome S) l z :
  (∀ x z, x ∈ l → P z → ∃ z', body x z = Ok z' ∧ P z') →
  P z → ∃ z', for_each body l z = Ok z' ∧ P z'.
Proof.
  revert z. induction l as [|x l IH]; intros z Hstep HP; cbn; [by eauto|].
  destruct (Hstep x z) as (z1 & -> & H1); [by left|done|]. cbn.
  apply IH; [|done]. intros y u Hy. apply Hstep. by right.
Qed.

Lemma at2_completes {A} (m : list (list A)) (a b C : nat) :
  length m = C → (∀ row, row ∈ m → length row = C) →
  (a < C)%nat → (b < C)%nat → ∃ x, at2 m a b = Ok x.
Proof.
  intros Hlen Hrows Ha Hb. unfold at2, at_.
  destruct (lookup_lt_is_Some_2 m a) as [row Hrow]; [lia|]. rewrite Hrow. cbn.
  destruct (lookup_lt_is_Some_2 row b) as [x Hx].
  { rewrite (Hrows row); [done|]. by eapply list_elem_of_lookup_2. }
  rewrite Hx. by eexists.
Qed.

Lemma multiply_in_completes msgs idx skip ps bel :
  (∀ p, p ∈ ps → skip ≠ Some p →
        ∃ j, idx p = Ok j ∧ (j < length msgs)%nat) →
  ∃ bel', multiply_in msgs idx skip ps bel = Ok bel'.
Proof.
  intros Hps. unfold multiply_in.
  destruct (for_each_completes (λ _, True)
    (λ p bel, if decide (skip = Some p) then Ok bel
              else j ← idx p; F ← at_ msgs j; Ok (f_mul bel F)) ps bel)
    as (bel' & Hrun & _); [|done|by eexists].
  intros p F Hp _. case_decide as Hskip; [by eauto|].
  destruct (Hps p Hp Hskip) as (j & -> & Hj). cbn. unfold at_.
  destruct (lookup_lt_is_Some_2 msgs j Hj) as [G ->]. cbn. by eauto.
Qed.

(** The index of an edge of the schedule is a position of the schedule. *)
Lemma edge_index_in_range t a b :
  well_formed t → (a, b) ∈ m_schedule t →
  ∃ j, at2 (m_edge_indeces t) a b = Ok j ∧
       (j < length (m_schedule t))%nat.
Proof.
  intros (_ & _ & _ & _ & _ & _ & _ & _ & _ & Hidx & _) Hab.
  apply list_elem_of_lookup in Hab as [i Hi].
  destruct (Hidx i a b Hi) as (j & Hj & Hsj). exists j. split; [done|].
  by eapply lookup_lt_Some.
Qed.

Lemma calc_belief_completes t a skip :
  well_formed t → (a < length (m_factors t))%nat →
  ∃ bel,
    (bel0 ← at_ (m_factors t) a;
     ins ← at_ (m_in t) a;
     bel1 ← multiply_in (m_forward t) (λ p, at2 (m_edge_indeces t) p a)
                        skip ins bel0;
     outs ← at_ (m_out t) a;
     multiply_in (m_backward t) (λ p, at2 (m_edge_indeces t) a p)
                 skip outs bel1) = Ok bel.
Proof.
  intros Hwf Ha. pose proof Hwf as
    (_ & _ & Lin & Lout & _ & _ & Lfw & Lbw & [Hin Hout] & _ & _).
  unfold at_.
  destruct (lookup_lt_is_Some_2 (m_factors t) a Ha) as [F ->]. cbn.
  destruct (lookup_lt_is_Some_2 (m_in t) a) as [ins Hins]; [lia|].
  rewrite Hins. cbn.
  destruct (multiply_in_completes (m_forward t)
              (λ p, at2 (m_edge_indeces t) p a) skip ins F) as [bel1 ->].
  { intros p Hp _. rewrite Lfw. apply edge_index_in_range; [done|]. eauto. }
  cbn.
  destruct (lookup_lt_is_Some_2 (m_out t) a) as [outs Houts]; [lia|].
  rewrite Houts. cbn.
  apply multiply_in_completes.
  intros p Hp _. rewrite Lbw. apply edge_index_in_range; [done|]. eauto.
Qed.

(** Writing a message keeps the sizes and the indices. *)
Lemma well_formed_messages t t' :
  t' = set_m_log_z (m_log_z t')
         (set_m_backward (m_backward t') (set_m_forward (m_forward t') t)) →
  length (m_forward t') = length (m_forward t) →
  length (m_backward t') = length (m_backward t) →
  well_formed t → well_formed t'.
Proof.
  intros Hfr Lf Lb Hwf. unfold well_formed, clusters_in_range,
    in_out_in_schedule, edge_indexed in *.
  rewrite Lf, Lb. rewrite Hfr. exact Hwf.
Qed.

Lemma well_formed_beliefs t t' :
  t' = set_m_best_config (m_best_config t') (set_m_beliefs (m_beliefs t') t) →
  well_formed t → well_formed t'.
Proof. intros Hfr Hwf. rewrite Hfr. exact Hwf. Qed.

Lemma edge_completes t a b :
  well_formed t → (a, b) ∈ m_schedule t →
  ∃ ei sa sb sep,
    at2 (m_edge_indeces t) a b = Ok ei ∧
    (ei < length (m_schedule t))%nat ∧
    at_ (m_scopes t) a = Ok sa ∧ at_ (m_scopes t) b = Ok sb ∧
    at2 (m_separators t) a b = Ok sep ∧
    (a < length (m_factors t))%nat ∧ (b < length (m_factors t))%nat.
Proof.
  intros Hwf Hab. pose proof Hwf as
    ((Hs & _) & Lsc & _ & _ & Lsep & Lrows & _).
  destruct (Hs a b Hab) as [Ha Hb].
  destruct (edge_index_in_range t a b Hwf Hab) as (ei & Hei & Hlt).
  unfold at_.
  destruct (lookup_lt_is_Some_2 (m_scopes t) a) as [sa ->]; [lia|].
  destruct (lookup_lt_is_Some_2 (m_scopes t) b) as [sb ->]; [lia|].
  destruct (at2_completes (m_separators t) a b _ Lsep Lrows Ha Hb) as [sep Hsep].
  exists ei, sa, sb, sep. done.
Qed.

Lemma forward_edge_completes t a b :
  well_formed t → (a, b) ∈ m_schedule t →
  ∃ t', forward_edge (a, b) t = Ok t' ∧ well_formed t' ∧
        m_schedule t' = m_schedule t.
Proof.
  intros Hwf Hab.
  destruct (edge_completes t a b Hwf Hab)
    as (ei & sa & sb & sep & Hei & Hlt & Hsa & _ & Hsep & Ha & _).
  destruct (calc_belief_completes t a (Some b) Hwf Ha) as [bel Hbel].
  pose proof Hwf as (_ & _ & _ & _ & _ & _ & Lfw & _).
  unfold forward_edge. rewrite Hei. cbn. rewrite Hsa. cbn. rewrite Hsep. cbn.
  unfold calc_belief_excl. rewrite Hbel. cbn.
  unfold put. rewrite decide_True by lia. cbn.
  eexists. split; [reflexivity|]. split; [|reflexivity].
  eapply well_formed_messages; [| | |exact Hwf]; cbn; [frame_eq| |done].
  by rewrite length_insert.
Qed.

Lemma backward_edge_completes t a b :
  well_formed t → (a, b) ∈ m_schedule t →
  ∃ t', backward_edge (a, b) t = Ok t' ∧ well_formed t' ∧
        m_schedule t' = m_schedule t.
Proof.
  intros Hwf Hab.
  destruct (edge_completes t a b Hwf Hab)
    as (ei & sa & sb & sep & Hei & Hlt & _ & Hsb & Hsep & _ & Hb).
  destruct (calc_belief_completes t b (Some a) Hwf Hb) as [bel Hbel].
  pose proof Hwf as (_ & _ & _ & _ & _ & _ & _ & Lbw & _).
  unfold backward_edge. rewrite Hei. cbn. rewrite Hsb. cbn. rewrite Hsep. cbn.
  unfold calc_belief_excl. rewrite Hbel. cbn.
  unfold put. rewrite decide_True by lia. cbn.
  eexists. split; [reflexivity|]. split; [|reflexivity].
  eapply well_formed_messages; [| | |exact Hwf]; cbn; [frame_eq|done|].
  by rewrite length_insert.
Qed.

Lemma forward_completes_wf t :
  well_formed t → ∃ t', forward t = Ok t' ∧ well_formed t'.
Proof.
  intros Hwf. unfold forward.
  set (t0 := set_m_log_z (d_lit 0) t).
  assert (Hwf0 : well_formed t0).
  { eapply well_formed_messages; [| | |exact Hwf]; cbn; [frame_eq|done|done]. }
  destruct (for_each_completes
    (λ u, well_formed u ∧ m_schedule u = m_schedule t0)
    forward_edge (m_schedule t0) t0) as (t1 & -> & Hwf1 & Hs1); [|done|].
  { intros [a b] u Hab [Hu Hsu].
    destruct (forward_edge_completes u a b Hu) as (u' & Hu' & Hwf' & Hs');
      [by rewrite Hsu|].
    exists u'. split; [done|]. split; [done|]. congruence. }
  cbn.
  destruct (for_each_completes (λ _, True) (root_term t1) (m_roots t1)
              (f_scalar (d_lit 0))) as (F & -> & _); [|done|].
  { intros c F Hc _. unfold root_term.
    pose proof Hwf1 as ((_ & Hcv & _) & _ & _ & _ & _ & _ & _ & _ & _ & _ & Hr).
    specialize (Hr c Hc).
    destruct (calc_belief_completes t1 c None Hwf1 Hr) as [bel Hbel].
    unfold calc_belief. rewrite Hbel. cbn.
    destruct (Hcv c Hr) as [v ->]. case_decide; by eauto. }
  cbn. eexists. split; [reflexivity|].
  eapply well_formed_messages; [| | |exact Hwf1]; cbn; [frame_eq|done|done].
Qed.

Lemma backward_completes_wf t :
  well_formed t → ∃ t', backward t = Ok t' ∧ well_formed t'.
Proof.
  intros Hwf. unfold backward.
  destruct (for_each_completes
    (λ u, well_formed u ∧ m_schedule u = m_schedule t)
    backward_edge (rev (m_schedule t)) t) as (t1 & -> & Hwf1 & Hs1); [|done|].
  { intros [a b] u Hab [Hu Hsu].
    destruct (backward_edge_completes u a b Hu) as (u' & Hu' & Hwf' & Hs').
    { rewrite Hsu. apply list_elem_of_In. apply list_elem_of_In in Hab.
      by apply in_rev. }
    exists u'. split; [done|]. split; [done|]. congruence. }
  by eauto.
Qed.

Lemma passes_well_formed s t : well_formed s → passes s t → well_formed t.
Proof.
  intros Hs Hp. induction Hp as [s|s t u _ IH Hf|s t u _ IH Hf|s t u _ IH Hf].
  - done.
  - destruct (forward_completes_wf t (IH Hs)) as (u' & Hu & Hwf). congruence.
  - destruct (backward_completes_wf t (IH Hs)) as (u' & Hu & Hwf). congruence.
  - apply update_frame in Hf. eapply well_formed_beliefs; [exact Hf|auto].
Qed.

(** X10. After [init()] on an object without join graph, and after any
    number of passes, [forward()] completes: every index that it reads lies
    within its vector and every root has its variable, the condition of the
    [assert]. *)
Theorem forward_completes s s0 t :
  unbuilt s → m_roots s = [] → init s = Ok s0 → passes s0 t →
  ∃ t', forward t = Ok t'.
Proof.
  intros Hu Hr Hinit Hp.
  destruct (forward_completes_wf t) as (t' & Ht & _); [|by eauto].
  eapply passes_well_formed; [|exact Hp]. by eapply init_well_formed.
Qed.

(** X11. After [init()] on an object without join graph, and after any
    number of passes, [backward()] completes: every index that it reads
    lies within its vector. *)
Theorem backward_completes s s0 t :
  unbuilt s → m_roots s = [] → init s = Ok s0 → passes s0 t →
  ∃ t', backward t = Ok t'.
Proof.
  intros Hu Hr Hinit Hp.
  destruct (backward_completes_wf t) as (t' & Ht & _); [|by eauto].
  eapply passes_well_formed; [|exact Hp]. by eapply init_well_formed.
Qed.

End Safety.

Section Safety_of_update.
Context `{FA : FactorAlgebra} `{MS : !ModelServices}.
Implicit Types s t : ijgp.

(** ** [update] reads within the vectors *)

Lemma first_cluster t v :
  well_formed t → ¬ no_cluster t v →
  ∃ Cv c, m_clusters t !! v = Some Cv ∧ Cv !! 0%nat = Some c ∧
          (c < length (m_factors t))%nat.
Proof.
  intros ((_ & _ & Hc) & _) Hv. unfold no_cluster in Hv.
  destruct (m_clusters t !! v) as [[|c cl]|] eqn:Hcl; [tauto| |tauto].
  exists (c :: cl), c. split; [done|]. split; [done|].
  apply (Hc v (c :: cl)); [done|by left].
Qed.

Lemma ready_for_update_beliefs t t' :
  t' = set_m_best_config (m_best_config t') (set_m_beliefs (m_beliefs t') t) →
  length (m_beliefs t') = length (m_beliefs t) →
  length (m_best_config t') = length (m_best_config t) →
  ready_for_update t → ready_for_update t'.
Proof.
  intros Hfr Lb Lc Hr. unfold ready_for_update, no_cluster in *.
  rewrite Lb, Lc. rewrite Hfr. exact Hr.
Qed.

Lemma ready_for_update_messages t t' :
  t' = set_m_log_z (m_log_z t')
         (set_m_backward (m_backward t') (set_m_forward (m_forward t') t)) →
  ready_for_update t → ready_for_update t'.
Proof. intros Hfr Hr. rewrite Hfr. exact Hr. Qed.

Lemma belief_of_completes r v t :
  well_formed t → ready_for_update t → (v < gm_nvar (m_gmo t))%nat →
  ∃ t', belief_of r v t = Ok t' ∧ well_formed t' ∧ ready_for_update t' ∧
        m_gmo t' = m_gmo t ∧ m_task t' = m_task t ∧ m_order t' = m_order t.
Proof.
  intros Hwf Hr Hv. pose proof Hr as (Lb & _ & Hcov & _).
  destruct (first_cluster t v Hwf (Hcov v Hv)) as (Cv & c & HCv & Hc & Hlt).
  pose proof Hwf as (_ & Lsc & _).
  destruct (lookup_lt_is_Some_2 (m_scopes t) c) as [vars Hvars]; [lia|].
  destruct (calc_belief_completes t c None Hwf Hlt) as [bel Hbel].
  unfold belief_of, at_. rewrite HCv. cbn. rewrite Hc. cbn. rewrite Hvars. cbn.
  unfold calc_belief, at_ in *. rewrite Hbel. cbn.
  unfold put. rewrite decide_True by lia. cbn.
  eexists. split; [reflexivity|]. cbn.
  split; [eapply well_formed_beliefs; [|exact Hwf]; frame_eq|].
  split; [|done].
  eapply ready_for_update_beliefs; [| | |exact Hr]; cbn;
    [frame_eq|by rewrite length_insert|done].
Qed.

Lemma elem_of_before x y l : y ∈ before x l → y ∈ l.
Proof.
  induction l as [|z l IH]; cbn; [done|].
  case_decide; [by intros []%elem_of_nil|].
  intros [->|?]%elem_of_cons; [by left|right; auto].
Qed.

Lemma assign_completes x t :
  well_formed t → ready_for_update t → m_task t = MAP → x ∈ m_order t →
  ∃ t', assign x t = Ok t' ∧ well_formed t' ∧ ready_for_update t' ∧
        m_task t' = m_task t ∧ m_order t' = m_order t.
Proof.
  intros Hwf Hr Htask Hx. pose proof Hr as (_ & Lc & Hcov & Hord).
  specialize (Hord Htask).
  destruct (first_cluster t x Hwf (Hcov x (Hord x Hx)))
    as (Cx & a & HCx & Ha & Hlt).
  pose proof Hwf as (_ & Lsc & Lin & _ & _ & _ & Lfw & _ & [Hin _] & _).
  destruct (lookup_lt_is_Some_2 (m_scopes t) a) as [sa Hsa]; [lia|].
  destruct (lookup_lt_is_Some_2 (m_factors t) a Hlt) as [F HF].
  destruct (lookup_lt_is_Some_2 (m_in t) a) as [ins Hins]; [lia|].
  destruct (multiply_in_completes (m_forward t)
              (λ p, at2 (m_edge_indeces t) p a) None ins F) as [bel Hbel].
  { intros p Hp _. rewrite Lfw. apply edge_index_in_range; [done|]. eauto. }
  unfold assign, at_. rewrite HCx. cbn. rewrite Ha. cbn.
  unfold incoming, at_. rewrite HF. cbn. rewrite Hins. cbn. rewrite Hbel. cbn.
  match goal with |- context [for_each ?f ?l ?b] =>
    destruct (for_each_completes (λ _, True) f l b) as (bel' & -> & _);
      [|done|]
  end.
  { intros y G Hy _. rewrite Hsa. cbn. case_decide; [|by eauto].
    destruct (lookup_lt_is_Some_2 (m_best_config t) y) as [k ->]; [|by eauto].
    rewrite Lc. apply Hord. apply elem_of_before in Hy.
    apply list_elem_of_In in Hy. apply list_elem_of_In. by apply in_rev. }
  cbn. unfold put. rewrite decide_True by (rewrite Lc; auto). cbn.
  eexists. split; [reflexivity|]. cbn.
  split; [eapply well_formed_beliefs; [|exact Hwf]; frame_eq|].
  split; [|done].
  eapply ready_for_update_beliefs; [| | |exact Hr]; cbn;
    [frame_eq|done|by rewrite length_insert].
Qed.

Lemma update_completes_wf t :
  well_formed t → ready_for_update t →
  ∃ t', update t = Ok t' ∧ well_formed t' ∧ ready_for_update t'.
Proof.
  intros Hwf Hr. unfold update.
  assert (Hloop : ∀ r u, well_formed u → ready_for_update u →
    m_gmo u = m_gmo t → 
    ∃ u', for_each (belief_of r) (seq 0 (gm_nvar (m_gmo t))) u = Ok u' ∧
          well_formed u' ∧ ready_for_update u' ∧ m_gmo u' = m_gmo t ∧
          m_task u' = m_task u ∧ m_order u' = m_order u).
  { intros r u Hu1 Hu2 Hg.
    destruct (for_each_completes
      (λ w, well_formed w ∧ ready_for_update w ∧ m_gmo w = m_gmo t ∧
            m_task w = m_task u ∧ m_order w = m_order u)
      (belief_of r) (seq 0 (gm_nvar (m_gmo t))) u)
      as (u' & Hrun & H1 & H2 & H3 & H4 & H5); [|done|by eauto 10].
    intros v w Hv (W1 & W2 & W3 & W4 & W5).
    destruct (belief_of_completes r v w W1 W2)
      as (w' & Hw' & X1 & X2 & X3 & X4 & X5).
    { rewrite W3. apply elem_of_seq in Hv. lia. }
    exists w'. split; [done|]. split; [done|]. split; [done|].
    split; [congruence|]. split; congruence. }
  destruct (Hloop true t Hwf Hr eq_refl)
    as (t1 & -> & Hwf1 & Hr1 & Hg1 & Ht1 & Ho1).
  cbn. destruct (m_task t1) eqn:Htask.
  - destruct (Hloop false t1 Hwf1 Hr1 Hg1) as (t2 & -> & ? & ? & _). by eauto.
  - destruct (Hloop false t1 Hwf1 Hr1 Hg1) as (t2 & -> & ? & ? & _). by eauto.
  - destruct (for_each_completes
      (λ w, well_formed w ∧ ready_for_update w ∧ m_task w = MAP ∧
            m_order w = m_order t1)
      assign (rev (m_order t1)) t1) as (t2 & -> & ? & ? & _);
      [|done|by eauto].
    intros x w Hx (W1 & W2 & W3 & W4).
    destruct (assign_completes x w W1 W2 W3) as (w' & Hw' & X1 & X2 & X3 & X4).
    { rewrite W4. apply list_elem_of_In. apply list_elem_of_In in Hx.
      by apply in_rev. }
    exists w'. split; [done|]. split; [done|]. split; [done|].
    split; congruence.
Qed.

(** What [init] leaves for [update]. *)
Lemma init_ready_for_update s s' :
  init s = Ok s' →
  (∀ v, (v < gm_nvar (m_gmo s))%nat → ¬ no_cluster s' v) →
  (m_task s = MAP → ∀ x, x ∈ m_order s' → (x < gm_nvar (m_gmo s))%nat) →
  ready_for_update s'.
Proof.
  intros Hrun Hcov Hord.
  pose proof (init_keeps_gmo _ _ Hrun) as Hg.
  pose proof (init_keeps_task _ _ Hrun) as Ht.
  unfold ready_for_update. rewrite Hg, Ht.
  split; [|split; [|done]].
  - open_init Hrun s s' s0. subst s'. cbn. rewrite length_resize. congruence.
  - open_init Hrun s s' s0. subst s'. cbn. rewrite length_resize. congruence.
Qed.

Lemma passes_ready_for_update s t :
  well_formed s → ready_for_update s → passes s t →
  well_formed t ∧ ready_for_update t.
Proof.
  intros Hs Hr Hp.
  induction Hp as [s|s t u _ IH Hf|s t u _ IH Hf|s t u _ IH Hf].
  - done.
  - destruct (IH Hs Hr) as [H1 H2]. split; [|].
    + eapply passes_well_formed; [exact H1|]. eapply passes_forward; [|exact Hf].
      apply passes_none.
    + apply forward_frame in Hf. eapply ready_for_update_messages; [|exact H2].
      rewrite Hf. frame_eq.
  - destruct (IH Hs Hr) as [H1 H2]. split; [|].
    + eapply passes_well_formed; [exact H1|]. eapply passes_backward; [|exact Hf].
      apply passes_none.
    + apply backward_frame in Hf. eapply ready_for_update_messages; [|exact H2].
      rewrite Hf. frame_eq.
  - destruct (IH Hs Hr) as [H1 H2].
    destruct (update_completes_wf t H1 H2) as (u' & Hu & ? & ?).
    by assert (u' = u) as <- by congruence.
Qed.

(** X12. After [init()] on an object without join graph, and after any
    number of passes, [update()] completes when [init()] recorded a cluster
    for every variable of the model and, for task MAP, the order has no
    label beyond the variables of the model. *)
Theorem update_completes s s0 t :
  unbuilt s → m_roots s = [] → init s = Ok s0 → passes s0 t →
  (∀ v, (v < gm_nvar (m_gmo s))%nat → ¬ no_cluster s0 v) →
  (m_task s = MAP → ∀ x, x ∈ m_order s0 → (x < gm_nvar (m_gmo s))%nat) →
  ∃ t', update t = Ok t'.
Proof.
  intros Hu Hr Hinit Hp Hcov Hord.
  destruct (passes_ready_for_update s0 t) as [H1 H2];
    [by eapply init_well_formed|by eapply init_ready_for_update|exact Hp|].
  destruct (update_completes_wf t H1 H2) as (t' & Ht & _). by eauto.
Qed.

(** ** [run] completes *)

Lemma propagate_loop_completes fuel k nIter stopTime stopObj elapsed t :
  well_formed t → ready_for_update t →
  nIter < SIZE_MAX → (1 ≤ k)%nat → Z.of_nat k ≤ nIter + 1 →
  (Z.to_nat (nIter + 1 - Z.of_nat k) < fuel)%nat →
  ∃ t', propagate_loop fuel k nIter stopTime stopObj elapsed t = Ok t' ∧
        well_formed t' ∧ ready_for_update t'.
Proof.
  intros Hwf Hr Hmax. revert k t Hwf Hr.
  induction fuel as [|fuel IH]; intros k t Hwf Hr Hk1 Hk Hfuel; [lia|].
  cbn [propagate_loop]. cbv zeta.
  assert (Hk' : to_size_t (Z.of_nat k) = Z.of_nat k).
  { unfold to_size_t, SIZE_MAX in *. apply Z.mod_small. lia. }
  rewrite Hk'. case_decide as Htest; [|by eauto].
  destruct (forward_completes_wf t Hwf) as (t1 & Hf & Hwf1). rewrite Hf.
  cbn [mbind outcome_bind obind].
  destruct (backward_completes_wf t1 Hwf1) as (t2 & Hb & Hwf2). rewrite Hb.
  cbn [mbind outcome_bind obind].
  assert (Hr2 : ready_for_update t2).
  { apply forward_frame in Hf. apply backward_frame in Hb.
    eapply ready_for_update_messages; [|exact Hr]. rewrite Hb, Hf. frame_eq. }
  destruct (update_completes_wf t2 Hwf2 Hr2) as (t3 & Hu & Hwf3 & Hr3).
  rewrite Hu. cbn [mbind outcome_bind obind].
  destruct (d_ltb _ _); [by eauto|]. destruct (_ && _); [by eauto|].
  apply IH; [exact Hwf3|exact Hr3|lia|lia|lia].
Qed.

Lemma propagate_completes_wf fuel nIter stopTime stopObj elapsed t :
  well_formed t → ready_for_update t →
  nIter < SIZE_MAX → (Z.to_nat nIter < fuel)%nat →
  ∃ t', propagate fuel nIter stopTime stopObj elapsed t = Ok t' ∧
        well_formed t' ∧ ready_for_update t'.
Proof.
  intros Hwf Hr Hmax Hfuel. unfold propagate.
  destruct (decide (1 ≤ nIter)) as [Hge|Hlt].
  - apply propagate_loop_completes; [done|done|done|lia|lia|lia].
  - destruct fuel as [|fuel]; [lia|]. cbn [propagate_loop]. cbv zeta.
    change (to_size_t (Z.of_nat 1)) with 1.
    rewrite decide_False by done. eauto.
Qed.

(** X13. After [init()] on an object without join graph, which leaves a
    cluster for every variable of the model, with an order within the
    variables of the model for task MAP, [propagate(n)] returns for every
    count [n] below [SIZE_MAX] and all stop values: it makes at most [n]
    passes, and each of them reads within its vectors. *)
Theorem propagate_completes fuel n stopTime stopObj elapsed s s0 :
  unbuilt s → m_roots s = [] → init s = Ok s0 →
  (∀ v, (v < gm_nvar (m_gmo s))%nat → ¬ no_cluster s0 v) →
  (m_task s = MAP → ∀ x, x ∈ m_order s0 → (x < gm_nvar (m_gmo s))%nat) →
  n < SIZE_MAX → (Z.to_nat n < fuel)%nat →
  ∃ t, propagate fuel n stopTime stopObj elapsed s0 = Ok t.
Proof.
  intros Hu Hr Hinit Hcov Hord Hmax Hfuel.
  destruct (propagate_completes_wf fuel n stopTime stopObj elapsed s0)
    as (t & Ht & _); [by eapply init_well_formed
                     |by eapply init_ready_for_update|done|done|].
  by exists t.
Qed.

End Safety_of_update.

Section Properties_of_the_passes.
Context `{FA : FactorAlgebra} `{MS : !ModelServices}.
Implicit Types s t : ijgp.

(** ** What [forward] and [update] change *)

Lemma forward_edge_length e t t' :
  forward_edge e t = Ok t' → length (m_forward t') = length (m_forward t).
Proof.
  unfold forward_edge. destruct e as [a b]. intros Hrun. ok_inv Hrun.
  subst t'. ok_all. cbn. by rewrite length_insert.
Qed.

(** X14. [forward()] changes [m_log_z] and the forward messages, of which
    it keeps the number, and nothing else; and it starts [m_log_z] from 0:
    the value that [m_log_z] had does not enter the result. *)
Theorem forward_changes_only_forward s s' :
  forward s = Ok s' →
  s' = set_m_log_z (m_log_z s') (set_m_forward (m_forward s') s) ∧
  length (m_forward s') = length (m_forward s) ∧
  m_backward s' = m_backward s ∧ m_beliefs s' = m_beliefs s ∧
  m_best_config s' = m_best_config s ∧ m_factors s' = m_factors s ∧
  m_schedule s' = m_schedule s ∧
  ∀ z, forward (set_m_log_z z s) = Ok s'.
Proof.
  intros Hrun. pose proof (forward_frame _ _ Hrun) as Hfr.
  split; [exact Hfr|]. split.
  - unfold forward in Hrun. ok_inv Hrun. subst s'. cbn.
    eapply (for_each_inv (λ t, length (m_forward t) = length (m_forward s)))
      in Ha; [exact Ha| |done].
    intros e t t' _ Ht He. apply forward_edge_length in He. congruence.
  - rewrite Hfr. repeat split. intros z. rewrite <- Hfr, <- Hrun.
    unfold forward. reflexivity.
Qed.

Lemma belief_of_lengths r v t t' :
  belief_of r v t = Ok t' →
  length (m_beliefs t') = length (m_beliefs t) ∧
  m_best_config t' = m_best_config t.
Proof.
  unfold belief_of. intros Hrun. ok_inv Hrun. subst t'. ok_all. cbn.
  by rewrite length_insert.
Qed.

Lemma assign_lengths x t t' :
  assign x t = Ok t' →
  m_beliefs t' = m_beliefs t ∧
  length (m_best_config t') = length (m_best_config t).
Proof.
  unfold assign. intros Hrun. ok_inv Hrun. subst t'. ok_all. cbn.
  by rewrite length_insert.
Qed.

Lemma beliefs_loop_lengths r l t t' :
  for_each (belief_of r) l t = Ok t' →
  length (m_beliefs t') = length (m_beliefs t) ∧
  m_best_config t' = m_best_config t ∧ m_task t' = m_task t.
Proof.
  intros Hrun.
  eapply (for_each_inv (λ u, length (m_beliefs u) = length (m_beliefs t) ∧
                             m_best_config u = m_best_config t ∧
                             m_task u = m_task t)) in Hrun; [exact Hrun| |done].
  intros v u u' _ (H1 & H2 & H3) Hv.
  pose proof (belief_of_frame _ _ _ _ Hv) as Hfr.
  apply belief_of_lengths in Hv as [H4 H5].
  split; [congruence|]. split; [congruence|]. rewrite Hfr. exact H3.
Qed.

Lemma update_lengths s s' :
  update s = Ok s' →
  length (m_beliefs s') = length (m_beliefs s) ∧
  length (m_best_config s') = length (m_best_config s) ∧
  (m_task s ≠ MAP → m_best_config s' = m_best_config s).
Proof.
  intros Hrun. unfold update in Hrun. ok_inv Hrun.
  apply beliefs_loop_lengths in Ha as (L1 & L2 & L3).
  rewrite L3 in Hrun. destruct (m_task s).
  - apply beliefs_loop_lengths in Hrun as (L4 & L5 & _).
    split; [congruence|]. split; [congruence|]. intros _. congruence.
  - apply beliefs_loop_lengths in Hrun as (L4 & L5 & _).
    split; [congruence|]. split; [congruence|]. intros _. congruence.
  - eapply (for_each_inv (λ u, m_beliefs u = m_beliefs a ∧
              length (m_best_config u) = length (m_best_config a)))
      in Hrun; [| |done].
    + destruct Hrun as [H1 H2]. split; [congruence|]. split; [congruence|].
      done.
    + intros x u u' _ [H1 H2] Hx. apply assign_lengths in Hx as [H3 H4].
      split; congruence.
Qed.

(** X15. [update()] changes the beliefs and the assignment, of which it
    keeps the numbers of entries, and nothing else; for the tasks PR and
    MAR it leaves the assignment as it was. *)
Theorem update_changes_only_beliefs s s' :
  update s = Ok s' →
  s' = set_m_best_config (m_best_config s') (set_m_beliefs (m_beliefs s') s) ∧
  length (m_beliefs s') = length (m_beliefs s) ∧
  length (m_best_config s') = length (m_best_config s) ∧
  (m_task s ≠ MAP → m_best_config s' = m_best_config s) ∧
  m_log_z s' = m_log_z s ∧ m_forward s' = m_forward s ∧
  m_backward s' = m_backward s.
Proof.
  intros Hrun. pose proof (update_frame _ _ Hrun) as Hfr.
  split; [exact Hfr|].
  destruct (update_lengths _ _ Hrun) as (H1 & H2 & H3).
  rewrite Hfr at 4 5 6. repeat split; done.
Qed.

End Properties_of_the_passes.

Section Properties_of_run.
Context `{FA : FactorAlgebra} `{MS : !ModelServices}.
Implicit Types s t : ijgp.

(** ** What [run] reports *)

Lemma pass_keeps s s1 s2 s3 :
  forward s = Ok s1 → backward s1 = Ok s2 → update s2 = Ok s3 →
  num_iter s3 = num_iter s ∧ m_task s3 = m_task s ∧ m_gmo s3 = m_gmo s ∧
  m_lb s3 = m_lb s ∧ length (m_beliefs s3) = length (m_beliefs s) ∧
  length (m_best_config s3) = length (m_best_config s).
Proof.
  intros H1 H2 H3. 
  destruct (update_lengths s2 s3 H3) as (L1 & L2 & _).
  apply forward_frame in H1. apply backward_frame in H2.
  apply update_frame in H3.
  rewrite L1, L2. rewrite H3, H2, H1. done.
Qed.

Lemma iterated_keeps n s u :
  iterated n s u →
  num_iter u = num_iter s ∧ m_task u = m_task s ∧ m_gmo u = m_gmo s ∧
  m_lb u = m_lb s ∧ length (m_beliefs u) = length (m_beliefs s) ∧
  length (m_best_config u) = length (m_best_config s).
Proof.
  induction 1 as [s|n s t1 t2 t3 l u H1 H2 H3 Hl _ IH]; [done|].
  pose proof (pass_keeps _ _ _ _ H1 H2 H3) as (K1 & K2 & K3 & K4 & K5 & K6).
  destruct IH as (J1 & J2 & J3 & J4 & J5 & J6). cbn in *.
  repeat split; congruence.
Qed.

Lemma propagate_loop_keeps fuel k nIter stopTime stopObj elapsed s s' :
  propagate_loop fuel k nIter stopTime stopObj elapsed s = Ok s' →
  num_iter s' = num_iter s ∧ m_task s' = m_task s ∧ m_gmo s' = m_gmo s ∧
  m_lb s' = m_lb s ∧ length (m_beliefs s') = length (m_beliefs s) ∧
  length (m_best_config s') = length (m_best_config s).
Proof.
  intros (n & Hn & _)%propagate_loop_iterated. by eapply iterated_keeps.
Qed.

(** X16. The closing line of [run()] reports the count of iterations that
    [init()] left, whatever the number of passes that were completed.
    [run()] writes [m_lb], the score of the assignment, for task MAP only,
    and keeps the task, the model and the count. *)
Theorem run_report fuel elapsed s s' :
  run fuel elapsed s = Ok s' →
  last (cout s') = Some (Converged (num_iter s')) ∧
  num_iter s' = num_iter (init_order s) ∧
  m_task s' = m_task s ∧ get_gm_orig s' = m_gmo s ∧
  (m_task s ≠ MAP → m_lb s' = m_lb s) ∧
  (m_task s = MAP → m_lb s' = gm_logP (m_gmo s) (best_config s')).
Proof.
  intros (s0 & t & Ha & Ha0 & -> & _)%run_Ok.
  pose proof (init_num_iter _ _ Ha) as Hn.
  pose proof (init_keeps _ _ Ha) as Hk. unfold kept_by_init in Hk.
  injection Hk as Kg _ Kt _ _ _ Kl _.
  unfold propagate in Ha0.
  apply propagate_loop_keeps in Ha0 as (J1 & J2 & J3 & J4 & _).
  unfold get_gm_orig, best_config, reported. cbv zeta.
  destruct (m_task t) eqn:Et; cbn;
    rewrite last_snoc; (split; [done|]); (split; [congruence|]);
    (split; [congruence|]); (split; [congruence|]);
    split; intros Hm; try congruence.
Qed.

(** ** The stop tests of [propagate] under [run] *)

(** With the stop values of [run()], and a count below [SIZE_MAX], the
    loop is left by its test alone. *)
Lemma propagate_loop_all fuel k nIter elapsed s s' :
  (∀ x, d_ltb (d_fabs x) (d_lit (-1)) = false) →
  d_ltb (d_lit 0) (d_lit (-1)) = false →
  nIter < SIZE_MAX → (1 ≤ k)%nat → Z.of_nat k ≤ nIter + 1 →
  propagate_loop fuel k nIter (d_lit (-1)) (d_lit (-1)) elapsed s = Ok s' →
  Z.of_nat (iterations s') = Z.of_nat (iterations s) + nIter + 1 - Z.of_nat k.
Proof.
  intros Hfabs Hzero Hmax. revert k s.
  induction fuel as [|fuel IH]; intros k s Hk1 Hk Hrun;
    cbn [propagate_loop] in Hrun; [discriminate|].
  cbv zeta in Hrun.
  assert (Hk' : to_size_t (Z.of_nat k) = Z.of_nat k).
  { unfold to_size_t, SIZE_MAX in *. apply Z.mod_small. lia. }
  rewrite Hk' in Hrun. case_decide as Htest.
  - ok_inv Hrun. pose proof (pass_keeps_cout _ _ _ _ Ha Ha0 Ha1) as Hc.
    rewrite Hfabs, Hzero in Hrun. cbn [andb] in Hrun.
    apply IH in Hrun; [|lia|lia]. rewrite Hrun, iterations_IterLine.
    unfold iterations. rewrite Hc. lia.
  - injection Hrun as <-. lia.
Qed.

(** With these stop values and the count [SIZE_MAX] or more, no test of
    the loop fails and no [break] is taken: the loop is not left. *)
Lemma propagate_loop_no_exit fuel k nIter elapsed s s' :
  (∀ x, d_ltb (d_fabs x) (d_lit (-1)) = false) →
  d_ltb (d_lit 0) (d_lit (-1)) = false →
  SIZE_MAX ≤ nIter →
  propagate_loop fuel k nIter (d_lit (-1)) (d_lit (-1)) elapsed s ≠ Ok s'.
Proof.
  intros Hfabs Hzero Hmax. revert k s.
  induction fuel as [|fuel IH]; intros k s Hrun;
    cbn [propagate_loop] in Hrun; [discriminate|].
  cbv zeta in Hrun.
  assert (Htest : to_size_t (Z.of_nat k) ≤ nIter).
  { unfold to_size_t, SIZE_MAX in *.
    pose proof (Z.mod_pos_bound (Z.of_nat k) (2 ^ 64) ltac:(lia)). lia. }
  rewrite decide_True in Hrun by done. ok_inv Hrun.
  rewrite Hfabs, Hzero in Hrun. cbn [andb] in Hrun. by apply IH in Hrun.
Qed.

(** X17. [run()] calls [propagate] with the stop values -1, which disable
    its two stop tests: when no absolute value is below -1 and 0 is not
    below -1, as for the doubles, [run()] completes exactly the count of
    iterations that [init()] left. *)
Theorem run_completes_all_iterations fuel elapsed s s' :
  (∀ x, d_ltb (d_fabs x) (d_lit (-1)) = false) →
  d_ltb (d_lit 0) (d_lit (-1)) = false →
  run fuel elapsed s = Ok s' →
  iterations s' = (iterations s + Z.to_nat (num_iter s'))%nat.
Proof.
  intros Hfabs Hzero (s0 & t & Ha & Ha0 & -> & _)%run_Ok.
  pose proof (init_keeps_cout _ _ Ha) as Hc.
  unfold propagate in Ha0.
  pose proof (propagate_loop_keeps _ _ _ _ _ _ _ _ Ha0) as (J1 & _).
  assert (Hrep : iterations (reported t) = iterations t ∧
                 num_iter (reported t) = num_iter t).
  { unfold reported. cbv zeta. destruct (m_task t);
      (split; [apply (iterations_Converged t)|reflexivity]). }
  destruct Hrep as [-> ->]. rewrite J1.
  assert (Hs0 : iterations s0 = iterations s).
  { unfold iterations. by rewrite Hc. }
  destruct (decide (SIZE_MAX ≤ num_iter s0)) as [Hbig|Hsmall].
  { by apply propagate_loop_no_exit in Ha0. }
  destruct (decide (1 ≤ num_iter s0)) as [Hge|Hlt].
  - apply propagate_loop_all in Ha0; [|done|done|lia|lia|lia]. lia.
  - apply propagate_loop_iterated in Ha0 as (n & Hn & _ & H0).
    change (to_size_t (Z.of_nat 1)) with 1 in H0.
    apply iterated_iterations in Hn. rewrite H0 in Hn by lia.
    rewrite Z2Nat.nonpos by lia. lia.
Qed.

(** ** Beliefs after [run] *)

(** X18. After [run()], [belief(v)] returns a belief for every variable
    [v] of the model and reads past the end of [m_beliefs] for any other
    index; the assignment has one entry for each variable of the model. *)
Theorem belief_after_run fuel elapsed s s' v :
  run fuel elapsed s = Ok s' →
  ((v < gm_nvar (m_gmo s))%nat → ∃ F, belief s' v = Ok F) ∧
  ((gm_nvar (m_gmo s) ≤ v)%nat → belief s' v = Undefined) ∧
  length (best_config s') = gm_nvar (m_gmo s).
Proof.
  intros (s0 & t & Ha & Ha0 & -> & _)%run_Ok.
  destruct (init_resets_beliefs_lengths _ _ Ha) as [L1 L2].
  unfold propagate in Ha0.
  apply propagate_loop_keeps in Ha0 as (_ & _ & _ & _ & L3 & L4).
  assert (Hb : length (m_beliefs (reported t)) = gm_nvar (m_gmo s) ∧
               length (m_best_config (reported t)) = gm_nvar (m_gmo s)).
  { unfold reported. cbv zeta.
    destruct (m_task t); cbn; split; congruence. }
  destruct Hb as [Hb Hc]. unfold belief, at_, best_config.
  split; [|split; [|exact Hc]].
  - intros Hv.
    destruct (lookup_lt_is_Some_2 (m_beliefs (reported t)) v) as [F ->];
      [lia|by eauto].
  - intros Hv. rewrite (proj2 (lookup_ge_None _ _)); [done|lia].
Qed.

End Properties_of_run.

Section Lists_of_the_join_graph.
Context `{FA : FactorAlgebra} `{MS : !ModelServices}.
Implicit Types s t : ijgp.

(** ** Incoming and outgoing lists, roots *)

Lemma in_out_of_listed e t t' (y : nat * nat) :
  in_out_of e t = Ok t' →
  (y = e ∨ ((∃ ins, m_in t !! y.2 = Some ins ∧ y.1 ∈ ins) ∧
            (∃ outs, m_out t !! y.1 = Some outs ∧ y.2 ∈ outs))) →
  (∃ ins, m_in t' !! y.2 = Some ins ∧ y.1 ∈ ins) ∧
  (∃ outs, m_out t' !! y.1 = Some outs ∧ y.2 ∈ outs).
Proof.
  unfold in_out_of. destruct e as [from to]. intros Hrun. ok_inv Hrun.
  subst t'. ok_all. cbn in *. intros [->|[(ins & Hi & Hin) (outs & Ho & Hout)]].
  - cbn. rewrite !list_lookup_insert_eq by done. split; eexists; (split; [done|]);
      apply elem_of_fl_insert; by left.
  - split.
    + destruct (decide (y.2 = to)) as [Heq|Hne].
      * rewrite Heq in *. rewrite list_lookup_insert_eq by done.
        eexists. split; [done|]. apply elem_of_fl_insert. right. congruence.
      * rewrite list_lookup_insert_ne by done. eauto.
    + destruct (decide (y.1 = from)) as [Heq|Hne].
      * rewrite Heq in *. rewrite list_lookup_insert_eq by done.
        eexists. split; [done|]. apply elem_of_fl_insert. right. congruence.
      * rewrite list_lookup_insert_ne by done. eauto.
Qed.

Lemma init_in_out_listed s s' a b :
  init_in_out s = Ok s' → (a, b) ∈ m_schedule s →
  (∃ ins, m_in s' !! b = Some ins ∧ a ∈ ins) ∧
  (∃ outs, m_out s' !! a = Some outs ∧ b ∈ outs).
Proof.
  unfold init_in_out. intros Hrun Hab.
  apply (for_each_establishes
    (λ t (y : nat * nat), (∃ ins, m_in t !! y.2 = Some ins ∧ y.1 ∈ ins) ∧
                          (∃ outs, m_out t !! y.1 = Some outs ∧ y.2 ∈ outs))
    (λ _, True) in_out_of _ _ _) with (x := (a, b)) in Hrun;
    [exact Hrun| | |exact Hab|done].
  - intros x y u u' Hx Hy. eapply in_out_of_listed; [exact Hx|by right].
  - intros x u u' _ Hx. eapply in_out_of_listed; [exact Hx|by left].
Qed.

(** X19. After [init()] on an object without join graph, the outgoing list
    of a cluster holds the targets of its edges in the schedule and the
    incoming list the sources, and the roots are the clusters that no edge
    of the schedule leaves. *)
Theorem init_lists_of_the_schedule s s' p q :
  unbuilt s → m_roots s = [] → init s = Ok s' →
  ((p, q) ∈ m_schedule s' ↔ ∃ outs, m_out s' !! p = Some outs ∧ q ∈ outs) ∧
  ((p, q) ∈ m_schedule s' ↔ ∃ ins, m_in s' !! q = Some ins ∧ p ∈ ins) ∧
  (p ∈ m_roots s' ↔ (p < length (m_factors s'))%nat ∧
                     ∀ c, (p, c) ∉ m_schedule s').
Proof.
  intros Hu Hr Hrun.
  pose proof (init_well_formed _ _ Hu Hr Hrun) as Hwf.
  pose proof Hwf as (_ & _ & _ & Lout & _ & _ & _ & _ & [Hin Hout] & _ & _).
  destruct Hu as (_ & _ & _ & _ & _ & _ & Hou0 & _).
  open_init Hrun s s' s0.
  assert (Hlisted : ∀ c d, (c, d) ∈ m_schedule s' →
            (∃ ins, m_in s' !! d = Some ins ∧ c ∈ ins) ∧
            (∃ outs, m_out s' !! c = Some outs ∧ d ∈ outs)).
  { intros c d Hcd.
    replace (m_in s') with (m_in a2) by congruence.
    replace (m_out s') with (m_out a2) by congruence.
    eapply init_in_out_listed; [exact Ha2|].
    assert (m_schedule s' = m_schedule a1) as E by congruence.
    rewrite <- E. exact Hcd. }
  assert (Hrt : ∀ c, c ∈ m_roots s' ↔ m_out s' !! c = Some []).
  { intros c. replace (m_roots s') with (m_roots r2) by congruence.
    replace (m_out s') with (m_out a2) by congruence.
    rewrite Hr2, init_roots_spec.
    replace (m_roots a2) with (m_roots s) by congruence. rewrite Hr.
    rewrite elem_of_nil. tauto. }
  split; [|split].
  - split; [intros Hab; by apply Hlisted|]. intros (outs & Ho & Hb'). eauto.
  - split; [intros Hab; by apply Hlisted|]. intros (ins & Hi & Ha'). eauto.
  - rewrite Hrt. split.
    + intros Ho. split; [apply lookup_lt_Some in Ho; lia|].
      intros c Hc. destruct (Hlisted p c Hc) as [_ (outs & Ho' & Hc')].
      rewrite Ho in Ho'. injection Ho' as <-. by apply elem_of_nil in Hc'.
    + intros [Hlt Hno].
      destruct (lookup_lt_is_Some_2 (m_out s') p) as [[|d outs] Ho]; [lia|done|].
      exfalso. apply (Hno d). eapply Hout; [exact Ho|by left].
Qed.

End Lists_of_the_join_graph.

Section Edges_of_the_schedule.
Context `{FA : FactorAlgebra} `{MS : !ModelServices}.
Implicit Types s t : ijgp.
Implicit Types L : locals.

(** ** The direction of the edges of the schedule *)

Lemma ascending_snoc al (C : nat) :
  ascending al → Forall (λ a, a < C)%nat al → ascending (al ++ [C]).
Proof.
  induction al as [|a [|b rest] IH]; intros Hasc Hlt; [done| |].
  - cbn. split; [|done]. by apply Forall_cons in Hlt as [? _].
  - destruct Hasc as [Hab Hasc]. apply Forall_cons in Hlt as [_ Hlt].
    split; [exact Hab|]. by apply IH.
Qed.

Lemma chain_ascending al t :
  ascending al → schedule_ascending t → schedule_ascending (chain al t).
Proof.
  revert t. induction al as [|a [|b rest] IH]; intros t Hasc Ht; [done|done|].
  change (chain (a :: b :: rest) t) with (chain (b :: rest) (push_edge b t a)).
  destruct Hasc as [Hab Hasc]. apply IH; [exact Hasc|].
  destruct (push_edge_members b t a) as (_ & _ & _ & _ & Hsch).
  intros c d. rewrite Hsch.
  intros [Hcd|Hcd%list_elem_of_singleton]%elem_of_app; [by apply Ht|].
  by injection Hcd as -> ->.
Qed.

Lemma eliminate_ascending x i L t al L' t' al' :
  schedule_ascending t → new_in_range L t →
  eliminate x i (L, t, al) = Ok (L', t', al') → schedule_ascending t'.
Proof.
  intros Hs HN Hrun.
  apply eliminate_Ok in Hrun
    as (Fi & Cx & Ni & Oi & Oa & _ & _ & HNi & _ & _ & _ & _ & ->).
  match goal with |- context [foldl ?f ?s0 ?l] =>
    destruct (push_edges_members (length (m_factors t)) l s0)
      as (_ & _ & _ & _ & Hsch)
  end.
  cbn in Hsch. intros c d. cbn. rewrite Hsch.
  intros [Hcd|Hcd]%elem_of_app; [by apply Hs|].
  apply list_elem_of_fmap in Hcd as (j & [= -> ->] & Hj). eauto.
Qed.

Lemma bucket_ascending x L s L' s' :
  schedule_ascending s → clusters_in_range s → new_in_range L s →
  bucket x (L, s) = Ok (L', s') → schedule_ascending s'.
Proof.
  intros Hasc Hs HN. unfold bucket.
  destruct (vin L !! x) as [[|i ids]|] eqn:Hvin;
    try (intros [= <- <-]; done).
  intros Hrun. ok_inv Hrun.
  eapply (merge_loop_inv (λ L1, new_in_range L1 s)) in Ha0;
    [|intros; by eapply merge_pair_new_in_range|exact HN].
  eapply (for_each_inv (λ st,
      (clusters_in_range st.1.2 ∧ new_in_range st.1.1 st.1.2 ∧
       Forall (λ a, a < length (m_factors st.1.2))%nat st.2) ∧
      schedule_ascending st.1.2 ∧ ascending st.2)) in Ha1.
  - destruct l1 as [|a0 l1]; [discriminate|].
    cbn [fst snd] in Ha1. destruct Ha1 as (_ & H4 & H5).
    pose proof (chain_ascending (a0 :: l1) _ H5 H4) as H6.
    injection Hrun as <- <-. exact H6.
  - intros j [[L1 t1] al1] [[L2 t2] al2] _ ((H1 & H2 & H3) & H4 & H5) He.
    cbn [fst snd] in *.
    pose proof (eliminate_ascending _ _ _ _ _ _ _ _ H4 H2 He) as H6.
    destruct (eliminate_in_range _ _ _ _ _ _ _ _ H1 H2 H3 He) as (? & ? & ? & _).
    split; [done|]. split; [done|].
    apply eliminate_Ok in He as (? & ? & ? & ? & ? & _ & _ & _ & _ & _ & -> & _).
    by apply ascending_snoc.
  - cbn. done.
Qed.

Lemma init_buckets_ascending s s' :
  m_factors s = [] → m_schedule s = [] → m_clusters s = [] →
  init_buckets s = Ok s' → schedule_ascending s'.
Proof.
  intros Hf Hs Hc Hrun.
  apply (init_buckets_inv (λ L t, schedule_ascending t ∧ clusters_in_range t ∧
                                  new_in_range L t))
    in Hrun as [L' [Hrun _]]; [exact Hrun| |].
  - intros x L1 t L2 t' _ (H1 & H2 & H3) Hb.
    split; [by eapply bucket_ascending|by eapply bucket_in_range].
  - split; [|split].
    + intros a b. cbn. rewrite Hs. by intros []%elem_of_nil.
    + unfold clusters_in_range. cbn. rewrite Hf, Hs, Hc. cbn.
      split; [intros ? ? []%elem_of_nil|]. split; [intros; lia|].
      intros x cl c Hx Hin. rewrite resize_nil in Hx.
      apply lookup_replicate in Hx as [-> _]. by apply elem_of_nil in Hin.
    + intros i N p Hi Hp. cbn in Hi.
      apply lookup_replicate in Hi as [-> _]. by apply elem_of_nil in Hp.
Qed.

(** X20. After [init()] on an object without join graph, every edge of the
    schedule joins two clusters, leads to the one of larger index, the one
    that was created later, and is an edge of the graph, which holds it in
    both directions. *)
Theorem init_schedule_edges s s' p q :
  unbuilt s → init s = Ok s' → (p, q) ∈ m_schedule s' →
  (p < q < length (m_factors s'))%nat ∧
  (p, q) ∈ edges s' ∧ (q, p) ∈ edges s'.
Proof.
  intros (Hf & He & Hs & Ho & Hcl & _) Hrun Hpq.
  pose proof (init_potentials_length) as Lfac.
  open_init Hrun s s' s0.
  assert (Esch : m_schedule s' = m_schedule a) by congruence.
  assert (Eed : m_edges s' = m_edges a) by congruence.
  assert (EC : length (m_factors s') = length (m_factors a)).
  { transitivity (length (m_factors a4)); [congruence|].
    rewrite (Lfac _ _ Ha4). congruence. }
  rewrite Esch in Hpq. unfold edges. rewrite Eed, EC.
  assert (Hasc : schedule_ascending a).
  { eapply init_buckets_ascending; [| | |exact Ha]; congruence. }
  assert (Hrange : clusters_in_range a).
  { eapply init_buckets_in_range; [| | |exact Ha]; congruence. }
  assert (Hsched : schedule_in_edges a).
  { eapply init_buckets_schedule_in_edges; [| |exact Ha]; congruence. }
  destruct Hrange as (Hr & _). destruct Hsched as [Hse Hsym].
  specialize (Hasc _ _ Hpq). destruct (Hr _ _ Hpq) as [_ Hq].
  split; [lia|]. split; [by apply Hse|]. apply Hsym. by apply Hse.
Qed.

End Edges_of_the_schedule.

Section Potentials.
Context `{FA : FactorAlgebra} `{MS : !ModelServices}.
Implicit Types s t : ijgp.
Implicit Types L : locals.

(** ** The potential of a cluster *)

Lemma potential_of_product x y t t' :
  potential_of x t = Ok t' →
  (y = x ∨ (∀ F, m_factors t !! y = Some F →
              ∃ orig, m_originals t !! y = Some orig ∧
                      product_of (m_gmo t) orig = Ok F)) →
  ∀ F, m_factors t' !! y = Some F →
       ∃ orig, m_originals t' !! y = Some orig ∧
               product_of (m_gmo t') orig = Ok F.
Proof.
  unfold potential_of. intros Hrun. ok_inv Hrun. subst t'. ok_all. cbn.
  intros Hy F HF.
  apply list_lookup_insert_Some in HF as [(<- & <- & _)|[Hne HF]]; [by eauto|].
  destruct Hy as [->|Hy]; [done|]. by apply Hy.
Qed.

Lemma init_potentials_product s s' i F :
  init_potentials s = Ok s' → m_factors s' !! i = Some F →
  ∃ orig, m_originals s' !! i = Some orig ∧ product_of (m_gmo s') orig = Ok F.
Proof.
  intros Hrun HF. pose proof (init_potentials_length _ _ Hrun) as Hlen.
  unfold init_potentials in Hrun.
  pose proof (for_each_establishes
    (λ t y, ∀ F, m_factors t !! y = Some F →
                 ∃ orig, m_originals t !! y = Some orig ∧
                         product_of (m_gmo t) orig = Ok F)
    (λ _, True) potential_of (seq 0 (length (m_factors s))) s s') as Hall.
  eapply Hall; [| |exact Hrun| |done|exact HF].
  - intros x y u u' Hx Hy. eapply potential_of_product; [exact Hx|by right].
  - intros x u u' _ Hx. eapply potential_of_product; [exact Hx|by left].
  - apply elem_of_seq. apply lookup_lt_Some in HF. lia.
Qed.

(** X21. After [init()], the potential of every cluster is the product of
    the factors of the model that [m_originals] lists for the cluster,
    multiplied from the constant 1 in the increasing order of their
    indices. *)
Theorem init_potential_is_the_product s s' i F :
  init s = Ok s' → m_factors s' !! i = Some F →
  ∃ orig, m_originals s' !! i = Some orig ∧ product_of (m_gmo s) orig = Ok F.
Proof.
  intros Hrun HF. pose proof (init_keeps_gmo _ _ Hrun) as Hg.
  open_init Hrun s s' s0.
  replace (m_factors s') with (m_factors a4) in HF by congruence.
  destruct (init_potentials_product _ _ _ _ Ha4 HF) as (orig & Ho & Hp).
  exists orig. split; [congruence|].
  replace (m_gmo s) with (m_gmo a4) by congruence. exact Hp.
Qed.

(** ** The clusters of the original factors *)

Lemma one_holder_step (f : holder → holder) n L t L' t' :
  length (m_originals t') = length (m_factors t') →
  (∀ h o, holds L' t' h o → ∃ h0, holds L t h0 o ∧ h = f h0) →
  one_holder n L t → one_holder n L' t'.
Proof.
  intros Hlen Hf (_ & Huniq & Hrange). split; [exact Hlen|]. split.
  - intros h1 h2 o H1 H2.
    destruct (Hf _ _ H1) as (g1 & G1 & ->).
    destruct (Hf _ _ H2) as (g2 & G2 & ->).
    by rewrite (Huniq _ _ _ G1 G2).
  - intros h o H1. destruct (Hf _ _ H1) as (g1 & G1 & _). eauto.
Qed.

Lemma merge_pair_one_holder n ii jj L L' t :
  one_holder n L t → merge_pair ii jj L = Ok L' → one_holder n L' t.
Proof.
  intros HI Hrun. pose proof HI as (Hlen & _).
  apply merge_pair_Ok in Hrun
    as (Fi & Fj & Fi' & Oi & Oj & Ni & Nj & _ & _ & _ & HOi & HOj & _ & _
        & _ & _ & HOrig' & _).
  apply (one_holder_step
    (λ h, match h with
          | in_Orig i => if decide (i = ii) then in_Orig jj else in_Orig i
          | _ => h
          end) n L t); [exact Hlen| |exact HI].
  intros [i|α] o; cbn; [|intros H; by exists (in_cluster α)].
  rewrite HOrig'. intros (O & HO & Ho).
  apply list_lookup_insert_Some in HO as [(<- & <- & _)|[Hne HO]];
    [by apply elem_of_nil in Ho|].
  apply list_lookup_insert_Some in HO as [(<- & <- & _)|[Hne' HO]].
  - apply elem_of_fl_union in Ho as [Ho|Ho].
    + exists (in_Orig jj). cbn. split; [by eauto|]. by rewrite decide_False.
    + exists (in_Orig ii). cbn. split; [by eauto|]. by rewrite decide_True.
  - exists (in_Orig i). cbn. split; [by eauto|]. by rewrite decide_False.
Qed.

Lemma eliminate_one_holder n x i L t al L' t' al' :
  one_holder n L t → eliminate x i (L, t, al) = Ok (L', t', al') →
  one_holder n L' t'.
Proof.
  intros HI Hrun. pose proof HI as (Hlen & _).
  apply eliminate_Ok in Hrun
    as (Fi & Cx & Ni & Oi & Oa & _ & _ & _ & HOi & HOa & _ & -> & ->).
  match goal with |- context [foldl ?f ?s0 ?l] =>
    destruct (push_edges_members (length (m_factors t)) l s0)
      as (Hf & _ & _ & Hou & _);
    set (u := foldl f s0 l) in *
  end.
  cbn in Hf, Hou. rewrite Hou in HOa |- *.
  rewrite <- Hlen in HOa. rewrite list_lookup_middle in HOa by done.
  injection HOa as <-.
  apply (one_holder_step
    (λ h, match h with
          | in_Orig j => if decide (j = i) then in_cluster (length (m_factors t))
                         else in_Orig j
          | _ => h
          end) n L t); [| |exact HI].
  - cbn. rewrite length_insert, length_app, Hf, length_app. cbn. lia.
  - intros [j|α] o; cbn.
    + intros (O & HO & Ho).
      apply list_lookup_insert_Some in HO as [(<- & <- & _)|[Hne HO]];
        [by apply elem_of_nil in Ho|].
      exists (in_Orig j). cbn. split; [by eauto|]. by rewrite decide_False.
    + intros (O & HO & Ho).
      apply list_lookup_insert_Some in HO as [(<- & <- & _)|[Hne HO]].
      * apply elem_of_fl_union in Ho as [[]%elem_of_nil|Ho].
        exists (in_Orig i). cbn. split; [by eauto|].
        by rewrite decide_True.
      * exists (in_cluster α). cbn. split; [|done].
        exists O. split; [|done].
        apply lookup_app_Some in HO as [HO|[Hge HO]]; [done|].
        exfalso. apply Hne. apply lookup_lt_Some in HO. cbn in HO. lia.
Qed.

Lemma push_edge_one_holder n L t a b :
  one_holder n L t → one_holder n L (push_edge b t a).
Proof.
  destruct (push_edge_members b t a) as (Hf & _ & _ & Ho & _).
  unfold one_holder, holds. by rewrite Hf, Ho.
Qed.

Lemma init_buckets_one_holder s s' :
  m_originals s = [] → m_factors s = [] → init_buckets s = Ok s' →
  ∃ L', one_holder (length (gm_factors (m_gmo s))) L' s'.
Proof.
  intros Ho Hf Hrun.
  apply (init_buckets_inv (one_holder (length (gm_factors (m_gmo s)))))
    in Hrun; [done| |].
  - intros x L1 t L2 t' _ HQ Hb.
    eapply (bucket_inv (one_holder _) True); [| | | |exact HQ|exact Hb]; auto.
    + intros. by eapply merge_pair_one_holder.
    + intros. by eapply eliminate_one_holder.
    + intros. by apply push_edge_one_holder.
  - assert (Hinit : ∀ h o,
      holds (init_locals (m_gmo s))
        (set_m_clusters (resize (length (m_order s)) [] (m_clusters s)) s) h o →
      h = in_Orig o ∧ (o < length (gm_factors (m_gmo s)))%nat).
    { intros [i|α] o; cbn.
      - intros (O & HO & Hin). rewrite list_lookup_fmap in HO.
        destruct (seq 0 (length (gm_factors (m_gmo s))) !! i) as [k|] eqn:Hk;
          [|done].
        apply lookup_seq in Hk as [-> Hlt]. injection HO as <-.
        apply list_elem_of_singleton in Hin as ->. done.
      - rewrite Ho. intros (O & HO & _). by rewrite lookup_nil in HO. }
    split; [cbn; by rewrite Ho, Hf|]. split.
    + intros h1 h2 o H1 H2. apply Hinit in H1 as [-> _].
      by apply Hinit in H2 as [-> _].
    + intros h o H1. by apply Hinit in H1 as [_ ?].
Qed.

(** X22. After [init()] on an object without join graph, every index that
    [m_originals] lists for a cluster is the index of a factor of the
    model, and no index is listed for two clusters: a factor of the model
    enters the potential of one cluster at most. *)
Theorem init_originals_of_one_cluster s s' α β Oα Oβ o :
  unbuilt s → init s = Ok s' →
  m_originals s' !! α = Some Oα → m_originals s' !! β = Some Oβ →
  o ∈ Oα → o ∈ Oβ →
  α = β ∧ (o < length (gm_factors (m_gmo s)))%nat.
Proof.
  intros (Hf & _ & _ & Ho & _) Hrun Hα Hβ Hoα Hoβ.
  open_init Hrun s s' s0.
  destruct (init_buckets_one_holder s0 a) as (L' & _ & Huniq & Hrange);
    [congruence|congruence|exact Ha|].
  replace (m_originals s') with (m_originals a) in Hα, Hβ by congruence.
  replace (m_gmo s) with (m_gmo s0) by congruence.
  assert (Hh1 : holds L' a (in_cluster α) o) by (cbn; eauto).
  assert (Hh2 : holds L' a (in_cluster β) o) by (cbn; eauto).
  split; [|by eapply Hrange].
  specialize (Huniq _ _ _ Hh1 Hh2). by injection Huniq.
Qed.

End Potentials.

Section Clusters_of_the_variables.
Context `{FA : FactorAlgebra} `{MS : !ModelServices}.
Implicit Types s t : ijgp.
Implicit Types L : locals.

(** ** The variable of a cluster *)

Lemma eliminate_clusters_of_variables x i L t al L' t' al' :
  (∀ c y, m_cluster2var t !! c = Some y → (c < length (m_factors t))%nat) →
  clusters_of_variables t →
  eliminate x i (L, t, al) = Ok (L', t', al') →
  (∀ c y, m_cluster2var t' !! c = Some y → (c < length (m_factors t'))%nat) ∧
  clusters_of_variables t'.
Proof.
  intros Hlt HK Hrun.
  apply eliminate_Ok in Hrun
    as (Fi & Cx & Ni & Oi & Oa & _ & HCx & _ & _ & _ & _ & _ & ->).
  match goal with |- context [foldl ?f ?s0 ?l] =>
    destruct (push_edges_members (length (m_factors t)) l s0)
      as (Hf & Hcl & Hcv & _ & _);
    set (u := foldl f s0 l) in *
  end.
  cbn in Hf, Hcl, Hcv. unfold clusters_of_variables. cbn.
  rewrite Hf, Hcl, Hcv, length_app. cbn. split.
  - intros c y Hc. apply lookup_insert_Some in Hc as [[<- _]|[_ Hc]]; [lia|].
    apply Hlt in Hc. lia.
  - intros c y. split.
    + intros Hc. apply lookup_insert_Some in Hc as [[<- <-]|[Hne Hc]].
      * exists (fl_insert (length (m_factors t)) Cx).
        rewrite list_lookup_insert_eq by (by eapply lookup_lt_Some).
        split; [done|]. apply elem_of_fl_insert. by left.
      * apply HK in Hc as (cl & Hcl' & Hin).
        destruct (decide (y = x)) as [->|Hxy].
        -- exists (fl_insert (length (m_factors t)) Cx).
           rewrite list_lookup_insert_eq by (by eapply lookup_lt_Some).
           split; [done|]. apply elem_of_fl_insert. right. congruence.
        -- exists cl. by rewrite list_lookup_insert_ne.
    + intros (cl & Hcl' & Hin).
      apply list_lookup_insert_Some in Hcl' as [(<- & <- & _)|[Hne Hcl']].
      * apply elem_of_fl_insert in Hin as [->|Hin];
          [by rewrite lookup_insert_eq|].
        assert (Hc : m_cluster2var t !! c = Some x) by (apply HK; eauto).
        rewrite lookup_insert_ne; [done|]. apply Hlt in Hc. lia.
      * assert (Hc : m_cluster2var t !! c = Some y) by (apply HK; eauto).
        rewrite lookup_insert_ne; [done|]. apply Hlt in Hc. lia.
Qed.

Lemma init_buckets_clusters_of_variables s s' :
  m_factors s = [] → m_clusters s = [] → m_cluster2var s = ∅ →
  init_buckets s = Ok s' →
  (∀ c y, m_cluster2var s' !! c = Some y → (c < length (m_factors s'))%nat) ∧
  clusters_of_variables s'.
Proof.
  intros Hf Hc Hv Hrun.
  apply (init_buckets_inv (λ _ t,
    (∀ c y, m_cluster2var t !! c = Some y → (c < length (m_factors t))%nat) ∧
    clusters_of_variables t)) in Hrun as [_ Hrun]; [exact Hrun| |].
  - intros x L1 t L2 t' _ HQ Hb.
    eapply (bucket_inv (λ _ t,
      (∀ c y, m_cluster2var t !! c = Some y → (c < length (m_factors t))%nat) ∧
      clusters_of_variables t) True); [| | | |exact HQ|exact Hb]; auto.
    + intros j L3 t3 al L4 t4 al' _ [H1 H2] He.
      by eapply eliminate_clusters_of_variables.
    + intros L3 t3 a b HQ'.
      destruct (push_edge_members b t3 a) as (Hf' & Hcl' & Hcv' & _ & _).
      unfold clusters_of_variables. by rewrite Hf', Hcl', Hcv'.
  - unfold clusters_of_variables. cbn. rewrite Hv, Hc, resize_nil. split.
    + intros c y Hcy. by rewrite lookup_empty in Hcy.
    + intros c x. rewrite lookup_empty. split; [done|].
      intros (cl & Hcl & Hin). apply lookup_replicate in Hcl as [-> _].
      by apply elem_of_nil in Hin.
Qed.

(** X23. After [init()] on an object without join graph, [m_cluster2var]
    maps every cluster to its variable, the one whose list in [m_clusters]
    holds the cluster: a cluster belongs to one variable, and every cluster
    has one. *)
Theorem init_variable_of_a_cluster s s' c :
  unbuilt s → m_cluster2var s = ∅ → init s = Ok s' →
  (∀ x, m_cluster2var s' !! c = Some x ↔
        ∃ cl, m_clusters s' !! x = Some cl ∧ c ∈ cl) ∧
  ((c < length (m_factors s'))%nat ↔ is_Some (m_cluster2var s' !! c)).
Proof.
  intros (Hf & He & Hs & Ho & Hcl & _) Hv Hrun.
  pose proof (init_potentials_length) as Lfac.
  open_init Hrun s s' s0.
  destruct (init_buckets_clusters_of_variables s0 a) as [Hlt HK];
    [congruence|congruence|congruence|exact Ha|].
  assert (Hrange : clusters_in_range a).
  { eapply init_buckets_in_range; [| | |exact Ha]; congruence. }
  assert (EC : length (m_factors s') = length (m_factors a)).
  { transitivity (length (m_factors a4)); [congruence|].
    rewrite (Lfac _ _ Ha4). congruence. }
  replace (m_cluster2var s') with (m_cluster2var a) by congruence.
  replace (m_clusters s') with (m_clusters a) by congruence.
  rewrite EC. split; [intros x; apply HK|]. split.
  - destruct Hrange as (_ & Hsome & _). apply Hsome.
  - intros [x Hx]. eauto.
Qed.

End Clusters_of_the_variables.

Section Score_table.
Context `{FA : FactorAlgebra} `{MS : !ModelServices}.
Implicit Types s : ijgp.
Implicit Types L : locals.
Implicit Types t : score_table.

(** ** The table of scores *)

Lemma elem_of_insert_entry e e' l : e' ∈ insert_entry e l ↔ e' = e ∨ e' ∈ l.
Proof.
  induction l as [|x l IH]; cbn.
  - rewrite list_elem_of_singleton, elem_of_nil. tauto.
  - destruct (Qle_bool _ _); rewrite !elem_of_cons, ?IH; tauto.
Qed.

Lemma sPair_sorted i j : ((sPair i j).2 ≤ (sPair i j).1)%nat.
Proof. unfold sPair. case_decide; cbn; lia. Qed.

Lemma sPair_comm i j : sPair i j = sPair j i.
Proof.
  unfold sPair. repeat case_decide; try reflexivity; try lia.
  assert (i = j) as -> by lia. reflexivity.
Qed.

Lemma sPair_components i j :
  ((sPair i j).1 = i ∧ (sPair i j).2 = j) ∨
  ((sPair i j).1 = j ∧ (sPair i j).2 = i).
Proof. unfold sPair. case_decide; cbn; tauto. Qed.

Lemma sPair_of_sorted (p : nat * nat) : (p.2 ≤ p.1)%nat → sPair p.1 p.2 = p.
Proof.
  destruct p as [a b]. cbn. intros Hle. unfold sPair.
  rewrite decide_False by lia. reflexivity.
Qed.

Lemma sPair_eq i j k : sPair i j = sPair i k → j = k.
Proof.
  unfold sPair. repeat case_decide; intros [= ]; subst; try done; lia.
Qed.

Lemma score_swap s fin VX VX' i j : score s fin VX i j = score s fin VX' j i.
Proof.
  unfold score, at_.
  destruct (fin !! i) as [F1|], (fin !! j) as [F2|]; cbn; try reflexivity.
  rewrite (comm_L (∪) F2 F1), (Z.add_comm (nvar F2)).
  replace (Z.max (Z.max (m_ibound s) (to_size_t (nvar F2 - 1)))
                 (to_size_t (nvar F1 - 1)))
    with (Z.max (Z.max (m_ibound s) (to_size_t (nvar F1 - 1)))
                (to_size_t (nvar F2 - 1))) by lia.
  reflexivity.
Qed.

Lemma score_sPair s fin VX i j :
  score s fin VX (sPair i j).1 (sPair i j).2 = score s fin VX i j.
Proof.
  destruct (sPair_components i j) as [[-> ->]|[-> ->]];
    [done|apply score_swap].
Qed.

Lemma table_okx_mono s VX fin (cur cur' : nat * nat → Prop) ids ids' t :
  (∀ i, i ∈ ids → i ∈ ids') → (∀ p, cur' p → cur p) →
  table_okx s VX fin cur ids t → table_okx s VX fin cur' ids' t.
Proof.
  intros Hsub Hcur Hok e He. destruct (Hok e He) as (H1 & H2 & H3 & H4 & H5).
  split; [by apply Hsub|]. split; [by apply Hsub|]. split; [done|].
  split; [done|]. intros Hc. apply H5. by apply Hcur.
Qed.

(** A new entry for a pair that has no entry. *)
Lemma table_insert_ok s VX fin cur ids t i j err :
  table_okx s VX fin cur ids t → i ∈ ids → j ∈ ids →
  (∀ e, e ∈ scores t → e_pair e ≠ sPair i j) →
  (if decide (i = j) then err = (-1)%Q else score s fin VX i j = Ok err) →
  table_okx s VX fin cur ids (table_insert err (sPair i j) t).
Proof.
  intros Hok Hi Hj Hnew Herr e. cbn.
  intros [->|He]%elem_of_insert_entry; cbn.
  - pose proof (sPair_components i j) as Hc.
    pose proof (sPair_sorted i j) as Hs.
    split; [destruct Hc as [[-> _]|[-> _]]; done|].
    split; [destruct Hc as [[_ ->]|[_ ->]]; done|].
    split; [exact Hs|]. split; [by rewrite lookup_insert_eq|]. intros _.
    destruct Hc as [[E1 E2]|[E1 E2]]; rewrite E1, E2.
    + exact Herr.
    + destruct (decide (i = j)) as [->|Hne].
      * by rewrite decide_True.
      * rewrite decide_False by done. by rewrite (score_swap _ _ _ VX j i).
  - destruct (Hok e He) as (H1 & H2 & H3 & H4 & H5).
    repeat (split; [done|]). split; [|done].
    rewrite lookup_insert_ne; [done|]. intros Heq. by apply (Hnew e He).
Qed.

Lemma table_erase_Ok sp t t' :
  table_erase sp t = Ok t' →
  ∃ id, reverseScore t !! sp = Some id ∧
        scores t' = filter (λ e, e_id e ≠ id) (scores t) ∧
        reverseScore t' = reverseScore t.
Proof.
  unfold table_erase. destruct (reverseScore t !! sp) as [id|]; [|done].
  case_decide; [|done]. intros [= <-]. by exists id.
Qed.

(** Erasing the entry of a pair leaves no entry of this pair. *)
Lemma table_erase_ok s VX fin cur ids t sp t' :
  table_okx s VX fin cur ids t → table_erase sp t = Ok t' →
  table_okx s VX fin cur ids t' ∧ (∀ e, e ∈ scores t' → e_pair e ≠ sp) ∧
  (∀ e, e ∈ scores t' → e ∈ scores t).
Proof.
  intros Hok (id & Hid & Hsc & Hrs)%table_erase_Ok.
  split; [|split].
  - intros e. rewrite Hsc, Hrs. intros [_ He]%list_elem_of_filter. by apply Hok.
  - intros e. rewrite Hsc. intros [Hne He]%list_elem_of_filter Heq.
    destruct (Hok e He) as (_ & _ & _ & H4 & _). rewrite Heq in H4. congruence.
  - intros e. rewrite Hsc. by intros [_ He]%list_elem_of_filter.
Qed.

(** ** Loops with an invariant *)

(** A loop over a list without repetition, by the items that it has
    passed. *)
Lemma for_each_passed {A S} (P : list A → S → Prop)
    (body : A → S → outcome S) l z z' :
  (∀ passed x u u', x ∈ l → x ∉ passed → (∀ y, y ∈ passed → y ∈ l) →
                    P passed u → body x u = Ok u' → P (passed ++ [x]) u') →
  NoDup l → P [] z → for_each body l z = Ok z' → P l z'.
Proof.
  intros Hstep Hnd H0 Hrun.
  assert (Hgen : ∀ rest passed u,
    NoDup (passed ++ rest) → (∀ y, y ∈ passed ++ rest → y ∈ l) →
    P passed u → for_each body rest u = Ok z' → P (passed ++ rest) z').
  { induction rest as [|x rest IH]; intros passed u Hnd' Hsub HP Hr; cbn in Hr.
    - injection Hr as <-. by rewrite app_nil_r.
    - apply bind_Ok in Hr as (u1 & H1 & Hr).
      replace (passed ++ x :: rest) with ((passed ++ [x]) ++ rest)
        by (by rewrite <- app_assoc).
      apply (IH _ u1); [by rewrite <- app_assoc|by rewrite <- app_assoc| |exact Hr].
      apply (Hstep passed x u u1); [| | |exact HP|exact H1].
      + apply Hsub. apply elem_of_app. right. by left.
      + apply NoDup_app in Hnd' as (_ & Hdis & _). intros Hx.
        apply (Hdis x Hx). by left.
      + intros y Hy. apply Hsub. apply elem_of_app. by left. }
  apply (Hgen l [] z); done.
Qed.

(** A loop keeps an invariant and establishes a property of each item. *)
Lemma for_each_inv_establishes {A S} (I : S → Prop) (good : S → A → Prop)
    (body : A → S → outcome S) l z z' :
  (∀ x u u', x ∈ l → I u → body x u = Ok u' →
             I u' ∧ good u' x ∧ (∀ y, good u y → good u' y)) →
  I z → for_each body l z = Ok z' → I z' ∧ ∀ x, x ∈ l → good z' x.
Proof.
  revert z. induction l as [|x l IH]; intros z Hstep HI Hrun; cbn in Hrun.
  - injection Hrun as <-. split; [done|]. by intros ? []%elem_of_nil.
  - apply bind_Ok in Hrun as (z1 & H1 & Hrun).
    destruct (Hstep x z z1) as (HI1 & Hg1 & Hk1); [by left|done|done|].
    assert (Hkeep : I z' ∧ (∀ y, good z1 y → good z' y)).
    { clear IH Hg1 Hk1 H1 HI. revert z1 HI1 Hrun.
      induction l as [|w l IHl]; intros z1 HI1 Hrun; cbn in Hrun.
      - by injection Hrun as <-.
      - apply bind_Ok in Hrun as (z2 & H2 & Hrun).
        destruct (Hstep w z1 z2) as (HI2 & _ & Hk2); [right; by left|done|done|].
        destruct (IHl (λ y u u' Hy, Hstep y u u'
                    ltac:(apply elem_of_cons in Hy as [->|Hy];
                          [by left|right; by right])) z2 HI2 Hrun) as [? Hk].
        split; [done|]. auto. }
    destruct Hkeep as [HI' Hk'].
    destruct (IH z1) as [_ Hall]; [|done|done|].
    { intros y u u' Hy. apply Hstep. by right. }
    split; [done|]. intros y [->|Hy]%elem_of_cons; auto.
Qed.

End Score_table.

Section Merging.
Context `{FA : FactorAlgebra} `{MS : !ModelServices}.
Implicit Types s : ijgp.
Implicit Types L : locals.
Implicit Types t : score_table.

(** ** The scores of a bucket at the start *)

Lemma populate_pairs s fin VX before i t t1 :
  table_ok s VX fin before t → i ∉ before → NoDup before →
  for_each (λ j t, err ← score s fin VX i j;
                   Ok (table_insert err (sPair i j) t)) before t = Ok t1 →
  table_ok s VX fin (before ++ [i]) t1 ∧
  (∀ e, e ∈ scores t1 → e_pair e ≠ sPair i i).
Proof.
  intros Hok Hi Hnd Hrun.
  apply (for_each_passed (λ passed u,
    table_ok s VX fin (before ++ [i]) u ∧
    ∀ e, e ∈ scores u →
         ((e_pair e).1 ∈ before ∧ (e_pair e).2 ∈ before) ∨
         ∃ j, j ∈ passed ∧ j ∈ before ∧ e_pair e = sPair i j)) in Hrun;
    [| |exact Hnd|].
  - destruct Hrun as [Hok1 Hp]. split; [exact Hok1|].
    intros e He Heq. destruct (Hp e He) as [[H1 _]|(j & _ & Hj & Hej)].
    + rewrite Heq in H1. destruct (sPair_components i i) as [[E _]|[E _]];
        rewrite E in H1; done.
    + rewrite Hej in Heq. apply sPair_eq in Heq as ->. done.
  - intros passed x u u' Hx Hnp Hsub [Hu Hp] Hstep.
    apply bind_Ok in Hstep as (err & Herr & Hstep). injection Hstep as <-.
    assert (Hne : i ≠ x) by (intros ->; done).
    split.
    + apply table_insert_ok; [exact Hu| | | |].
      * apply elem_of_app. right. by left.
      * apply elem_of_app. by left.
      * intros e He Heq. destruct (Hp e He) as [[H1 H2]|(j & Hj & _ & Hej)].
        -- rewrite Heq in H1, H2.
           destruct (sPair_components i x) as [[E _]|[_ E]];
             [rewrite E in H1|rewrite E in H2]; done.
        -- rewrite Hej in Heq. apply sPair_eq in Heq as ->. done.
      * by rewrite decide_False.
    + intros e. cbn. intros [->|He]%elem_of_insert_entry; cbn.
      * right. exists x. split; [apply elem_of_app; right; by left|]. done.
      * destruct (Hp e He) as [?|(j & Hj & Hjb & Hej)]; [by left|right].
        exists j. split; [apply elem_of_app; by left|]. done.
  - split.
    + eapply table_okx_mono; [| |exact Hok]; [|done].
      intros j Hj. apply elem_of_app. by left.
    + intros e He. left. destruct (Hok e He) as (H1 & H2 & _). done.
Qed.

Lemma populate_ok s fin VX before rest t t' :
  NoDup (before ++ rest) → table_ok s VX fin before t →
  populate s fin VX before rest t = Ok t' →
  table_ok s VX fin (before ++ rest) t'.
Proof.
  revert before t. induction rest as [|i rest IH]; intros before t Hnd Hok Hrun;
    cbn in Hrun.
  - injection Hrun as <-. by rewrite app_nil_r.
  - apply bind_Ok in Hrun as (t1 & H1 & Hrun).
    pose proof Hnd as (Hnb & Hdis & Hnr)%NoDup_app.
    destruct (populate_pairs s fin VX before i t t1) as [Hok1 Hself];
      [exact Hok| |exact Hnb|exact H1|].
    { intros Hi. apply (Hdis i Hi). by left. }
    replace (before ++ i :: rest) with ((before ++ [i]) ++ rest)
      by (by rewrite <- app_assoc).
    eapply IH; [| |exact Hrun].
    + by rewrite <- app_assoc.
    + apply table_insert_ok;
        [exact Hok1| | |exact Hself|by rewrite decide_True];
        apply elem_of_app; right; by left.
Qed.

Lemma empty_table_ok s fin VX : table_ok s VX fin [] empty_table.
Proof. intros e He. by apply elem_of_nil in He. Qed.

(** ** One pass of the merging loop *)

Lemma table_top_elem t top : table_top t = Ok top → top ∈ scores t.
Proof.
  unfold table_top. destruct (last (scores t)) as [e|] eqn:Hl; [|done].
  intros [= <-]. apply last_Some in Hl as [l' ->].
  apply elem_of_app. right. by left.
Qed.

Lemma elem_of_fl_remove x y l : y ∈ fl_remove x l ↔ y ≠ x ∧ y ∈ l.
Proof. unfold fl_remove. by rewrite list_elem_of_filter. Qed.

Lemma score_only_of_the_pair s fin fin' VX a b :
  fin' !! a = fin !! a → fin' !! b = fin !! b →
  score s fin' VX a b = score s fin VX a b.
Proof. intros Ha Hb. unfold score, at_. by rewrite Ha, Hb. Qed.

(** The pass for the top pair [(ii, jj)]: the two are distinct mini-buckets
    of the bucket, and the table that the pass leaves is the one of the
    mini-buckets without [ii], with the scopes after the merge. *)
Lemma merge_pass_ok s VX L ids t top L1 t1 t2 :
  let ii := (e_pair top).1 in
  let jj := (e_pair top).2 in
  table_ok s VX (fin L) ids t → table_top t = Ok top →
  Qle_bool 0 (e_key top) = true →
  merge_pair ii jj L = Ok L1 →
  for_each (λ k t, table_erase (sPair ii k) t) ids t = Ok t1 →
  for_each (λ k t, if decide (k = jj) then Ok t
                   else err ← score s (fin L1) VX jj k;
                        t' ← table_erase (sPair jj k) t;
                        Ok (table_insert err (sPair jj k) t'))
           (fl_remove ii ids) t1 = Ok t2 →
  ii ∈ ids ∧ jj ∈ ids ∧ (jj < ii)%nat ∧
  score s (fin L) VX ii jj = Ok (e_key top) ∧
  table_ok s VX (fin L1) (fl_remove ii ids) t2.
Proof.
  intros ii jj Hok Htop Hkey Hmerge Herase Hrescore.
  apply table_top_elem in Htop.
  destruct (Hok top Htop) as (Hii & Hjj & Hle & _ & Hk). fold ii jj in Hii, Hjj, Hle, Hk.
  specialize (Hk I).
  assert (Hne : ii ≠ jj).
  { intros Heq. rewrite decide_True in Hk by done. rewrite Hk in Hkey.
    discriminate. }
  rewrite decide_False in Hk by done.
  split; [exact Hii|]. split; [exact Hjj|]. split; [lia|]. split; [exact Hk|].
  (* the entries of [ii] are erased *)
  apply (for_each_inv_establishes
    (λ u, table_ok s VX (fin L) ids u)
    (λ u k, ∀ e, e ∈ scores u → e_pair e ≠ sPair ii k)) in Herase;
    [|clear Herase|exact Hok].
  2:{ intros k u u' Hkin Hu Hstep.
      destruct (table_erase_ok _ _ _ _ _ _ _ _ Hu Hstep) as (H1 & H2 & H3).
      split; [exact H1|]. split; [exact H2|]. intros y Hy e He. auto. }
  destruct Herase as [Hok1 Hgone].
  assert (Hin1 : ∀ e, e ∈ scores t1 →
            (e_pair e).1 ∈ fl_remove ii ids ∧ (e_pair e).2 ∈ fl_remove ii ids).
  { intros e He. destruct (Hok1 e He) as (H1 & H2 & H3 & _).
    rewrite !elem_of_fl_remove. split; (split; [|done]); intros Heq.
    - apply (Hgone _ H2 e He). rewrite <- Heq. by rewrite sPair_of_sorted.
    - apply (Hgone _ H1 e He). rewrite <- Heq, sPair_comm.
      by rewrite sPair_of_sorted. }
  (* the scopes after the merge *)
  apply merge_pair_Ok in Hmerge
    as (Fi & Fj & Fi' & Oi & Oj & Ni & Nj & HFi & HFj & _ & _ & _ & _ & _
        & _ & Hfin1 & _ & _).
  assert (Hsame : ∀ a, a ≠ ii → a ≠ jj → fin L1 !! a = fin L !! a).
  { intros a Ha1 Ha2. rewrite Hfin1.
    by rewrite !list_lookup_insert_ne by done. }
  (* the pairs of [jj] are scored again *)
  apply (for_each_inv_establishes
    (λ u, table_okx s VX (fin L1)
            (λ p, (p.1 ≠ jj ∧ p.2 ≠ jj) ∨ p.1 = p.2) (fl_remove ii ids) u)
    (λ u k, ∀ e, e ∈ scores u → k ≠ jj → e_pair e = sPair jj k →
                 score s (fin L1) VX (e_pair e).1 (e_pair e).2 = Ok (e_key e)))
    in Hrescore; [|clear Hrescore|].
  - destruct Hrescore as [Hok2 Hgood]. intros e He.
    destruct (Hok2 e He) as (H1 & H2 & H3 & H4 & H5).
    repeat (split; [done|]). intros _.
    destruct (decide ((e_pair e).1 = (e_pair e).2)) as [Heq|Hneq].
    + exact (H5 (or_intror Heq)).
    + destruct (decide ((e_pair e).1 = jj)) as [E1|N1].
      * apply (Hgood _ H2 e He); [congruence|].
        rewrite <- E1. by rewrite sPair_of_sorted.
      * destruct (decide ((e_pair e).2 = jj)) as [E2|N2].
        -- apply (Hgood _ H1 e He); [congruence|].
           rewrite <- E2, sPair_comm. by rewrite sPair_of_sorted.
        -- exact (H5 (or_introl (conj N1 N2))).
  - intros k u u' Hkin Hu Hstep. case_decide as Hkj.
    + injection Hstep as <-. split; [exact Hu|]. split; [|done].
      intros e He Hne'. done.
    + apply bind_Ok in Hstep as (err & Herr & Hstep).
      apply bind_Ok in Hstep as (u1 & Hu1 & Hstep). injection Hstep as <-.
      destruct (table_erase_ok _ _ _ _ _ _ _ _ Hu Hu1) as (H1 & H2 & H3).
      assert (Hjj1 : jj ∈ fl_remove ii ids).
      { apply elem_of_fl_remove. split; [congruence|done]. }
      split; [|split].
      * apply table_insert_ok; [exact H1|exact Hjj1|exact Hkin|exact H2|].
        rewrite decide_False by congruence. exact Herr.
      * intros e. cbn. intros [->|He]%elem_of_insert_entry _ Hp; cbn.
        -- rewrite score_sPair. exact Herr.
        -- by apply H2 in He.
      * intros y Hy e. cbn. intros [->|He]%elem_of_insert_entry Hyj Hp; cbn.
        -- cbn in Hp. rewrite score_sPair. exact Herr.
        -- apply Hy; [|done|done]. auto.
  - intros e He. destruct (Hok1 e He) as (H1 & H2 & H3 & H4 & H5).
    destruct (Hin1 e He) as [G1 G2].
    repeat (split; [done|]). intros Hcur. specialize (H5 I).
    destruct (decide ((e_pair e).1 = (e_pair e).2)) as [Heq|Hneq]; [done|].
    destruct Hcur as [[N1 N2]|Heq]; [|done].
    apply elem_of_fl_remove in G1 as [G1 _].
    apply elem_of_fl_remove in G2 as [G2 _].
    rewrite <- H5. apply score_only_of_the_pair; by apply Hsame.
Qed.

(** An invariant of the local vectors, the mini-buckets and the table of
    scores that every pass keeps is kept by the merging loop. *)
Lemma merge_loop_passes (P : locals → flist → score_table → Prop)
    fuel s VX L ids t L' ids' :
  (∀ L ids t top L1 t1 t2,
     P L ids t → table_top t = Ok top → Qle_bool 0 (e_key top) = true →
     merge_pair (e_pair top).1 (e_pair top).2 L = Ok L1 →
     for_each (λ k t, table_erase (sPair (e_pair top).1 k) t) ids t = Ok t1 →
     for_each (λ k t, if decide (k = (e_pair top).2) then Ok t
                      else err ← score s (fin L1) VX (e_pair top).2 k;
                           t' ← table_erase (sPair (e_pair top).2 k) t;
                           Ok (table_insert err (sPair (e_pair top).2 k) t'))
              (fl_remove (e_pair top).1 ids) t1 = Ok t2 →
     P L1 (fl_remove (e_pair top).1 ids) t2) →
  P L ids t → merge_loop fuel s VX L ids t = Ok (L', ids') →
  ∃ t', P L' ids' t'.
Proof.
  intros Hstep. revert L ids t.
  induction fuel as [|fuel IH]; intros L ids t HP Hrun; cbn in Hrun;
    [discriminate|].
  apply bind_Ok in Hrun as (top & Htop & Hrun).
  destruct (Qle_bool 0 (e_key top)) eqn:Hkey; cbn in Hrun.
  - apply bind_Ok in Hrun as (L1 & HL1 & Hrun).
    apply bind_Ok in Hrun as (t1 & Ht1 & Hrun).
    apply bind_Ok in Hrun as (t2 & Ht2 & Hrun).
    eapply IH; [|exact Hrun]. eapply Hstep; eauto.
  - injection Hrun as <- <-. eauto.
Qed.

End Merging.

Section Termination.
Context `{FA : FactorAlgebra} `{MS : !ModelServices}.
Implicit Types s : ijgp.
Implicit Types L : locals.
Implicit Types t : score_table.

(** ** Lists of indices in increasing order *)

Lemma increasing_cons a l :
  increasing (a :: l) ↔ Forall (λ b, a < b)%nat l ∧ increasing l.
Proof.
  revert a. induction l as [|b l IH]; intros a; cbn.
  - split; [by intros _|done].
  - rewrite Forall_cons. split.
    + intros [Hab Hl]. split; [|done]. split; [done|].
      apply IH in Hl as [Hl _]. eapply Forall_impl; [exact Hl|].
      cbn. intros; lia.
    + intros [[Hab _] Hl]. done.
Qed.

Lemma increasing_NoDup l : increasing l → NoDup l.
Proof.
  induction l as [|a l IH]; [constructor|].
  intros [Hlt Hl]%increasing_cons. constructor; [|by apply IH].
  intros Ha. rewrite Forall_forall in Hlt. specialize (Hlt a Ha). lia.
Qed.

Lemma fl_insert_increasing x l : increasing l → increasing (fl_insert x l).
Proof.
  induction l as [|a l IH]; [done|]. intros Hal. cbn [fl_insert].
  destruct (x <? a)%nat eqn:Hxa.
  - apply Nat.ltb_lt in Hxa. apply increasing_cons. split; [|done].
    apply increasing_cons in Hal as [Hlt _]. constructor; [done|].
    eapply Forall_impl; [exact Hlt|]. cbn. intros; lia.
  - destruct (x =? a)%nat eqn:Heq; [done|].
    apply Nat.ltb_ge in Hxa. apply Nat.eqb_neq in Heq.
    apply increasing_cons in Hal as [Hlt Hl]. apply increasing_cons.
    split; [|by apply IH]. rewrite Forall_forall. intros b Hb.
    apply elem_of_fl_insert in Hb as [->|Hb]; [lia|].
    rewrite Forall_forall in Hlt. by apply Hlt.
Qed.

Lemma fl_remove_increasing x l : increasing l → increasing (fl_remove x l).
Proof.
  unfold fl_remove. induction l as [|a l IH]; [done|].
  intros [Hlt Hl]%increasing_cons.
  destruct (decide (a ≠ x)).
  - rewrite filter_cons_True by done. apply increasing_cons.
    split; [|by apply IH]. rewrite Forall_forall. intros b Hb.
    apply list_elem_of_filter in Hb as [_ Hb].
    rewrite Forall_forall in Hlt. by apply Hlt.
  - rewrite filter_cons_False by done. by apply IH.
Qed.

Lemma with_variable_increasing gm v : increasing (with_variable gm v).
Proof.
  unfold with_variable. generalize 0%nat.
  induction (length (gm_factors gm)) as [|n IH]; intros k; cbn [seq]; [done|].
  destruct (decide (has_variable gm v k)).
  - rewrite filter_cons_True by done. apply increasing_cons.
    split; [|apply IH]. rewrite Forall_forall. intros b Hb.
    apply list_elem_of_filter in Hb as [_ Hb]. apply elem_of_seq in Hb. lia.
  - rewrite filter_cons_False by done. apply IH.
Qed.

Lemma init_locals_increasing gm : vin_increasing (init_locals gm).
Proof.
  unfold vin_increasing. cbn. rewrite Forall_fmap. apply Forall_true.
  intros v. apply with_variable_increasing.
Qed.

Lemma erase_adj_increasing adj idx vs adj' :
  Forall increasing adj → erase_adj adj idx vs = Ok adj' →
  Forall increasing adj'.
Proof.
  unfold erase_adj. case_decide; [|done]. intros Hadj [= <-].
  rewrite Forall_lookup. intros v l. rewrite list_lookup_imap.
  destruct (adj !! v) as [l0|] eqn:Hv; [|done]. cbn. intros [= <-].
  rewrite Forall_lookup in Hadj. specialize (Hadj v l0 Hv).
  case_decide; [by apply fl_remove_increasing|done].
Qed.

Lemma insert_adj_increasing adj idx vs :
  Forall increasing adj → Forall increasing (insert_adj adj idx vs).
Proof.
  unfold insert_adj. intros Hadj. set (n := set_fold _ _ _).
  rewrite Forall_lookup. intros v l. rewrite list_lookup_imap.
  destruct (resize n [] adj !! v) as [l0|] eqn:Hv; [|done]. cbn.
  intros [= <-].
  assert (Hl0 : increasing l0).
  { destruct (decide (v < length adj)%nat) as [Hlt|Hge].
    - destruct (decide (v < n)%nat) as [Hn|Hn].
      + rewrite lookup_resize in Hv by done.
        rewrite Forall_lookup in Hadj. by apply (Hadj v).
      + apply lookup_lt_Some in Hv. rewrite length_resize in Hv. lia.
    - destruct (decide (v < n)%nat) as [Hn|Hn].
      + rewrite lookup_resize_new in Hv by lia. by injection Hv as <-.
      + apply lookup_lt_Some in Hv. rewrite length_resize in Hv. lia. }
  case_decide; [by apply fl_insert_increasing|done].
Qed.

Lemma merge_pair_increasing ii jj L L' :
  vin_increasing L → merge_pair ii jj L = Ok L' → vin_increasing L'.
Proof.
  intros HL Hrun. apply merge_pair_Ok in Hrun
    as (Fi & Fj & Fi' & Oi & Oj & Ni & Nj & _ & _ & _ & _ & _ & _ & _
        & Hvin & _).
  by eapply erase_adj_increasing.
Qed.

Lemma eliminate_increasing x i L s al L' s' al' :
  vin_increasing L → eliminate x i (L, s, al) = Ok (L', s', al') →
  vin_increasing L'.
Proof.
  intros HL Hrun. apply eliminate_Ok in Hrun
    as (Fi & Cx & Ni & Oi & Oa & _ & _ & _ & _ & _ & _ & -> & _).
  by apply insert_adj_increasing.
Qed.

Lemma bucket_increasing x L s L' s' :
  vin_increasing L → bucket x (L, s) = Ok (L', s') → vin_increasing L'.
Proof.
  intros HL Hrun.
  eapply (bucket_inv (λ L _, vin_increasing L) True); [| | | |exact HL|exact Hrun];
    auto.
  - intros. by eapply merge_pair_increasing.
  - intros. by eapply eliminate_increasing.
Qed.

(** ** The merging loop ends *)

Lemma enough_fuel_bind {A B} (o : outcome A) (f : A → outcome B) :
  enough_fuel o → (∀ a, o = Ok a → enough_fuel (f a)) → enough_fuel (o ≫= f).
Proof. unfold enough_fuel. destruct o; cbn; auto; congruence. Qed.

Lemma plain_enough_fuel {A} (o : outcome A) : plain o → enough_fuel o.
Proof. unfold enough_fuel. by destruct o. Qed.

Lemma for_each_enough_fuel {A S} (P : S → Prop) (body : A → S → outcome S) l z :
  (∀ x u, P u → enough_fuel (body x u) ∧ ∀ u', body x u = Ok u' → P u') →
  P z → enough_fuel (for_each body l z).
Proof.
  intros Hstep. revert z. induction l as [|x l IH]; intros z HP; cbn; [done|].
  destruct (Hstep x z HP) as [Hf Hk].
  apply enough_fuel_bind; [done|]. intros u Hu. apply IH. by apply Hk.
Qed.

Lemma plain_score s fin VX i j : plain (score s fin VX i j).
Proof.
  unfold score, at_. destruct (fin !! i); [|done]. destruct (fin !! j); [|done].
  cbn. by case_decide.
Qed.

Lemma plain_table_erase sp t : plain (table_erase sp t).
Proof.
  unfold table_erase. destruct (reverseScore t !! sp); [|done].
  by case_decide.
Qed.

Lemma plain_merge_pair ii jj L : plain (merge_pair ii jj L).
Proof.
  unfold merge_pair.
  repeat (apply plain_bind; [first [apply plain_at|apply plain_put]|intros]).
  apply plain_bind.
  { unfold erase_adj. by case_decide. }
  intros.
  repeat (apply plain_bind; [first [apply plain_at|apply plain_put]|intros]).
  done.
Qed.

Lemma plain_populate s fin VX before rest t :
  plain (populate s fin VX before rest t).
Proof.
  revert before t. induction rest as [|i rest IH]; intros before t; cbn; [done|].
  apply plain_bind; [|intros; apply IH].
  apply plain_for_each. intros j u. apply plain_bind; [apply plain_score|done].
Qed.

Lemma plain_eliminate x i st : plain (eliminate x i st).
Proof.
  unfold eliminate. destruct st as [[L s] al]. unfold add_factor.
  repeat (apply plain_bind; [first [apply plain_at|apply plain_put]|intros]).
  done.
Qed.

Lemma length_fl_remove x l : x ∈ l → (length (fl_remove x l) < length l)%nat.
Proof.
  unfold fl_remove. induction l as [|a l IH]; [by intros []%elem_of_nil|].
  intros Hx. destruct (decide (a ≠ x)) as [Hne|Heq].
  - rewrite filter_cons_True by done. cbn.
    apply elem_of_cons in Hx as [->|Hx]; [done|]. specialize (IH Hx). lia.
  - rewrite filter_cons_False by done. cbn.
    pose proof (length_filter (λ y, y ≠ x) l). lia.
Qed.

(** Each pass that does not leave the loop takes a mini-bucket away: the
    loop makes at most as many such passes as the bucket has mini-buckets. *)
Lemma merge_loop_enough_fuel fuel s VX L ids t :
  table_ok s VX (fin L) ids t → (length ids < fuel)%nat →
  enough_fuel (merge_loop fuel s VX L ids t).
Proof.
  revert L ids t. induction fuel as [|fuel IH]; intros L ids t Hok Hlen;
    [lia|].
  cbn [merge_loop]. apply enough_fuel_bind.
  { apply plain_enough_fuel. unfold table_top. by destruct (last _). }
  intros top Htop. destruct (Qle_bool 0 (e_key top)) eqn:Hkey; cbn [negb];
    [|done].
  apply enough_fuel_bind; [apply plain_enough_fuel, plain_merge_pair|].
  intros L1 HL1. apply enough_fuel_bind.
  { apply plain_enough_fuel, plain_for_each. intros. apply plain_table_erase. }
  intros t1 Ht1. apply enough_fuel_bind.
  { apply plain_enough_fuel, plain_for_each. intros k u. case_decide; [done|].
    apply plain_bind; [apply plain_score|intros].
    apply plain_bind; [apply plain_table_erase|done]. }
  intros t2 Ht2.
  destruct (merge_pass_ok s VX L ids t top L1 t1 t2 Hok Htop Hkey HL1 Ht1 Ht2)
    as (Hii & _ & _ & _ & Hok2).
  apply IH; [exact Hok2|]. apply length_fl_remove in Hii. lia.
Qed.

Lemma bucket_enough_fuel x L s :
  vin_increasing L → enough_fuel (bucket x (L, s)).
Proof.
  intros HL. unfold bucket.
  destruct (vin L !! x) as [[|i ids]|] eqn:Hvin; try done.
  apply enough_fuel_bind; [apply plain_enough_fuel, plain_populate|].
  intros t Ht. apply enough_fuel_bind.
  - apply merge_loop_enough_fuel; [|lia].
    apply (populate_ok s (fin L) x [] (i :: ids) empty_table t);
      [|apply empty_table_ok|exact Ht].
    apply increasing_NoDup. unfold vin_increasing in HL.
    rewrite Forall_lookup in HL. by apply (HL x).
  - intros [L1 ids1] _. apply enough_fuel_bind.
    + apply plain_enough_fuel, plain_for_each. intros. apply plain_eliminate.
    + intros [[L2 s2] [|a0 al]] _; done.
Qed.

Lemma init_enough_fuel s : enough_fuel (init s).
Proof.
  unfold init. apply enough_fuel_bind.
  { unfold init_buckets. apply enough_fuel_bind; [|by intros [? ?]].
    apply (for_each_enough_fuel (λ st, vin_increasing st.1)).
    - intros x [L u] HL. split; [by apply bucket_enough_fuel|].
      intros [L' u'] Hb. by eapply bucket_increasing.
    - apply init_locals_increasing. }
  intros a0 _. apply enough_fuel_bind.
  { apply plain_enough_fuel. unfold init_scopes. apply plain_for_each.
    intros. apply plain_bind; [apply plain_at|intros].
    apply plain_bind; [apply plain_put|done]. }
  intros a1 _. apply enough_fuel_bind.
  { apply plain_enough_fuel. unfold init_separators. apply plain_for_each.
    intros [a b] u. unfold separator_of. case_decide; [done|].
    repeat (apply plain_bind; [first [apply plain_at|apply plain_put]|intros]).
    unfold put2.
    repeat (apply plain_bind;
      [first [apply plain_at|apply plain_put
             |repeat (apply plain_bind;
                 [first [apply plain_at|apply plain_put]|intros]);
              first [apply plain_at|apply plain_put]]|intros]).
    done. }
  intros a2 _. apply enough_fuel_bind.
  { apply plain_enough_fuel. unfold init_in_out. apply plain_for_each.
    intros [a b] u. unfold in_out_of.
    repeat (apply plain_bind; [first [apply plain_at|apply plain_put]|intros]).
    done. }
  intros a3 _. apply enough_fuel_bind.
  { apply plain_enough_fuel. unfold init_messages. apply plain_for_each.
    intros i u. apply plain_bind; [apply plain_at|intros [a b]].
    apply plain_bind; [|done]. unfold put2.
    apply plain_bind; [apply plain_at|intros].
    apply plain_bind; [apply plain_put|intros]. apply plain_put. }
  intros a4 _. apply enough_fuel_bind; [|done].
  apply plain_enough_fuel. unfold init_potentials. apply plain_for_each.
  intros i u. unfold potential_of.
  apply plain_bind; [apply plain_at|intros].
  apply plain_bind.
  { apply plain_for_each. intros. unfold get_factor.
    apply plain_bind; [apply plain_at|done]. }
  intros. apply plain_bind; [apply plain_put|done].
Qed.

End Termination.

Section Termination_of_run.
Context `{FA : FactorAlgebra} `{MS : !ModelServices}.
Implicit Types s t : ijgp.

Lemma plain_multiply_in msgs idx skip ps bel :
  (∀ p, plain (idx p)) → plain (multiply_in msgs idx skip ps bel).
Proof.
  intros Hidx. unfold multiply_in. apply plain_for_each. intros p F.
  case_decide; [done|]. apply plain_bind; [apply Hidx|intros].
  apply plain_bind; [apply plain_at|done].
Qed.

Lemma plain_calc_belief_excl s a b : plain (calc_belief_excl s a b).
Proof.
  unfold calc_belief_excl.
  apply plain_bind; [apply plain_at|intros].
  apply plain_bind; [apply plain_at|intros].
  apply plain_bind; [apply plain_multiply_in; intros; apply plain_at2|intros].
  apply plain_bind; [apply plain_at|intros].
  apply plain_multiply_in; intros; apply plain_at2.
Qed.

Lemma plain_forward s : plain (forward s).
Proof.
  unfold forward. apply plain_bind.
  - apply plain_for_each. intros [a b] t. unfold forward_edge.
    apply plain_bind; [apply plain_at2|intros].
    apply plain_bind; [apply plain_at|intros].
    apply plain_bind; [apply plain_at2|intros].
    apply plain_bind; [apply plain_calc_belief_excl|intros].
    apply plain_bind; [apply plain_put|done].
  - intros t. apply plain_bind; [|done]. apply plain_for_each.
    intros c F. unfold root_term.
    apply plain_bind; [apply plain_calc_belief|intros].
    destruct (m_cluster2var t !! c); [|done]. by case_decide.
Qed.

Lemma plain_backward s : plain (backward s).
Proof.
  unfold backward. apply plain_for_each. intros [a b] t. unfold backward_edge.
  apply plain_bind; [apply plain_at2|intros].
  apply plain_bind; [apply plain_at|intros].
  apply plain_bind; [apply plain_at2|intros].
  apply plain_bind; [apply plain_calc_belief_excl|intros].
  apply plain_bind; [apply plain_put|done].
Qed.

Lemma plain_assign x s : plain (assign x s).
Proof.
  unfold assign.
  apply plain_bind; [apply plain_at|intros].
  apply plain_bind; [apply plain_at|intros].
  apply plain_bind.
  { unfold incoming.
    apply plain_bind; [apply plain_at|intros].
    apply plain_bind; [apply plain_at|intros].
    apply plain_multiply_in; intros; apply plain_at2. }
  intros. apply plain_bind.
  { apply plain_for_each. intros y F.
    apply plain_bind; [apply plain_at|intros]. case_decide; [|done].
    apply plain_bind; [apply plain_at|done]. }
  intros. apply plain_bind; [apply plain_put|done].
Qed.

Lemma plain_update s : plain (update s).
Proof.
  unfold update. apply plain_bind.
  - apply plain_for_each. intros. apply plain_belief_of.
  - intros t. destruct (m_task t).
    + apply plain_for_each. intros. apply plain_belief_of.
    + apply plain_for_each. intros. apply plain_belief_of.
    + apply plain_for_each. intros. apply plain_assign.
Qed.

Lemma propagate_loop_enough_fuel fuel k nIter stopTime stopObj elapsed s :
  nIter < SIZE_MAX → (1 ≤ k)%nat → Z.of_nat k ≤ nIter + 1 →
  (Z.to_nat (nIter + 1 - Z.of_nat k) < fuel)%nat →
  enough_fuel (propagate_loop fuel k nIter stopTime stopObj elapsed s).
Proof.
  intros Hmax. revert k s.
  induction fuel as [|fuel IH]; intros k s Hk1 Hk Hfuel; [lia|].
  cbn [propagate_loop]. cbv zeta.
  assert (Hk' : to_size_t (Z.of_nat k) = Z.of_nat k).
  { unfold to_size_t, SIZE_MAX in *. apply Z.mod_small. lia. }
  rewrite Hk'. case_decide as Htest; [|done].
  apply enough_fuel_bind; [apply plain_enough_fuel, plain_forward|intros].
  apply enough_fuel_bind; [apply plain_enough_fuel, plain_backward|intros].
  apply enough_fuel_bind; [apply plain_enough_fuel, plain_update|intros].
  destruct (d_ltb _ _); [done|]. destruct (_ && _); [done|].
  apply IH; lia.
Qed.

Lemma plain_print_beliefs s : plain (print_beliefs s).
Proof.
  unfold print_beliefs. apply plain_for_each. intros v [].
  apply plain_for_each. intros j []. unfold belief, f_entry.
  apply plain_bind; [apply plain_at|intros]. by case_decide.
Qed.

Lemma plain_print_config s : plain (print_config s).
Proof.
  unfold print_config. apply plain_for_each. intros v [].
  apply plain_bind; [apply plain_at|done].
Qed.

(** X24. The loop [for (;;)] of a bucket ends: every pass that does not
    leave it takes one mini-bucket out of [ids], so the loop makes fewer
    passes than the bucket has mini-buckets, and [init()] does not use up
    the passes that the model grants it. The loop of [propagate] under
    [run()] ends within [num_iter + 1] tests when the count that [init()]
    left is below [SIZE_MAX]; with the count [SIZE_MAX] (what [Iter=-1]
    sets) and the stop values -1 of [run()], which no value of the doubles
    is below, the loop has no exit and [run()] does not return. *)
Theorem init_and_run_end s :
  init s ≠ OutOfFuel ∧
  (∀ fuel elapsed s0,
     init s = Ok s0 → num_iter s0 < SIZE_MAX →
     (Z.to_nat (num_iter s0) < fuel)%nat →
     run fuel elapsed s ≠ OutOfFuel) ∧
  (∀ fuel elapsed s0 s',
     init s = Ok s0 → SIZE_MAX ≤ num_iter s0 →
     (∀ x, d_ltb (d_fabs x) (d_lit (-1)) = false) →
     d_ltb (d_lit 0) (d_lit (-1)) = false →
     run fuel elapsed s ≠ Ok s').
Proof.
  split; [apply init_enough_fuel|]. split.
  - intros fuel elapsed s0 Hinit Hmax Hfuel. unfold run. rewrite Hinit.
    cbn [mbind outcome_bind obind].
    apply enough_fuel_bind.
    + unfold propagate. destruct (decide (1 ≤ num_iter s0)) as [Hge|Hlt].
      * apply propagate_loop_enough_fuel; lia.
      * destruct fuel as [|fuel]; [lia|]. cbn [propagate_loop]. cbv zeta.
        change (to_size_t (Z.of_nat 1)) with 1.
        by rewrite decide_False by done.
    + intros t _. cbv zeta. change (m_task (set_cout _ t)) with (m_task t).
      destruct (m_task t);
        (apply enough_fuel_bind;
         [apply plain_enough_fuel;
          first [apply plain_print_beliefs|apply plain_print_config]
         |done]).
  - intros fuel elapsed s0 s' Hinit Hmax Hfabs Hzero Hrun.
    apply run_Ok in Hrun as (s1 & t & Hinit' & Hprop & _).
    rewrite Hinit in Hinit'. injection Hinit' as <-.
    unfold propagate in Hprop.
    by apply propagate_loop_no_exit in Hprop.
Qed.

End Termination_of_run.

Section Bound_of_the_scopes.
Context `{FA : FactorAlgebra} `{FS : !FactorScopes} `{MS : !ModelServices}.
Implicit Types s u : ijgp.
Implicit Types L : locals.

Lemma nvar_nonneg F : 0 ≤ nvar F.
Proof. unfold nvar. lia. Qed.

Lemma nvar_union_empty_l F G : nvar F = 0 → F ∪ G = G.
Proof.
  unfold nvar. intros HF.
  assert (F = ∅) as ->.
  { apply leibniz_equiv, size_empty_inv. lia. }
  by rewrite (left_id_L ∅ (∪)).
Qed.

Lemma to_size_t_le z : 0 ≤ z → 0 ≤ to_size_t z ≤ z.
Proof.
  intros Hz. unfold to_size_t. split.
  - apply Z.mod_pos_bound. lia.
  - apply Z.mod_le; lia.
Qed.

Lemma to_size_t_nonneg z : 0 ≤ to_size_t z.
Proof. unfold to_size_t. apply Z.mod_pos_bound. lia. Qed.

(** A pair that the score accepts has a union within the bound of the
    pair. *)
Lemma score_accepts s fin VX i j F1 F2 q :
  fin !! i = Some F1 → fin !! j = Some F2 →
  score s fin VX i j = Ok q → Qle_bool 0 q = true →
  nvar (F1 ∪ F2) ≤ Z.max (m_ibound s + 1) (Z.max (nvar F1) (nvar F2)).
Proof.
  intros H1 H2. unfold score, at_. rewrite H1, H2. cbn.
  case_decide as Hgt; intros [= <-] Hq; [discriminate|].
  pose proof (nvar_nonneg F1) as Hn1. pose proof (nvar_nonneg F2) as Hn2.
  destruct (decide (nvar F1 = 0)) as [E1|E1].
  { rewrite (nvar_union_empty_l F1 F2 E1). lia. }
  destruct (decide (nvar F2 = 0)) as [E2|E2].
  { rewrite (union_comm_L F1 F2), (nvar_union_empty_l F2 F1 E2). lia. }
  pose proof (to_size_t_le (nvar F1 - 1) ltac:(lia)) as Ha.
  pose proof (to_size_t_le (nvar F2 - 1) ltac:(lia)) as Hb.
  set (iB := Z.max (Z.max (m_ibound s) (to_size_t (nvar F1 - 1)))
                   (to_size_t (nvar F2 - 1))) in *.
  pose proof (to_size_t_le (iB + 1) ltac:(lia)) as Hc.
  lia.
Qed.

Lemma scopes_within_insert B fin i F :
  scopes_within B fin → nvar F ≤ B → scopes_within B (<[i := F]> fin).
Proof. intros Hfin HF. by apply Forall_insert. Qed.

(** One pass of the merging loop keeps the mini-buckets within the
    bound. *)
Lemma merge_pass_bounded B s VX L ids t top L1 t1 t2 :
  m_ibound s + 1 ≤ B →
  table_ok s VX (fin L) ids t ∧ vin_increasing L ∧ scopes_within B (fin L) →
  table_top t = Ok top → Qle_bool 0 (e_key top) = true →
  merge_pair (e_pair top).1 (e_pair top).2 L = Ok L1 →
  for_each (λ k t, table_erase (sPair (e_pair top).1 k) t) ids t = Ok t1 →
  for_each (λ k t, if decide (k = (e_pair top).2) then Ok t
                   else err ← score s (fin L1) VX (e_pair top).2 k;
                        t' ← table_erase (sPair (e_pair top).2 k) t;
                        Ok (table_insert err (sPair (e_pair top).2 k) t'))
           (fl_remove (e_pair top).1 ids) t1 = Ok t2 →
  table_ok s VX (fin L1) (fl_remove (e_pair top).1 ids) t2 ∧
  vin_increasing L1 ∧ scopes_within B (fin L1).
Proof.
  intros HB (Hok & Hinc & Hfin) Htop Hkey Hmerge Herase Hrescore.
  destruct (merge_pass_ok s VX L ids t top L1 t1 t2 Hok Htop Hkey Hmerge
              Herase Hrescore) as (_ & _ & _ & Hscore & Hok').
  split; [exact Hok'|]. split; [by eapply merge_pair_increasing|].
  apply merge_pair_Ok in Hmerge
    as (Fi & Fj & Fi' & Oi & Oj & Ni & Nj & Hi & Hj & _ & _ & _ & _ & _
        & _ & -> & _ & _).
  pose proof Hfin as Hall. unfold scopes_within in Hall.
  rewrite Forall_lookup in Hall.
  pose proof (Hall _ _ Hi) as Hbi. pose proof (Hall _ _ Hj) as Hbj.
  pose proof (nvar_nonneg Fi) as Hn.
  apply scopes_within_insert; [apply scopes_within_insert; [done|]|].
  - pose proof (score_accepts s (fin L) VX _ _ Fi Fj _ Hi Hj Hscore Hkey) as Hu.
    rewrite (union_comm_L Fj Fi). lia.
  - change (nvar ∅) with 0. lia.
Qed.

Lemma eliminate_bounded B I x i L u al L' u' al' :
  bounded B I L u → eliminate x i (L, u, al) = Ok (L', u', al') →
  bounded B I L' u'.
Proof.
  intros (Hinc & Hfin & Hfac & HI) Hrun.
  split; [by eapply eliminate_increasing|].
  apply eliminate_Ok in Hrun
    as (Fi & Cx & Ni & Oi & Oa & HFi & _ & _ & _ & _ & _ & -> & ->).
  cbn [fin]. 
  pose proof Hfin as Hall. unfold scopes_within in Hall.
  rewrite Forall_lookup in Hall. pose proof (Hall _ _ HFi) as Hbi.
  match goal with |- context [foldl (push_edge ?a) ?s0 Ni] =>
    pose proof (push_edges_pushed a Ni s0) as Hp;
    set (t := foldl (push_edge a) s0 Ni) in * end.
  unfold pushed_from in Hp.
  assert (m_factors t = m_factors u ++ [f_ones Fi]) as Hf
    by exact (f_equal m_factors Hp).
  assert (m_ibound t = m_ibound u) as Hib by exact (f_equal m_ibound Hp).
  split; [|split].
  - apply scopes_within_insert; [done|]. 
    assert (nvar (Fi ∖ {[x]}) ≤ nvar Fi); [|lia].
    unfold nvar. apply inj_le, subseteq_size, subseteq_difference_l. done.
  - cbn. rewrite Hf, fmap_app. apply Forall_app. split; [done|].
    cbn. rewrite f_vars_ones. by repeat constructor.
  - cbn. congruence.
Qed.

Lemma push_edge_bounded B I L u a b :
  bounded B I L u → bounded B I L (push_edge b u a).
Proof.
  intros (Hinc & Hfin & Hfac & HI).
  pose proof (push_edge_pushed b u a) as Hp. unfold pushed_from in Hp.
  assert (m_factors (push_edge b u a) = m_factors u) as Hf
    by exact (f_equal m_factors Hp).
  assert (m_ibound (push_edge b u a) = m_ibound u) as Hib
    by exact (f_equal m_ibound Hp).
  repeat split; try done; by rewrite ?Hf, ?Hib.
Qed.

Lemma bucket_bounded B I x L u L' u' :
  I + 1 ≤ B → bounded B I L u → bucket x (L, u) = Ok (L', u') →
  bounded B I L' u'.
Proof.
  intros HB HQ. pose proof HQ as (Hinc & Hfin & Hfac & HI). unfold bucket.
  destruct (vin L !! x) as [[|i ids]|] eqn:Hvin;
    try (intros [= <- <-]; exact HQ).
  intros Hrun.
  apply bind_Ok in Hrun as (t & Ht & Hrun).
  apply bind_Ok in Hrun as ([L1 ids1] & Hloop & Hrun).
  apply bind_Ok in Hrun as ([[L2 u2] al] & Helim & Hrun).
  destruct al as [|a0 al]; [discriminate|]. injection Hrun as <- <-.
  assert (table_ok u x (fin L) (i :: ids) t) as Hok.
  { apply (populate_ok u (fin L) x [] (i :: ids) empty_table t);
      [|apply empty_table_ok|exact Ht].
    apply increasing_NoDup. unfold vin_increasing in Hinc.
    rewrite Forall_lookup in Hinc. by apply (Hinc x). }
  eapply (merge_loop_passes
    (λ L ids t, table_ok u x (fin L) ids t ∧ vin_increasing L ∧
                scopes_within B (fin L))) in Hloop as (t' & _ & Hinc1 & Hfin1);
    [| |by auto].
  2:{ intros. eapply merge_pass_bounded; eauto. lia. }
  eapply (for_each_inv (λ st, bounded B I st.1.1 st.1.2)) in Helim;
    [| |by repeat split].
  2:{ intros j [[La ua] ala] [[Lb ub] alb] _ Ha Hb. cbn [fst snd] in *.
      by eapply eliminate_bounded. }
  cbn [fst snd] in Helim.
  apply (chain_inv (bounded B I L2) (a0 :: al)); [|exact Helim].
  intros. by apply push_edge_bounded.
Qed.

(** X25. On an object that holds no cluster yet, [init()] makes clusters of
    at most [max(I + 1, W)] variables, for the i-bound [I] and the largest
    scope [W] of a factor of the model: a merge never makes a mini-bucket
    larger than the i-bound plus one, unless one of the two was that
    large. *)
Theorem init_scopes_within_the_bound s s' W :
  m_factors s = [] →
  scopes_within W (f_vars <$> gm_factors (m_gmo s)) →
  init s = Ok s' →
  scopes_within (Z.max (m_ibound s + 1) W) (m_scopes s').
Proof.
  intros Hnew HW Hrun. open_init Hrun s s' s0.
  set (B := Z.max (m_ibound s + 1) W).
  assert (scopes_within B (f_vars <$> m_factors a)) as Hfac.
  { destruct (init_buckets_inv (bounded B (m_ibound s)) s0 a) as (L' & HQ);
      [| |exact Ha|by destruct HQ as (_ & _ & ? & _)].
    - intros x L1 t L2 t' _ HQ Hx. eapply bucket_bounded; [|exact HQ|exact Hx].
      unfold B. lia.
    - split; [apply init_locals_increasing|]. cbn.
      split; [|split; [|congruence]].
      + replace (m_gmo s0) with (m_gmo s) by congruence.
        eapply Forall_impl; [exact HW|]. unfold B. cbn. lia.
      + replace (m_factors s0) with (@nil factor) by congruence. constructor. }
  replace (m_scopes s') with (m_scopes a0) by congruence.
  pose proof (init_scopes_lengths _ _ Ha0) as (Hlen & _).
  apply Forall_lookup. intros c sc Hc.
  assert (c < length (m_factors a))%nat as Hlt
    by (rewrite <- Hlen; by eapply lookup_lt_Some).
  destruct (init_scopes_recorded _ _ c Ha0 Hlt) as (F & HF & Hrec).
  rewrite Hc in Hrec. injection Hrec as ->.
  unfold scopes_within in Hfac. rewrite Forall_fmap, Forall_lookup in Hfac.
  apply (Hfac c F). congruence.
Qed.

End Bound_of_the_scopes.

Section Completion_of_the_tables.
Context `{FA : FactorAlgebra} `{MS : !ModelServices}.
Implicit Types s : ijgp.
Implicit Types L : locals.
Implicit Types t : score_table.

(** A loop over a list without repetition that completes, by the items
    that it has passed. *)
Lemma for_each_passed_completes {A S} (P : list A → S → Prop)
    (body : A → S → outcome S) l z :
  (∀ passed x u, x ∈ l → x ∉ passed → (∀ y, y ∈ passed → y ∈ l) →
                 P passed u → ∃ u', body x u = Ok u' ∧ P (passed ++ [x]) u') →
  NoDup l → P [] z → ∃ z', for_each body l z = Ok z' ∧ P l z'.
Proof.
  intros Hstep Hnd H0.
  assert (Hgen : ∀ rest passed u,
    NoDup (passed ++ rest) → (∀ y, y ∈ passed ++ rest → y ∈ l) →
    P passed u → ∃ z', for_each body rest u = Ok z' ∧ P (passed ++ rest) z').
  { induction rest as [|x rest IH]; intros passed u Hnd' Hsub HP; cbn.
    - exists u. by rewrite app_nil_r.
    - apply NoDup_app in Hnd' as (Hp & Hdisj & Hr).
      destruct (Hstep passed x u) as (u1 & -> & H1).
      + apply Hsub. apply elem_of_app. right. by left.
      + intros Hx. apply (Hdisj x Hx). by left.
      + intros y Hy. apply Hsub. apply elem_of_app. by left.
      + exact HP.
      + cbn. replace (passed ++ x :: rest) with ((passed ++ [x]) ++ rest)
          by (by rewrite <- app_assoc).
        apply IH; [| |exact H1].
        * rewrite <- app_assoc. cbn. apply NoDup_app. done.
        * intros y Hy. apply Hsub. by rewrite <- app_assoc in Hy. }
  apply (Hgen l [] z); [done|done|done].
Qed.

Lemma score_completes s fin VX i j :
  (i < length fin)%nat → (j < length fin)%nat →
  ∃ q, score s fin VX i j = Ok q.
Proof.
  intros Hi Hj. unfold score, at_.
  destruct (lookup_lt_is_Some_2 fin i Hi) as [F1 ->].
  destruct (lookup_lt_is_Some_2 fin j Hj) as [F2 ->]. cbn.
  case_decide; eauto.
Qed.

(** The part of the table's invariant that does not read the scores. *)
Lemma table_okx_structure s VX fin cur ids t s' VX' fin' :
  table_okx s VX fin cur ids t → table_okx s' VX' fin' (λ _, False) ids t.
Proof.
  intros Hok e He. destruct (Hok e He) as (H1 & H2 & H3 & H4 & _).
  repeat (split; [done|]). intros [].
Qed.

Lemma table_full_mono (P P' : nat * nat → Prop) t :
  (∀ p, P' p → P p) → table_full P t → table_full P' t.
Proof. intros HP (H1 & H2 & H3). repeat split; auto. Qed.

Lemma table_insert_full (P : nat * nat → Prop) t err sp :
  table_full P t → table_full (λ p, P p ∨ p = sp) (table_insert err sp t).
Proof.
  intros (Hid & Huniq & Hfull). split; [|split]; cbn.
  - intros e [->|He]%elem_of_insert_entry; cbn; [lia|].
    specialize (Hid e He). lia.
  - intros e1 e2 [->|H1]%elem_of_insert_entry [->|H2]%elem_of_insert_entry;
      cbn; intros Heq; [done| | |by apply Huniq].
    + specialize (Hid e2 H2). lia.
    + specialize (Hid e1 H1). lia.
  - intros p [Hp| ->].
    + destruct (Hfull p Hp) as (e & He & Hpair). exists e.
      split; [|done]. apply elem_of_insert_entry. by right.
    + eexists. split; [apply elem_of_insert_entry; by left|]. done.
Qed.

Lemma table_erase_completes s VX fin cur ids (P : nat * nat → Prop) t sp :
  table_okx s VX fin cur ids t → table_full P t → P sp →
  ∃ t', table_erase sp t = Ok t' ∧ table_full (λ p, P p ∧ p ≠ sp) t'.
Proof.
  intros Hok (Hid & Huniq & Hfull) Hsp.
  destruct (Hfull sp Hsp) as (e & He & Hpair).
  destruct (Hok e He) as (_ & _ & _ & Hrev & _). rewrite Hpair in Hrev.
  unfold table_erase. rewrite Hrev.
  rewrite decide_True by (apply Exists_exists; by exists e).
  eexists. split; [reflexivity|]. split; [|split]; cbn.
  - intros e' [_ He']%list_elem_of_filter. by apply Hid.
  - intros e1 e2 [_ H1]%list_elem_of_filter [_ H2]%list_elem_of_filter.
    by apply Huniq.
  - intros p [Hp Hne]. destruct (Hfull p Hp) as (e' & He' & Hpair').
    exists e'. split; [|done]. apply list_elem_of_filter. split; [|done].
    intros Heq. apply Hne. rewrite <- Hpair', <- Hpair. f_equal.
    by apply Huniq.
Qed.

Lemma pairs_of_snoc before i p :
  pairs_of (before ++ [i]) p →
  (pairs_of before p ∨ ∃ j, j ∈ before ∧ p = sPair i j) ∨ p = sPair i i.
Proof.
  intros (a & b & Ha & Hb & ->).
  apply elem_of_app in Ha as [Ha|Ha%list_elem_of_singleton];
    apply elem_of_app in Hb as [Hb|Hb%list_elem_of_singleton]; subst.
  - left. left. by exists a, b.
  - left. right. exists a. by rewrite sPair_comm.
  - left. right. by exists b.
  - by right.
Qed.

(** The population of the scores completes and leaves an entry for every
    pair. *)
Lemma populate_completes s fin VX before rest t :
  NoDup (before ++ rest) →
  (∀ i, i ∈ before ++ rest → (i < length fin)%nat) →
  table_full (pairs_of before) t →
  ∃ t', populate s fin VX before rest t = Ok t' ∧
        table_full (pairs_of (before ++ rest)) t'.
Proof.
  revert before t. induction rest as [|i rest IH]; intros before t Hnd Hr Hfull;
    cbn [populate].
  - exists t. by rewrite app_nil_r.
  - pose proof Hnd as (Hb & Hdisj & Hrest)%NoDup_app.
    destruct (for_each_passed_completes
      (λ passed u, table_full
         (λ p, pairs_of before p ∨ ∃ j, j ∈ passed ∧ p = sPair i j) u)
      (λ j t, err ← score s fin VX i j; Ok (table_insert err (sPair i j) t))
      before t) as (t1 & -> & H1); [|exact Hb| |].
    + intros passed j u Hj _ _ Hu.
      destruct (score_completes s fin VX i j) as [q ->].
      { apply Hr. apply elem_of_app. right. by left. }
      { apply Hr. apply elem_of_app. by left. }
      cbn. eexists. split; [reflexivity|].
      eapply table_full_mono; [|by apply table_insert_full].
      cbn. intros p [Hp|(k & Hk & ->)]; [by left; left|].
      apply elem_of_app in Hk as [Hk|Hk%list_elem_of_singleton].
      * left. right. by exists k.
      * subst. by right.
    + eapply table_full_mono; [|exact Hfull]. cbn.
      intros p [Hp|(k & []%elem_of_nil & _)]. done.
    + cbn. replace (before ++ i :: rest) with ((before ++ [i]) ++ rest)
        by (by rewrite <- app_assoc).
      apply IH.
      * by rewrite <- app_assoc.
      * intros k Hk. apply Hr. by rewrite <- app_assoc in Hk.
      * eapply table_full_mono; [|by apply table_insert_full].
        cbn. intros p Hp. by apply pairs_of_snoc.
Qed.

Lemma sPair_has a b c : sPair a b = sPair c b → a = c.
Proof. rewrite (sPair_comm a b), (sPair_comm c b). apply sPair_eq. Qed.

Lemma sPair_without ii a b k : a ≠ ii → b ≠ ii → sPair a b ≠ sPair ii k.
Proof. unfold sPair. repeat case_decide; intros ? ? [= ]; congruence. Qed.

(** One pass of the merging loop completes on the table. *)
Lemma table_pass_completes s VX fin fin1 cur ids t ii jj :
  table_okx s VX fin cur ids t → table_full (pairs_of ids) t → NoDup ids →
  ii ∈ ids → jj ∈ ids → ii ≠ jj →
  (∀ i, i ∈ ids → (i < length fin1)%nat) →
  ∃ t1 t2,
    for_each (λ k t, table_erase (sPair ii k) t) ids t = Ok t1 ∧
    for_each (λ k t, if decide (k = jj) then Ok t
                     else err ← score s fin1 VX jj k;
                          t' ← table_erase (sPair jj k) t;
                          Ok (table_insert err (sPair jj k) t'))
             (fl_remove ii ids) t1 = Ok t2 ∧
    table_full (pairs_of (fl_remove ii ids)) t2.
Proof.
  intros Hok Hfull Hnd Hii Hjj Hne Hr.
  destruct (for_each_passed_completes
    (λ passed u, table_okx s VX fin cur ids u ∧
       table_full (λ p, pairs_of ids p ∧ ∀ k, k ∈ passed → p ≠ sPair ii k) u)
    (λ k t, table_erase (sPair ii k) t) ids t) as (t1 & Ht1 & Hok1 & Hfull1);
    [|exact Hnd| |].
  { intros passed k u Hk Hnew _ [Hu Hf].
    destruct (table_erase_completes s VX fin cur ids _ u (sPair ii k) Hu Hf)
      as (u' & Hu' & Hf').
    { split; [by exists ii, k|]. intros k' Hk' Heq.
      apply sPair_eq in Heq. congruence. }
    exists u'. split; [exact Hu'|].
    split; [by destruct (table_erase_ok _ _ _ _ _ _ _ _ Hu Hu')|].
    eapply table_full_mono; [|exact Hf']. cbn. intros p [Hp Hpass].
    split; [split; [done|]|].
    - intros k' Hk'. apply Hpass. apply elem_of_app. by left.
    - apply Hpass. apply elem_of_app. right. by left. }
  { split; [exact Hok|]. eapply table_full_mono; [|exact Hfull].
    cbn. by intros p [Hp _]. }
  exists t1.
  assert (Hjj1 : jj ∈ fl_remove ii ids).
  { apply elem_of_fl_remove. split; [congruence|done]. }
  destruct (for_each_completes
    (λ u, table_okx s VX fin1 (λ _, False) ids u ∧
          table_full (pairs_of (fl_remove ii ids)) u)
    (λ k t, if decide (k = jj) then Ok t
            else err ← score s fin1 VX jj k;
                 t' ← table_erase (sPair jj k) t;
                 Ok (table_insert err (sPair jj k) t'))
    (fl_remove ii ids) t1) as (t2 & Ht2 & _ & Hfull2).
  { intros k u Hk [Hu Hf]. case_decide as Hkj; [by exists u|].
    pose proof Hk as [_ Hkin]%elem_of_fl_remove.
    destruct (score_completes s fin1 VX jj k) as [q Hq]; [by apply Hr..|].
    rewrite Hq. cbn.
    destruct (table_erase_completes s VX fin1 _ ids _ u (sPair jj k) Hu Hf)
      as (u' & Hu' & Hf'); [by exists jj, k|].
    rewrite Hu'. cbn. eexists. split; [reflexivity|].
    destruct (table_erase_ok _ _ _ _ _ _ _ _ Hu Hu') as (H1 & H2 & _).
    split.
    - apply table_insert_ok; [exact H1|done|done|exact H2|].
      rewrite decide_False by congruence. exact Hq.
    - eapply table_full_mono; [|by apply table_insert_full]. cbn.
      intros p Hp. destruct (decide (p = sPair jj k)); [by right|by left]. }
  { split; [by eapply table_okx_structure|].
    eapply table_full_mono; [|exact Hfull1]. cbn.
    intros p (a & b & [Ha1 Ha2]%elem_of_fl_remove
                & [Hb1 Hb2]%elem_of_fl_remove & ->).
    split; [by exists a, b|]. intros k _. by apply sPair_without. }
  exists t2. done.
Qed.

Lemma empty_table_full : table_full (pairs_of []) empty_table.
Proof.
  split; [|split]; cbn.
  - by intros e []%elem_of_nil.
  - by intros e1 e2 []%elem_of_nil.
  - by intros p (i & j & []%elem_of_nil & _).
Qed.

End Completion_of_the_tables.

Section Completion_of_the_buckets.
Context `{FA : FactorAlgebra} `{MS : !ModelServices}.
Implicit Types s u : ijgp.
Implicit Types L : locals.
Implicit Types t : score_table.

(** ** The local vectors stay in range *)

Lemma set_fold_max_bounds (m : nat) (vs : variable_set) :
  let n := set_fold (λ v n, Nat.max (S v) n) m vs in
  (m ≤ n)%nat ∧ ∀ v, v ∈ vs → (v < n)%nat.
Proof.
  cbv zeta.
  apply (set_fold_ind_L
    (λ r (X : variable_set), (m ≤ r)%nat ∧ ∀ v, v ∈ X → (v < r)%nat)).
  - split; [done|]. by intros v []%elem_of_empty.
  - intros x X r _ [Hm HX]. split; [lia|].
    intros v [->%elem_of_singleton|Hv]%elem_of_union; [lia|].
    specialize (HX v Hv). lia.
Qed.

Lemma length_insert_adj adj idx vs :
  (length adj ≤ length (insert_adj adj idx vs))%nat ∧
  ∀ v, v ∈ vs → (v < length (insert_adj adj idx vs))%nat.
Proof.
  unfold insert_adj. rewrite length_imap, length_resize.
  apply set_fold_max_bounds.
Qed.

Lemma elem_of_insert_adj adj idx vs v l k :
  insert_adj adj idx vs !! v = Some l → k ∈ l →
  k = idx ∨ ∃ l0, adj !! v = Some l0 ∧ k ∈ l0.
Proof.
  unfold insert_adj. set (n := set_fold _ _ _). rewrite list_lookup_imap.
  destruct (resize n [] adj !! v) as [l0|] eqn:Hv; [|done]. cbn.
  intros [= <-] Hk.
  assert (Hl0 : k ∈ l0 → ∃ l1, adj !! v = Some l1 ∧ k ∈ l1).
  { intros Hk0. pose proof (lookup_lt_Some _ _ _ Hv) as Hn.
    rewrite length_resize in Hn.
    destruct (decide (v < length adj)%nat) as [Hlt|Hge].
    - rewrite lookup_resize in Hv by done. by exists l0.
    - rewrite lookup_resize_new in Hv by lia. injection Hv as <-.
      by apply elem_of_nil in Hk0. }
  case_decide; [|by right; apply Hl0].
  apply elem_of_fl_insert in Hk as [->|Hk]; [by left|by right; apply Hl0].
Qed.

Lemma merge_pair_locals_in_range ii jj L L' :
  locals_in_range L → merge_pair ii jj L = Ok L' →
  locals_in_range L' ∧ length (fin L') = length (fin L).
Proof.
  intros (HO & HN & Hvin & Hfin) Hrun.
  apply merge_pair_Ok in Hrun
    as (Fi & Fj & Fi' & Oi & Oj & Ni & Nj & Hi & Hj & _ & _ & _ & _ & _
        & Hvin' & Hfin' & HOrig' & HNew').
  assert (Hlen : length (fin L') = length (fin L))
    by (by rewrite Hfin', !length_insert).
  split; [|exact Hlen]. unfold locals_in_range. rewrite Hlen.
  split; [by rewrite HOrig', !length_insert|].
  split; [by rewrite HNew', !length_insert|].
  unfold erase_adj in Hvin'. case_decide; [|done]. injection Hvin' as Hvin'.
  split.
  - intros x ids i. rewrite <- Hvin', list_lookup_imap.
    destruct (vin L !! x) as [l|] eqn:Hx; [|done]. cbn. intros [= <-] Hin.
    apply (Hvin x l i Hx). case_decide; [|done].
    by apply elem_of_fl_remove in Hin as [_ Hin].
  - intros i F v. rewrite <- Hvin', length_imap, Hfin'. intros HF Hv.
    apply list_lookup_insert_Some in HF as [(_ & <- & _)|[_ HF]];
      [by apply elem_of_empty in Hv|].
    apply list_lookup_insert_Some in HF as [(_ & <- & _)|[_ HF]]; [|by eauto].
    apply elem_of_union in Hv as [Hv|Hv]; eauto.
Qed.

Lemma eliminate_locals_in_range x i L u al L' u' al' :
  locals_in_range L → eliminate x i (L, u, al) = Ok (L', u', al') →
  locals_in_range L' ∧ length (fin L') = length (fin L).
Proof.
  intros (HO & HN & Hvin & Hfin) Hrun.
  apply eliminate_Ok in Hrun
    as (Fi & Cx & Ni & Oi & Oa & HFi & _ & _ & _ & _ & _ & -> & _).
  cbn. rewrite !length_insert. split; [|done].
  unfold locals_in_range. cbn. rewrite !length_insert.
  split; [done|]. split; [done|].
  destruct (length_insert_adj (vin L) i (Fi ∖ {[x]})) as [Hge Hnew].
  split.
  - intros y ids k Hy Hk.
    destruct (elem_of_insert_adj _ _ _ _ _ _ Hy Hk) as [->|(l0 & Hl0 & Hk0)].
    + by eapply lookup_lt_Some.
    + by eapply Hvin.
  - intros k F v HF Hv.
    apply list_lookup_insert_Some in HF as [(_ & <- & _)|[_ HF]].
    + by apply Hnew.
    + specialize (Hfin k F v HF Hv). lia.
Qed.

(** ** The steps of a bucket complete *)

Lemma put_in_range {A} (v : list A) (i : nat) (x : A) :
  (i < length v)%nat → put v i x = Ok (<[i := x]> v).
Proof. intros Hi. unfold put. by rewrite decide_True. Qed.

Lemma merge_pair_completes ii jj L :
  locals_in_range L → (ii < length (fin L))%nat → (jj < length (fin L))%nat →
  ∃ L', merge_pair ii jj L = Ok L'.
Proof.
  intros (HO & HN & Hvin & Hfin) Hii Hjj. unfold merge_pair.
  destruct (lookup_lt_is_Some_2 (fin L) ii Hii) as [Fi HFi].
  destruct (lookup_lt_is_Some_2 (fin L) jj Hjj) as [Fj HFj].
  destruct (lookup_lt_is_Some_2 (Orig L) ii ltac:(lia)) as [Oi HOi].
  destruct (lookup_lt_is_Some_2 (Orig L) jj ltac:(lia)) as [Oj HOj].
  destruct (lookup_lt_is_Some_2 (New L) ii ltac:(lia)) as [Ni HNi].
  destruct (lookup_lt_is_Some_2 (New L) jj ltac:(lia)) as [Nj HNj].
  rewrite (proj2 (at_Ok _ _ _) HFi), (proj2 (at_Ok _ _ _) HFj).
  cbn [mbind outcome_bind obind].
  rewrite (put_in_range (fin L)) by done. cbn [mbind outcome_bind obind].
  destruct (lookup_lt_is_Some_2 (<[jj := Fj ∪ Fi]> (fin L)) ii) as [Fi' HFi'];
    [by rewrite length_insert|].
  rewrite (proj2 (at_Ok _ _ _) HFi'). cbn [mbind outcome_bind obind].
  unfold erase_adj. rewrite decide_True.
  2:{ intros v Hv.
      apply list_lookup_insert_Some in HFi' as [(_ & <- & _)|[_ HFi']].
      - apply elem_of_union in Hv as [Hv|Hv]; eauto.
      - eauto. }
  cbn [mbind outcome_bind obind].
  rewrite (put_in_range (<[jj := Fj ∪ Fi]> (fin L)))
    by (by rewrite length_insert).
  cbn [mbind outcome_bind obind].
  rewrite (proj2 (at_Ok _ _ _) HOi), (proj2 (at_Ok _ _ _) HOj).
  cbn [mbind outcome_bind obind].
  rewrite (put_in_range (Orig L)) by lia. cbn [mbind outcome_bind obind].
  rewrite (put_in_range (<[jj := _]> (Orig L)))
    by (rewrite length_insert; lia).
  cbn [mbind outcome_bind obind].
  rewrite (proj2 (at_Ok _ _ _) HNi), (proj2 (at_Ok _ _ _) HNj).
  cbn [mbind outcome_bind obind].
  rewrite (put_in_range (New L)) by lia. cbn [mbind outcome_bind obind].
  rewrite (put_in_range (<[jj := _]> (New L)))
    by (rewrite length_insert; lia).
  cbn [mbind outcome_bind obind]. eauto.
Qed.

Lemma push_edges_sizes alpha js s :
  let t := foldl (push_edge alpha) s js in
  m_factors t = m_factors s ∧ m_originals t = m_originals s ∧
  m_clusters t = m_clusters s.
Proof.
  cbv zeta. pose proof (push_edges_pushed alpha js s) as Hp.
  unfold pushed_from in Hp.
  split; [exact (f_equal m_factors Hp)|].
  split; [exact (f_equal m_originals Hp)|exact (f_equal m_clusters Hp)].
Qed.

Lemma eliminate_completes x i L u al :
  locals_in_range L → (i < length (fin L))%nat →
  (x < length (m_clusters u))%nat →
  length (m_originals u) = length (m_factors u) →
  ∃ L' u' al', eliminate x i (L, u, al) = Ok (L', u', al').
Proof.
  intros (HO & HN & Hvin & Hfin) Hi Hx Hlen. unfold eliminate, add_factor.
  destruct (lookup_lt_is_Some_2 (fin L) i Hi) as [Fi HFi].
  destruct (lookup_lt_is_Some_2 (Orig L) i ltac:(lia)) as [Oi HOi].
  destruct (lookup_lt_is_Some_2 (New L) i ltac:(lia)) as [Ni HNi].
  rewrite (proj2 (at_Ok _ _ _) HFi). cbn [mbind outcome_bind obind].
  cbn [m_clusters set_m_factors].
  destruct (lookup_lt_is_Some_2 (m_clusters u) x Hx) as [Cx HCx].
  rewrite (proj2 (at_Ok _ _ _) HCx). cbn [mbind outcome_bind obind].
  rewrite (put_in_range (m_clusters u)) by done.
  cbn [mbind outcome_bind obind].
  rewrite (put_in_range (fin L)) by done. cbn [mbind outcome_bind obind].
  rewrite (proj2 (at_Ok _ _ _) HNi). cbn [mbind outcome_bind obind].
  match goal with |- context [foldl (push_edge ?a) ?s0 Ni] =>
    destruct (push_edges_sizes a Ni s0) as (Hf & Ho & Hc);
    set (t := foldl (push_edge a) s0 Ni) in * end.
  cbn in Hf, Ho, Hc. cbn [m_originals set_m_originals].
  rewrite Ho.
  assert (Hα : (m_originals u ++ [[]]) !! length (m_factors u)
               = Some (@nil nat)).
  { rewrite lookup_app_r by lia. by rewrite Hlen, Nat.sub_diag. }
  rewrite (proj2 (at_Ok _ _ _) Hα). cbn [mbind outcome_bind obind].
  rewrite (proj2 (at_Ok _ _ _) HOi). cbn [mbind outcome_bind obind].
  rewrite (put_in_range (m_originals u ++ [[]]))
    by (rewrite length_app; cbn; lia).
  cbn [mbind outcome_bind obind].
  rewrite (put_in_range (Orig L)) by lia. cbn [mbind outcome_bind obind].
  rewrite (put_in_range (New L)) by lia. cbn [mbind outcome_bind obind].
  destruct (lookup_lt_is_Some_2 (<[i := Fi ∖ {[x]}]> (fin L)) i) as [Fi1 HFi1];
    [by rewrite length_insert|].
  rewrite (proj2 (at_Ok _ _ _) HFi1). cbn [mbind outcome_bind obind]. eauto.
Qed.

Lemma eliminate_sizes x i L u al L' u' al' :
  eliminate x i (L, u, al) = Ok (L', u', al') →
  length (m_clusters u') = length (m_clusters u) ∧
  (length (m_originals u) = length (m_factors u) →
   length (m_originals u') = length (m_factors u')) ∧
  length al' = S (length al).
Proof.
  intros Hrun. apply eliminate_Ok in Hrun
    as (Fi & Cx & Ni & Oi & Oa & _ & _ & _ & _ & _ & -> & _ & ->).
  match goal with |- context [foldl (push_edge ?a) ?s0 Ni] =>
    destruct (push_edges_sizes a Ni s0) as (Hf & Ho & Hc);
    set (t := foldl (push_edge a) s0 Ni) in * end.
  cbn in Hf, Ho, Hc. cbn. rewrite Hc, Hf, Ho.
  rewrite !length_insert, !length_app. cbn. split; [done|]. split; lia.
Qed.

Lemma push_edge_sizes alpha s j :
  m_clusters (push_edge alpha s j) = m_clusters s ∧
  m_originals (push_edge alpha s j) = m_originals s ∧
  m_factors (push_edge alpha s j) = m_factors s.
Proof.
  pose proof (push_edge_pushed alpha s j) as Hp. unfold pushed_from in Hp.
  split; [exact (f_equal m_clusters Hp)|].
  split; [exact (f_equal m_originals Hp)|exact (f_equal m_factors Hp)].
Qed.

(** ** The merging loop completes *)

Lemma table_top_pair s VX fin ids t top :
  table_ok s VX fin ids t → table_top t = Ok top →
  Qle_bool 0 (e_key top) = true →
  (e_pair top).1 ∈ ids ∧ (e_pair top).2 ∈ ids ∧
  (e_pair top).1 ≠ (e_pair top).2.
Proof.
  intros Hok Htop Hkey. apply table_top_elem in Htop.
  destruct (Hok top Htop) as (Hii & Hjj & _ & _ & Hk). specialize (Hk I).
  split; [done|]. split; [done|]. intros Heq.
  rewrite decide_True in Hk by done. rewrite Hk in Hkey. discriminate.
Qed.

Lemma merge_loop_completes fuel s VX L ids t :
  locals_in_range L → (∀ i, i ∈ ids → (i < length (fin L))%nat) →
  NoDup ids → ids ≠ [] →
  table_ok s VX (fin L) ids t → table_full (pairs_of ids) t →
  (length ids < fuel)%nat →
  ∃ L' ids', merge_loop fuel s VX L ids t = Ok (L', ids').
Proof.
  revert L ids t.
  induction fuel as [|fuel IH]; intros L ids t HL Hr Hnd Hne Hok Hfull Hlen;
    [lia|].
  cbn [merge_loop].
  assert (∃ top, table_top t = Ok top) as [top Htop].
  { destruct ids as [|i ids']; [done|].
    destruct Hfull as (_ & _ & Hfull).
    destruct (Hfull (sPair i i)) as (e & He & _).
    { exists i, i. split; [by left|]. split; [by left|done]. }
    unfold table_top. destruct (last (scores t)) as [e'|] eqn:Hlast; [eauto|].
    apply last_None in Hlast. rewrite Hlast in He.
    by apply elem_of_nil in He. }
  rewrite Htop. cbn [mbind outcome_bind obind].
  destruct (Qle_bool 0 (e_key top)) eqn:Hkey; cbn [negb]; [|eauto].
  destruct (table_top_pair s VX (fin L) ids t top Hok Htop Hkey)
    as (Hii & Hjj & Hdiff).
  destruct (merge_pair_completes (e_pair top).1 (e_pair top).2 L HL)
    as [L1 HL1]; [by apply Hr..|].
  rewrite HL1. cbn [mbind outcome_bind obind].
  destruct (merge_pair_locals_in_range _ _ _ _ HL HL1) as [HL1r Hlen1].
  destruct (table_pass_completes s VX (fin L) (fin L1) (λ _, True) ids t
              (e_pair top).1 (e_pair top).2 Hok Hfull Hnd Hii Hjj Hdiff)
    as (t1 & t2 & Ht1 & Ht2 & Hfull2).
  { intros i Hi. rewrite Hlen1. by apply Hr. }
  rewrite Ht1. cbn [mbind outcome_bind obind].
  rewrite Ht2. cbn [mbind outcome_bind obind].
  destruct (merge_pass_ok s VX L ids t top L1 t1 t2 Hok Htop Hkey HL1 Ht1 Ht2)
    as (_ & _ & _ & _ & Hok2).
  apply IH; [exact HL1r| | | |exact Hok2|exact Hfull2|].
  - intros i [_ Hi]%elem_of_fl_remove. rewrite Hlen1. by apply Hr.
  - unfold fl_remove. by apply NoDup_filter.
  - intros Hnil.
    assert ((e_pair top).2 ∈ fl_remove (e_pair top).1 ids) as Hin
      by (apply elem_of_fl_remove; split; [congruence|done]).
    rewrite Hnil in Hin. by apply elem_of_nil in Hin.
  - pose proof (length_fl_remove _ _ Hii). lia.
Qed.

(** The mini-buckets that the merging loop leaves are mini-buckets of the
    bucket, and one at least is left. *)
Lemma merge_loop_leaves fuel s VX L ids t L' ids' :
  table_ok s VX (fin L) ids t → ids ≠ [] →
  merge_loop fuel s VX L ids t = Ok (L', ids') →
  ids' ≠ [] ∧ ∀ i, i ∈ ids' → i ∈ ids.
Proof.
  intros Hok Hne Hrun.
  eapply (merge_loop_passes
    (λ L1 ids1 t1, table_ok s VX (fin L1) ids1 t1 ∧ ids1 ≠ [] ∧
                   ∀ i, i ∈ ids1 → i ∈ ids)) in Hrun as (t' & _ & H1 & H2);
    [done| |by auto].
  intros L1 ids1 t1 top L2 t2 t3 (Hok1 & _ & Hsub) Htop Hkey Hm He Hs.
  destruct (merge_pass_ok s VX L1 ids1 t1 top L2 t2 t3 Hok1 Htop Hkey Hm He Hs)
    as (Hii & Hjj & Hlt & _ & Hok3).
  split; [exact Hok3|]. split.
  - intros Hnil.
    assert ((e_pair top).2 ∈ fl_remove (e_pair top).1 ids1) as Hin
      by (apply elem_of_fl_remove; split; [lia|done]).
    rewrite Hnil in Hin. by apply elem_of_nil in Hin.
  - intros i [_ Hi]%elem_of_fl_remove. by apply Hsub.
Qed.

(** ** A bucket completes *)

Lemma eliminations_sizes x ids L u al L' u' al' :
  for_each (eliminate x) ids (L, u, al) = Ok (L', u', al') →
  length al' = (length al + length ids)%nat.
Proof.
  revert L u al. induction ids as [|i ids IH]; intros L u al Hrun; cbn in Hrun.
  - injection Hrun as <- <- <-. cbn. lia.
  - apply bind_Ok in Hrun as ([[L1 u1] al1] & H1 & Hrun).
    apply IH in Hrun. apply eliminate_sizes in H1 as (_ & _ & H1). cbn. lia.
Qed.

(** What a bucket needs to complete, and keeps. *)
Lemma bucket_keeps_ready (K : nat) x L u L' u' :
  vin_increasing L ∧ locals_in_range L ∧ length (m_clusters u) = K ∧
  length (m_originals u) = length (m_factors u) →
  bucket x (L, u) = Ok (L', u') →
  vin_increasing L' ∧ locals_in_range L' ∧ length (m_clusters u') = K ∧
  length (m_originals u') = length (m_factors u').
Proof.
  intros HQ Hrun.
  eapply (bucket_inv
    (λ L u, vin_increasing L ∧ locals_in_range L ∧ length (m_clusters u) = K ∧
            length (m_originals u) = length (m_factors u)) True);
    [| | | |exact HQ|exact Hrun]; [| | |done].
  - intros ii jj L1 L2 t (H1 & H2 & H3 & H4) Hm.
    split; [by eapply merge_pair_increasing|].
    split; [by eapply merge_pair_locals_in_range|done].
  - intros i L1 t al L2 t' al' _ (H1 & H2 & H3 & H4) He.
    split; [by eapply eliminate_increasing|].
    split; [by eapply eliminate_locals_in_range|].
    apply eliminate_sizes in He as (E1 & E2 & _). split; [congruence|auto].
  - intros L1 t a b (H1 & H2 & H3 & H4).
    destruct (push_edge_sizes b t a) as (E1 & E2 & E3).
    rewrite E1, E2, E3. done.
Qed.

Lemma bucket_completes x L u :
  vin_increasing L → locals_in_range L → (x < length (m_clusters u))%nat →
  length (m_originals u) = length (m_factors u) →
  ∃ L' u', bucket x (L, u) = Ok (L', u').
Proof.
  intros Hinc HL Hx Hlen. unfold bucket.
  destruct (vin L !! x) as [[|i ids]|] eqn:Hvin; [by eauto| |by eauto].
  pose proof HL as (_ & _ & Hin & _).
  assert (Hnd : NoDup (i :: ids)).
  { apply increasing_NoDup. unfold vin_increasing in Hinc.
    rewrite Forall_lookup in Hinc. by apply (Hinc x). }
  destruct (populate_completes u (fin L) x [] (i :: ids) empty_table)
    as (t & Ht & Hfull); [exact Hnd|intros k Hk; by apply (Hin x (i :: ids))|apply empty_table_full|].
  rewrite Ht. cbn [mbind outcome_bind obind].
  assert (table_ok u x (fin L) (i :: ids) t) as Hok.
  { apply (populate_ok u (fin L) x [] (i :: ids) empty_table t);
      [exact Hnd|apply empty_table_ok|exact Ht]. }
  destruct (merge_loop_completes (S (length (i :: ids))) u x L (i :: ids) t)
    as (L1 & ids1 & Hloop); [exact HL|intros k Hk; by apply (Hin x (i :: ids))|exact Hnd|done|exact Hok
                            |exact Hfull|lia|].
  rewrite Hloop. cbn [mbind outcome_bind obind].
  destruct (merge_loop_leaves _ _ _ _ _ _ _ _ Hok ltac:(done) Hloop)
    as [Hne1 Hsub1].
  assert (HL1 : locals_in_range L1 ∧ length (fin L1) = length (fin L)).
  { eapply (merge_loop_inv
      (λ L1, locals_in_range L1 ∧ length (fin L1) = length (fin L)));
      [|by split|exact Hloop].
    intros ii jj La Lb [Ha Hal] Hm.
    destruct (merge_pair_locals_in_range _ _ _ _ Ha Hm). split; [done|lia]. }
  destruct (for_each_completes
    (λ st, locals_in_range st.1.1 ∧ length (fin st.1.1) = length (fin L) ∧
           length (m_clusters st.1.2) = length (m_clusters u) ∧
           length (m_originals st.1.2) = length (m_factors st.1.2))
    (eliminate x) ids1 (L1, u, [])) as ([[L2 u2] al] & Helim & _).
  { intros k [[La ua] ala] Hk (Ha & Hfa & Hca & Hoa). cbn [fst snd] in *.
    destruct (eliminate_completes x k La ua ala Ha) as (Lb & ub & alb & Hb);
      [|lia|done|].
    { rewrite Hfa. apply (Hin x (i :: ids)); [done|]. by apply Hsub1. }
    exists (Lb, ub, alb). split; [exact Hb|]. cbn [fst snd].
    destruct (eliminate_locals_in_range _ _ _ _ _ _ _ _ Ha Hb) as [H1 H2].
    destruct (eliminate_sizes _ _ _ _ _ _ _ _ Hb) as (H3 & H4 & _).
    split; [done|]. split; [lia|]. split; [lia|auto]. }
  { cbn [fst snd]. destruct HL1. done. }
  rewrite Helim. cbn [mbind outcome_bind obind].
  apply eliminations_sizes in Helim.
  destruct al as [|a0 al]; [|by eauto].
  destruct ids1; [done|cbn in Helim; lia].
Qed.

End Completion_of_the_buckets.

Section Completion_of_init.
Context `{FA : FactorAlgebra} `{MS : !ModelServices}.
Implicit Types s t u : ijgp.
Implicit Types L : locals.

(** ** The loop over the order completes *)

Lemma init_locals_in_range gm :
  (∀ F v, F ∈ gm_factors gm → v ∈ f_vars F → (v < gm_nvar gm)%nat) →
  locals_in_range (init_locals gm).
Proof.
  intros Hgm. unfold locals_in_range. cbn.
  rewrite !length_fmap, !length_seq, length_replicate.
  split; [done|]. split; [done|]. split.
  - intros x ids i Hx Hi. rewrite list_lookup_fmap in Hx.
    destruct (seq 0 (gm_nvar gm) !! x) as [y|] eqn:E; [|done].
    cbn in Hx. injection Hx as <-. unfold with_variable in Hi.
    apply list_elem_of_filter in Hi as [_ Hi]. apply elem_of_seq in Hi. lia.
  - intros i F v HF Hv. rewrite list_lookup_fmap in HF.
    destruct (gm_factors gm !! i) as [G|] eqn:E; [|done].
    cbn in HF. injection HF as <-.
    apply (Hgm G v); [|done]. by eapply list_elem_of_lookup_2.
Qed.

Lemma init_buckets_completes s :
  (∀ x, x ∈ m_order s → (x < length (m_order s))%nat) →
  (∀ F v, F ∈ gm_factors (m_gmo s) → v ∈ f_vars F →
          (v < gm_nvar (m_gmo s))%nat) →
  length (m_originals s) = length (m_factors s) →
  ∃ s', init_buckets s = Ok s'.
Proof.
  intros Hord Hgm Hlen. unfold init_buckets. cbv zeta.
  change (m_order (set_m_clusters _ s)) with (m_order s).
  destruct (for_each_completes
    (λ st, vin_increasing st.1 ∧ locals_in_range st.1 ∧
           length (m_clusters st.2) = length (m_order s) ∧
           length (m_originals st.2) = length (m_factors st.2))
    bucket (m_order s)
    (init_locals (m_gmo s),
     set_m_clusters (resize (length (m_order s)) [] (m_clusters s)) s))
    as ([L' s'] & -> & _).
  - intros x [L u] Hx (H1 & H2 & H3 & H4). cbn [fst snd] in *.
    destruct (bucket_completes x L u H1 H2) as (L' & u' & Hb);
      [rewrite H3; by apply Hord|done|].
    exists (L', u'). split; [done|]. cbn [fst snd].
    by eapply (bucket_keeps_ready _ x L u).
  - cbn. rewrite length_resize. split; [apply init_locals_increasing|].
    split; [by apply init_locals_in_range|done].
  - cbn. eauto.
Qed.

(** ** The edges of the graph *)

Lemma push_edge_edges_of_schedule alpha t j :
  edges_of_schedule t → edges_of_schedule (push_edge alpha t j).
Proof.
  intros He a b. unfold push_edge, add_edge.
  case_decide as Hin; cbn.
  - intros Hab. rewrite !elem_of_app. destruct (He a b Hab); auto.
  - intros [Hab|Hab]%elem_of_app.
    + destruct (He a b Hab); [left|right]; apply elem_of_app; auto.
    + rewrite !elem_of_cons in Hab.
      destruct Hab as [[= -> ->]|[[= -> ->]|[]%elem_of_nil]]; [left|right];
        apply elem_of_app; right; by left.
Qed.

Lemma init_buckets_edges_of_schedule s s' :
  m_edges s = [] → init_buckets s = Ok s' → edges_of_schedule s'.
Proof.
  intros He Hrun.
  apply (init_buckets_inv (λ _ t, edges_of_schedule t)) in Hrun as [_ Hrun];
    [done| |].
  - intros x L1 t L2 t' _ HQ Hb.
    eapply (bucket_inv (λ _ t, edges_of_schedule t) True);
      [| | | |exact HQ|exact Hb]; auto.
    + intros i L3 t3 al L4 t4 al' _ Hq Hel. apply eliminate_Ok in Hel
        as (Fi & Cx & Ni & Oi & Oa & _ & _ & _ & _ & _ & _ & _ & ->).
      match goal with |- context [foldl (push_edge ?a) ?s0 Ni] =>
        assert (edges_of_schedule (foldl (push_edge a) s0 Ni)) as Hf end.
      { generalize Ni. intros l.
        match goal with |- edges_of_schedule (foldl _ ?s0 l) =>
          assert (edges_of_schedule s0) as H0 by exact Hq;
          revert H0; generalize s0 end.
        induction l as [|j l IH]; intros t0 H0; cbn; [done|].
        apply IH. by apply push_edge_edges_of_schedule. }
      exact Hf.
    + intros. by apply push_edge_edges_of_schedule.
  - intros a b. cbn. rewrite He. by intros []%elem_of_nil.
Qed.

(** ** The parts of [init] after the buckets complete *)

Lemma put2_completes {A} (m : list (list A)) (a b C : nat) (x : A) :
  length m = C → (∀ row, row ∈ m → length row = C) →
  (a < C)%nat → (b < C)%nat →
  ∃ m', put2 m a b x = Ok m' ∧ length m' = C ∧
        (∀ row, row ∈ m' → length row = C).
Proof.
  intros Hlen Hrows Ha Hb.
  destruct (lookup_lt_is_Some_2 m a) as [row Hrow]; [lia|].
  assert (put2 m a b x = Ok (<[a := <[b := x]> row]> m)) as Hput.
  { apply put2_Ok. exists row. split; [done|]. split; [|done].
    rewrite (Hrows row); [done|]. by eapply list_elem_of_lookup_2. }
  eexists. split; [exact Hput|]. by eapply put2_lengths.
Qed.

Lemma init_scopes_completes s : ∃ s', init_scopes s = Ok s'.
Proof.
  unfold init_scopes. cbv zeta. set (C := length (m_factors s)).
  destruct (for_each_completes
    (λ u, m_factors u = m_factors s ∧ length (m_scopes u) = C)
    (λ i s, F ← at_ (m_factors s) i;
            sc ← put (m_scopes s) i (f_vars F);
            Ok (set_m_scopes sc s))
    (seq 0 C)
    (set_m_scopes (resize C ∅ (m_scopes s))
       (set_m_separators (resize C ∅ <$> resize C [] (m_separators s)) s)))
    as (s' & Hs' & _); [| |by eauto].
  - intros i u Hi [Hf Hl]. apply elem_of_seq in Hi.
    destruct (lookup_lt_is_Some_2 (m_factors u) i) as [F HF];
      [rewrite Hf; fold C; lia|].
    rewrite (proj2 (at_Ok _ _ _) HF). cbn [mbind outcome_bind obind].
    rewrite put_in_range by lia. cbn [mbind outcome_bind obind].
    eexists. split; [reflexivity|]. cbn. by rewrite length_insert.
  - cbn. by rewrite length_resize.
Qed.

Lemma init_separators_completes s (C : nat) :
  length (m_factors s) = C → length (m_separators s) = C →
  (∀ row, row ∈ m_separators s → length row = C) →
  (∀ a b, (a, b) ∈ m_edges s → (a < C)%nat ∧ (b < C)%nat) →
  ∃ s', init_separators s = Ok s'.
Proof.
  intros Hf Hlen Hrows Hedges. unfold init_separators, edges.
  destruct (for_each_completes
    (λ u, m_factors u = m_factors s ∧ length (m_separators u) = C ∧
          ∀ row, row ∈ m_separators u → length row = C)
    separator_of (m_edges s) s) as (s' & Hs' & _); [| |by eauto].
  - intros [a b] u Hab (Hfu & Hlu & Hru). unfold separator_of.
    case_decide; [by eauto|].
    destruct (Hedges a b Hab) as [Ha Hb].
    destruct (lookup_lt_is_Some_2 (m_factors u) a) as [Fa HFa];
      [rewrite Hfu; lia|].
    destruct (lookup_lt_is_Some_2 (m_factors u) b) as [Fb HFb];
      [rewrite Hfu; lia|].
    rewrite (proj2 (at_Ok _ _ _) HFa), (proj2 (at_Ok _ _ _) HFb).
    cbn [mbind outcome_bind obind].
    destruct (put2_completes (m_separators u) a b C (f_vars Fa ∩ f_vars Fb))
      as (m1 & -> & H1 & H1'); [done..|].
    cbn [mbind outcome_bind obind].
    destruct (put2_completes m1 b a C (f_vars Fa ∩ f_vars Fb))
      as (m2 & -> & H2 & H2'); [done..|].
    cbn [mbind outcome_bind obind]. eexists. split; [reflexivity|]. done.
  - done.
Qed.

Lemma init_in_out_completes s :
  (∀ a b, (a, b) ∈ m_schedule s →
     (a < length (m_factors s))%nat ∧ (b < length (m_factors s))%nat) →
  ∃ s', init_in_out s = Ok s'.
Proof.
  intros Hsch. unfold init_in_out. cbv zeta.
  set (C := length (m_factors s)).
  destruct (for_each_completes
    (λ u, length (m_in u) = C ∧ length (m_out u) = C)
    in_out_of (m_schedule s)
    (set_m_out (resize C [] (m_out s)) (set_m_in (resize C [] (m_in s)) s)))
    as (s' & Hs' & _); [| |by eauto].
  - intros [a b] u Hab [Hi Ho]. unfold in_out_of.
    destruct (Hsch a b Hab) as [Ha Hb]. fold C in Ha, Hb.
    destruct (lookup_lt_is_Some_2 (m_in u) b) as [ins Hins]; [lia|].
    destruct (lookup_lt_is_Some_2 (m_out u) a) as [outs Houts]; [lia|].
    rewrite (proj2 (at_Ok _ _ _) Hins). cbn [mbind outcome_bind obind].
    rewrite put_in_range by lia. cbn [mbind outcome_bind obind].
    cbn [m_out set_m_in].
    rewrite (proj2 (at_Ok _ _ _) Houts). cbn [mbind outcome_bind obind].
    rewrite put_in_range by lia. cbn [mbind outcome_bind obind].
    eexists. split; [reflexivity|]. cbn. by rewrite !length_insert.
  - cbn. by rewrite !length_resize.
Qed.

Lemma init_messages_completes s :
  (∀ a b, (a, b) ∈ m_schedule s →
     (a < length (m_factors s))%nat ∧ (b < length (m_factors s))%nat) →
  ∃ s', init_messages s = Ok s'.
Proof.
  intros Hsch. unfold init_messages. cbv zeta.
  set (C := length (m_factors s)).
  set (N := length (m_schedule s)).
  match goal with |- ∃ s', for_each ?body ?l ?z = Ok s' =>
    destruct (for_each_completes
      (λ u, m_schedule u = m_schedule s ∧ length (m_edge_indeces u) = C ∧
            ∀ row, row ∈ m_edge_indeces u → length row = C) body l z)
      as (s' & Hs' & _); [| |by eauto] end.
  - intros i u Hi (Hs & Hl & Hr). apply elem_of_seq in Hi.
    destruct (lookup_lt_is_Some_2 (m_schedule u) i) as [[a b] Hab];
      [rewrite Hs; fold N; lia|].
    rewrite (proj2 (at_Ok _ _ _) Hab). cbn [mbind outcome_bind obind].
    destruct (Hsch a b) as [Ha Hb].
    { rewrite <- Hs. by eapply list_elem_of_lookup_2. }
    destruct (put2_completes (m_edge_indeces u) a b C i)
      as (m1 & -> & H1 & H1'); [done..|].
    cbn [mbind outcome_bind obind]. eexists. split; [reflexivity|]. done.
  - cbn. rewrite length_fmap, length_resize. split; [done|]. split; [done|].
    intros row (r & -> & _)%list_elem_of_fmap. by rewrite length_resize.
Qed.

Lemma init_potentials_completes s :
  length (m_originals s) = length (m_factors s) →
  (∀ α O o, m_originals s !! α = Some O → o ∈ O →
            (o < length (gm_factors (m_gmo s)))%nat) →
  ∃ s', init_potentials s = Ok s'.
Proof.
  intros Hlen Horig. unfold init_potentials.
  destruct (for_each_completes
    (λ u, m_originals u = m_originals s ∧ m_gmo u = m_gmo s ∧
          length (m_factors u) = length (m_factors s))
    potential_of (seq 0 (length (m_factors s))) s) as (s' & Hs' & _);
    [| |by eauto].
  - intros i u Hi (Ho & Hg & Hf). apply elem_of_seq in Hi.
    unfold potential_of.
    destruct (lookup_lt_is_Some_2 (m_originals u) i) as [O HO];
      [rewrite Ho; lia|].
    rewrite (proj2 (at_Ok _ _ _) HO). cbn [mbind outcome_bind obind].
    destruct (for_each_completes (λ _, True)
      (λ j F, G ← get_factor (m_gmo u) j; Ok (f_mul F G)) O
      (f_scalar (d_lit 1))) as (F & -> & _); [|done|].
    { intros j F Hj _. unfold get_factor.
      destruct (lookup_lt_is_Some_2 (gm_factors (m_gmo u)) j) as [G HG].
      { rewrite Hg. apply (Horig i O); [by rewrite <- Ho|done]. }
      rewrite (proj2 (at_Ok _ _ _) HG). cbn. eauto. }
    cbn [mbind outcome_bind obind].
    rewrite put_in_range by lia. cbn [mbind outcome_bind obind].
    eexists. split; [reflexivity|]. cbn. by rewrite length_insert.
  - done.
Qed.

(** ** [init()] completes *)

Lemma init_completes_on s :
  unbuilt s →
  (∀ x, x ∈ m_order (init_order s) →
        (x < length (m_order (init_order s)))%nat) →
  (∀ F v, F ∈ gm_factors (m_gmo s) → v ∈ f_vars F →
          (v < gm_nvar (m_gmo s))%nat) →
  ∃ s', init s = Ok s'.
Proof.
  intros (Hf & He & Hs & Ho & Hcl & _) Hord Hgm. unfold init.
  pose proof (init_order_frame s) as Hfr.
  remember (init_order s) as s0 eqn:Hs0. kept_members Hfr s0 s.
  destruct (init_buckets_completes s0) as [a Ha];
    [exact Hord| | |].
  { replace (m_gmo s0) with (m_gmo s) by congruence. exact Hgm. }
  { replace (m_originals s0) with (@nil flist) by congruence.
    by replace (m_factors s0) with (@nil factor) by congruence. }
  rewrite Ha. cbn [mbind outcome_bind obind].
  assert (Hrange : clusters_in_range a).
  { eapply init_buckets_in_range; [| | |exact Ha]; congruence. }
  assert (Hedges : edges_of_schedule a).
  { eapply init_buckets_edges_of_schedule; [|exact Ha]. congruence. }
  destruct (init_buckets_one_holder s0 a) as (L' & Hlen & _ & Hin);
    [congruence|congruence|exact Ha|].
  pose proof (init_buckets_frame _ _ Ha) as Hb. unfold built_from in Hb.
  kept_members Hb a s0.
  destruct (init_scopes_completes a) as [a0 Ha0].
  rewrite Ha0. cbn [mbind outcome_bind obind].
  pose proof (init_scopes_frame _ _ Ha0) as Hsc. kept_members Hsc a0 a.
  destruct (init_scopes_lengths _ _ Ha0) as (Lsc & Lsep & Lrows).
  destruct Hrange as (Hsched & _ & _).
  destruct (init_separators_completes a0 (length (m_factors a))) as [a1 Ha1];
    [congruence|done|done| |].
  { intros p q Hpq. replace (m_edges a0) with (m_edges a) in Hpq by congruence.
    destruct (Hedges p q Hpq) as [Hin'|Hin']; apply Hsched in Hin'; tauto. }
  rewrite Ha1. cbn [mbind outcome_bind obind].
  pose proof (init_separators_frame _ _ Ha1) as Hsep. kept_members Hsep a1 a0.
  destruct (init_in_out_completes a1) as [a2 Ha2].
  { intros p q Hpq.
    replace (m_schedule a1) with (m_schedule a) in Hpq by congruence.
    replace (m_factors a1) with (m_factors a) by congruence. auto. }
  rewrite Ha2. cbn [mbind outcome_bind obind].
  pose proof (init_in_out_frame _ _ Ha2) as Hio. kept_members Hio a2 a1.
  pose proof (init_roots_frame a2) as Hr.
  remember (init_roots a2) as r2 eqn:Hr2. kept_members Hr r2 a2.
  destruct (init_messages_completes r2) as [a3 Ha3].
  { intros p q Hpq.
    replace (m_schedule r2) with (m_schedule a) in Hpq by congruence.
    replace (m_factors r2) with (m_factors a) by congruence. auto. }
  rewrite Ha3. cbn [mbind outcome_bind obind].
  pose proof (init_messages_frame _ _ Ha3) as (Hmsg & _ & _).
  kept_members Hmsg a3 r2.
  destruct (init_potentials_completes a3) as [a4 Ha4].
  { replace (m_originals a3) with (m_originals a) by congruence.
    replace (m_factors a3) with (m_factors a) by congruence. exact Hlen. }
  { intros α O o HO Hoin.
    replace (m_originals a3) with (m_originals a) in HO by congruence.
    replace (m_gmo a3) with (m_gmo s0) by congruence.
    apply (Hin (in_cluster α) o). cbn. eauto. }
  rewrite Ha4. cbn [mbind outcome_bind obind]. eauto.
Qed.

End Completion_of_init.

Section Clusters_for_the_variables.
Context `{FA : FactorAlgebra} `{MS : !ModelServices}.
Implicit Types s u : ijgp.
Implicit Types L : locals.

(** ** The lookup of [vin] *)

Lemma insert_adj_lists adj idx (vs : variable_set) v :
  v ∈ vs → ∃ l, insert_adj adj idx vs !! v = Some l ∧ idx ∈ l.
Proof.
  intros Hv. unfold insert_adj.
  destruct (set_fold_max_bounds (length adj) vs) as [_ Hn].
  set (n := set_fold _ _ _) in *. rewrite list_lookup_imap.
  destruct (lookup_lt_is_Some_2 (resize n [] adj) v) as [l0 Hl0];
    [rewrite length_resize; by apply Hn|].
  rewrite Hl0. cbn. rewrite decide_True by done.
  eexists. split; [reflexivity|]. apply elem_of_fl_insert. by left.
Qed.

Lemma insert_adj_keeps adj idx (vs : variable_set) v l i :
  adj !! v = Some l → i ∈ l →
  ∃ l', insert_adj adj idx vs !! v = Some l' ∧ i ∈ l'.
Proof.
  intros Hl Hi. unfold insert_adj.
  destruct (set_fold_max_bounds (length adj) vs) as [Hge _].
  set (n := set_fold _ _ _) in *. rewrite list_lookup_imap.
  pose proof (lookup_lt_Some _ _ _ Hl) as Hlt.
  rewrite lookup_resize by lia. rewrite Hl. cbn.
  eexists. split; [reflexivity|].
  case_decide; [|done]. apply elem_of_fl_insert. by right.
Qed.

Lemma erase_adj_keeps adj idx (vs : variable_set) adj' v l i :
  erase_adj adj idx vs = Ok adj' → adj !! v = Some l → i ∈ l → i ≠ idx →
  ∃ l', adj' !! v = Some l' ∧ i ∈ l'.
Proof.
  unfold erase_adj. case_decide; [|done]. intros [= <-] Hl Hi Hne.
  rewrite list_lookup_imap, Hl. cbn. eexists. split; [reflexivity|].
  case_decide; [|done]. by apply elem_of_fl_remove.
Qed.

(** ** A bucket keeps the other variables listed *)

Lemma merge_pass_listed (v : nat) (ids0 : flist) s VX L ids
    (t : score_table) top L1 t1 t2 :
  table_ok s VX (fin L) ids t ∧ NoDup ids ∧ (∀ k, k ∈ ids → k ∈ ids0) ∧
  (∃ i F, fin L !! i = Some F ∧ v ∈ F ∧
          (i ∈ ids ∨ ((i ∉ ids0) ∧ ∃ l, vin L !! v = Some l ∧ i ∈ l))) →
  table_top t = Ok top → Qle_bool 0 (e_key top) = true →
  merge_pair (e_pair top).1 (e_pair top).2 L = Ok L1 →
  for_each (λ k t, table_erase (sPair (e_pair top).1 k) t) ids t = Ok t1 →
  for_each (λ k t, if decide (k = (e_pair top).2) then Ok t
                   else err ← score s (fin L1) VX (e_pair top).2 k;
                        t' ← table_erase (sPair (e_pair top).2 k) t;
                        Ok (table_insert err (sPair (e_pair top).2 k) t'))
           (fl_remove (e_pair top).1 ids) t1 = Ok t2 →
  table_ok s VX (fin L1) (fl_remove (e_pair top).1 ids) t2 ∧
  NoDup (fl_remove (e_pair top).1 ids) ∧
  (∀ k, k ∈ fl_remove (e_pair top).1 ids → k ∈ ids0) ∧
  (∃ i F, fin L1 !! i = Some F ∧ v ∈ F ∧
          (i ∈ fl_remove (e_pair top).1 ids ∨
           ((i ∉ ids0) ∧ ∃ l, vin L1 !! v = Some l ∧ i ∈ l))).
Proof.
  intros (Hok & Hnd & Hsub & i & F & HF & Hv & Hi) Htop Hkey Hm He Hs.
  destruct (merge_pass_ok s VX L ids t top L1 t1 t2 Hok Htop Hkey Hm He Hs)
    as (Hii & Hjj & Hlt & _ & Hok2).
  set (ii := (e_pair top).1) in *. set (jj := (e_pair top).2) in *.
  split; [exact Hok2|]. split; [by apply NoDup_filter|].
  split; [intros k [_ Hk]%elem_of_fl_remove; by apply Hsub|].
  apply merge_pair_Ok in Hm
    as (Fi & Fj & Fi' & Oi & Oj & Ni & Nj & HFi & HFj & _ & _ & _ & _ & _
        & Hvin & Hfin & _ & _).
  assert (Hjj1 : jj ∈ fl_remove ii ids)
    by (apply elem_of_fl_remove; split; [lia|done]).
  assert (Hnew : fin L1 !! jj = Some (Fj ∪ Fi)).
  { rewrite Hfin, list_lookup_insert_ne by lia.
    apply list_lookup_insert_eq. by eapply lookup_lt_Some. }
  assert (Hold : ∀ k, k ≠ ii → k ≠ jj → fin L1 !! k = fin L !! k).
  { intros k H1 H2. by rewrite Hfin, !list_lookup_insert_ne by done. }
  destruct Hi as [Hi|(Hi & l & Hl & Hil)].
  - destruct (decide (i = ii)) as [->|Hne1].
    { exists jj, (Fj ∪ Fi). split; [done|].
      split; [|by left]. apply elem_of_union. right. congruence. }
    destruct (decide (i = jj)) as [->|Hne2].
    { exists jj, (Fj ∪ Fi). split; [done|].
      split; [|by left]. apply elem_of_union. left. congruence. }
    exists i, F. split; [by rewrite Hold|]. split; [done|]. left.
    by apply elem_of_fl_remove.
  - assert (i ≠ ii) by (intros ->; by apply Hi, Hsub).
    assert (i ≠ jj) by (intros ->; by apply Hi, Hsub).
    exists i, F. split; [by rewrite Hold|]. split; [done|]. right.
    split; [done|]. by eapply erase_adj_keeps.
Qed.

Lemma eliminate_listed (v x : nat) (ids1 passed : flist) k L u al L' u' al' :
  x ≠ v → k ∈ ids1 → k ∉ passed →
  (∃ i F, fin L !! i = Some F ∧ v ∈ F ∧
          ((i ∈ ids1 ∧ (i ∉ passed)) ∨ ∃ l, vin L !! v = Some l ∧ i ∈ l)) →
  eliminate x k (L, u, al) = Ok (L', u', al') →
  ∃ i F, fin L' !! i = Some F ∧ v ∈ F ∧
         ((i ∈ ids1 ∧ (i ∉ passed ++ [k])) ∨ ∃ l, vin L' !! v = Some l ∧ i ∈ l).
Proof.
  intros Hx Hk Hnew (i & F & HF & Hv & Hi) Hrun.
  apply eliminate_Ok in Hrun
    as (Fk & Cx & Ni & Oi & Oa & HFk & _ & _ & _ & _ & _ & -> & _).
  cbn [fin vin].
  destruct (decide (i = k)) as [->|Hne].
  - exists k, (Fk ∖ {[x]}).
    assert (v ∈ Fk ∖ {[x]}) as Hv'.
    { apply elem_of_difference. split; [congruence|].
      rewrite elem_of_singleton. congruence. }
    split; [apply list_lookup_insert_eq; by eapply lookup_lt_Some|].
    split; [done|]. right. by apply insert_adj_lists.
  - exists i, F. split; [by rewrite list_lookup_insert_ne|]. split; [done|].
    destruct Hi as [[H1 H2]|(l & Hl & Hil)].
    + left. split; [done|]. rewrite elem_of_app, list_elem_of_singleton.
      tauto.
    + right. by eapply insert_adj_keeps.
Qed.

Lemma bucket_keeps_listed v x L u L' u' :
  x ≠ v → vin_increasing L → listed v L → bucket x (L, u) = Ok (L', u') →
  listed v L'.
Proof.
  intros Hx Hinc Hlisted. unfold bucket.
  destruct (vin L !! x) as [[|i0 ids0]|] eqn:Hvin;
    try (intros [= <- <-]; exact Hlisted).
  intros Hrun.
  apply bind_Ok in Hrun as (t & Ht & Hrun).
  apply bind_Ok in Hrun as ([L1 ids1] & Hloop & Hrun).
  apply bind_Ok in Hrun as ([[L2 u2] al] & Helim & Hrun).
  destruct al as [|a0 al]; [discriminate|]. injection Hrun as <- _.
  assert (Hnd : NoDup (i0 :: ids0)).
  { apply increasing_NoDup. unfold vin_increasing in Hinc.
    rewrite Forall_lookup in Hinc. by apply (Hinc x). }
  assert (table_ok u x (fin L) (i0 :: ids0) t) as Hok.
  { apply (populate_ok u (fin L) x [] (i0 :: ids0) empty_table t);
      [exact Hnd|apply empty_table_ok|exact Ht]. }
  eapply (merge_loop_passes
    (λ L1 ids1 t1,
       table_ok u x (fin L1) ids1 t1 ∧ NoDup ids1 ∧
       (∀ k, k ∈ ids1 → k ∈ i0 :: ids0) ∧
       (∃ i F, fin L1 !! i = Some F ∧ v ∈ F ∧
               (i ∈ ids1 ∨
                ((i ∉ i0 :: ids0) ∧ ∃ l, vin L1 !! v = Some l ∧ i ∈ l)))))
    in Hloop as (t' & _ & Hnd1 & Hsub1 & i & F & HF & Hv & Hi).
  2:{ intros. by eapply merge_pass_listed. }
  2:{ split; [exact Hok|]. split; [exact Hnd|]. split; [done|].
      destruct Hlisted as (i & F & l & HF & Hv & Hl & Hil).
      exists i, F. split; [done|]. split; [done|].
      destruct (decide (i ∈ i0 :: ids0)); [by left|right]. eauto. }
  apply (for_each_passed
    (λ passed st,
       ∃ i F, fin st.1.1 !! i = Some F ∧ v ∈ F ∧
              ((i ∈ ids1 ∧ (i ∉ passed)) ∨
               ∃ l, vin st.1.1 !! v = Some l ∧ i ∈ l))) in Helim.
  - cbn [fst] in Helim. destruct Helim as (k & G & HG & Hk & [[H1 H2]|Hl]);
      [done|]. destruct Hl as (l & Hl & Hkl). by exists k, G, l.
  - intros passed k [[La ua] ala] [[Lb ub] alb] Hk Hnew _ Hp Hstep.
    cbn [fst] in *. by eapply eliminate_listed.
  - exact Hnd1.
  - cbn [fst]. exists i, F. split; [done|]. split; [done|].
    destruct Hi as [Hi|[_ Hi]]; [left|by right].
    split; [done|]. by intros []%elem_of_nil.
Qed.

(** ** The bucket of a listed variable makes a cluster *)

Lemma eliminate_has_cluster x i L u al L' u' al' :
  eliminate x i (L, u, al) = Ok (L', u', al') → ¬ no_cluster u' x.
Proof.
  intros Hrun. apply eliminate_Ok in Hrun
    as (Fi & Cx & Ni & Oi & Oa & _ & HCx & _ & _ & _ & _ & _ & ->).
  match goal with |- context [foldl (push_edge ?a) ?s0 Ni] =>
    destruct (push_edges_sizes a Ni s0) as (_ & _ & Hc);
    set (t := foldl (push_edge a) s0 Ni) in * end.
  cbn in Hc. unfold no_cluster. cbn [m_clusters set_m_originals]. rewrite Hc.
  rewrite list_lookup_insert_eq by (by eapply lookup_lt_Some).
  intros [?|[= Hnil]]; [done|].
  assert (length (m_factors u) ∈ fl_insert (length (m_factors u)) Cx) as Hin
    by (apply elem_of_fl_insert; by left).
  rewrite Hnil in Hin. by apply elem_of_nil in Hin.
Qed.

Lemma eliminate_keeps_cluster v x i L u al L' u' al' :
  ¬ no_cluster u v → eliminate x i (L, u, al) = Ok (L', u', al') →
  ¬ no_cluster u' v.
Proof.
  intros Hc Hrun. destruct (decide (x = v)) as [->|Hne].
  - by eapply eliminate_has_cluster.
  - unfold no_cluster in *.
    by rewrite (eliminate_clusters _ _ _ _ _ _ _ _ _ Hne Hrun).
Qed.

Lemma bucket_keeps_cluster v x L u L' u' :
  ¬ no_cluster u v → bucket x (L, u) = Ok (L', u') → ¬ no_cluster u' v.
Proof.
  intros Hc Hrun.
  eapply (bucket_inv (λ _ t, ¬ no_cluster t v) True);
    [| | | |exact Hc|exact Hrun]; auto.
  - intros. by eapply eliminate_keeps_cluster.
  - intros L1 t a b Hq. unfold no_cluster in *.
    by rewrite push_edge_clusters.
Qed.

Lemma bucket_gives_a_cluster v L u L' u' :
  listed v L → bucket v (L, u) = Ok (L', u') → ¬ no_cluster u' v.
Proof.
  intros (i & F & l & _ & _ & Hl & Hil). unfold bucket. rewrite Hl.
  destruct l as [|i0 ids0]; [by apply elem_of_nil in Hil|].
  intros Hrun.
  apply bind_Ok in Hrun as (t & Ht & Hrun).
  apply bind_Ok in Hrun as ([L1 ids1] & Hloop & Hrun).
  apply bind_Ok in Hrun as ([[L2 u2] al] & Helim & Hrun).
  destruct al as [|a0 al]; [discriminate|]. injection Hrun as _ <-.
  assert (¬ no_cluster u2 v) as Hc.
  { pose proof (eliminations_sizes _ _ _ _ _ _ _ _ Helim) as Hlen.
    destruct ids1 as [|k ids1]; [cbn in Hlen; lia|].
    cbn [for_each] in Helim.
    apply bind_Ok in Helim as ([[La ua] ala] & H1 & Helim).
    apply eliminate_has_cluster in H1.
    eapply (for_each_inv (λ st, ¬ no_cluster st.1.2 v)) in Helim;
      [exact Helim| |exact H1].
    intros j [[Lb ub] alb] [[Lc uc] alc] _ Hb Hj. cbn [fst snd] in *.
    by eapply eliminate_keeps_cluster. }
  apply (chain_inv (λ t, ¬ no_cluster t v) (a0 :: al)); [|exact Hc].
  intros t0 a b Hq. unfold no_cluster in *. by rewrite push_edge_clusters.
Qed.

(** ** The clusters of the variables of the order *)

Lemma init_locals_listed gm v F :
  (v < gm_nvar gm)%nat → F ∈ gm_factors gm → v ∈ f_vars F →
  listed v (init_locals gm).
Proof.
  intros Hv HF Hin. apply list_elem_of_lookup_1 in HF as [i Hi].
  exists i, (f_vars F), (with_variable gm v). cbn.
  split; [by rewrite list_lookup_fmap, Hi|]. split; [done|].
  split.
  - rewrite list_lookup_fmap, lookup_seq_lt by done. done.
  - unfold with_variable. apply list_elem_of_filter. split.
    + unfold has_variable. rewrite Hi. by apply bool_decide_pack.
    + apply elem_of_seq. apply lookup_lt_Some in Hi. lia.
Qed.

Lemma init_buckets_cluster s s' v :
  v ∈ m_order s → listed v (init_locals (m_gmo s)) →
  init_buckets s = Ok s' → ¬ no_cluster s' v.
Proof.
  intros Hv Hlisted. unfold init_buckets. intros Hrun.
  apply bind_Ok in Hrun as ([L' u'] & Hrun & [= <-]).
  eapply (for_each_inv_establishes
    (λ st, vin_increasing st.1 ∧ (listed v st.1 ∨ ¬ no_cluster st.2 v))
    (λ st x, x = v → ¬ no_cluster st.2 v)) in Hrun as [_ Hrun].
  - by apply (Hrun v Hv).
  - intros x [L u] [La ua] _ [Hinc Hor] Hb. cbn [fst snd] in *.
    split; [split; [by eapply bucket_increasing|]|split].
    + destruct Hor as [Hl|Hc]; [|right; by eapply bucket_keeps_cluster].
      destruct (decide (x = v)) as [->|Hne].
      * right. by eapply bucket_gives_a_cluster.
      * left. by eapply bucket_keeps_listed.
    + intros ->. destruct Hor as [Hl|Hc].
      * by eapply bucket_gives_a_cluster.
      * by eapply bucket_keeps_cluster.
    + intros y Hy ->. by eapply bucket_keeps_cluster; [apply Hy|].
  - cbn [fst snd]. split; [apply init_locals_increasing|by left].
Qed.

Lemma init_cluster_of s s' v F :
  init s = Ok s' → v ∈ m_order s' → (v < gm_nvar (m_gmo s))%nat →
  F ∈ gm_factors (m_gmo s) → v ∈ f_vars F → ¬ no_cluster s' v.
Proof.
  intros Hrun Hv Hlt HF Hin. open_init Hrun s s' s0.
  unfold no_cluster. replace (m_clusters s') with (m_clusters a) by congruence.
  apply (init_buckets_cluster s0 a v); [congruence| |exact Ha].
  replace (m_gmo s0) with (m_gmo s) by congruence.
  by eapply init_locals_listed.
Qed.

End Clusters_for_the_variables.

Section Completion_on_a_model.
Context `{FA : FactorAlgebra} `{MS : !ModelServices}.
Implicit Types s u : ijgp.

(** [m_clusters] keeps the length that [init()] gives it, the length of
    the order. *)
Lemma init_clusters_length s s' :
  init s = Ok s' → length (m_clusters s') = length (m_order s').
Proof.
  intros Hrun. open_init Hrun s s' s0.
  replace (m_clusters s') with (m_clusters a) by congruence.
  replace (m_order s') with (m_order s0) by congruence.
  apply (init_buckets_inv (λ _ t, length (m_clusters t) = length (m_order s0)))
    in Ha as [_ Ha]; [exact Ha| |by cbn; rewrite length_resize].
  intros x L1 t L2 t' _ HQ Hbk.
  eapply (bucket_inv (λ _ t, length (m_clusters t) = length (m_order s0)) True);
    [| | | |exact HQ|exact Hbk]; [done| | |done].
  - intros i L3 t3 al L4 t4 al' _ Hq Hel.
    apply eliminate_sizes in Hel as (Hel & _). by rewrite Hel.
  - intros L3 t3 p q Hq. destruct (push_edge_sizes q t3 p) as (Hp & _).
    by rewrite Hp.
Qed.

Lemma init_no_cluster_iff s s' v :
  m_clusters s = [] → init s = Ok s' → (v < gm_nvar (m_gmo s))%nat →
  (no_cluster s' v ↔ v ∉ m_order s' ∨ unused (m_gmo s) v).
Proof.
  intros Hfresh Hrun Hv. split.
  - intros Hno. destruct (decide (v ∈ m_order s')) as [Hin|Hout]; [|by left].
    right.
    destruct (decide (Exists (λ F, v ∈ f_vars F) (gm_factors (m_gmo s))))
      as [Hex|Hnone].
    + apply Exists_exists in Hex as (F & HF & HvF). exfalso.
      by apply (init_cluster_of s s' v F Hrun Hin Hv HF).
    + intros F HF HvF. apply Hnone. apply Exists_exists. eauto.
  - intros Hor. pose proof Hrun as Hrun'.
    apply init_clusters in Hrun' as (a & Ha & Hc & _).
    unfold no_cluster. rewrite Hc.
    assert (Hsame : m_order s' = m_order (init_order s)).
    { open_init Hrun s s' s0. congruence. }
    assert (Hcl0 : m_clusters (init_order s) = []).
    { pose proof (init_order_frame s) as Hfr.
      rewrite (f_equal m_clusters Hfr). exact Hfresh. }
    assert (Hgm0 : m_gmo (init_order s) = m_gmo s).
    { pose proof (init_order_frame s) as Hfr.
      exact (f_equal m_gmo Hfr). }
    destruct Hor as [Hout|Hu].
    + apply (init_buckets_not_in_order (init_order s) a v); [done| |done].
      by rewrite <- Hsame.
    + apply (init_buckets_unused (init_order s) a v); [done| |done].
      by rewrite Hgm0.
Qed.

(** The clusters that [init()] makes belong to variables of the order. *)
Lemma init_clusters_of_the_order s s' c :
  unbuilt s → m_cluster2var s = ∅ → init s = Ok s' →
  (c < length (m_factors s'))%nat →
  ∃ x, m_cluster2var s' !! c = Some x ∧ x ∈ m_order s'.
Proof.
  intros (Hf & He & Hs & Ho & Hcl & _) Hv Hrun Hc.
  pose proof Hrun as Hrun'. open_init Hrun' s s' s0.
  destruct (init_buckets_clusters_of_variables s0 a) as [_ HK];
    [congruence|congruence|congruence|exact Ha|].
  assert (Hrange : clusters_in_range a).
  { eapply init_buckets_in_range; [| | |exact Ha]; congruence. }
  assert (EC : length (m_factors s') = length (m_factors a)).
  { transitivity (length (m_factors a4)); [congruence|].
    rewrite (init_potentials_length _ _ Ha4). congruence. }
  destruct Hrange as (_ & Hsome & _).
  destruct (Hsome c ltac:(lia)) as [x Hx]. exists x.
  split; [congruence|].
  destruct (decide (x ∈ m_order s')) as [Hin|Hout]; [done|]. exfalso.
  apply HK in Hx as (cl & Hcl' & Hccl).
  assert (Hno : no_cluster a x).
  { apply (init_buckets_not_in_order s0 a x); [congruence| |exact Ha].
    replace (m_order s0) with (m_order s') by congruence. exact Hout. }
  destruct Hno as [Hno|Hno]; rewrite Hcl' in Hno; [discriminate|].
  injection Hno as ->. by apply elem_of_nil in Hccl.
Qed.

(** X26. [init()] completes on an object without join graph when no label
    of the order that it uses reaches the length of this order and every
    scope of a factor of the model lies within the variables of the model:
    every vector index of the construction of the join graph is then in
    range, the table of scores holds the entries that the merging loop
    erases, and every bucket that is not empty makes a cluster. *)
Theorem init_completes s :
  unbuilt s →
  (∀ x, x ∈ m_order (init_order s) →
        (x < length (m_order (init_order s)))%nat) →
  (∀ F v, F ∈ gm_factors (m_gmo s) → v ∈ f_vars F →
          (v < gm_nvar (m_gmo s))%nat) →
  ∃ s', init s = Ok s'.
Proof. apply init_completes_on. Qed.

(** X27. After [init()] on an object without clusters, a variable of the
    model is left without cluster exactly when the order does not list it
    or no factor of the model has it in its scope: the bucket of a
    variable that occurs in a factor is not empty when the order reaches
    it. *)
Theorem init_clusters_of_the_variables s s' v :
  m_clusters s = [] → init s = Ok s' → (v < gm_nvar (m_gmo s))%nat →
  (no_cluster s' v ↔ v ∉ m_order s' ∨ unused (m_gmo s) v).
Proof. apply init_no_cluster_iff. Qed.

(** C3, as the code has it. [init()] does not compare the order with the
    variables of the model and raises no exception, whatever the order
    is. On an object without join graph it completes, also for an order
    that leaves variables of the model out, when no label of the order
    reaches the length of the order and the scopes of the factors lie
    within the variables of the model; it then builds the join graph over
    the variables of the order: every cluster belongs to a variable of
    the order, and a variable of the model is without cluster exactly
    when the order leaves it out or no factor has it in its scope. A
    label of the order that occurs in a factor and reaches the length of
    the order makes [init()] read past the end of [m_clusters], which it
    has resized to that length. *)
Theorem init_does_not_check_order s :
  ¬ raises (init s) ∧
  (unbuilt s → m_cluster2var s = ∅ →
   (∀ x, x ∈ m_order (init_order s) →
         (x < length (m_order (init_order s)))%nat) →
   (∀ F v, F ∈ gm_factors (m_gmo s) → v ∈ f_vars F →
           (v < gm_nvar (m_gmo s))%nat) →
   ∃ s', init s = Ok s' ∧
     (∀ c, (c < length (m_factors s'))%nat →
           ∃ x, m_cluster2var s' !! c = Some x ∧ x ∈ m_order s') ∧
     (∀ v, (v < gm_nvar (m_gmo s))%nat →
           (no_cluster s' v ↔ v ∉ m_order s' ∨ unused (m_gmo s) v))) ∧
  (∀ x F, x ∈ m_order (init_order s) → (x < gm_nvar (m_gmo s))%nat →
          F ∈ gm_factors (m_gmo s) → x ∈ f_vars F →
          (length (m_order (init_order s)) ≤ x)%nat →
          init s = Undefined).
Proof.
  split; [apply no_throw_init|]. split.
  - intros Hu Hv Hlab Hgm.
    destruct (init_completes_on s Hu Hlab Hgm) as [s' Hrun].
    exists s'. split; [done|]. split.
    + intros c Hc. by eapply init_clusters_of_the_order.
    + intros v Hlt. apply init_no_cluster_iff; [|done|done].
      by destruct Hu as (_ & _ & _ & _ & ? & _).
  - intros x F Hx Hlt HF HxF Hlen.
    destruct (init s) as [s'| | |] eqn:Hrun; [exfalso| |done|].
    + assert (Hsame : m_order s' = m_order (init_order s)).
      { pose proof Hrun as Hrun'. open_init Hrun' s s' s0. congruence. }
      pose proof (init_clusters_length _ _ Hrun) as Hcl.
      assert (Hc : ¬ no_cluster s' x).
      { apply (init_cluster_of s s' x F Hrun); [|done..]. by rewrite Hsame. }
      apply Hc. left. apply lookup_ge_None. rewrite Hcl, Hsame. lia.
    + exfalso. apply (no_throw_init s). rewrite Hrun. unfold raises. eauto.
    + exfalso. by apply (init_enough_fuel s).
Qed.



End Completion_on_a_model.

Section Second_loop_of_update.
Context `{FA : FactorAlgebra} `{MS : !ModelServices}.
Implicit Types s u : ijgp.

(** The belief that [belief_of] stores does not depend on the beliefs that
    the object holds. *)
Lemma belief_of_value r v s s' :
  belief_of r v s = Ok s' →
  ∃ b, s' = set_m_beliefs (<[v := b]> (m_beliefs s)) s ∧
       (v < length (m_beliefs s))%nat ∧
       ∀ bl, (v < length bl)%nat →
             belief_of r v (set_m_beliefs bl s)
             = Ok (set_m_beliefs (<[v := b]> bl) s).
Proof.
  unfold belief_of. intros Hrun. cbn [m_clusters m_scopes set_m_beliefs].
  apply bind_Ok in Hrun as (Cv & -> & Hrun). cbn [mbind outcome_bind obind].
  apply bind_Ok in Hrun as (c & -> & Hrun). cbn [mbind outcome_bind obind].
  apply bind_Ok in Hrun as (vars & -> & Hrun). cbn [mbind outcome_bind obind].
  apply bind_Ok in Hrun as (bel & Hbel & Hrun).
  change (calc_belief (set_m_beliefs ?bl s) c) with (calc_belief s c).
  apply bind_Ok in Hrun as (bl0 & Hput & [= <-]).
  apply put_Ok in Hput as [Hlt ->].
  eexists. split; [reflexivity|]. split; [exact Hlt|]. intros bl Hbl.
  change (calc_belief (set_m_beliefs bl s) c) with (calc_belief s c).
  rewrite Hbel. cbn [mbind outcome_bind obind].
  cbn [m_beliefs set_m_beliefs].
  rewrite put_in_range by done. reflexivity.
Qed.

Lemma belief_of_rescale v s :
  m_task s ≠ MAP → belief_of false v s = belief_of true v s.
Proof.
  intros Ht. unfold belief_of. by rewrite (bool_decide_eq_false_2 _ Ht).
Qed.

(** The beliefs that the first loop of [update] leaves are those that
    [belief_of] computes again. *)
Lemma beliefs_loop_value l s s1 :
  NoDup l → for_each (belief_of true) l s = Ok s1 →
  ∃ B, s1 = set_m_beliefs B s ∧
       ∀ v, v ∈ l → belief_of true v s1 = Ok s1.
Proof.
  intros Hnd Hrun.
  apply (for_each_passed
    (λ passed u, ∃ B, u = set_m_beliefs B s ∧
       ∀ v, v ∈ passed →
            ∃ b, B !! v = Some b ∧
                 ∀ bl, (v < length bl)%nat →
                       belief_of true v (set_m_beliefs bl s)
                       = Ok (set_m_beliefs (<[v := b]> bl) s))) in Hrun;
    [|clear Hrun|exact Hnd|].
  - destruct Hrun as (B & -> & HB). exists B. split; [done|].
    intros v Hv. destruct (HB v Hv) as (b & Hb & Hagain).
    rewrite Hagain by (by eapply lookup_lt_Some).
    by rewrite list_insert_id.
  - intros passed v u u' Hv Hnew _ (B & -> & HB) Hstep.
    apply belief_of_value in Hstep as (b & -> & Hlt & Hagain).
    cbn [m_beliefs set_m_beliefs] in *.
    exists (<[v := b]> B). split; [reflexivity|].
    intros w [Hw|Hw%list_elem_of_singleton]%elem_of_app.
    + destruct (HB w Hw) as (bw & Hbw & Hw').
      exists bw. split; [|exact Hw'].
      rewrite list_lookup_insert_ne; [done|]. intros ->. done.
    + subst w. exists b. split; [by apply list_lookup_insert_eq|].
      intros bl Hbl. exact (Hagain bl Hbl).
  - exists (m_beliefs s). split; [frame_eq|]. by intros v []%elem_of_nil.
Qed.

(** X29. For the tasks PR and MAR the second loop of [update()] stores
    again the beliefs that the first loop has stored: [update()] does what
    its first loop does, and fails where its first loop fails. *)
Theorem update_second_loop s :
  m_task s ≠ MAP →
  update s = for_each (belief_of true) (seq 0 (gm_nvar (m_gmo s))) s.
Proof.
  intros Ht. unfold update. cbv zeta.
  destruct (for_each (belief_of true) (seq 0 (gm_nvar (m_gmo s))) s)
    as [s1| | |] eqn:Hloop; cbn [mbind outcome_bind obind]; try reflexivity.
  destruct (beliefs_loop_value _ _ _ (NoDup_seq _ _) Hloop) as (B & HB & Hagain).
  assert (Ht1 : m_task s1 = m_task s) by (by rewrite HB).
  assert (Hg1 : m_gmo s1 = m_gmo s) by (by rewrite HB).
  assert (Hidle : for_each (belief_of false) (seq 0 (gm_nvar (m_gmo s))) s1
                  = Ok s1).
  { apply for_each_idle. intros v Hv.
    rewrite belief_of_rescale by (by rewrite Ht1). by apply Hagain. }
  rewrite Ht1. destruct (m_task s); [exact Hidle|exact Hidle|done].
Qed.

End Second_loop_of_update.

Section What_init_keeps.
Context `{FA : FactorAlgebra} `{MS : !ModelServices}.
Implicit Types s u : ijgp.
Implicit Types L : locals.

Lemma push_edge_grows alpha u j :
  m_schedule u `prefix_of` m_schedule (push_edge alpha u j) ∧
  m_edges u `prefix_of` m_edges (push_edge alpha u j) ∧
  m_factors (push_edge alpha u j) = m_factors u.
Proof.
  unfold push_edge, add_edge. case_decide; cbn.
  - split; [by apply prefix_app_r|]. done.
  - split; [by apply prefix_app_r|]. split; [by apply prefix_app_r|done].
Qed.

Lemma push_edges_grow alpha js u :
  m_schedule u `prefix_of` m_schedule (foldl (push_edge alpha) u js) ∧
  m_edges u `prefix_of` m_edges (foldl (push_edge alpha) u js).
Proof.
  revert u. induction js as [|j js IH]; intros u; cbn; [done|].
  destruct (IH (push_edge alpha u j)) as [H1 H2].
  destruct (push_edge_grows alpha u j) as (G1 & G2 & _).
  split; etrans; eauto.
Qed.

(** A bucket adds to the schedule, to the edges and to the clusters. *)
Lemma bucket_grows (sch edg : list (nat * nat)) (n : nat) x L u L' u' :
  sch `prefix_of` m_schedule u ∧ edg `prefix_of` m_edges u ∧
  (n ≤ length (m_factors u))%nat →
  bucket x (L, u) = Ok (L', u') →
  sch `prefix_of` m_schedule u' ∧ edg `prefix_of` m_edges u' ∧
  (n ≤ length (m_factors u'))%nat.
Proof.
  intros HQ Hrun.
  eapply (bucket_inv
    (λ _ t, sch `prefix_of` m_schedule t ∧ edg `prefix_of` m_edges t ∧
            (n ≤ length (m_factors t))%nat) True);
    [| | | |exact HQ|exact Hrun]; [done| | |done].
  - intros i L1 t al L2 t' al' _ (H1 & H2 & H3) Hel.
    apply eliminate_Ok in Hel
      as (Fi & Cx & Ni & Oi & Oa & _ & _ & _ & _ & _ & _ & _ & ->).
    match goal with |- context [foldl (push_edge ?a) ?s0 Ni] =>
      destruct (push_edges_grow a Ni s0) as [G1 G2];
      destruct (push_edges_sizes a Ni s0) as (G3 & _ & _) end.
    cbn in G1, G2, G3. cbn [m_schedule m_edges m_factors set_m_originals].
    split; [by etrans|]. split; [by etrans|].
    rewrite G3, length_app. lia.
  - intros L1 t a b (H1 & H2 & H3).
    destruct (push_edge_grows b t a) as (G1 & G2 & G3).
    split; [by etrans|]. split; [by etrans|]. by rewrite G3.
Qed.

(** The bucket of a listed variable adds a cluster. *)
Lemma bucket_adds_a_cluster v L u L' u' :
  listed v L → bucket v (L, u) = Ok (L', u') →
  (length (m_factors u) < length (m_factors u'))%nat.
Proof.
  intros (i & F & l & _ & _ & Hl & Hil). unfold bucket. rewrite Hl.
  destruct l as [|i0 ids0]; [by apply elem_of_nil in Hil|].
  intros Hrun.
  apply bind_Ok in Hrun as (t & Ht & Hrun).
  apply bind_Ok in Hrun as ([L1 ids1] & Hloop & Hrun).
  apply bind_Ok in Hrun as ([[L2 u2] al] & Helim & Hrun).
  destruct al as [|a0 al]; [discriminate|]. injection Hrun as _ <-.
  assert (length (m_factors u) < length (m_factors u2))%nat as Hc.
  { pose proof (eliminations_sizes _ _ _ _ _ _ _ _ Helim) as Hlen.
    destruct ids1 as [|k ids1]; [cbn in Hlen; lia|].
    cbn [for_each] in Helim.
    apply bind_Ok in Helim as ([[La ua] ala] & H1 & Helim).
    assert (length (m_factors ua) = S (length (m_factors u))) as Hua.
    { apply eliminate_Ok in H1
        as (Fi & Cx & Ni & Oi & Oa & _ & _ & _ & _ & _ & _ & _ & ->).
      match goal with |- context [foldl (push_edge ?a) ?s0 Ni] =>
        destruct (push_edges_sizes a Ni s0) as (G3 & _ & _) end.
      cbn in G3. cbn [m_factors set_m_originals].
      rewrite G3, length_app. cbn. lia. }
    eapply (for_each_inv
      (λ st, length (m_factors u) < length (m_factors st.1.2))%nat) in Helim;
      [exact Helim| |cbn [fst snd]; lia].
    intros j [[Lb ub] alb] [[Lc uc] alc] _ Hb Hj. cbn [fst snd] in *.
    apply eliminate_Ok in Hj
      as (Fi & Cx & Ni & Oi & Oa & _ & _ & _ & _ & _ & _ & _ & ->).
    match goal with |- context [foldl (push_edge ?a) ?s0 Ni] =>
      destruct (push_edges_sizes a Ni s0) as (G3 & _ & _) end.
    cbn in G3. cbn [m_factors set_m_originals].
    rewrite G3, length_app. lia. }
  apply (chain_inv
    (λ t, (length (m_factors u) < length (m_factors t))%nat) (a0 :: al));
    [|exact Hc].
  intros t0 a b Hq. destruct (push_edge_grows b t0 a) as (_ & _ & G3).
  by rewrite G3.
Qed.

Lemma init_buckets_grow s s' :
  init_buckets s = Ok s' →
  m_schedule s `prefix_of` m_schedule s' ∧ m_edges s `prefix_of` m_edges s' ∧
  (length (m_factors s) ≤ length (m_factors s'))%nat.
Proof.
  intros Hrun.
  apply (init_buckets_inv
    (λ _ t, m_schedule s `prefix_of` m_schedule t ∧
            m_edges s `prefix_of` m_edges t ∧
            (length (m_factors s) ≤ length (m_factors t))%nat))
    in Hrun as [_ Hrun]; [exact Hrun| |by cbn].
  intros x L1 t L2 t' _ HQ Hb. by eapply bucket_grows.
Qed.

Lemma init_buckets_add_a_cluster s s' v :
  v ∈ m_order s → listed v (init_locals (m_gmo s)) →
  init_buckets s = Ok s' →
  (length (m_factors s) < length (m_factors s'))%nat.
Proof.
  intros Hv Hlisted. unfold init_buckets. intros Hrun.
  apply bind_Ok in Hrun as ([L' u'] & Hrun & [= <-]).
  eapply (for_each_inv_establishes
    (λ st, vin_increasing st.1 ∧
           (length (m_factors s) ≤ length (m_factors st.2))%nat ∧
           (listed v st.1 ∨
            (length (m_factors s) < length (m_factors st.2))%nat))
    (λ st x, x = v → (length (m_factors s) < length (m_factors st.2))%nat))
    in Hrun as [_ Hrun].
  - by apply (Hrun v Hv).
  - intros x [L u] [La ua] _ (Hinc & Hle & Hor) Hb. cbn [fst snd] in *.
    assert (Hmono : (length (m_factors u) ≤ length (m_factors ua))%nat).
    { by destruct (bucket_grows [] [] (length (m_factors u)) x L u La ua
                     ltac:(split; [apply prefix_nil|split; [apply prefix_nil|lia]])
                     Hb) as (_ & _ & ?). }
    split; [split; [by eapply bucket_increasing|split; [lia|]]|split].
    + destruct Hor as [Hl|Hc]; [|right; lia].
      destruct (decide (x = v)) as [->|Hne].
      * right. pose proof (bucket_adds_a_cluster _ _ _ _ _ Hl Hb). lia.
      * left. by eapply bucket_keeps_listed.
    + intros ->. destruct Hor as [Hl|Hc]; [|lia].
      pose proof (bucket_adds_a_cluster _ _ _ _ _ Hl Hb). lia.
    + intros y Hy ->. specialize (Hy eq_refl). lia.
  - cbn [fst snd]. split; [apply init_locals_increasing|].
    split; [done|by left].
Qed.

(** X30. [init()] clears nothing of a join graph that the object holds: the
    schedule and the edges that it had come first in those that [init()]
    leaves, and no cluster is removed. When the order lists a variable
    that occurs in a factor of the model, [init()] adds a cluster at
    least, so a second call on the same object builds its clusters beside
    those of the first. *)
Theorem init_adds_to_the_join_graph s s' :
  init s = Ok s' →
  m_schedule s `prefix_of` m_schedule s' ∧ m_edges s `prefix_of` m_edges s' ∧
  (length (m_factors s) ≤ length (m_factors s'))%nat ∧
  ∀ v F, v ∈ m_order s' → (v < gm_nvar (m_gmo s))%nat →
         F ∈ gm_factors (m_gmo s) → v ∈ f_vars F →
         (length (m_factors s) < length (m_factors s'))%nat.
Proof.
  intros Hrun. open_init Hrun s s' s0.
  pose proof (init_potentials_length _ _ Ha4) as Lfac.
  assert (EC : length (m_factors s') = length (m_factors a)) by congruence.
  destruct (init_buckets_grow _ _ Ha) as (G1 & G2 & G3).
  replace (m_schedule s') with (m_schedule a) by congruence.
  replace (m_edges s') with (m_edges a) by congruence.
  replace (m_schedule s) with (m_schedule s0) by congruence.
  replace (m_edges s) with (m_edges s0) by congruence.
  replace (m_factors s) with (m_factors s0) by congruence.
  rewrite EC. split; [done|]. split; [done|]. split; [done|].
  intros v F Hv Hlt HF HvF.
  apply (init_buckets_add_a_cluster s0 a v); [congruence| |exact Ha].
  replace (m_gmo s0) with (m_gmo s) by congruence.
  by eapply init_locals_listed.
Qed.

End What_init_keeps.

Section Origin_of_the_variables.
Context `{FA : FactorAlgebra} `{MS : !ModelServices} `{FS : !FactorScopes}.
Implicit Types s u : ijgp.
Implicit Types L : locals.

(** ** Where the variables of a scope come from *)

Lemma merge_pair_covered gm ii jj L L' u :
  covered gm L u → merge_pair ii jj L = Ok L' → covered gm L' u.
Proof.
  intros [H1 H2] Hrun. split; [|exact H2].
  apply merge_pair_Ok in Hrun
    as (Fi & Fj & Fi' & Oi & Oj & Ni & Nj & HFi & HFj & _ & HOi & HOj & HNi
        & HNj & _ & Hfin & HOrig & HNew).
  intros i F v. rewrite Hfin, HOrig, HNew. intros HF Hv.
  apply list_lookup_insert_Some in HF as [(-> & <- & _)|[Hne HF]];
    [by apply elem_of_empty in Hv|].
  rewrite !(list_lookup_insert_ne _ ii i) by done.
  apply list_lookup_insert_Some in HF as [(-> & <- & _)|[Hne' HF]].
  - assert (Hjo : (i < length (Orig L))%nat) by (by eapply lookup_lt_Some).
    assert (Hjn : (i < length (New L))%nat) by (by eapply lookup_lt_Some).
    rewrite !list_lookup_insert_eq by done.
    apply elem_of_union in Hv as [Hv|Hv].
    + destruct (H1 _ _ _ HFj Hv) as [(O & o & G & HO & Ho & HG & HvG)
                                     |(N & c & Fc & HN & Hc & HFc & HvF)].
      * left. exists (fl_union Oj Oi), o, G. split; [done|].
        split; [|done]. apply elem_of_fl_union. left. congruence.
      * right. exists (fl_union Nj Ni), c, Fc. split; [done|].
        split; [|done]. apply elem_of_fl_union. left. congruence.
    + destruct (H1 _ _ _ HFi Hv) as [(O & o & G & HO & Ho & HG & HvG)
                                     |(N & c & Fc & HN & Hc & HFc & HvF)].
      * left. exists (fl_union Oj Oi), o, G. split; [done|].
        split; [|done]. apply elem_of_fl_union. right. congruence.
      * right. exists (fl_union Nj Ni), c, Fc. split; [done|].
        split; [|done]. apply elem_of_fl_union. right. congruence.
  - rewrite !list_lookup_insert_ne by done. by eapply H1.
Qed.

Lemma push_edge_covered gm L u a b :
  covered gm L u → covered gm L (push_edge b u a).
Proof.
  intros [H1 H2].
  destruct (push_edge_members b u a) as (Hf & _ & _ & Ho & Hs).
  cbv zeta in Hf, Ho, Hs. unfold covered. rewrite Hf, Ho, Hs.
  split; [exact H1|]. intros α Fα v HF Hv.
  destruct (H2 _ _ _ HF Hv) as [?|(c & Fc & Hc & HFc & HvF)]; [by left|].
  right. exists c, Fc. split; [|done]. apply elem_of_app. by left.
Qed.

Lemma eliminate_covered gm x i L u al L' u' al' :
  covered gm L u → eliminate x i (L, u, al) = Ok (L', u', al') →
  covered gm L' u'.
Proof.
  intros [H1 H2] Hrun.
  apply eliminate_Ok in Hrun
    as (Fi & Cx & Ni & Oi & Oa & HFi & _ & HNi & HOi & HOa & _ & -> & ->).
  match goal with |- context [foldl ?f ?s0 ?l] =>
    destruct (push_edges_members (length (m_factors u)) l s0)
      as (Hf & _ & _ & Ho & Hsch);
    set (w := foldl f s0 l) in *
  end.
  cbn in Hf, Ho, Hsch. rewrite Ho in HOa.
  assert (Hα : (length (m_factors u) < length (m_originals u ++ [[]]))%nat)
    by (by eapply lookup_lt_Some).
  assert (Hnew : (m_factors u ++ [f_ones Fi]) !! length (m_factors u)
                 = Some (f_ones Fi)).
  { rewrite lookup_app_r by lia. by rewrite Nat.sub_diag. }
  assert (Hold : ∀ c Fc, m_factors u !! c = Some Fc →
                         (m_factors u ++ [f_ones Fi]) !! c = Some Fc).
  { intros c Fc Hc. by apply lookup_app_l_Some. }
  unfold covered. cbn. rewrite Hf, Ho, Hsch. split.
  - intros k F v HF Hv.
    apply list_lookup_insert_Some in HF as [(-> & <- & _)|[Hne HF]].
    + right. exists [length (m_factors u)], (length (m_factors u)), (f_ones Fi).
      split; [apply list_lookup_insert_eq; by eapply lookup_lt_Some|].
      split; [by left|]. split; [done|]. rewrite f_vars_ones.
      by apply elem_of_difference in Hv as [? _].
    + rewrite !list_lookup_insert_ne by done.
      destruct (H1 _ _ _ HF Hv) as [?|(N & c & Fc & HN & Hc & HFc & HvF)];
        [by left|].
      right. exists N, c, Fc. auto.
  - intros α Fα v HF Hv.
    destruct (decide (α = length (m_factors u))) as [->|Hne].
    + rewrite Hnew in HF. injection HF as <-. rewrite f_vars_ones in Hv.
      rewrite list_lookup_insert_eq by done.
      destruct (H1 _ _ _ HFi Hv) as [(O & o & G & HO & Hin & HG & HvG)
                                     |(N & c & Fc & HN & Hc & HFc & HvF)].
      * left. exists (fl_union Oa Oi), o, G. split; [done|].
        split; [|done]. apply elem_of_fl_union. right. congruence.
      * right. exists c, Fc. split; [|by auto].
        apply elem_of_app. right. apply list_elem_of_fmap.
        exists c. split; [done|]. congruence.
    + assert (HF' : m_factors u !! α = Some Fα).
      { apply lookup_app_Some in HF as [HF|[Hge HF]]; [done|].
        apply list_lookup_singleton_Some in HF as [? _]. lia. }
      rewrite list_lookup_insert_ne by done.
      destruct (H2 _ _ _ HF' Hv) as [(O & o & G & HO & Hin & HG & HvG)
                                     |(c & Fc & Hc & HFc & HvF)].
      * left. exists O, o, G. split; [by apply lookup_app_l_Some|done].
      * right. exists c, Fc. split; [apply elem_of_app; by left|auto].
Qed.

Lemma init_buckets_covered s s' :
  m_factors s = [] → init_buckets s = Ok s' →
  ∃ L', covered (m_gmo s) L' s'.
Proof.
  intros Hf Hrun.
  apply (init_buckets_inv (covered (m_gmo s))) in Hrun; [exact Hrun| |].
  - intros x L1 t L2 t' _ HQ Hbk.
    eapply (bucket_inv (covered (m_gmo s)) True);
      [| | | |exact HQ|exact Hbk]; [| | |done].
    + intros ii jj L3 L4 t3 Hq Hm. by eapply merge_pair_covered.
    + intros i L3 t3 al L4 t4 al' _ Hq Hel. by eapply eliminate_covered.
    + intros L3 t3 p q Hq. by apply push_edge_covered.
  - split.
    + intros i Fi v HF Hv. left. cbn in *.
      apply list_lookup_fmap_Some in HF as (G & -> & HG).
      exists [i], i, G. split; [|split; [by left|done]].
      apply list_lookup_fmap_Some. exists i. split; [done|].
      apply lookup_seq. split; [done|]. by eapply lookup_lt_Some.
    + intros α Fα v HF. cbn in HF. by rewrite Hf in HF.
Qed.

End Origin_of_the_variables.

Section Order_of_the_schedule.
Context `{FA : FactorAlgebra} `{MS : !ModelServices}.
Implicit Types s u : ijgp.
Implicit Types L : locals.

(** ** The order of the edges in the schedule *)

Lemma ascending_increasing l : ascending l ↔ increasing l.
Proof.
  induction l as [|a [|b rest] IH]; [done|done|].
  change (ascending (a :: b :: rest)) with ((a < b)%nat ∧ ascending (b :: rest)).
  change (increasing (a :: b :: rest)) with ((a < b)%nat ∧ increasing (b :: rest)).
  by rewrite IH.
Qed.

Lemma fl_union_increasing a b : increasing a → increasing (fl_union a b).
Proof.
  intros Ha. unfold fl_union. induction b as [|x b IH]; cbn; [done|].
  by apply fl_insert_increasing.
Qed.

Lemma merge_pair_new_increasing ii jj L L' :
  (∀ i Ni, New L !! i = Some Ni → increasing Ni) →
  merge_pair ii jj L = Ok L' →
  ∀ i Ni, New L' !! i = Some Ni → increasing Ni.
Proof.
  intros HN Hrun.
  apply merge_pair_Ok in Hrun
    as (Fi & Fj & Fi' & Oi & Oj & Ni & Nj & _ & _ & _ & _ & _ & HNi & HNj
        & _ & _ & _ & HNew).
  intros i N. rewrite HNew. intros Hi.
  apply list_lookup_insert_Some in Hi as [(_ & <- & _)|[_ Hi]]; [done|].
  apply list_lookup_insert_Some in Hi as [(_ & <- & _)|[_ Hi]]; [|by eauto].
  apply fl_union_increasing. by eapply HN.
Qed.

Lemma merge_loop_NoDup fuel s VX L ids (t : score_table) L' ids' :
  NoDup ids → merge_loop fuel s VX L ids t = Ok (L', ids') → NoDup ids'.
Proof.
  intros Hnd Hrun.
  apply (merge_loop_passes (λ _ ids1 _, NoDup ids1)) in Hrun as [_ Hrun];
    [exact Hrun| |exact Hnd].
  intros. unfold fl_remove. by apply NoDup_filter.
Qed.

(** Edges whose targets are the source of no edge keep the schedule in
    order when they are pushed. *)
Lemma schedule_ordered_app (sched new : list (nat * nat)) :
  schedule_ordered sched →
  (∀ c d c' d', (c, d) ∈ new → (c', d') ∈ sched ++ new → c' ≠ d) →
  schedule_ordered (sched ++ new).
Proof.
  intros Hord Hnew n n' a b c Hn Hn'.
  assert (Hab : (a, b) ∈ sched ++ new) by (by eapply list_elem_of_lookup_2).
  apply lookup_app_Some in Hn' as [Hn'|[Hge' Hn']].
  - apply lookup_app_Some in Hn as [Hn|[Hge Hn]]; [by eapply Hord|].
    apply lookup_lt_Some in Hn'. lia.
  - exfalso. apply list_elem_of_lookup_2 in Hn'.
    by apply (Hnew c a a b Hn' Hab).
Qed.

Lemma eliminate_ordered (C0 : nat) passed x i L u al L' u' al' :
  i ∉ passed →
  clusters_in_range u → new_in_range L u →
  (∀ k Nk, New L !! k = Some Nk → increasing Nk) →
  NoDup (m_schedule u) → schedule_ordered (m_schedule u) →
  (∀ c d, (c, d) ∈ m_schedule u → (c < C0)%nat) →
  (∀ k Nk c, k ∉ passed → New L !! k = Some Nk → c ∈ Nk → (c < C0)%nat) →
  Forall (λ a, C0 ≤ a)%nat al → (C0 ≤ length (m_factors u))%nat →
  eliminate x i (L, u, al) = Ok (L', u', al') →
  (∀ k Nk, New L' !! k = Some Nk → increasing Nk) ∧
  NoDup (m_schedule u') ∧ schedule_ordered (m_schedule u') ∧
  (∀ c d, (c, d) ∈ m_schedule u' → (c < C0)%nat) ∧
  (∀ k Nk c, k ∉ passed ++ [i] → New L' !! k = Some Nk → c ∈ Nk →
             (c < C0)%nat) ∧
  Forall (λ a, C0 ≤ a)%nat al' ∧ (C0 ≤ length (m_factors u'))%nat.
Proof.
  intros Hi (Hs & _ & _) HN Hinc Hnd Hord Hsrc Hnew Hal HC Hrun.
  apply eliminate_Ok in Hrun
    as (Fi & Cx & Ni & Oi & Oa & _ & _ & HNi & _ & _ & -> & -> & ->).
  match goal with |- context [foldl ?f ?s0 ?l] =>
    destruct (push_edges_members (length (m_factors u)) l s0)
      as (Hf & _ & _ & _ & Hsch);
    set (w := foldl f s0 l) in *
  end.
  cbn in Hf, Hsch. cbn [New m_schedule m_factors set_m_originals].
  rewrite Hsch, Hf.
  assert (HNi0 : ∀ c, c ∈ Ni → (c < C0)%nat)
    by (intros c Hc; by apply (Hnew i Ni c)).
  assert (HNiα : ∀ c, c ∈ Ni → (c < length (m_factors u))%nat).
  { intros c Hc. by apply (HN _ _ _ HNi). }
  split; [|split; [|split; [|split; [|split; [|split]]]]].
  - intros k Nk Hk.
    apply list_lookup_insert_Some in Hk as [(_ & <- & _)|[_ Hk]]; [done|].
    by eapply Hinc.
  - apply NoDup_app. split; [exact Hnd|]. split.
    + intros [c d] Hcd Hin. apply list_elem_of_fmap in Hin as (j & [= -> ->] & Hj).
      apply Hs in Hcd. lia.
    + apply NoDup_fmap_2; [intros j j' [= ->]; done|].
      apply increasing_NoDup. by eapply Hinc.
  - apply schedule_ordered_app; [exact Hord|].
    intros c d c' d' Hcd Hcd'.
    apply list_elem_of_fmap in Hcd as (j & [= -> ->] & Hj).
    apply elem_of_app in Hcd' as [Hcd'|Hcd'].
    + apply Hs in Hcd'. lia.
    + apply list_elem_of_fmap in Hcd' as (j' & [= -> ->] & Hj').
      apply HNiα in Hj'. lia.
  - intros c d [Hcd|Hcd]%elem_of_app; [by eapply Hsrc|].
    apply list_elem_of_fmap in Hcd as (j & [= -> ->] & Hj). by apply HNi0.
  - intros k Nk c Hk HNk Hc.
    apply list_lookup_insert_Some in HNk as [(-> & _ & _)|[_ HNk]].
    + exfalso. apply Hk. apply elem_of_app. right. by left.
    + eapply Hnew; [|exact HNk|exact Hc].
      intros Hin. apply Hk. apply elem_of_app. by left.
  - apply Forall_app. split; [exact Hal|]. by apply Forall_singleton.
  - rewrite length_app. cbn. lia.
Qed.

Lemma chain_ordered al (m : nat) u :
  increasing al → Forall (λ a, m ≤ a)%nat al →
  (∀ c d, (c, d) ∈ m_schedule u → (c < m)%nat) →
  NoDup (m_schedule u) → schedule_ordered (m_schedule u) →
  NoDup (m_schedule (chain al u)) ∧ schedule_ordered (m_schedule (chain al u)).
Proof.
  revert m u. induction al as [|a [|b rest] IH]; intros m u Hinc Hal Hsrc Hnd Hord;
    [done|done|].
  change (chain (a :: b :: rest) u) with (chain (b :: rest) (push_edge b u a)).
  destruct (push_edge_members b u a) as (_ & _ & _ & _ & Hsch).
  cbv zeta in Hsch.
  apply increasing_cons in Hinc as [Hlt Hinc].
  apply Forall_cons in Hlt as [Hab Hlt].
  apply Forall_cons in Hal as [Hma _].
  apply (IH (S a)); [exact Hinc| | | |].
  - apply Forall_cons. split; [lia|].
    eapply Forall_impl; [exact Hlt|]. cbn. intros; lia.
  - intros c d. rewrite Hsch.
    intros [Hcd|Hcd%list_elem_of_singleton]%elem_of_app;
      [apply Hsrc in Hcd; lia|].
    injection Hcd as -> ->. lia.
  - rewrite Hsch. apply NoDup_app. split; [exact Hnd|]. split.
    + intros [c d] Hcd Hin%list_elem_of_singleton. injection Hin as -> ->.
      apply Hsrc in Hcd. lia.
    + apply NoDup_singleton.
  - rewrite Hsch. apply schedule_ordered_app; [exact Hord|].
    intros c d c' d' Hcd%list_elem_of_singleton Hcd'. injection Hcd as -> ->.
    apply elem_of_app in Hcd' as [Hcd'|Hcd'%list_elem_of_singleton].
    + apply Hsrc in Hcd'. lia.
    + injection Hcd' as -> ->. lia.
Qed.

Lemma bucket_ordered x L s L' s' :
  ordered L s → bucket x (L, s) = Ok (L', s') → ordered L' s'.
Proof.
  intros (Hvi & Hs & HN & Hinc & Hnd & Hord) Hrun.
  destruct (bucket_in_range _ _ _ _ _ Hs HN Hrun) as [Hs' HN'].
  pose proof (bucket_increasing _ _ _ _ _ Hvi Hrun) as Hvi'.
  split; [exact Hvi'|]. split; [exact Hs'|]. split; [exact HN'|].
  clear Hs' HN' Hvi'. revert Hrun. unfold bucket.
  destruct (vin L !! x) as [[|i0 ids0]|] eqn:Hvin;
    try (intros [= <- <-]; done).
  intros Hrun.
  apply bind_Ok in Hrun as (t & Ht & Hrun).
  apply bind_Ok in Hrun as ([L1 ids1] & Hloop & Hrun).
  apply bind_Ok in Hrun as ([[L2 u2] al] & Helim & Hrun).
  destruct al as [|a0 al]; [discriminate|]. injection Hrun as <- <-.
  assert (Hnd0 : NoDup (i0 :: ids0)).
  { apply increasing_NoDup. unfold vin_increasing in Hvi.
    rewrite Forall_lookup in Hvi. by apply (Hvi x). }
  pose proof (merge_loop_NoDup _ _ _ _ _ _ _ _ Hnd0 Hloop) as Hnd1.
  eapply (merge_loop_inv (λ L1, new_in_range L1 s ∧
            ∀ i Ni, New L1 !! i = Some Ni → increasing Ni)) in Hloop;
    [|intros ii jj La Lb [H1 H2] Hm; split;
      [by eapply merge_pair_new_in_range|by eapply merge_pair_new_increasing]
     |by split].
  destruct Hloop as [HN1 Hinc1].
  apply (for_each_passed
    (λ passed st,
       (clusters_in_range st.1.2 ∧ new_in_range st.1.1 st.1.2 ∧
        Forall (λ a, a < length (m_factors st.1.2))%nat st.2 ∧
        ascending st.2) ∧
       (∀ k Nk, New st.1.1 !! k = Some Nk → increasing Nk) ∧
       NoDup (m_schedule st.1.2) ∧ schedule_ordered (m_schedule st.1.2) ∧
       (∀ c d, (c, d) ∈ m_schedule st.1.2 → (c < length (m_factors s))%nat) ∧
       (∀ k Nk c, k ∉ passed → New st.1.1 !! k = Some Nk → c ∈ Nk →
                  (c < length (m_factors s))%nat) ∧
       Forall (λ a, length (m_factors s) ≤ a)%nat st.2 ∧
       (length (m_factors s) ≤ length (m_factors st.1.2))%nat)) in Helim.
  - cbn [fst snd] in Helim.
    destruct Helim as ((_ & _ & _ & Hasc) & Hinc2 & Hnd2 & Hord2 & Hsrc2 & _
                       & Hal2 & _).
    split; [exact Hinc2|].
    apply (chain_ordered (a0 :: al) (length (m_factors s)));
      [by apply ascending_increasing|done..].
  - intros passed k [[La ua] ala] [[Lb ub] alb] Hk Hnew _ Hp Hstep.
    cbn [fst snd] in *.
    destruct Hp as ((H1 & H2 & H3 & H3') & H4 & H5 & H6 & H7 & H8 & H9 & H10).
    destruct (eliminate_in_range _ _ _ _ _ _ _ _ H1 H2 H3 Hstep)
      as (R1 & R2 & R3 & R4).
    split.
    { split; [done|]. split; [done|]. split; [done|].
      pose proof Hstep as Hstep'.
      apply eliminate_Ok in Hstep'
        as (? & ? & ? & ? & ? & _ & _ & _ & _ & _ & -> & _).
      by apply ascending_snoc. }
    eapply (eliminate_ordered (length (m_factors s)) passed);
      [exact Hnew|exact H1|exact H2|exact H4|exact H5|exact H6|exact H7
      |exact H8|exact H9|exact H10|exact Hstep].
  - exact Hnd1.
  - cbn [fst snd]. split; [done|]. split; [exact Hinc1|].
    split; [exact Hnd|]. split; [exact Hord|]. split.
    { intros c d Hcd. by apply Hs in Hcd as [? _]. }
    split; [|split; [done|lia]].
    intros k Nk c _ Hk Hc. by eapply HN1.
Qed.

Lemma init_buckets_ordered s s' :
  m_factors s = [] → m_schedule s = [] → m_clusters s = [] →
  init_buckets s = Ok s' →
  NoDup (m_schedule s') ∧ schedule_ordered (m_schedule s').
Proof.
  intros Hf Hs Hc Hrun.
  apply (init_buckets_inv ordered) in Hrun
    as [L' (_ & _ & _ & _ & Hnd & Hord)]; [done| |].
  - intros x L1 t L2 t' _ HQ Hbk. by eapply bucket_ordered.
  - split; [apply init_locals_increasing|]. split; [|split; [|split; [|split]]].
    + unfold clusters_in_range. cbn. rewrite Hf, Hs, Hc. cbn.
      split; [intros ? ? []%elem_of_nil|]. split; [intros; lia|].
      intros x cl c Hx Hin. rewrite resize_nil in Hx.
      apply lookup_replicate in Hx as [-> _]. by apply elem_of_nil in Hin.
    + intros i N p Hi Hp. cbn in Hi.
      apply lookup_replicate in Hi as [-> _]. by apply elem_of_nil in Hp.
    + intros i N Hi. cbn in Hi. by apply lookup_replicate in Hi as [-> _].
    + cbn. rewrite Hs. apply NoDup_nil_2.
    + cbn. rewrite Hs. intros n n' a b c Hn. by rewrite lookup_nil in Hn.
Qed.

End Order_of_the_schedule.

Section Scopes_of_the_forward_messages.
Context `{FA : FactorAlgebra} `{MS : !ModelServices} `{FS : !FactorScopes}.
Implicit Types s t u : ijgp.

(** ** The scope of a forward message *)

(** A loop, by the number of the items that it has passed. *)
Lemma for_each_prefix {A St} (P : nat → St → Prop)
    (body : A → St → outcome St) l z z' :
  (∀ n x w w', l !! n = Some x → P n w → body x w = Ok w' → P (S n) w') →
  P 0%nat z → for_each body l z = Ok z' → P (length l) z'.
Proof.
  intros Hstep H0 Hrun.
  assert (Hgen : ∀ rest passed w,
    l = passed ++ rest → P (length passed) w →
    for_each body rest w = Ok z' → P (length l) z').
  { induction rest as [|x rest IH]; intros passed w Hl HP Hr; cbn in Hr.
    - injection Hr as <-. by rewrite Hl, app_nil_r.
    - apply bind_Ok in Hr as (w1 & H1 & Hr).
      apply (IH (passed ++ [x]) w1); [by rewrite <- app_assoc| |exact Hr].
      rewrite length_app. cbn. rewrite Nat.add_1_r.
      apply (Hstep _ x w); [|exact HP|exact H1].
      rewrite Hl. rewrite lookup_app_r by lia. by rewrite Nat.sub_diag. }
  by apply (Hgen l [] z).
Qed.

Lemma product_of_covers gm orig F o G :
  product_of gm orig = Ok F → o ∈ orig → gm_factors gm !! o = Some G →
  f_vars G ⊆ f_vars F.
Proof.
  unfold product_of. generalize (f_scalar (d_lit 1)). intros F0 Hrun.
  assert (Hgen : f_vars F0 ⊆ f_vars F ∧
            ∀ o G, o ∈ orig → gm_factors gm !! o = Some G →
                   f_vars G ⊆ f_vars F); [|intros; by eapply Hgen].
  revert F0 Hrun. induction orig as [|j orig IH]; intros F0 Hrun; cbn in Hrun.
  - injection Hrun as <-. split; [done|]. by intros ? ? []%elem_of_nil.
  - apply bind_Ok in Hrun as (F1 & H1 & Hrun).
    apply bind_Ok in H1 as (Gj & HGj & H1). injection H1 as <-.
    unfold get_factor in HGj. apply at_Ok in HGj.
    destruct (IH _ Hrun) as [Hsub Hall]. rewrite f_vars_mul in Hsub.
    split; [etransitivity; [apply union_subseteq_l|exact Hsub]|].
    intros o' G' [->|Ho]%elem_of_cons HG'; [|by eapply Hall].
    assert (G' = Gj) as -> by congruence.
    etransitivity; [apply union_subseteq_r|exact Hsub].
Qed.

Lemma multiply_in_grows msgs idx skip ps bel bel' :
  multiply_in msgs idx skip ps bel = Ok bel' →
  f_vars bel ⊆ f_vars bel' ∧
  ∀ p j F, p ∈ ps → skip ≠ Some p → idx p = Ok j → msgs !! j = Some F →
           f_vars F ⊆ f_vars bel'.
Proof.
  unfold multiply_in. revert bel.
  induction ps as [|q ps IH]; intros bel Hrun; cbn in Hrun.
  - injection Hrun as <-. split; [done|]. by intros ? ? ? []%elem_of_nil.
  - apply bind_Ok in Hrun as (bel1 & H1 & Hrun).
    destruct (IH _ Hrun) as [Hsub Hall].
    assert (Hfirst : f_vars bel ⊆ f_vars bel1 ∧
              ∀ j F, skip ≠ Some q → idx q = Ok j → msgs !! j = Some F →
                     f_vars F ⊆ f_vars bel1).
    { case_decide as Hskip.
      - injection H1 as <-. split; [done|]. intros; done.
      - apply bind_Ok in H1 as (j & Hj & H1).
        apply bind_Ok in H1 as (F & HF & H1). injection H1 as <-.
        apply at_Ok in HF. rewrite f_vars_mul.
        split; [apply union_subseteq_l|].
        intros j' F' _ Hj' HF'. assert (j' = j) as -> by congruence.
        assert (F' = F) as -> by congruence. apply union_subseteq_r. }
    destruct Hfirst as [Hbel Hq]. split; [by etransitivity|].
    intros p j F [->|Hp]%elem_of_cons Hskip Hj HF.
    + etransitivity; [by eapply Hq|exact Hsub].
    + by eapply Hall.
Qed.

Lemma sendable_graph t t' : graph_of t' = graph_of t → sendable t → sendable t'.
Proof.
  unfold graph_of. intros [= E1 E2 E3 E4 E5 E6 E7].
  unfold sendable, join_graph_ok, potentials_within, in_out_in_schedule,
    edge_indexed, schedule_ascending, scopes_covered.
  by rewrite E1, E2, E3, E4, E5, E6, E7.
Qed.

Lemma edge_index_exact t j a b :
  sendable t → m_schedule t !! j = Some (a, b) →
  at2 (m_edge_indeces t) a b = Ok j.
Proof.
  intros ((_ & _ & _ & Hidx) & _ & Hnd & _) Hj.
  destruct (Hidx j a b Hj) as (j' & Hat & Hj').
  by rewrite (NoDup_lookup _ _ _ _ Hnd Hj Hj').
Qed.

(** After [init()], message passing finds the join graph as it needs it. *)
Lemma init_sendable s s' :
  unbuilt s → init s = Ok s' → sendable s' ∧ messages_within s'.
Proof.
  intros Hu Hrun.
  destruct (init_join_graph s s' Hu Hrun) as [Hjg Hmsg].
  split; [|exact Hmsg].
  destruct Hu as (Hf & He & Hs & Ho & Hcl & _).
  pose proof (init_potentials_length) as Lfac.
  pose proof (init_scopes_lengths) as Lscopes.
  open_init Hrun s s' s0.
  assert (Esch : m_schedule s' = m_schedule a) by congruence.
  assert (Efa : m_factors a0 = m_factors a) by congruence.
  assert (Esc : m_scopes s' = m_scopes a0) by congruence.
  assert (Hrec : ∀ i F, m_factors a !! i = Some F →
                        m_scopes s' !! i = Some (f_vars F)).
  { intros i F HF. destruct (init_scopes_recorded _ _ i Ha0) as (F' & HF' & Hx).
    - by eapply lookup_lt_Some.
    - rewrite Esc. congruence. }
  split; [exact Hjg|]. split; [|split; [|split; [|split]]].
  - unfold schedule_ascending. rewrite Esch.
    eapply init_buckets_ascending; [| | |exact Ha]; congruence.
  - rewrite Esch. eapply init_buckets_ordered; [| | |exact Ha]; congruence.
  - rewrite Esch. eapply init_buckets_ordered; [| | |exact Ha]; congruence.
  - destruct (init_buckets_covered s0 a) as [L' [_ Hcov]];
      [congruence|exact Ha|].
    intros c sc v Hcs Hv.
    assert (Hlt : (c < length (m_factors a))%nat).
    { destruct (Lscopes _ _ Ha0) as (Hl & _). rewrite <- Hl, <- Esc.
      by eapply lookup_lt_Some. }
    destruct (lookup_lt_is_Some_2 _ _ Hlt) as [Fc HFc].
    assert (sc = f_vars Fc) as ->.
    { apply Hrec in HFc. congruence. }
    destruct (Hcov _ _ _ HFc Hv) as [(O & o & G & HO & Hin & HG & HvG)
                                     |(c' & Fc' & Hc' & HFc' & HvF)].
    + left.
      assert (Hlt' : (c < length (m_factors s'))%nat).
      { replace (m_factors s') with (m_factors a4) by congruence.
        rewrite (Lfac _ _ Ha4). congruence. }
      destruct (lookup_lt_is_Some_2 _ _ Hlt') as [P HP].
      exists P. split; [done|].
      replace (m_factors s') with (m_factors a4) in HP by congruence.
      destruct (init_potentials_product _ _ _ _ Ha4 HP) as (orig & Horig & Hprod).
      assert (orig = O) as -> by congruence.
      assert (Hsub : f_vars G ⊆ f_vars P).
      { eapply product_of_covers; [exact Hprod|exact Hin|].
        replace (m_gmo a4) with (m_gmo s0) by congruence. exact HG. }
      by apply Hsub.
    + right. exists c', (f_vars Fc'). split; [by rewrite Esch|].
      split; [by apply Hrec|done].
  - intros c d Hcd. rewrite Esch in Hcd.
    replace (m_in s') with (m_in a2) by congruence.
    eapply (init_in_out_listed a1 a2 c d Ha2). congruence.
Qed.

(** The forward message of an edge has the separator as its scope when
    the edges before it in the schedule have sent theirs. *)
Lemma forward_edge_sends s n a b t t' :
  sendable s → m_schedule s !! n = Some (a, b) →
  graph_of t = graph_of s → messages_within t →
  (∀ n' c d sc sd, (n' < n)%nat → m_schedule s !! n' = Some (c, d) →
     m_scopes s !! c = Some sc → m_scopes s !! d = Some sd →
     ∃ F, m_forward t !! n' = Some F ∧ f_vars F = sc ∩ sd) →
  forward_edge (a, b) t = Ok t' →
  graph_of t' = graph_of s ∧ messages_within t' ∧
  (∀ n' c d sc sd, (n' < S n)%nat → m_schedule s !! n' = Some (c, d) →
     m_scopes s !! c = Some sc → m_scopes s !! d = Some sd →
     ∃ F, m_forward t' !! n' = Some F ∧ f_vars F = sc ∩ sd).
Proof.
  intros Hs Hn Hg Hmsg Hsent Hrun.
  pose proof (sendable_graph _ _ Hg Hs) as Ht.
  pose proof Hg as Hg'. unfold graph_of in Hg'.
  injection Hg' as E1 E2 E3 E4 E5 E6 E7.
  pose proof Ht as (Hjg & Hasc & Hnd & Hord & Hcov & Hins).
  assert (Hab : (a, b) ∈ m_schedule t).
  { rewrite E1. by eapply list_elem_of_lookup_2. }
  pose proof (forward_edge_frame _ _ _ Hrun) as Hfr.
  destruct (forward_edge_within a b t t' Hjg Hmsg Hab Hrun) as [_ Hmsg'].
  split; [rewrite <- Hg; unfold graph_of; rewrite Hfr; reflexivity|].
  split; [exact Hmsg'|].
  assert (Hei : at2 (m_edge_indeces t) a b = Ok n).
  { apply edge_index_exact; [exact Ht|by rewrite E1]. }
  unfold forward_edge in Hrun. ok_inv Hrun. subst t'. ok_all.
  assert (a0 = n) as -> by congruence.
  cbn [m_forward set_m_log_z set_m_forward].
  intros n' c d sc sd Hlt Hcd Hsc Hsd.
  destruct (decide (n' = n)) as [->|Hne].
  - assert (c = a ∧ d = b) as [-> ->] by (split; congruence).
    eexists. split; [by apply list_lookup_insert_eq|].
    rewrite <- E2 in Hsc, Hsd.
    assert (a1 = sc) as -> by congruence.
    destruct Hjg as (Hsep & _).
    destruct (Hsep a b Hab) as (sa' & sb' & Hsa' & Hsb' & Hat).
    assert (a2 = sc ∩ sd) as -> by congruence.
    rewrite f_vars_div, f_vars_elim.
    pose proof (calc_belief_excl_within _ _ _ _ _ (proj1 Ht) Hmsg Hsc Ha2)
      as Hin.
    apply set_eq. intros v. split.
    + intros Hv. by apply (difference_within _ _ _ Hin).
    + intros Hv. apply elem_of_difference. split.
      2:{ intros [_ Hno]%elem_of_difference. by apply Hno. }
      apply elem_of_intersection in Hv as [Hva Hvb].
      unfold calc_belief_excl in Ha2.
      apply bind_Ok in Ha2 as (bel0 & Hbel0 & Ha2).
      apply bind_Ok in Ha2 as (ins & Hins0 & Ha2).
      apply bind_Ok in Ha2 as (bel1 & Hbel1 & Ha2).
      apply bind_Ok in Ha2 as (outs & Houts & Ha2).
      apply at_Ok in Hbel0, Hins0.
      destruct (multiply_in_grows _ _ _ _ _ _ Hbel1) as [H01 Hfw].
      destruct (multiply_in_grows _ _ _ _ _ _ Ha2) as [H12 _].
      apply H12.
      destruct (Hcov a sc v Hsc Hva) as [(F & HF & HvF)|(c & scc & Hca & Hscc & Hvc)].
      * apply H01. congruence.
      * pose proof Hca as Hca'. apply list_elem_of_lookup in Hca' as [n' Hn'].
        assert (Hlt' : (n' < n)%nat).
        { apply (Hord n n' a b c); [by rewrite E1|done]. }
        rewrite E1 in Hn'. rewrite E2 in Hscc, Hsc.
        destruct (Hsent n' c a scc sc Hlt' Hn' Hscc Hsc) as (F & HF & HFv).
        destruct (Hins c a Hca) as (ins' & Hins' & Hcin).
        assert (ins' = ins) as -> by congruence.
        apply (Hfw c n' F); [done| | |done|].
        -- intros [= ->]. apply Hasc in Hca, Hab. lia.
        -- apply edge_index_exact; [exact Ht|by rewrite E1].
        -- rewrite HFv. by apply elem_of_intersection.
  - assert (Hlt' : (n' < n)%nat) by lia.
    destruct (Hsent n' c d sc sd Hlt' Hcd Hsc Hsd) as (F & HF & HFv).
    exists F. split; [|done]. by rewrite list_lookup_insert_ne.
Qed.

(** A forward pass sends, along every edge of the schedule, a message on
    the separator of the edge. *)
Lemma forward_sends s s' :
  sendable s → messages_within s → forward s = Ok s' →
  sendable s' ∧ messages_within s' ∧ forward_sent s'.
Proof.
  intros Hs Hmsg Hrun.
  pose proof (forward_frame _ _ Hrun) as Hfr.
  assert (Hg : graph_of s' = graph_of s).
  { unfold graph_of. rewrite Hfr. reflexivity. }
  destruct (forward_within s s' (proj1 Hs) Hmsg Hrun) as [_ Hmsg'].
  split; [by eapply sendable_graph|]. split; [exact Hmsg'|].
  unfold forward in Hrun. ok_inv Hrun. subst s'.
  cbn [m_schedule set_m_log_z] in Ha.
  apply (for_each_prefix (λ n t,
    graph_of t = graph_of s ∧ messages_within t ∧
    ∀ n' c d sc sd, (n' < n)%nat → m_schedule s !! n' = Some (c, d) →
      m_scopes s !! c = Some sc → m_scopes s !! d = Some sd →
      ∃ F, m_forward t !! n' = Some F ∧ f_vars F = sc ∩ sd)) in Ha.
  - destruct Ha as (Hga & _ & Hall).
    pose proof Hga as Hga'. unfold graph_of in Hga'.
    injection Hga' as E1 E2 _ _ _ _ _.
    intros j c d sc sd Hj Hsc Hsd. cbn in Hj, Hsc, Hsd |- *.
    rewrite E1 in Hj. rewrite E2 in Hsc, Hsd.
    apply (Hall j c d sc sd); [by eapply lookup_lt_Some|done..].
  - intros n [c d] w w' Hn (Hgw & Hmw & Hw) Hstep.
    by eapply forward_edge_sends.
  - split; [reflexivity|]. split; [exact Hmsg|]. intros; lia.
Qed.

Lemma passes_sendable s t :
  sendable s → messages_within s → passes s t →
  sendable t ∧ messages_within t.
Proof.
  intros Hs Hmsg Hp.
  induction Hp as [s|s t u _ IH Hf|s t u _ IH Hf|s t u _ IH Hf]; [done| | |].
  - destruct (IH Hs Hmsg) as [Ht Hmt].
    destruct (forward_sends _ _ Ht Hmt Hf) as (? & ? & _). done.
  - destruct (IH Hs Hmsg) as [Ht Hmt].
    destruct (backward_within _ _ (proj1 Ht) Hmt Hf) as [_ Hmu].
    split; [|exact Hmu]. apply (sendable_graph t); [|exact Ht].
    apply backward_frame in Hf. unfold graph_of. rewrite Hf. reflexivity.
  - destruct (IH Hs Hmsg) as [Ht Hmt].
    destruct (update_within _ _ (proj1 Ht) Hmt Hf) as [_ Hmu].
    split; [|exact Hmu]. apply (sendable_graph t); [|exact Ht].
    apply update_frame in Hf. unfold graph_of. rewrite Hf. reflexivity.
Qed.

Lemma passes_sent s t :
  sendable s → messages_within s → forward_sent s → passes s t →
  forward_sent t.
Proof.
  intros Hs Hmsg Hsent Hp.
  induction Hp as [s|s t u Hp IH Hf|s t u Hp IH Hf|s t u Hp IH Hf]; [done| | |].
  - destruct (passes_sendable _ _ Hs Hmsg Hp) as [Ht Hmt].
    by destruct (forward_sends _ _ Ht Hmt Hf) as (_ & _ & ?).
  - specialize (IH Hs Hmsg Hsent). apply backward_frame in Hf.
    unfold forward_sent. rewrite Hf. exact IH.
  - specialize (IH Hs Hmsg Hsent). apply update_frame in Hf.
    unfold forward_sent. rewrite Hf. exact IH.
Qed.

(** C8, as the code has it. After [init()] on an object without join
    graph, and after any number of passes, the stored separator of every
    edge [(a, b)] of the schedule is the intersection of the scopes of [a]
    and [b], and the scopes of the forward and of the backward message of
    the edge lie within this separator. Once a forward pass has completed,
    the forward message of every edge has exactly the separator as its
    scope: when the message of an edge is computed, the potential of [a]
    and the forward messages into [a], which the schedule has sent
    before, cover the scope of [a]. *)
Theorem message_scopes s s0 t :
  unbuilt s → init s = Ok s0 → passes s0 t →
  ∀ j a b, m_schedule t !! j = Some (a, b) →
    ∃ sa sb, m_scopes t !! a = Some sa ∧ m_scopes t !! b = Some sb ∧
             at2 (m_separators t) a b = Ok (sa ∩ sb) ∧
             (∀ F, m_forward t !! j = Some F → f_vars F ⊆ sa ∩ sb) ∧
             (∀ F, m_backward t !! j = Some F → f_vars F ⊆ sa ∩ sb) ∧
             (∀ t0 t1, passes s0 t0 → forward t0 = Ok t1 → passes t1 t →
                       ∃ F, m_forward t !! j = Some F ∧
                            f_vars F = sa ∩ sb).
Proof.
  intros Hu Hinit Hpasses j a b Hj.
  destruct (init_sendable s s0 Hu Hinit) as [Hs0 Hm0].
  destruct (passes_sendable s0 t Hs0 Hm0 Hpasses) as [Ht Hmt].
  pose proof Ht as ((Hsep & _) & _).
  destruct (Hsep a b) as (sa & sb & Hsa & Hsb & Hat);
    [by eapply list_elem_of_lookup_2|].
  exists sa, sb. split; [done|]. split; [done|]. split; [done|].
  split; [intros F HF; eapply Hmt; eauto|].
  split; [intros F HF; eapply Hmt; eauto|].
  intros t0 t1 Hp0 Hfw Hp1.
  destruct (passes_sendable s0 t0 Hs0 Hm0 Hp0) as [Ht0 Hmt0].
  destruct (forward_sends t0 t1 Ht0 Hmt0 Hfw) as (Ht1 & Hmt1 & Hsent1).
  pose proof (passes_sent t1 t Ht1 Hmt1 Hsent1 Hp1) as Hsent.
  by apply (Hsent j a b sa sb).
Qed.

End Scopes_of_the_forward_messages.

Section First_clusters.
Context `{FA : FactorAlgebra} `{MS : !ModelServices} `{FS : !FactorScopes}.
Implicit Types s u : ijgp.
Implicit Types L : locals.

(** ** The first cluster of a variable *)










End First_clusters.

Section Beliefs_of_the_variables.
Context `{FA : FactorAlgebra} `{MS : !ModelServices} `{FS : !FactorScopes}
        `{FT : !FactorTables}.
Implicit Types s t u : ijgp.

(** ** The scope of the belief of a variable *)










End Beliefs_of_the_variables.

Section Completion_of_run.
Context `{FA : FactorAlgebra} `{MS : !ModelServices} `{FS : !FactorScopes}
        `{FT : !FactorTables}.
Implicit Types s u : ijgp.


End Completion_of_run.

(** * Examples on the term model *)

(** The scopes of the term model follow the operations. *)
#[global] Instance term_scopes : FactorScopes.
Proof. split; reflexivity. Qed.


(** A call is evaluated through its outcome. *)
Lemma is_Ok_from {A} (d : A) (o : outcome A) :
  is_Ok o = true → o = Ok (from_Ok d o).
Proof. by destruct o. Qed.

Lemma is_Throw_raises {A} (o : outcome A) : is_Throw o = true → raises o.
Proof. destruct o; try discriminate. by eexists. Qed.


Lemma is_Undefined_eq {A} (o : outcome A) :
  is_Undefined o = true → o = Undefined.
Proof. by destruct o. Qed.

Lemma is_OutOfFuel_eq {A} (o : outcome A) :
  is_OutOfFuel o = true → o = OutOfFuel.
Proof. by destruct o. Qed.

Ltac evaluated := apply (is_Ok_from blank); vm_compute; reflexivity.
Ltac undefined := apply is_Undefined_eq; vm_compute; reflexivity.

(** ** Configuration *)


(** An unknown key and an unknown name of a task are rejected. *)
Lemma set_properties_rejects_names :
  raises (set_properties "Bound=4" (configured pair_model "Iter=10" [])) ∧
  raises (set_properties "Task=MPE" (configured pair_model "Iter=10" [])).
Proof. split; apply is_Throw_raises; vm_compute; reflexivity. Qed.

(** The exception of an entry comes after the entries before it are
    accepted, and the entries after it are not read. An entry without
    value and an empty entry raise nothing: the loop reads a piece that is
    not there. *)
Lemma set_properties_entries :
  raises (set_properties "Iter=3,Bound=4,Task=MPE" blank) ∧
  entries "Iter" = [["Iter"%string]] ∧
  set_properties "Iter" blank = Undefined ∧
  entries ",Iter=1" = [[]; ["Iter"; "1"]%string] ∧
  set_properties ",Iter=1" blank = Undefined.
Proof.
  split; [apply is_Throw_raises; vm_compute; reflexivity|].
  split; [vm_compute; reflexivity|].
  split; [undefined|]. split; [vm_compute; reflexivity|undefined].
Qed.

Lemma belief_vs_of_one_variable :
  size ({[0%nat]} : variable_set) = 1%nat ∧
  ∃ s' F, run enough no_time (configured pair_model "Task=MAR" [0; 1]%nat)
          = Ok s' ∧
          belief s' 0 = Ok F ∧
          belief_vs s' {[0%nat]} = Throw (runtime_error "Not implemented").
Proof.
  split; [reflexivity|]. do 2 eexists.
  split; [evaluated|]. split; [apply (is_Ok_from (TScalar (TLit 0))); vm_compute; reflexivity|].
  reflexivity.
Qed.

(** C7 fails on the code: with the i-bound 1, a scope of three variables
    and a scope of two of them have a union of 3 > 1 + 1 variables, and
    their score is 1/5. *)
Lemma score_of_a_large_scope :
  let s := configured pair_model "iBound=1" [] in
  let F1 : variable_set := {[0%nat; 1%nat; 2%nat]} in
  let F2 : variable_set := {[0%nat; 1%nat]} in
  m_ibound s = 1 ∧ nvar (F1 ∪ F2) > m_ibound s + 1 ∧
  score s [F1; F2] 0 0 1 = Ok (1 # 5)%Q.
Proof. repeat split; vm_compute; reflexivity. Qed.

Lemma score_effective_bound_witness :
  score (configured pair_model "iBound=1" [])
        [{[0%nat; 1%nat; 2%nat]}; {[0%nat; 1%nat]}] 0 0 1
  = Ok (1 / inject_Z 5)%Q.
Proof.
  etransitivity.
  - apply (score_effective_bound (configured pair_model "iBound=1" [])
             [{[0%nat; 1%nat; 2%nat]}; {[0%nat; 1%nat]}] 0 0 1
             {[0%nat; 1%nat; 2%nat]} {[0%nat; 1%nat]});
      try reflexivity; vm_compute; split; congruence.
  - vm_compute. reflexivity.
Defined.

(** ** Construction *)

(** C3 fails on the code: variable 2 is in the scope of a table of the
    model and not in the order, and [init] completes with the two clusters
    of the variables 0 and 1. *)
Lemma init_accepts_a_partial_order :
  let s := configured chain_model "Task=MAR" [0; 1]%nat in
  (∃ F, F ∈ gm_factors (m_gmo s) ∧ 2%nat ∈ f_vars F) ∧
  (2%nat ∉ m_order s) ∧
  ∃ s', init s = Ok s' ∧ m_clusters s' = [[0]; [1]]%nat ∧
        m_schedule s' = [(0, 1)]%nat.
Proof.
  split; [|split].
  - exists (TTable 1 {[1%nat; 2%nat]}). split; [|by vm_compute].
    apply elem_of_cons. right. apply elem_of_cons. by left.
  - vm_compute. intros H. repeat (apply elem_of_cons in H as [H|H]; [discriminate|]).
    by apply elem_of_nil in H.
  - eexists. split; [evaluated|]. split; vm_compute; reflexivity.
Qed.

(** An order with a label that reaches its length: the order of the
    one variable 2, which is in the scope of a table. [init()] has resized
    [m_clusters] to one entry and reads the entry 2. *)
Lemma init_reads_past_the_order :
  let s := configured chain_model "Task=MAR" [2]%nat in
  m_order (init_order s) = [2%nat] ∧ init s = Undefined.
Proof. split; [vm_compute; reflexivity|undefined]. Qed.

(** ** Iterations *)

(** C5 fails on the code: with [Iter=0] and the i-bound 1, below the
    induced width 2 of the triangle, [run()] completes no iteration: for
    task MAP it returns with the object that [init()] left, the messages
    and the beliefs at the constant 1, and for task MAR it prints entries
    of these beliefs that they do not have. *)
Lemma run_without_iteration :
  let s := configured triangle_model "iBound=1,Iter=0,Task=MAP" [0; 1; 2]%nat in
  let r := configured triangle_model "iBound=1,Iter=0,Task=MAR" [0; 1; 2]%nat in
  num_iter s = 0 ∧ gm_induced_width (m_gmo s) (m_order s) = 2 ∧
  (∃ s', run enough no_time s = Ok s' ∧ iterations s' = 0%nat ∧
         cout s' = [Converged 0] ∧
         m_forward s' = replicate 4 (f_scalar (d_lit 1)) ∧
         m_backward s' = replicate 4 (f_scalar (d_lit 1)) ∧
         m_beliefs s' = replicate 3 (f_scalar (d_lit 1))) ∧
  run enough no_time r = Undefined.
Proof.
  split; [vm_compute; reflexivity|]. split; [vm_compute; reflexivity|].
  split; [|undefined].
  eexists. split; [evaluated|].
  repeat split; vm_compute; reflexivity.
Qed.

(** A pass that reads out of range: the variable 1 of the lonely model is
    in no table, [init()] gives it no cluster, and the first [update()]
    reads [m_clusters[1][0]]; [run()] completes no iteration. *)
Lemma run_reads_past_the_clusters :
  let s := configured lonely_model "Task=MAR" [0; 1]%nat in
  ∃ s0 s1 s2, init s = Ok s0 ∧ num_iter s0 = 1 ∧
    forward s0 = Ok s1 ∧ backward s1 = Ok s2 ∧ update s2 = Undefined ∧
    run enough no_time s = Undefined.
Proof.
  do 3 eexists. split; [evaluated|]. split; [vm_compute; reflexivity|].
  split; [evaluated|]. split; [evaluated|]. split; undefined.
Qed.

(** A count of iterations that the loop of [propagate] never passes:
    [Iter=-1] is read as [SIZE_MAX]; the passes that the model is granted,
    here 2, do not suffice. *)
Lemma run_without_end :
  let s := configured triangle_model "iBound=1,Iter=-1,Task=MAP"
                      [0; 1; 2]%nat in
  num_iter (init_order s) = SIZE_MAX ∧ run 2 no_time s = OutOfFuel.
Proof.
  split; [vm_compute; reflexivity|].
  apply is_OutOfFuel_eq. vm_compute. reflexivity.
Qed.

Lemma run_iterations_witness :
  ∃ s0 n t,
    init pair_MAR = Ok s0 ∧ num_iter s0 = num_iter (init_order pair_MAR) ∧
    iterated n s0 t ∧ pair_run = reported t ∧
    iterations pair_run = (iterations pair_MAR + n)%nat ∧
    (1 ≤ num_iter s0 → (1 ≤ n)%nat) ∧
    (num_iter s0 ≤ 0 → n = 0%nat ∧ t = s0) ∧
    (num_iter s0 < SIZE_MAX → Z.of_nat n ≤ Z.max 0 (num_iter s0)).
Proof.
  apply (@run_iterations term_algebra term_services enough no_time pair_MAR
           pair_run).
  evaluated.
Defined.

(** ** Messages *)

(** C6, on the code for task PR: [forward()] starts [log_z] from 0 and adds
    the logarithm of the maximum of the forward message, which is a
    max-elimination, and then the term of the root, which is the logarithm
    of the maximum of the belief of the root and not of its sum. *)
Lemma forward_of_task_PR :
  let s := configured pair_model "Task=PR" [0; 1]%nat in
  let phi := TMul (TScalar (TLit 1)) (TTable 0 {[0%nat; 1%nat]}) in
  let msg := TMaxOut phi {[0%nat]} in
  let bel := TMul (TScalar (TLit 1)) (TDiv msg (TMax msg)) in
  m_task s = PR ∧
  ∃ s1 s2, init s = Ok s1 ∧ forward s1 = Ok s2 ∧
    m_schedule s2 = [(0, 1)]%nat ∧ m_roots s2 = [1%nat] ∧
    m_forward s2 = [TDiv msg (TMax msg)] ∧
    calc_belief s2 1 = Ok bel ∧
    m_log_z s2 = TAdd (TAdd (TLit 0) (TLog (TMax msg)))
                      (TMax (TPlus (TScalar (TLit 0)) (TLog (TMax bel)))).
Proof.
  split; [vm_compute; reflexivity|]. do 2 eexists.
  split; [evaluated|]. split; [evaluated|].
  repeat split; vm_compute; reflexivity.
Qed.

(** For task MAR both are sums. *)
Lemma forward_of_task_MAR :
  let s := configured pair_model "Task=MAR" [0; 1]%nat in
  let phi := TMul (TScalar (TLit 1)) (TTable 0 {[0%nat; 1%nat]}) in
  let msg := TSumOut phi {[0%nat]} in
  let bel := TMul (TScalar (TLit 1)) (TDiv msg (TMax msg)) in
  ∃ s1 s2, init s = Ok s1 ∧ forward s1 = Ok s2 ∧
    m_log_z s2 = TAdd (TAdd (TLit 0) (TLog (TMax msg)))
                      (TMax (TPlus (TScalar (TLit 0)) (TLog (TSum bel)))).
Proof.
  do 2 eexists.
  split; [evaluated|]. split; [evaluated|]. vm_compute. reflexivity.
Qed.

(** C8 fails on the code: on the edge from cluster 0 to cluster 1 the
    separator is the variable 1, and the backward message has no variable:
    the cluster 1 has no original factor and no other message. *)
Lemma backward_message_below_separator :
  let s := configured pair_model "Task=MAR" [0; 1]%nat in
  ∃ s1 s2 s3 F, init s = Ok s1 ∧ forward s1 = Ok s2 ∧ backward s2 = Ok s3 ∧
    m_schedule s3 !! 0%nat = Some (0, 1)%nat ∧
    at2 (m_separators s3) 0 1 = Ok ({[1%nat]} : variable_set) ∧
    m_backward s3 !! 0%nat = Some F ∧ f_vars F = ∅ ∧
    f_vars F ≠ ({[1%nat]} : variable_set).
Proof.
  do 4 eexists.
  split; [evaluated|]. split; [evaluated|]. split; [evaluated|].
  split; [vm_compute; reflexivity|].
  split; [vm_compute; reflexivity|]. split; [vm_compute; reflexivity|].
  split; [vm_compute; reflexivity|]. vm_compute. discriminate.
Qed.

(** On the chain, after [init()] and a forward pass, each forward message
    has the separator of its edge as its scope. *)
Lemma forward_messages_on_the_separators :
  let s := configured chain_model "Task=MAR" [0; 1; 2]%nat in
  ∃ s1 s2, init s = Ok s1 ∧ forward s1 = Ok s2 ∧
    m_schedule s2 = [(0, 1); (1, 2)]%nat ∧
    m_scopes s2 = [{[0; 1]}; {[1; 2]}; {[2]}]%nat ∧
    (f_vars <$> m_forward s1) = [∅; ∅] ∧
    (f_vars <$> m_forward s2) = [{[1]}; {[2]}]%nat.
Proof.
  do 2 eexists. split; [evaluated|]. split; [evaluated|].
  repeat split; vm_compute; reflexivity.
Qed.

Lemma message_scopes_witness :
  ∃ s0 s1 s2,
    init pair_MAR = Ok s0 ∧ forward s0 = Ok s1 ∧ backward s1 = Ok s2 ∧
    ∃ sa sb, m_scopes s2 !! 0%nat = Some sa ∧ m_scopes s2 !! 1%nat = Some sb ∧
             at2 (m_separators s2) 0 1 = Ok (sa ∩ sb) ∧
             (∀ F, m_forward s2 !! 0%nat = Some F → f_vars F ⊆ sa ∩ sb) ∧
             (∀ F, m_backward s2 !! 0%nat = Some F → f_vars F ⊆ sa ∩ sb) ∧
             (∀ t0 t1, passes s0 t0 → forward t0 = Ok t1 → passes t1 s2 →
                       ∃ F, m_forward s2 !! 0%nat = Some F ∧
                            f_vars F = sa ∩ sb).
Proof.
  do 3 eexists.
  split; [evaluated|]. split; [evaluated|]. split; [evaluated|].
  eapply (@message_scopes term_algebra term_services term_scopes pair_MAR).
  - repeat split; vm_compute; reflexivity.
  - evaluated.
  - eapply passes_backward; [eapply passes_forward; [apply passes_none|]|];
      evaluated.
  - vm_compute. reflexivity.
Defined.

Lemma backward_changes_only_backward_witness :
  ∃ s0 s1, init (configured pair_model "Task=MAR" [0; 1]%nat) = Ok s0 ∧
           backward s0 = Ok s1 ∧ s1 = set_m_backward (m_backward s1) s0 ∧
           m_log_z s1 = m_log_z s0 ∧ m_forward s1 = m_forward s0 ∧
           m_factors s1 = m_factors s0 ∧ m_scopes s1 = m_scopes s0 ∧
           m_separators s1 = m_separators s0 ∧
           m_originals s1 = m_originals s0 ∧ m_schedule s1 = m_schedule s0.
Proof.
  do 2 eexists. split; [evaluated|]. split; [evaluated|].
  apply (@backward_changes_only_backward term_algebra term_services).
  evaluated.
Defined.

(** ** Beliefs *)

Lemma update_needs_a_factor_for_every_variable_witness :
  ∃ s1, init (configured lonely_model "Task=MAR" [0; 1]%nat) = Ok s1 ∧
        no_cluster s1 1 ∧ update s1 = Undefined.
Proof.
  eexists. split; [evaluated|].
  apply (@update_needs_a_factor_for_every_variable term_algebra term_services
           (configured lonely_model "Task=MAR" [0; 1]%nat)).
  - vm_compute. reflexivity.
  - evaluated.
  - vm_compute. lia.
  - intros F HF. apply list_elem_of_singleton in HF as ->.
    vm_compute. intros H. discriminate.
Defined.

(** ** Instances of the further properties *)

Ltac two_variables v Hv H :=
  destruct v as [|[|v]]; [vm_compute in H; destruct H; discriminate
                         |vm_compute in H; destruct H; discriminate
                         |vm_compute in Hv; lia].

Lemma set_properties_changes_only_the_configuration_witness :
  let s := pair_built in
  let s' := from_Ok blank (set_properties "Iter=3" pair_built) in
  configured_from s s' ∧
  m_gmo s' = m_gmo s ∧ m_factors s' = m_factors s ∧ m_edges s' = m_edges s ∧
  m_clusters s' = m_clusters s ∧ m_schedule s' = m_schedule s ∧
  m_forward s' = m_forward s ∧ m_backward s' = m_backward s ∧
  m_beliefs s' = m_beliefs s ∧ m_best_config s' = m_best_config s ∧
  m_log_z s' = m_log_z s ∧ cout s' = cout s.
Proof.
  apply (@set_properties_changes_only_the_configuration
           term_algebra term_services "Iter=3" pair_built).
  evaluated.
Defined.

Lemma set_properties_keeps_elim_op_of_task_witness :
  elim_op_of_task (from_Ok blank (set_properties "Task=PR,Iter=3" pair_MAR)).
Proof.
  apply (@set_properties_keeps_elim_op_of_task
           term_algebra term_services "Task=PR,Iter=3" pair_MAR);
    [vm_compute; tauto|evaluated].
Defined.

Lemma ijgp_new_defaults_witness :
  let s := from_Ok blank (ijgp_new chain_model (TLit 0) MinFill) in
  m_ibound s = 4 ∧ num_iter s = 10 ∧ m_task s = MAR ∧ m_elim_op s = Sum ∧
  m_debug s = false ∧ m_order s = [] ∧ m_parents s = [] ∧
  OrderMethod_of_name "MinFill" = Ok (m_order_method s) ∧
  m_gmo s = chain_model ∧ unbuilt s ∧ m_roots s = [].
Proof.
  apply (@ijgp_new_defaults term_algebra term_services chain_model (TLit 0)
           MinFill).
  evaluated.
Defined.

Lemma set_properties_unnamed_witness :
  let s := from_Ok blank (set_properties "Debug=1,iBound=2" blank) in
  let s' := from_Ok blank (set_properties "Iter=3" s) in
  (¬ names "Iter=3" iBound → m_ibound s' = m_ibound s) ∧
  (¬ names "Iter=3" Iter → num_iter s' = num_iter s) ∧
  (¬ names "Iter=3" Task_ → m_task s' = m_task s ∧ m_elim_op s' = m_elim_op s) ∧
  (¬ names "Iter=3" Order →
     m_order s' = m_order s ∧ m_parents s' = m_parents s ∧
     m_order_method s' = m_order_method s) ∧
  (¬ names "Iter=3" Debug → m_debug s' = false).
Proof.
  apply (@set_properties_unnamed term_algebra term_services "Iter=3"
           (from_Ok blank (set_properties "Debug=1,iBound=2" blank)));
    [vm_compute; discriminate|evaluated].
Defined.


Lemma init_order_and_pseudo_tree_witness :
  let s := set_pseudo_tree [5; 6] (configured chain_model "Task=MAR" []) in
  let s' := from_Ok blank (init s) in
  get_order s' = (if decide (m_order s = [])
                  then gm_order (m_gmo s) (m_order_method s) else m_order s) ∧
  get_pseudo_tree s' = (if decide (m_order s = [] ∨ m_parents s = [])
                        then gm_pseudo_tree (m_gmo s) (get_order s')
                        else m_parents s).
Proof.
  apply (@init_order_and_pseudo_tree term_algebra term_services
           (set_pseudo_tree [5; 6] (configured chain_model "Task=MAR" []))).
  evaluated.
Defined.

Lemma init_resets_beliefs_witness :
  logZ pair_built = d_lit 0 ∧
  beliefs pair_built = replicate (gm_nvar (m_gmo pair_MAR)) (f_scalar (d_lit 1)) ∧
  best_config pair_built
  = resize (gm_nvar (m_gmo pair_MAR)) SIZE_MAX (m_best_config pair_MAR).
Proof.
  apply (@init_resets_beliefs term_algebra term_services pair_MAR). evaluated.
Defined.

Lemma init_messages_start_witness :
  let N := length (m_schedule pair_built) in
  let one := f_scalar (d_lit 1) in
  m_forward pair_built = resize N one (m_forward pair_MAR) ∧
  m_backward pair_built = resize N one (m_backward pair_MAR) ∧
  (m_forward pair_MAR = [] → m_forward pair_built = replicate N one) ∧
  (m_backward pair_MAR = [] → m_backward pair_built = replicate N one).
Proof.
  apply (@init_messages_start term_algebra term_services pair_MAR). evaluated.
Defined.

Lemma forward_completes_witness : ∃ t', forward pair_built = Ok t'.
Proof.
  apply (@forward_completes term_algebra term_services pair_MAR pair_built
           pair_built);
    [vm_compute; repeat split|vm_compute; reflexivity|evaluated
    |apply passes_none].
Defined.

Lemma backward_completes_witness :
  ∃ t', backward (from_Ok blank (forward pair_built)) = Ok t'.
Proof.
  apply (@backward_completes term_algebra term_services pair_MAR pair_built
           (from_Ok blank (forward pair_built)));
    [vm_compute; repeat split|vm_compute; reflexivity|evaluated|].
  eapply passes_forward; [apply passes_none|evaluated].
Defined.

Lemma update_completes_witness : ∃ t', update pair_MAP_built = Ok t'.
Proof.
  apply (@update_completes term_algebra term_services pair_MAP pair_MAP_built
           pair_MAP_built);
    [vm_compute; repeat split|vm_compute; reflexivity|evaluated
    |apply passes_none| |].
  - intros v Hv H. two_variables v Hv H.
  - intros _ x Hx. vm_compute in Hx.
    repeat (apply elem_of_cons in Hx as [->|Hx]; [vm_compute; lia|]).
    by apply elem_of_nil in Hx.
Defined.

Lemma propagate_completes_witness :
  ∃ t, propagate enough 10 (d_lit (-1)) (d_lit (-1)) no_time pair_MAP_built
       = Ok t.
Proof.
  apply (@propagate_completes term_algebra term_services enough 10
           (d_lit (-1)) (d_lit (-1)) no_time pair_MAP pair_MAP_built);
    [vm_compute; repeat split|vm_compute; reflexivity|evaluated| |
    |vm_compute; reflexivity|vm_compute; lia].
  - intros v Hv H. two_variables v Hv H.
  - intros _ x Hx. vm_compute in Hx.
    repeat (apply elem_of_cons in Hx as [->|Hx]; [vm_compute; lia|]).
    by apply elem_of_nil in Hx.
Defined.

Lemma forward_changes_only_forward_witness :
  let s := pair_built in
  let s' := from_Ok blank (forward pair_built) in
  s' = set_m_log_z (m_log_z s') (set_m_forward (m_forward s') s) ∧
  length (m_forward s') = length (m_forward s) ∧
  m_backward s' = m_backward s ∧ m_beliefs s' = m_beliefs s ∧
  m_best_config s' = m_best_config s ∧ m_factors s' = m_factors s ∧
  m_schedule s' = m_schedule s ∧
  ∀ z, forward (set_m_log_z z s) = Ok s'.
Proof.
  apply (@forward_changes_only_forward term_algebra term_services pair_built).
  evaluated.
Defined.

Lemma update_changes_only_beliefs_witness :
  let s := pair_MAP_built in
  let s' := from_Ok blank (update pair_MAP_built) in
  s' = set_m_best_config (m_best_config s') (set_m_beliefs (m_beliefs s') s) ∧
  length (m_beliefs s') = length (m_beliefs s) ∧
  length (m_best_config s') = length (m_best_config s) ∧
  (m_task s ≠ MAP → m_best_config s' = m_best_config s) ∧
  m_log_z s' = m_log_z s ∧ m_forward s' = m_forward s ∧
  m_backward s' = m_backward s.
Proof.
  apply (@update_changes_only_beliefs term_algebra term_services
           pair_MAP_built).
  evaluated.
Defined.

Lemma run_report_witness :
  let s := pair_MAP in
  let s' := from_Ok blank (run enough no_time pair_MAP) in
  last (cout s') = Some (Converged (num_iter s')) ∧
  num_iter s' = num_iter (init_order s) ∧
  m_task s' = m_task s ∧ get_gm_orig s' = m_gmo s ∧
  (m_task s ≠ MAP → m_lb s' = m_lb s) ∧
  (m_task s = MAP → m_lb s' = gm_logP (m_gmo s) (best_config s')).
Proof.
  apply (@run_report term_algebra term_services enough no_time pair_MAP).
  evaluated.
Defined.

Lemma run_completes_all_iterations_witness :
  let s := configured triangle_model "iBound=1,Iter=3" [0; 1; 2]%nat in
  let s' := from_Ok blank (run enough no_time s) in
  iterations s' = (iterations s + Z.to_nat (num_iter s'))%nat.
Proof.
  apply (@run_completes_all_iterations term_algebra term_services enough
           no_time
           (configured triangle_model "iBound=1,Iter=3" [0; 1; 2]%nat));
    [reflexivity|reflexivity|evaluated].
Defined.

Lemma belief_after_run_witness :
  ((1 < gm_nvar (m_gmo pair_MAR))%nat → ∃ F, belief pair_run 1 = Ok F) ∧
  ((gm_nvar (m_gmo pair_MAR) ≤ 1)%nat → belief pair_run 1 = Undefined) ∧
  length (best_config pair_run) = gm_nvar (m_gmo pair_MAR).
Proof.
  apply (@belief_after_run term_algebra term_services enough no_time
           pair_MAR pair_run 1%nat).
  evaluated.
Defined.

Lemma init_lists_of_the_schedule_witness :
  let s' := pair_built in
  ((0, 1)%nat ∈ m_schedule s' ↔
     ∃ outs, m_out s' !! 0%nat = Some outs ∧ 1%nat ∈ outs) ∧
  ((0, 1)%nat ∈ m_schedule s' ↔
     ∃ ins, m_in s' !! 1%nat = Some ins ∧ 0%nat ∈ ins) ∧
  (0%nat ∈ m_roots s' ↔ (0 < length (m_factors s'))%nat ∧
                         ∀ c, (0%nat, c) ∉ m_schedule s').
Proof.
  apply (@init_lists_of_the_schedule term_algebra term_services pair_MAR
           pair_built 0%nat 1%nat);
    [vm_compute; repeat split|vm_compute; reflexivity|evaluated].
Defined.

Lemma init_schedule_edges_witness :
  (0 < 1 < length (m_factors pair_built))%nat ∧
  (0, 1)%nat ∈ edges pair_built ∧ (1, 0)%nat ∈ edges pair_built.
Proof.
  apply (@init_schedule_edges term_algebra term_services pair_MAR
           pair_built 0%nat 1%nat);
    [vm_compute; repeat split|evaluated|].
  vm_compute. apply elem_of_cons. by left.
Defined.

Lemma init_potential_is_the_product_witness :
  ∃ orig, m_originals pair_built !! 0%nat = Some orig ∧
          product_of (m_gmo pair_MAR) orig
          = Ok (TMul (TScalar (TLit 1)) (TTable 0 {[0%nat; 1%nat]})).
Proof.
  apply (@init_potential_is_the_product term_algebra term_services pair_MAR
           pair_built 0%nat);
    [evaluated|vm_compute; reflexivity].
Defined.

Lemma init_originals_of_one_cluster_witness :
  0%nat = 0%nat ∧ (0 < length (gm_factors (m_gmo pair_MAR)))%nat.
Proof.
  apply (@init_originals_of_one_cluster term_algebra term_services pair_MAR
           pair_built 0%nat 0%nat [0%nat] [0%nat] 0%nat);
    [vm_compute; repeat split|evaluated|vm_compute; reflexivity
    |vm_compute; reflexivity| |]; apply elem_of_cons; by left.
Defined.

Lemma init_variable_of_a_cluster_witness :
  (∀ x, m_cluster2var pair_built !! 1%nat = Some x ↔
        ∃ cl, m_clusters pair_built !! x = Some cl ∧ 1%nat ∈ cl) ∧
  ((1 < length (m_factors pair_built))%nat ↔
   is_Some (m_cluster2var pair_built !! 1%nat)).
Proof.
  apply (@init_variable_of_a_cluster term_algebra term_services pair_MAR
           pair_built 1%nat);
    [vm_compute; repeat split|vm_compute; reflexivity|evaluated].
Defined.

Lemma init_scopes_within_the_bound_witness :
  let s := configured triangle_model "iBound=2,Task=MAR" [0; 1; 2]%nat in
  scopes_within (Z.max (m_ibound s + 1) 2) (m_scopes (from_Ok blank (init s))).
Proof.
  apply (@init_scopes_within_the_bound term_algebra term_scopes term_services
           (configured triangle_model "iBound=2,Task=MAR" [0; 1; 2]%nat)
           (from_Ok blank
              (init (configured triangle_model "iBound=2,Task=MAR"
                       [0; 1; 2]%nat))) 2);
    [vm_compute; reflexivity| |evaluated].
  repeat constructor; vm_compute; discriminate.
Defined.

Lemma init_completes_witness :
  let s := configured triangle_model "iBound=1" [0; 1; 2]%nat in
  ∃ s', init s = Ok s'.
Proof.
  apply (@init_completes term_algebra term_services
           (configured triangle_model "iBound=1" [0; 1; 2]%nat)).
  - vm_compute; repeat split.
  - intros x Hx. vm_compute in Hx.
    repeat (apply elem_of_cons in Hx as [->|Hx]; [vm_compute; lia|]).
    by apply elem_of_nil in Hx.
  - assert (E : m_gmo (configured triangle_model "iBound=1" [0; 1; 2]%nat)
                = triangle_model) by (vm_compute; reflexivity).
    rewrite E. intros F v HF Hv. cbn in HF.
    repeat (apply elem_of_cons in HF as [->|HF];
            [cbn in Hv; set_unfold in Hv; cbn; lia|]).
    by apply elem_of_nil in HF.
Defined.

Lemma init_clusters_of_the_variables_witness :
  let s := configured lonely_model "Task=MAR" [0; 1]%nat in
  let s' := from_Ok blank (init s) in
  no_cluster s' 1 ↔ 1%nat ∉ m_order s' ∨ unused (m_gmo s) 1.
Proof.
  apply (@init_clusters_of_the_variables term_algebra term_services
           (configured lonely_model "Task=MAR" [0; 1]%nat)
           (from_Ok blank (init (configured lonely_model "Task=MAR"
                                   [0; 1]%nat))) 1%nat);
    [vm_compute; reflexivity|evaluated|vm_compute; lia].
Defined.


Lemma update_second_loop_witness :
  update pair_built
  = for_each (belief_of true) (seq 0 (gm_nvar (m_gmo pair_built))) pair_built.
Proof.
  apply (@update_second_loop term_algebra term_services pair_built).
  vm_compute. discriminate.
Defined.

Lemma init_adds_to_the_join_graph_witness :
  let s := pair_built in
  let s' := from_Ok blank (init pair_built) in
  m_schedule s `prefix_of` m_schedule s' ∧ m_edges s `prefix_of` m_edges s' ∧
  (length (m_factors s) ≤ length (m_factors s'))%nat ∧
  ∀ v F, v ∈ m_order s' → (v < gm_nvar (m_gmo s))%nat →
         F ∈ gm_factors (m_gmo s) → v ∈ f_vars F →
         (length (m_factors s) < length (m_factors s'))%nat.
Proof.
  apply (@init_adds_to_the_join_graph term_algebra term_services pair_built).
  evaluated.
Defined.
